(** * Advanced_vector: RawMemory<T> and Vector<T> (src/vector.cpp)

    A shallow embedding of the two class templates of [vector.cpp] and the
    properties of the repository's specification that were checked on it.

    Modelling decisions, all of them visible in the definitions below:

    - Raw storage.  A block obtained from [operator new] is a list of
      slots; a slot is either [Raw] (uninitialised memory) or [Live x] (a
      constructed object of value [x]).  Blocks live in a heap indexed by
      addresses; a [T*] is [Null] or an address with an offset.
    - Objects with identity.  [Vector] objects live in an object store, so
      that [this != &rhs] and calls such as [v.Swap(v)] mean what they mean
      in C++.  [RawMemory] sub-objects are fields of the [Vector] record;
      local [RawMemory] objects are local values whose destructor is run
      explicitly on both the normal and the exceptional exit of their scope.
    - Control.  A call returns normally ([Ok]), leaves by an exception
      ([Throw]) or has no defined continuation ([Fault]): a failed [assert],
      an access outside the object model, or [std::terminate] when an
      exception meets a [noexcept] boundary.
    - Exceptions.  Which of the steps that are allowed to throw ([operator
      new], and every element operation the element type does not declare
      non-throwing) do throw is decided by a schedule, a list of booleans
      consumed one per such step; after the schedule is exhausted nothing
      throws.
    - Element values.  A copy has the value of its source; a move gives the
      destination the value of the source and leaves [moved_from x] in the
      source.
    - Library algorithms.  [std::move_backward] moves element by element
      from the back or, for a trivially copyable element type, byte-wise
      as [memmove] does; the two differ on the overlapping range that
      [Erase] passes.
    - [size_t] is modelled by [nat].  The counts the code computes are
      bounded by the number of slots of an allocated block, and the doubling
      of a capacity is twice the size of an allocated block.  The product
      [n * sizeof(T)] that [Allocate] passes to [operator new] is taken
      without wrap-around; [fits n] says that it is below 2^64, and what is
      stated about a call with a size of the caller's choice
      ([Vector(size)], [Reserve], [Resize], [RawMemory(n)]) assumes it.
    - Arguments of [Emplace]/[Insert]/[PushBack] are passed as values: the
      argument object is not an element of the vector that is being
      modified.  The code holds a reference and, in the in-place branch of
      [Emplace], reads it after the elements were shifted; what is stated
      about the value inserted in that branch assumes an argument that is
      not an element of the vector.  The insertion of an element of the
      vector itself is [Vector_Insert_ref], where the argument is the
      address of the element and is read when the new element is
      constructed.
    - The move assignment operator of [RawMemory] is not modelled: it does
      not compile once instantiated (line 31 names the destructor of
      [RawMemory] on a [T*]), and [Vector] never uses it. *)

From stdpp Require Import gmap list strings.

Set Default Proof Using "Type".

(** ** The element type *)

(** What the templates ask of [T]: the type traits tested by
    [if constexpr], the value of [T()], and the state a move leaves in its
    source; the trait on which the library chooses how [std::move_backward]
    moves a range of [T], and [sizeof(T)]. *)
Class Elem (T : Type) := {
  value_init : T;
  moved_from : T → T;
  is_nothrow_move_constructible : bool;
  is_copy_constructible : bool;
  is_nothrow_move_assignable : bool;
  is_trivially_copyable : bool;
  sizeof_T : nat;
}.

(** ** Outcomes and the state/exception monad *)

Inductive outcome (A : Type) : Type :=
  | Ok (a : A)
  | Throw
  | Fault.
Arguments Ok {A} a.
Arguments Throw {A}.
Arguments Fault {A}.

Inductive slot (T : Type) : Type :=
  | Raw
  | Live (x : T).
Arguments Raw {T}.
Arguments Live {T} x.

Inductive ptr : Type :=
  | Null
  | At (a : nat) (i : nat).

(** [RawMemory<T>]: [buffer_] is [None] for [nullptr]. *)
Record RawMemory : Type := mkRawMemory {
  buffer_ : option nat;
  capacity_ : nat;
}.

Record Vector : Type := mkVector {
  data_ : RawMemory;
  size_ : nat;
}.

Record state (T : Type) : Type := mkState {
  heap : gmap nat (list (slot T));
  objs : gmap nat Vector;
  sched : list bool;
  leaked : list (nat * nat * T);
}.
Arguments mkState {T} heap objs sched leaked.
Arguments heap {T} s.
Arguments objs {T} s.
Arguments sched {T} s.
Arguments leaked {T} s.

Definition M (T A : Type) : Type := state T → outcome A * state T.

Definition ret {T A} (a : A) : M T A := λ st, (Ok a, st).

Definition bind {T A B} (m : M T A) (f : A → M T B) : M T B :=
  λ st, match m st with
        | (Ok a, st') => f a st'
        | (Throw, st') => (Throw, st')
        | (Fault, st') => (Fault, st')
        end.

#[global] Instance M_ret {T} : MRet (M T) := λ A, @ret T A.
#[global] Instance M_bind {T} : MBind (M T) := λ A B f m, bind m f.

Definition throw {T A} : M T A := λ st, (Throw, st).
Definition fault {T A} : M T A := λ st, (Fault, st).

(** [assert(c)] *)
Definition assert {T} (c : bool) : M T unit := if c then ret tt else fault.

(** [try { m } catch (...) { h; throw; }] *)
Definition on_throw {T A} (m : M T A) (h : M T unit) : M T A :=
  λ st, match m st with
        | (Throw, st') => (h ;; throw) st'
        | r => r
        end.

(** A [noexcept] function: an exception that reaches the boundary calls
    [std::terminate]. *)
Definition noexcept {T A} (m : M T A) : M T A :=
  λ st, match m st with
        | (Throw, st') => (Fault, st')
        | r => r
        end.

(** One step that is allowed to throw. *)
Definition tick {T} : M T unit :=
  λ st, match sched st with
        | [] => (Ok tt, st)
        | b :: s =>
            (if b then Throw else Ok tt,
             mkState (heap st) (objs st) s (leaked st))
        end.

Definition get_heap {T} : M T (gmap nat (list (slot T))) := λ st, (Ok (heap st), st).
Definition put_heap {T} (h : gmap nat (list (slot T))) : M T unit :=
  λ st, (Ok tt, mkState h (objs st) (sched st) (leaked st)).
Definition get_objs {T} : M T (gmap nat Vector) := λ st, (Ok (objs st), st).
Definition put_objs {T} (o : gmap nat Vector) : M T unit :=
  λ st, (Ok tt, mkState (heap st) o (sched st) (leaked st)).
Definition add_leaked {T} (l : list (nat * nat * T)) : M T unit :=
  λ st, (Ok tt, mkState (heap st) (objs st) (sched st) (leaked st ++ l)).

(** ** Pointers *)

Definition ptr_add (p : ptr) (k : nat) : ptr :=
  match p with
  | Null => Null
  | At a i => At a (i + k)
  end.
Infix "+ₚ" := ptr_add (at level 50, left associativity).

(** [p - 1]; stepping before the start of a block has no defined result. *)
Definition ptr_dec {T} (p : ptr) : M T ptr :=
  match p with
  | At a (S i) => ret (At a i)
  | _ => fault
  end.

(** [p <= q] and [p < q]; pointers into different blocks do not compare. *)
Definition ptr_leb (p q : ptr) : bool :=
  match p, q with
  | Null, Null => true
  | At a i, At b j => bool_decide (a = b) && bool_decide (i ≤ j)
  | _, _ => false
  end.

Definition ptr_ltb (p q : ptr) : bool :=
  match p, q with
  | At a i, At b j => bool_decide (a = b) && bool_decide (i < j)
  | _, _ => false
  end.

(** [p - q] for two pointers into one block. *)
Definition ptr_diff (p q : ptr) : nat :=
  match p, q with
  | At _ i, At _ j => i - j
  | _, _ => 0
  end.

Section Model.
Context {T : Type} `{ET : Elem T}.

Abbreviation block := (list (slot T)).
Abbreviation Mt := (M T).

(** ** Objects in raw storage *)

Definition slot_at (h : gmap nat block) (p : ptr) : option (slot T) :=
  match p with
  | Null => None
  | At a i => h !! a ≫= λ b, b !! i
  end.

Definition set_slot (h : gmap nat block) (a i : nat) (s : slot T) : gmap nat block :=
  alter (λ b, <[i:=s]> b) a h.

(** Read the object at [p]. *)
Definition load (p : ptr) : Mt T :=
  h ← get_heap;
  match slot_at h p with
  | Some (Live x) => ret x
  | _ => fault
  end.

(** Give the object at [p] a new value. *)
Definition store (p : ptr) (x : T) : Mt unit :=
  h ← get_heap;
  match p, slot_at h p with
  | At a i, Some (Live _) => put_heap (set_slot h a i (Live x))
  | _, _ => fault
  end.

(** Start the lifetime of an object of value [x] in the raw slot at [p]
    (the effect of a placement [new] whose constructor has returned). *)
Definition construct_at (p : ptr) (x : T) : Mt unit :=
  h ← get_heap;
  match p, slot_at h p with
  | At a i, Some Raw => put_heap (set_slot h a i (Live x))
  | _, _ => fault
  end.

(** [std::destroy_at(p)] *)
Definition destroy_at (p : ptr) : Mt unit :=
  h ← get_heap;
  match p, slot_at h p with
  | At a i, Some (Live _) => put_heap (set_slot h a i Raw)
  | _, _ => fault
  end.

(** ** Operations of the element type *)

(** Placement [new] at [dst] of a copy of the object at [src]: the copy
    constructor. *)
Definition T_copy_construct (dst src : ptr) : Mt unit :=
  x ← load src;
  tick;;
  construct_at dst x.

(** Placement [new] at [dst] from the object at [src] as an rvalue: the
    move constructor. *)
Definition T_move_construct (dst src : ptr) : Mt unit :=
  x ← load src;
  (if is_nothrow_move_constructible then ret tt else tick);;
  construct_at dst x;;
  store src (moved_from x).

(** Copy assignment of the object at [src] to the object at [dst]. *)
Definition T_copy_assign (dst src : ptr) : Mt unit :=
  x ← load src;
  tick;;
  store dst x.

(** Move assignment of the object at [src] to the object at [dst]. *)
Definition T_move_assign (dst src : ptr) : Mt unit :=
  x ← load src;
  (if is_nothrow_move_assignable then ret tt else tick);;
  store dst x;;
  store src (moved_from x).

(** [new (dst) T()] *)
Definition T_value_construct (dst : ptr) : Mt unit :=
  tick;;
  construct_at dst value_init.

(** The argument pack of [Emplace], [EmplaceBack], [Insert] and [PushBack]:
    an lvalue of type [T] (copy constructor), an rvalue of type [T] (move
    constructor), or arguments of some other constructor; [x] is the value
    of the object that is built. *)
Inductive args : Type :=
  | ByCopy (x : T)
  | ByMove (x : T)
  | ByArgs (x : T).

Definition args_value (ar : args) : T :=
  match ar with
  | ByCopy x | ByMove x | ByArgs x => x
  end.

(** [new (dst) T(std::forward<Args>(args)...)] *)
Definition T_construct (dst : ptr) (ar : args) : Mt unit :=
  match ar with
  | ByMove x =>
      (if is_nothrow_move_constructible then ret tt else tick);;
      construct_at dst x
  | ByCopy x | ByArgs x =>
      tick;;
      construct_at dst x
  end.

(** ** The algorithms of <memory> and <algorithm> the code calls *)

(** [std::destroy_n(first, n)] *)
Fixpoint destroy_n (first : ptr) (n : nat) : Mt unit :=
  match n with
  | 0 => ret tt
  | S k => destroy_at first;; destroy_n (first +ₚ 1) k
  end.

(** [std::uninitialized_value_construct_n(first, n)].  As for the two
    algorithms that follow, an exception from a constructor destroys the
    objects already built (the standard leaves the order open) and is
    rethrown. *)
Fixpoint uninitialized_value_construct_n (first : ptr) (n : nat) : Mt unit :=
  match n with
  | 0 => ret tt
  | S k =>
      T_value_construct first;;
      on_throw (uninitialized_value_construct_n (first +ₚ 1) k)
               (destroy_at first)
  end.

(** [std::uninitialized_copy_n(first, n, d_first)] *)
Fixpoint uninitialized_copy_n (first : ptr) (n : nat) (d_first : ptr) : Mt unit :=
  match n with
  | 0 => ret tt
  | S k =>
      T_copy_construct d_first first;;
      on_throw (uninitialized_copy_n (first +ₚ 1) k (d_first +ₚ 1))
               (destroy_at d_first)
  end.

(** [std::uninitialized_move_n(first, n, d_first)] *)
Fixpoint uninitialized_move_n (first : ptr) (n : nat) (d_first : ptr) : Mt unit :=
  match n with
  | 0 => ret tt
  | S k =>
      T_move_construct d_first first;;
      on_throw (uninitialized_move_n (first +ₚ 1) k (d_first +ₚ 1))
               (destroy_at d_first)
  end.

Fixpoint copy_loop (first : ptr) (n : nat) (d_first : ptr) : Mt unit :=
  match n with
  | 0 => ret tt
  | S k =>
      T_copy_assign d_first first;;
      copy_loop (first +ₚ 1) k (d_first +ₚ 1)
  end.

(** [std::copy(first, last, d_first)] *)
Definition std_copy (first last d_first : ptr) : Mt unit :=
  copy_loop first (ptr_diff last first) d_first.

(** The loop of [std::move_backward]: while [first != last], step [d_last]
    and [last] back and move-assign the object at [last] to the one at
    [d_last]; [n] is the distance from [first] to [last]. *)
Fixpoint move_backward_loop (n : nat) (last d_last : ptr) : Mt unit :=
  match n with
  | 0 => ret tt
  | S k =>
      l ← ptr_dec last;
      d ← ptr_dec d_last;
      T_move_assign d l;;
      move_backward_loop k l d
  end.

(** [p - k]; stepping before the start of a block has no defined
    result. *)
Definition ptr_sub (p : ptr) (k : nat) : Mt ptr :=
  match p with
  | At a i => if bool_decide (k ≤ i) then ret (At a (i - k)) else fault
  | Null => if bool_decide (k = 0) then ret Null else fault
  end.

(** [std::memmove] of [n] objects of a trivially copyable [T] from [first]
    to [d_first]: the values of the source range are read, then written
    over the objects of the destination range; the source objects outside
    the destination range keep their values. *)
Fixpoint load_n (first : ptr) (n : nat) : Mt (list T) :=
  match n with
  | 0 => ret []
  | S k =>
      x ← load first;
      xs ← load_n (first +ₚ 1) k;
      ret (x :: xs)
  end.

Fixpoint store_n (d_first : ptr) (xs : list T) : Mt unit :=
  match xs with
  | [] => ret tt
  | x :: xs => store d_first x;; store_n (d_first +ₚ 1) xs
  end.

Definition memmove_objects (first : ptr) (n : nat) (d_first : ptr) : Mt unit :=
  xs ← load_n first n;
  store_n d_first xs.

(** [std::move_backward(first, last, d_last)] on pointers to [T].  For a
    trivially copyable [T] the library moves the range as a whole with
    [memmove] to [d_last - (last - first)]; for the other types the
    elements are moved one by one with the move assignment of [T], the
    last one first. *)
Definition move_backward (first last d_last : ptr) : Mt unit :=
  let n := ptr_diff last first in
  if is_trivially_copyable then
    d_first ← ptr_sub d_last n;
    memmove_objects first n d_first
  else
    move_backward_loop n last d_last.

(** ** RawMemory<T> *)

(** [RawMemory() = default] *)
Definition RawMemory_default : RawMemory := mkRawMemory None 0.

(** The requests [n] for which [n * sizeof(T)], computed in [size_t] (64
    bits), is the number of bytes of [n] objects. *)
Definition fits (n : nat) : Prop :=
  (Z.of_nat n * Z.of_nat sizeof_T < 2 ^ 64)%Z.

(** [Allocate(n)]: [operator new] either throws or returns a block of [n]
    raw slots at an address not in use.  The product [n * sizeof(T)] is
    taken without wrap-around, so this is the allocation of the requests
    that satisfy [fits]; what is stated about a call that passes a size of
    the caller's choice assumes it of that size. *)
Definition Allocate (n : nat) : Mt (option nat) :=
  if bool_decide (n ≠ 0) then
    tick;;
    h ← get_heap;
    let a := fresh (dom h) in
    put_heap (<[a := replicate n Raw]> h);;
    ret (Some a)
  else ret None.

(** The objects still alive in a block, with their positions. *)
Definition live_in (a : nat) (b : block) : list (nat * nat * T) :=
  omap (λ '(i, s), match s with Live x => Some (a, i, x) | Raw => None end)
       (imap (λ i s, (i, s)) b).

(** [Deallocate(buf)]: [operator delete].  Releasing a block does not run
    destructors: the objects still alive in it are recorded as leaked.
    Releasing what is not an allocated block has no defined result. *)
Definition Deallocate (buf : option nat) : Mt unit :=
  match buf with
  | None => ret tt
  | Some a =>
      h ← get_heap;
      match h !! a with
      | Some b => add_leaked (live_in a b);; put_heap (delete a h)
      | None => fault
      end
  end.

(** [explicit RawMemory(size_t capacity)] *)
Definition RawMemory_ctor (capacity : nat) : Mt RawMemory :=
  b ← Allocate capacity;
  ret (mkRawMemory b capacity).

(** [~RawMemory()] *)
Definition RawMemory_dtor (r : RawMemory) : Mt unit :=
  Deallocate (buffer_ r).

Definition RawMemory_GetAddress (r : RawMemory) : ptr :=
  match buffer_ r with
  | None => Null
  | Some a => At a 0
  end.

Definition RawMemory_Capacity (r : RawMemory) : nat := capacity_ r.

(** [T* operator+(size_t offset)] *)
Definition RawMemory_plus (r : RawMemory) (offset : nat) : Mt ptr :=
  assert (bool_decide (offset ≤ capacity_ r));;
  ret (RawMemory_GetAddress r +ₚ offset).

(** [T& operator[](size_t index)]; the reference is the address of the
    slot. *)
Definition RawMemory_index (r : RawMemory) (index : nat) : Mt ptr :=
  assert (bool_decide (index < capacity_ r));;
  ret (RawMemory_GetAddress r +ₚ index).

(** [void Swap(RawMemory& other)], on the pair (this, other) of two
    distinct objects. *)
Definition RawMemory_Swap (this other : RawMemory) : RawMemory * RawMemory :=
  let '(b1, b2) := (buffer_ other, buffer_ this) in
  let '(c1, c2) := (capacity_ other, capacity_ this) in
  (mkRawMemory b1 c1, mkRawMemory b2 c2).

(** ** Vector<T> *)

(** Access to the [Vector] objects of the store. *)
Definition get_obj (this : nat) : Mt Vector :=
  o ← get_objs;
  match o !! this with
  | Some v => ret v
  | None => fault
  end.

Definition set_data (this : nat) (d : RawMemory) : Mt unit :=
  v ← get_obj this;
  o ← get_objs;
  put_objs (<[this := mkVector d (size_ v)]> o).

Definition set_size (this : nat) (n : nat) : Mt unit :=
  v ← get_obj this;
  o ← get_objs;
  put_objs (<[this := mkVector (data_ v) n]> o).

(** An object comes into existence at [self], which must not be the address
    of a living object; an object goes out of existence. *)
Definition new_object (self : nat) (v : Vector) : Mt unit :=
  o ← get_objs;
  match o !! self with
  | None => put_objs (<[self := v]> o)
  | Some _ => fault
  end.

Definition delete_object (self : nat) : Mt unit :=
  o ← get_objs;
  put_objs (delete self o).

Definition no_object (self : nat) : Mt unit :=
  o ← get_objs;
  assert (bool_decide (o !! self = None)).

(** [size_t Size() const], [size_t Capacity() const] *)
Definition Vector_Size (this : nat) : Mt nat :=
  v ← get_obj this;
  ret (size_ v).

Definition Vector_Capacity (this : nat) : Mt nat :=
  v ← get_obj this;
  ret (RawMemory_Capacity (data_ v)).

(** [begin()], [end()] *)
Definition Vector_begin (this : nat) : Mt ptr :=
  v ← get_obj this;
  ret (RawMemory_GetAddress (data_ v)).

Definition Vector_end (this : nat) : Mt ptr :=
  v ← get_obj this;
  ret (RawMemory_GetAddress (data_ v) +ₚ size_ v).

(** [Vector() = default] *)
Definition Vector_default (self : nat) : Mt unit :=
  new_object self (mkVector RawMemory_default 0).

(** [explicit Vector(size_t size)].  When the body throws, the member
    [data_], already constructed, is destroyed. *)
Definition Vector_sized (self : nat) (size : nat) : Mt unit :=
  no_object self;;
  data ← RawMemory_ctor size;
  on_throw (uninitialized_value_construct_n (RawMemory_GetAddress data) size)
           (RawMemory_dtor data);;
  new_object self (mkVector data size).

(** [Vector(const Vector& other)] *)
Definition Vector_copy (self other : nat) : Mt unit :=
  no_object self;;
  o ← get_obj other;
  data ← RawMemory_ctor (size_ o);
  on_throw (uninitialized_copy_n (RawMemory_GetAddress (data_ o)) (size_ o)
                                 (RawMemory_GetAddress data))
           (RawMemory_dtor data);;
  new_object self (mkVector data (size_ o)).

(** [void Swap(Vector& other) noexcept]: [data_.Swap(other.data_)], then
    [std::swap(size_, other.size_)], each written back field by field. *)
Definition Vector_Swap (this other : nat) : Mt unit :=
  t ← get_obj this;
  o ← get_obj other;
  let '(d1, d2) := RawMemory_Swap (data_ t) (data_ o) in
  set_data this d1;;
  set_data other d2;;
  set_size this (size_ o);;
  set_size other (size_ t).

(** [Vector(Vector&& other) noexcept] *)
Definition Vector_move (self other : nat) : Mt unit :=
  new_object self (mkVector RawMemory_default 0);;
  Vector_Swap self other.

(** [~Vector()], followed by the destruction of the member [data_]. *)
Definition Vector_dtor (self : nat) : Mt unit :=
  v ← get_obj self;
  destroy_n (RawMemory_GetAddress (data_ v)) (size_ v);;
  RawMemory_dtor (data_ v);;
  delete_object self.

(** [Vector& operator=(const Vector& rhs)].  The local [rhs_copy] is an
    object at an address of its own, destroyed at the end of its scope. *)
Definition Vector_copy_assign (this rhs : nat) : Mt unit :=
  if bool_decide (this ≠ rhs) then
    t ← get_obj this;
    r ← get_obj rhs;
    if bool_decide (RawMemory_Capacity (data_ t) < size_ r) then
      o ← get_objs;
      let rhs_copy := fresh (dom o) in
      Vector_copy rhs_copy rhs;;
      Vector_Swap this rhs_copy;;
      Vector_dtor rhs_copy
    else
      let count := size_ r `min` size_ t in
      std_copy (RawMemory_GetAddress (data_ r))
               (RawMemory_GetAddress (data_ r) +ₚ count)
               (RawMemory_GetAddress (data_ t));;
      (if bool_decide (size_ r < size_ t) then
         destroy_n (RawMemory_GetAddress (data_ t) +ₚ size_ r) (size_ t - size_ r)
       else
         uninitialized_copy_n (RawMemory_GetAddress (data_ r) +ₚ size_ t)
                              (size_ r - size_ t)
                              (RawMemory_GetAddress (data_ t) +ₚ size_ t));;
      set_size this (size_ r)
  else ret tt.

(** [Vector& operator=(Vector&& rhs) noexcept] *)
Definition Vector_move_assign (this rhs : nat) : Mt unit :=
  if bool_decide (this ≠ rhs) then Vector_Swap this rhs else ret tt.

(** [void InitOnConstruct(RawMemory<T>& new_data)] *)
Definition Vector_InitOnConstruct (this : nat) (new_data : RawMemory) : Mt unit :=
  v ← get_obj this;
  if is_nothrow_move_constructible || negb is_copy_constructible then
    uninitialized_move_n (RawMemory_GetAddress (data_ v)) (size_ v)
                         (RawMemory_GetAddress new_data)
  else
    uninitialized_copy_n (RawMemory_GetAddress (data_ v)) (size_ v)
                         (RawMemory_GetAddress new_data).

(** [void Reserve(size_t new_capacity)].  The local [new_data] is destroyed
    when an exception leaves its scope and, after the swap, at the end of
    the scope. *)
Definition Vector_Reserve (this : nat) (new_capacity : nat) : Mt unit :=
  v ← get_obj this;
  if bool_decide (new_capacity ≤ RawMemory_Capacity (data_ v)) then ret tt
  else
    new_data ← RawMemory_ctor new_capacity;
    on_throw (Vector_InitOnConstruct this new_data;;
              destroy_n (RawMemory_GetAddress (data_ v)) (size_ v))
             (RawMemory_dtor new_data);;
    let '(d, nd) := RawMemory_Swap (data_ v) new_data in
    set_data this d;;
    RawMemory_dtor nd.

(** [void Resize(size_t new_size)] *)
Definition Vector_Resize (this : nat) (new_size : nat) : Mt unit :=
  v ← get_obj this;
  (if bool_decide (size_ v < new_size) then
     Vector_Reserve this new_size;;
     v' ← get_obj this;
     uninitialized_value_construct_n
       (RawMemory_GetAddress (data_ v') +ₚ size_ v') (new_size - size_ v')
   else
     destroy_n (RawMemory_GetAddress (data_ v) +ₚ new_size) (size_ v - new_size));;
  set_size this new_size.

(** [T& EmplaceBack(Args&&... args)]; the reference returned is the address
    of the new element. *)
Definition Vector_EmplaceBack (this : nat) (ar : args) : Mt ptr :=
  v ← get_obj this;
  result ←
    (if bool_decide (size_ v = RawMemory_Capacity (data_ v)) then
       new_data ← RawMemory_ctor (if bool_decide (size_ v = 0) then 1 else size_ v * 2);
       result ←
         on_throw (p ← RawMemory_plus new_data (size_ v);
                   T_construct p ar;;
                   Vector_InitOnConstruct this new_data;;
                   destroy_n (RawMemory_GetAddress (data_ v)) (size_ v);;
                   ret p)
                  (RawMemory_dtor new_data);
       let '(d, nd) := RawMemory_Swap (data_ v) new_data in
       set_data this d;;
       RawMemory_dtor nd;;
       ret result
     else
       p ← RawMemory_plus (data_ v) (size_ v);
       T_construct p ar;;
       ret p);
  v' ← get_obj this;
  set_size this (size_ v' + 1);;
  ret result.

(** [void PushBack(Type&& value)] *)
Definition Vector_PushBack (this : nat) (ar : args) : Mt unit :=
  Vector_EmplaceBack this ar;;
  ret tt.

(** [void PopBack() noexcept] *)
Definition Vector_PopBack (this : nat) : Mt unit :=
  noexcept (
    v ← get_obj this;
    if bool_decide (0 < size_ v) then
      p ← ptr_dec (RawMemory_GetAddress (data_ v) +ₚ size_ v);
      destroy_at p;;
      set_size this (size_ v - 1)
    else ret tt).

(** [T& operator[](size_t index) noexcept] *)
Definition Vector_index (this : nat) (index : nat) : Mt ptr :=
  v ← get_obj this;
  assert (bool_decide (index < size_ v));;
  RawMemory_index (data_ v) index.

(** [iterator ReAllocateEmplace(size_t count, Args&&... args)] *)
Definition Vector_ReAllocateEmplace (this : nat) (count : nat) (ar : args) : Mt ptr :=
  v ← get_obj this;
  new_data ← RawMemory_ctor (if bool_decide (size_ v = 0) then 1 else size_ v * 2);
  result ←
    on_throw
      (result ← RawMemory_plus new_data count;
       T_construct result ar;;
       (if is_nothrow_move_constructible || negb is_copy_constructible then
          uninitialized_move_n (RawMemory_GetAddress (data_ v)) count
                               (RawMemory_GetAddress new_data);;
          b ← Vector_begin this;
          uninitialized_move_n (b +ₚ count) (size_ v - count)
                               (RawMemory_GetAddress new_data +ₚ count +ₚ 1)
        else
          on_throw
            (b ← Vector_begin this;
             uninitialized_copy_n b count (RawMemory_GetAddress new_data);;
             b ← Vector_begin this;
             uninitialized_copy_n (b +ₚ count) (size_ v - count)
                                  (RawMemory_GetAddress new_data +ₚ count +ₚ 1))
            (destroy_n (RawMemory_GetAddress new_data +ₚ count) 1));;
       destroy_n (RawMemory_GetAddress (data_ v)) (size_ v);;
       ret result)
      (RawMemory_dtor new_data);
  let '(d, nd) := RawMemory_Swap (data_ v) new_data in
  set_data this d;;
  RawMemory_dtor nd;;
  ret result.

(** The block [if (size_ != 0) { ... }] of [NoAllocateEmplace]: the last
    element is move-constructed into the slot after the end, the elements
    from [count] on are moved one slot to the right, and the object at
    [count] is destroyed. *)
Definition Vector_NoAllocateEmplace_shift (this : nat) (count : nat) : Mt unit :=
  v ← get_obj this;
  if bool_decide (size_ v ≠ 0) then
    p ← RawMemory_plus (data_ v) (size_ v);
    e ← Vector_end this;
    l ← ptr_dec e;
    T_move_construct p l;;
    on_throw (b ← Vector_begin this;
              e ← Vector_end this;
              move_backward (b +ₚ count) e (e +ₚ 1))
             (e ← Vector_end this;
              destroy_n e 1);;
    b ← Vector_begin this;
    destroy_at (b +ₚ count)
  else ret tt.

(** [iterator NoAllocateEmplace(size_t count, Args&&... args)] *)
Definition Vector_NoAllocateEmplace (this : nat) (count : nat) (ar : args) : Mt ptr :=
  Vector_NoAllocateEmplace_shift this count;;
  v ← get_obj this;
  result ← RawMemory_plus (data_ v) count;
  T_construct result ar;;
  ret result.

(** [iterator Emplace(const_iterator pos, Args&&... args)] *)
Definition Vector_Emplace (this : nat) (pos : ptr) (ar : args) : Mt ptr :=
  b ← Vector_begin this;
  e ← Vector_end this;
  assert (ptr_leb b pos && ptr_leb pos e);;
  let count := ptr_diff pos b in
  v ← get_obj this;
  result ←
    (if bool_decide (size_ v = RawMemory_Capacity (data_ v)) then
       Vector_ReAllocateEmplace this count ar
     else
       Vector_NoAllocateEmplace this count ar);
  v' ← get_obj this;
  set_size this (size_ v' + 1);;
  ret result.

(** [iterator Insert(const_iterator pos, const T& value)] and
    [iterator Insert(const_iterator pos, T&& value)] *)
Definition Vector_Insert_copy (this : nat) (pos : ptr) (value : T) : Mt ptr :=
  Vector_Emplace this pos (ByCopy value).

Definition Vector_Insert_move (this : nat) (pos : ptr) (value : T) : Mt ptr :=
  Vector_Emplace this pos (ByMove value).

(** ** Insertion of an element of the vector

    [Emplace] and the two functions it calls take their arguments by
    reference and read them where the new element is constructed.  The
    three definitions below are [ReAllocateEmplace], [NoAllocateEmplace]
    and [Emplace] with that construction,
    [new (p) T(std::forward<Args>(args)...)], as the parameter [construct]:
    it runs in the state the function has reached.  With
    [λ p, T_construct p ar] they are the definitions above. *)
Definition Vector_ReAllocateEmplace_with (construct : ptr → Mt unit)
    (this : nat) (count : nat) : Mt ptr :=
  v ← get_obj this;
  new_data ← RawMemory_ctor (if bool_decide (size_ v = 0) then 1 else size_ v * 2);
  result ←
    on_throw
      (result ← RawMemory_plus new_data count;
       construct result;;
       (if is_nothrow_move_constructible || negb is_copy_constructible then
          uninitialized_move_n (RawMemory_GetAddress (data_ v)) count
                               (RawMemory_GetAddress new_data);;
          b ← Vector_begin this;
          uninitialized_move_n (b +ₚ count) (size_ v - count)
                               (RawMemory_GetAddress new_data +ₚ count +ₚ 1)
        else
          on_throw
            (b ← Vector_begin this;
             uninitialized_copy_n b count (RawMemory_GetAddress new_data);;
             b ← Vector_begin this;
             uninitialized_copy_n (b +ₚ count) (size_ v - count)
                                  (RawMemory_GetAddress new_data +ₚ count +ₚ 1))
            (destroy_n (RawMemory_GetAddress new_data +ₚ count) 1));;
       destroy_n (RawMemory_GetAddress (data_ v)) (size_ v);;
       ret result)
      (RawMemory_dtor new_data);
  let '(d, nd) := RawMemory_Swap (data_ v) new_data in
  set_data this d;;
  RawMemory_dtor nd;;
  ret result.

Definition Vector_NoAllocateEmplace_with (construct : ptr → Mt unit)
    (this : nat) (count : nat) : Mt ptr :=
  Vector_NoAllocateEmplace_shift this count;;
  v ← get_obj this;
  result ← RawMemory_plus (data_ v) count;
  construct result;;
  ret result.

Definition Vector_Emplace_with (construct : ptr → Mt unit)
    (this : nat) (pos : ptr) : Mt ptr :=
  b ← Vector_begin this;
  e ← Vector_end this;
  assert (ptr_leb b pos && ptr_leb pos e);;
  let count := ptr_diff pos b in
  v ← get_obj this;
  result ←
    (if bool_decide (size_ v = RawMemory_Capacity (data_ v)) then
       Vector_ReAllocateEmplace_with construct this count
     else
       Vector_NoAllocateEmplace_with construct this count);
  v' ← get_obj this;
  set_size this (size_ v' + 1);;
  ret result.

(** [iterator Insert(const_iterator pos, const T& value)] where [value]
    refers to the object at [src], which may be an element of the vector:
    [new (p) T(value)] copies the object that is at [src] when the new
    element is constructed. *)
Definition Vector_Insert_ref (this : nat) (pos src : ptr) : Mt ptr :=
  Vector_Emplace_with (λ p, T_copy_construct p src) this pos.

(** [iterator Erase(const_iterator pos) noexcept] *)
Definition Vector_Erase (this : nat) (pos : ptr) : Mt ptr :=
  noexcept (
    b ← Vector_begin this;
    e ← Vector_end this;
    assert (ptr_leb b pos && ptr_ltb pos e);;
    let count := ptr_diff pos b in
    e1 ← ptr_dec e;
    move_backward (b +ₚ count +ₚ 1) e e1;;
    Vector_PopBack this;;
    b ← Vector_begin this;
    ret (b +ₚ count)).

(** ** What a client observes and does *)

(** Reading the element [index] through the reference [operator[]]
    returns. *)
Definition Vector_read (this : nat) (index : nat) : Mt T :=
  p ← Vector_index this index;
  load p.

(** The element sequence of a vector object [v] in a heap: the objects in
    the slots below [size_], which are what [Vector_read] returns. *)
Definition element_at (h : gmap nat block) (v : Vector) (i : nat) : option T :=
  match slot_at h (RawMemory_GetAddress (data_ v) +ₚ i) with
  | Some (Live x) => Some x
  | _ => None
  end.

Definition elements (h : gmap nat block) (v : Vector) : option (list T) :=
  mapM (element_at h v) (seq 0 (size_ v)).

Definition contents (st : state T) (this : nat) : option (list T) :=
  v ← objs st !! this;
  elements (heap st) v.

(** The public member functions. *)
Inductive op : Type :=
  | OpDefault (self : nat)
  | OpSized (self : nat) (size : nat)
  | OpCopy (self other : nat)
  | OpMove (self other : nat)
  | OpDtor (self : nat)
  | OpCopyAssign (this rhs : nat)
  | OpMoveAssign (this rhs : nat)
  | OpSwap (this other : nat)
  | OpBegin (this : nat)
  | OpEnd (this : nat)
  | OpEmplace (this : nat) (pos : ptr) (ar : args)
  | OpErase (this : nat) (pos : ptr)
  | OpInsertCopy (this : nat) (pos : ptr) (value : T)
  | OpInsertMove (this : nat) (pos : ptr) (value : T)
  | OpReserve (this : nat) (new_capacity : nat)
  | OpResize (this : nat) (new_size : nat)
  | OpPushBack (this : nat) (ar : args)
  | OpEmplaceBack (this : nat) (ar : args)
  | OpPopBack (this : nat)
  | OpSize (this : nat)
  | OpCapacity (this : nat)
  | OpIndex (this : nat) (index : nat).

Definition run_op (c : op) : Mt unit :=
  match c with
  | OpDefault self => Vector_default self
  | OpSized self size => Vector_sized self size
  | OpCopy self other => Vector_copy self other
  | OpMove self other => Vector_move self other
  | OpDtor self => Vector_dtor self
  | OpCopyAssign this rhs => Vector_copy_assign this rhs
  | OpMoveAssign this rhs => Vector_move_assign this rhs
  | OpSwap this other => Vector_Swap this other
  | OpBegin this => Vector_begin this;; mret tt
  | OpEnd this => Vector_end this;; mret tt
  | OpEmplace this pos ar => Vector_Emplace this pos ar;; mret tt
  | OpErase this pos => Vector_Erase this pos;; mret tt
  | OpInsertCopy this pos value => Vector_Insert_copy this pos value;; mret tt
  | OpInsertMove this pos value => Vector_Insert_move this pos value;; mret tt
  | OpReserve this new_capacity => Vector_Reserve this new_capacity
  | OpResize this new_size => Vector_Resize this new_size
  | OpPushBack this ar => Vector_PushBack this ar
  | OpEmplaceBack this ar => Vector_EmplaceBack this ar;; mret tt
  | OpPopBack this => Vector_PopBack this
  | OpSize this => Vector_Size this;; mret tt
  | OpCapacity this => Vector_Capacity this;; mret tt
  | OpIndex this index => Vector_read this index;; mret tt
  end.

(** A program is a sequence of calls; it goes on after a call that
    returned or threw, and has no further state after a fault. *)
Fixpoint run_ops (cs : list op) (st : state T) : option (state T) :=
  match cs with
  | [] => Some st
  | c :: cs =>
      match run_op c st with
      | (Fault, _) => None
      | (_, st') => run_ops cs st'
      end
  end.

(** The state before the first call: no block, no object; [s] is the
    schedule of the exceptions to come. *)
Definition init_state (s : list bool) : state T := mkState ∅ ∅ s [].

(** The states a program can observe. *)
Inductive reachable : state T → Prop :=
  | reachable_init s : reachable (init_state s)
  | reachable_step st c o st' :
      reachable st → run_op c st = (o, st') → o ≠ Fault → reachable st'.

(** The calls of [Emplace] (directly or through [Insert]). *)
Definition emplace_call (c : op) : option (nat * ptr * args) :=
  match c with
  | OpEmplace this pos ar => Some (this, pos, ar)
  | OpInsertCopy this pos value => Some (this, pos, ByCopy value)
  | OpInsertMove this pos value => Some (this, pos, ByMove value)
  | _ => None
  end.

(** The calls that add an element at a position or at the end. *)
Definition adds_element (c : op) : bool :=
  match c with
  | OpEmplace _ _ _ | OpInsertCopy _ _ _ | OpInsertMove _ _ _
  | OpPushBack _ _ | OpEmplaceBack _ _ => true
  | _ => false
  end.


(** The sequence [xs] with its last element in the state a move leaves. *)
Definition last_moved (xs : list T) : list T :=
  match last xs with
  | Some y => removelast xs ++ [moved_from y]
  | None => []
  end.

(** The call [c] is an [Emplace] before the end of a vector that is
    neither empty nor full, the block that shifts the elements completes,
    and the call throws: the exception comes from the constructor of the
    new element, and the slot at the position is left without an object. *)
Definition new_element_threw_in_place (c : op) (st : state T) : Prop :=
  match emplace_call c with
  | Some (this, pos, ar) =>
      ∃ v st1,
        objs st !! this = Some v ∧
        size_ v ≠ 0 ∧ size_ v ≠ capacity_ (data_ v) ∧
        ptr_diff pos (RawMemory_GetAddress (data_ v)) < size_ v ∧
        Vector_NoAllocateEmplace_shift this
          (ptr_diff pos (RawMemory_GetAddress (data_ v))) st = (Ok tt, st1) ∧
        (run_op c st).1 = Throw
  | None => False
  end.

(** The states a program can observe when no constructor of a new element
    throws in the in-place branch of [Emplace] before the end. *)
Inductive reachable_safe : state T → Prop :=
  | reachable_safe_init s : reachable_safe (init_state s)
  | reachable_safe_step st c o st' :
      reachable_safe st → run_op c st = (o, st') → o ≠ Fault →
      ¬ new_element_threw_in_place c st →
      reachable_safe st'.

(** The size a call passes on to [Allocate] as the caller chose it:
    [Vector(size)], [Reserve(new_capacity)] and [Resize(new_size)], which
    calls [Reserve(new_size)].  The other requests are the size of a
    vector that exists or twice that size. *)
Definition size_argument (c : op) : option nat :=
  match c with
  | OpSized _ size => Some size
  | OpReserve _ new_capacity => Some new_capacity
  | OpResize _ new_size => Some new_size
  | _ => None
  end.

(** The size argument of the call, if it has one, satisfies [fits]. *)
Definition in_range (c : op) : Prop :=
  match size_argument c with
  | Some n => fits n
  | None => True
  end.

(** The states a program can observe when every size argument is in range
    and no constructor of a new element throws in the in-place branch of
    [Emplace] before the end. *)
Inductive reachable_in_range : state T → Prop :=
  | reachable_in_range_init s : reachable_in_range (init_state s)
  | reachable_in_range_step st c o st' :
      reachable_in_range st → run_op c st = (o, st') → o ≠ Fault →
      in_range c → ¬ new_element_threw_in_place c st →
      reachable_in_range st'.

(** The invariant of the specification for one vector object: [size_] is
    at most the capacity, the slots below [size_] hold objects and the
    slots from [size_] to the capacity are raw. *)
Definition vector_invariant (h : gmap nat block) (v : Vector) : Prop :=
  size_ v ≤ capacity_ (data_ v) ∧
  (∀ i, i < size_ v →
     ∃ x, slot_at h (RawMemory_GetAddress (data_ v) +ₚ i) = Some (Live x)) ∧
  (∀ i, size_ v ≤ i < capacity_ (data_ v) →
     slot_at h (RawMemory_GetAddress (data_ v) +ₚ i) = Some Raw).

End Model.


(** ** The move constructor of RawMemory<T>

    [Vector] never calls it.  It only touches the two fields, so it is
    modelled on a store of arena objects.  The move assignment operator
    (lines 29-36) is not modelled: its statement [buffer_.~RawMemory()]
    names the destructor of [RawMemory] on a [T*], so the member function
    does not compile once it is instantiated and no program runs it. *)

(** [RawMemory(RawMemory&& other) noexcept]: the object [self] comes into
    existence with the default member initialisers, then the four
    assignments of the body. *)
Definition RawMemory_move (self other : nat) (σ : gmap nat RawMemory)
    : option (gmap nat RawMemory) :=
  if bool_decide (σ !! self = None) then
    let σ := <[self := RawMemory_default]> σ in
    o ← σ !! other;
    t ← σ !! self;
    let σ := <[self := mkRawMemory (buffer_ o) (capacity_ t)]> σ in
    o ← σ !! other;
    t ← σ !! self;
    let σ := <[self := mkRawMemory (buffer_ t) (capacity_ o)]> σ in
    o ← σ !! other;
    let σ := <[other := mkRawMemory None (capacity_ o)]> σ in
    o ← σ !! other;
    Some (<[other := mkRawMemory (buffer_ o) 0]> σ)
  else None.

(** The invariant of an arena object: the address is null exactly when the
    capacity is zero. *)
Definition RawMemory_invariant (r : RawMemory) : Prop :=
  buffer_ r = None ↔ capacity_ r = 0.

(** * Element types and scenarios of the examples *)

(** An element type like [std::string]: the copy constructor may throw, the
    move operations are [noexcept] and leave the source empty. *)
Definition string_elem : Elem string :=
  {| value_init := EmptyString;
     moved_from := λ _, EmptyString;
     is_nothrow_move_constructible := true;
     is_copy_constructible := true;
     is_nothrow_move_assignable := true;
     is_trivially_copyable := false;
     sizeof_T := 32 |}.

(** An element type with a copy constructor and with move operations that
    are not declared [noexcept]; its values are numbers, and a move leaves
    the source as it was. *)
Definition legacy_elem : Elem nat :=
  {| value_init := 0;
     moved_from := λ x, x;
     is_nothrow_move_constructible := false;
     is_copy_constructible := true;
     is_nothrow_move_assignable := false;
     is_trivially_copyable := false;
     sizeof_T := 8 |}.

(** An element type like [int]: trivially copyable, nothing it does
    throws, and a move leaves the source as it was. *)
Definition int_elem : Elem nat :=
  {| value_init := 0;
     moved_from := λ x, x;
     is_nothrow_move_constructible := true;
     is_copy_constructible := true;
     is_nothrow_move_assignable := true;
     is_trivially_copyable := true;
     sizeof_T := 4 |}.

(** [Vector<std::string> v; v.PushBack("a"); v.PushBack("b");
    v.PushBack("c");] with no exception. *)
Definition abc_program : list (op (T:=string)) :=
  [OpDefault 0; OpPushBack 0 (ByArgs "a"); OpPushBack 0 (ByArgs "b");
   OpPushBack 0 (ByArgs "c")].

Definition abc_state : state string :=
  default (init_state []) (run_ops (ET:=string_elem) abc_program (init_state [])).

(** [Vector<std::string> v; v.Reserve(4); v.PushBack("a"); v.PushBack("b");
    v.Insert(v.begin(), x);] where the fourth step that may throw, the copy
    constructor that builds the new element, throws. *)
Definition torn_program : list (op (T:=string)) :=
  [OpDefault 0; OpReserve 0 4; OpPushBack 0 (ByArgs "a");
   OpPushBack 0 (ByArgs "b"); OpInsertCopy 0 (At 0 0) "x"].

Definition torn_state : state string :=
  default (init_state [])
    (run_ops (ET:=string_elem) torn_program (init_state [false; false; false; true])).

(** Two vectors: [a] holds one string, [b] holds two. *)
Definition two_vectors_program : list (op (T:=string)) :=
  [OpDefault 0; OpPushBack 0 (ByArgs "a");
   OpDefault 1; OpPushBack 1 (ByArgs "b"); OpPushBack 1 (ByArgs "c")].

Definition two_vectors : state string :=
  default (init_state [])
    (run_ops (ET:=string_elem) two_vectors_program (init_state [])).

(** A full vector [1, 2] of the element type [legacy_elem], at a point
    where the fourth step to come that may throw does throw. *)
Definition full_program : list (op (T:=nat)) :=
  [OpDefault 0; OpPushBack 0 (ByArgs 1); OpPushBack 0 (ByArgs 2)].

Definition full_state : state nat :=
  default (init_state [])
    (run_ops (ET:=legacy_elem) full_program
       (init_state (replicate 8 false ++ [true]))).

(** [Vector<int> v; v.PushBack(1); v.PushBack(2); v.PushBack(3);] *)
Definition int_program : list (op (T:=nat)) :=
  [OpDefault 0; OpPushBack 0 (ByArgs 1); OpPushBack 0 (ByArgs 2);
   OpPushBack 0 (ByArgs 3)].

Definition int_state : state nat :=
  default (init_state []) (run_ops (ET:=int_elem) int_program (init_state [])).

(** [Vector<std::string> v(2); v.Reserve(5); v.Resize(3);] with no
    exception. *)
Definition sized_program : list (op (T:=string)) :=
  [OpSized 0 2; OpReserve 0 5; OpResize 0 3].

Definition sized_state : state string :=
  default (init_state []) (run_ops (ET:=string_elem) sized_program (init_state [])).

(** One vector that has made one call. *)
Definition one_program : list (op (T:=string)) :=
  [OpDefault 0; OpPushBack 0 (ByArgs "a")].

(** Two arenas that own a block each. *)
Definition arena_store : gmap nat RawMemory :=
  {[ 0 := mkRawMemory (Some 10) 2; 1 := mkRawMemory (Some 11) 3 ]}.

(** * Predicates on runs and states *)

Section Predicates.
Context {T : Type} `{ET : Elem T}.

Abbreviation block := (list (slot T)).
Abbreviation Mt := (M T).

(** [wp m st Q E]: the run of [m] from [st] has a defined result; when it
    returns [a] in [st'], [Q a st'] holds; when it throws in [st'],
    [E st'] holds.  A run only consumes the schedule, and it only throws
    when the schedule asks for a throw. *)
Definition wp {A} (m : Mt A) (st : state T)
    (Q : A → state T → Prop) (E : state T → Prop) : Prop :=
  match m st with
  | (Ok a, st') => Q a st' ∧ sched st' `suffix_of` sched st
  | (Throw, st') => E st' ∧ sched st' `suffix_of` sched st ∧ true ∈ sched st
  | (Fault, _) => False
  end.

(** [wlp m st Q E]: as [wp], but the run may also have no defined
    result. *)
Definition wlp {A} (m : Mt A) (st : state T)
    (Q : A → state T → Prop) (E : state T → Prop) : Prop :=
  match m st with
  | (Ok a, st') => Q a st'
  | (Throw, st') => E st'
  | (Fault, _) => True
  end.

(** Two states that differ at most in the schedule. *)
Definition same_store (st st' : state T) : Prop :=
  heap st' = heap st ∧ objs st' = objs st ∧ leaked st' = leaked st.

(** Which slots hold an object. *)
Definition is_live (s : slot T) : bool :=
  match s with
  | Raw => false
  | Live _ => true
  end.

Definition shape (b : block) : list bool := is_live <$> b.

(** The block of a vector of capacity [cap] that holds [xs]: the objects
    [xs] in order, then raw slots. *)
Definition vec_block (cap : nat) (xs : list T) : block :=
  (Live <$> xs) ++ replicate (cap - length xs) Raw.

(** [vec_repr h v xs]: in heap [h], the vector object [v] is well formed and
    holds the element sequence [xs]: [size_] is the length of [xs]; without
    a buffer the capacity is zero; with a buffer, the block has
    [capacity_] slots, the first [size_] of them hold the objects [xs] in
    order and the others are raw. *)
Definition vec_repr (h : gmap nat block) (v : Vector) (xs : list T) : Prop :=
  size_ v = length xs ∧
  match buffer_ (data_ v) with
  | None => capacity_ (data_ v) = 0 ∧ xs = []
  | Some a =>
      0 < capacity_ (data_ v) ∧ length xs ≤ capacity_ (data_ v) ∧
      h !! a = Some (vec_block (capacity_ (data_ v)) xs)
  end.

(** Every vector of the store is well formed, and no two of them share a
    buffer. *)
Definition state_ok (st : state T) : Prop :=
  (∀ o v, objs st !! o = Some v → ∃ xs, vec_repr (heap st) v xs) ∧
  (∀ o1 o2 v1 v2 a, o1 ≠ o2 →
     objs st !! o1 = Some v1 → objs st !! o2 = Some v2 →
     buffer_ (data_ v1) = Some a → buffer_ (data_ v2) ≠ Some a).

(** What a member function called on the object [this], of fields [v],
    may do to the state: the object gets the fields [v'] and the elements
    [xs']; its buffer is the old one or a new one; the blocks of the other
    objects are kept; no block is new except a new buffer of the object,
    and the old buffer is released when the object has another one. *)
Definition frame (h h' : gmap nat block) (v : Vector) : Prop :=
  ∀ k b, h !! k = Some b → buffer_ (data_ v) ≠ Some k → h' !! k = Some b.

Definition accounted (h h' : gmap nat block) (v v' : Vector) : Prop :=
  (∀ k, is_Some (h' !! k) → is_Some (h !! k) ∨ buffer_ (data_ v') = Some k) ∧
  (∀ a, buffer_ (data_ v) = Some a → buffer_ (data_ v') ≠ Some a → h' !! a = None).


Definition buffer_origin (h : gmap nat block) (v v' : Vector) : Prop :=
  match buffer_ (data_ v') with
  | None => True
  | Some a => buffer_ (data_ v) = Some a ∨ h !! a = None
  end.

Definition updates (this : nat) (st st' : state T) (v v' : Vector) (xs' : list T) : Prop :=
  objs st' = <[this := v']> (objs st) ∧
  vec_repr (heap st') v' xs' ∧
  frame (heap st) (heap st') v ∧
  buffer_origin (heap st) v v' ∧
  accounted (heap st) (heap st') v v'.

(** The heap with the block of the buffer [buf] replaced, and with that
    block released. *)
Definition set_block (h : gmap nat block) (buf : option nat) (b : block) : gmap nat block :=
  match buf with
  | Some a => <[a := b]> h
  | None => h
  end.

Definition free_block (h : gmap nat block) (buf : option nat) : gmap nat block :=
  match buf with
  | Some a => delete a h
  | None => h
  end.

(** The heap after a call that leaves an object of fields [v] with the
    fields [v'] and the elements [xs']: the old buffer is released, the
    block of the buffer of [v'], which may be the old buffer again, holds
    [xs'] followed by raw slots, and every other block is as before. *)
Definition heap_after (h : gmap nat block) (v v' : Vector) (xs' : list T)
    : gmap nat block :=
  set_block (free_block h (buffer_ (data_ v))) (buffer_ (data_ v'))
            (vec_block (capacity_ (data_ v')) xs').

(** A new vector object built on a new arena: every block is kept, and the
    only new block is the buffer of the new object. *)
Definition built (st st' : state T) (self : nat) (xs : list T) : Prop :=
  leaked st' = leaked st ∧
  ∃ d, objs st' = <[self := mkVector d (length xs)]> (objs st) ∧
       vec_repr (heap st') (mkVector d (length xs)) xs ∧
       capacity_ d = length xs ∧
       (∀ k b, heap st !! k = Some b → heap st' !! k = Some b) ∧
       match buffer_ d with
       | Some a => heap st !! a = None
       | None => True
       end ∧
       (∀ k, is_Some (heap st' !! k) → is_Some (heap st !! k) ∨ buffer_ d = Some k).

(** Every allocated block is the buffer of a vector object. *)
Definition blocks_owned (st : state T) : Prop :=
  ∀ a b, heap st !! a = Some b →
         ∃ this v, objs st !! this = Some v ∧ buffer_ (data_ v) = Some a.

End Predicates.

(** * Reasoning about runs *)

(** Tactics: normalisation of record projections and pointer arithmetic,
    and lookups and equalities of heaps built from inserts and deletes. *)
Ltac norm :=
  cbn [heap objs sched leaked data_ size_ buffer_ capacity_
       RawMemory_GetAddress RawMemory_Capacity ptr_add Nat.add] in *.

Ltac heap_lookup :=
  unfold set_block, free_block;
  repeat first
    [ rewrite lookup_insert_eq
    | rewrite lookup_insert_ne by congruence
    | rewrite lookup_delete_ne by congruence
    | rewrite lookup_delete_eq ];
  try done.

Ltac heap_eq :=
  unfold set_block, free_block;
  apply map_eq; intros ?k;
  repeat first
    [ rewrite lookup_insert_eq
    | rewrite lookup_delete_eq
    | rewrite lookup_insert_ne by congruence
    | rewrite lookup_delete_ne by congruence
    | rewrite lookup_insert; destruct (decide _) as [<-|?]
    | rewrite lookup_delete; destruct (decide _) as [<-|?] ];
  try done; try congruence.

Ltac solve_accounted :=
  split; norm;
  [ let k := fresh "k" in
    let Hk := fresh "Hk" in
    intros k Hk; unfold set_block, free_block in Hk;
    repeat first
      [ rewrite lookup_insert in Hk; destruct (decide _) as [<-|?]
      | rewrite lookup_delete in Hk; destruct (decide _) as [<-|?] ];
    first [ by right | by left | left; by eauto | by destruct Hk ]
  | let a0 := fresh "a" in
    let H0 := fresh "H" in
    let H1 := fresh "H" in
    intros a0 H0 H1; first [ congruence | injection H0 as ->; by heap_lookup ] ].

Section Logic.
Context {T : Type} `{ET : Elem T}.

Abbreviation block := (list (slot T)).
Abbreviation Mt := (M T).

Implicit Types (st : state T) (h : gmap nat block) (xs ys : list T) (v : Vector).


Lemma bind_run {A B} (m : Mt A) (f : A → Mt B) st :
  (m ≫= f) st = match m st with
                | (Ok a, st') => f a st'
                | (Throw, st') => (Throw, st')
                | (Fault, st') => (Fault, st')
                end.
Proof. reflexivity. Qed.

Lemma wp_ret {A} (a : A) st Q E : Q a st → wp (mret a) st Q E.
Proof. intros HQ. split; [exact HQ | reflexivity]. Qed.

Lemma wp_bind {A B} (m : Mt A) (f : A → Mt B) st Q E :
  wp m st (λ a st', wp (f a) st' Q E) E →
  wp (m ≫= f) st Q E.
Proof.
  unfold wp. rewrite bind_run.
  destruct (m st) as [[a| |] st1]; [|tauto|tauto].
  intros [Hf Hsuf]. destruct (f a st1) as [[b| |] st2]; [| |done].
  - destruct Hf as [HQ Hs2]. split; [done|by etrans].
  - destruct Hf as (HE & Hs2 & Hin). split_and!; [done|by etrans|].
    destruct Hsuf as [k ->]. set_solver.
Qed.

Lemma wp_mono {A} (m : Mt A) st (Q Q' : A → state T → Prop) (E E' : state T → Prop) :
  wp m st Q E →
  (∀ a st', sched st' `suffix_of` sched st → Q a st' → Q' a st') →
  (∀ st', sched st' `suffix_of` sched st → E st' → E' st') →
  wp m st Q' E'.
Proof.
  unfold wp. destruct (m st) as [[a| |] st1]; [| |done].
  - intros [HQ Hs] HQ' _. split; [by apply HQ'|done].
  - intros (HE & Hs & Hin) _ HE'. split_and!; [by apply HE'|done|done].
Qed.

(** The rule that is used to step through a body: a specification of the
    first call, then the rest. *)
Lemma wp_seq {A B} (m : Mt A) (f : A → Mt B) st Q0 E0 Q E :
  wp m st Q0 E0 →
  (∀ a st', sched st' `suffix_of` sched st → Q0 a st' → wp (f a) st' Q E) →
  (∀ st', sched st' `suffix_of` sched st → E0 st' → E st') →
  wp (m ≫= f) st Q E.
Proof.
  intros Hm Hf HE. apply wp_bind. eapply wp_mono; [exact Hm| |exact HE].
  intros a st' Hs HQ. by apply Hf.
Qed.

Lemma wp_throw {A} st (Q : A → state T → Prop) (E : state T → Prop) :
  E st → true ∈ sched st → wp throw st Q E.
Proof. intros. split_and!; [done|reflexivity|done]. Qed.

Lemma wp_assert (c : bool) st Q E :
  c = true → Q tt st → wp (assert c) st Q E.
Proof. intros -> HQ. by apply wp_ret. Qed.

Lemma wp_on_throw {A} (m : Mt A) (h : Mt unit) st Q E :
  wp m st Q (λ st', wp h st' (λ _ st'', E st'') E) →
  wp (on_throw m h) st Q E.
Proof.
  unfold wp, on_throw. destruct (m st) as [[a| |] st1]; [done| |done].
  intros (Hh & Hs & Hin). rewrite bind_run.
  destruct (h st1) as [[[]| |] st2]; [| |done].
  - destruct Hh as [HE Hs2]. split_and!; [done|by etrans|done].
  - destruct Hh as (HE & Hs2 & _). split_and!; [done|by etrans|done].
Qed.

Lemma wp_noexcept {A} (m : Mt A) st Q E :
  wp m st Q (λ _, False) → wp (noexcept m) st Q E.
Proof.
  unfold wp, noexcept. destruct (m st) as [[a| |] st1]; [done| |done].
  by intros [[] _].
Qed.

(** A schedule without [true] never throws. *)
Lemma wp_quiet {A} (m : Mt A) st Q E :
  wp m st Q E → true ∉ sched st →
  ∃ a st', m st = (Ok a, st') ∧ Q a st' ∧ true ∉ sched st'.
Proof.
  unfold wp. destruct (m st) as [[a| |] st1]; [| |done].
  - intros [HQ [k Hs]] Hq. exists a, st1. split_and!; [done|done|].
    rewrite Hs in Hq. set_solver.
  - intros (_ & _ & Hin) Hq. done.
Qed.

Lemma wp_run {A} (m : Mt A) st Q E o st' :
  wp m st Q E → m st = (o, st') →
  match o with
  | Ok a => Q a st'
  | Throw => E st'
  | Fault => False
  end.
Proof. unfold wp. intros H Hr. rewrite Hr in H. destruct o; tauto. Qed.

(** ** State accessors *)

Lemma same_store_refl st : same_store st st.
Proof. done. Qed.

Lemma wp_tick st Q E :
  (∀ s, Q tt (mkState (heap st) (objs st) s (leaked st))) →
  (∀ s, E (mkState (heap st) (objs st) s (leaked st))) →
  wp tick st Q E.
Proof.
  intros HQ HE. unfold wp, tick. destruct st as [h o s l]; simpl.
  destruct s as [|[] s]; simpl.
  - split; [apply (HQ [])|done].
  - split_and!; [apply (HE s)|by apply suffix_cons_r|set_solver].
  - split; [apply (HQ s)|by apply suffix_cons_r].
Qed.

Lemma wp_get_heap st Q E : Q (heap st) st → wp get_heap st Q E.
Proof. intros. split; [done|reflexivity]. Qed.

Lemma wp_put_heap h st Q E : Q tt (mkState h (objs st) (sched st) (leaked st)) → wp (put_heap h) st Q E.
Proof. intros. split; [done|reflexivity]. Qed.

Lemma wp_get_objs st Q E : Q (objs st) st → wp get_objs st Q E.
Proof. intros. split; [done|reflexivity]. Qed.

Lemma wp_put_objs o st Q E : Q tt (mkState (heap st) o (sched st) (leaked st)) → wp (put_objs o) st Q E.
Proof. intros. split; [done|reflexivity]. Qed.

Lemma wp_add_leaked l st Q E :
  Q tt (mkState (heap st) (objs st) (sched st) (leaked st ++ l)) →
  wp (add_leaked l) st Q E.
Proof. intros. split; [done|reflexivity]. Qed.

(** ** Objects in raw storage *)

Lemma set_slot_insert (h : gmap nat block) a i s b :
  h !! a = Some b → set_slot h a i s = <[a := <[i:=s]> b]> h.
Proof.
  intros Ha. unfold set_slot. apply map_eq. intros k.
  destruct (decide (a = k)) as [->|Hne].
  - by rewrite lookup_alter_eq, lookup_insert_eq, Ha.
  - by rewrite lookup_alter_ne, lookup_insert_ne.
Qed.

Lemma slot_at_At (h : gmap nat block) a i b s :
  h !! a = Some b → b !! i = s → slot_at h (At a i) = s.
Proof. intros Ha Hi. simpl. by rewrite Ha. Qed.

Lemma wp_load st a i b x Q E :
  heap st !! a = Some b → b !! i = Some (Live x) →
  Q x st →
  wp (load (At a i)) st Q E.
Proof.
  intros Ha Hi HQ. unfold load. apply wp_bind, wp_get_heap.
  rewrite (slot_at_At _ _ _ _ _ Ha Hi). by apply wp_ret.
Qed.

Lemma wp_store st a i b y x Q E :
  heap st !! a = Some b → b !! i = Some (Live y) →
  Q tt (mkState (<[a := <[i:=Live x]> b]> (heap st)) (objs st) (sched st) (leaked st)) →
  wp (store (At a i) x) st Q E.
Proof.
  intros Ha Hi HQ. unfold store. apply wp_bind, wp_get_heap.
  rewrite (slot_at_At _ _ _ _ _ Ha Hi). apply wp_put_heap.
  by rewrite (set_slot_insert _ _ _ _ _ Ha).
Qed.

Lemma wp_construct_at st a i b x Q E :
  heap st !! a = Some b → b !! i = Some Raw →
  Q tt (mkState (<[a := <[i:=Live x]> b]> (heap st)) (objs st) (sched st) (leaked st)) →
  wp (construct_at (At a i) x) st Q E.
Proof.
  intros Ha Hi HQ. unfold construct_at. apply wp_bind, wp_get_heap.
  rewrite (slot_at_At _ _ _ _ _ Ha Hi). apply wp_put_heap.
  by rewrite (set_slot_insert _ _ _ _ _ Ha).
Qed.

Lemma wp_destroy_at st a i b y Q E :
  heap st !! a = Some b → b !! i = Some (Live y) →
  Q tt (mkState (<[a := <[i:=Raw]> b]> (heap st)) (objs st) (sched st) (leaked st)) →
  wp (destroy_at (At a i)) st Q E.
Proof.
  intros Ha Hi HQ. unfold destroy_at. apply wp_bind, wp_get_heap.
  rewrite (slot_at_At _ _ _ _ _ Ha Hi). apply wp_put_heap.
  by rewrite (set_slot_insert _ _ _ _ _ Ha).
Qed.

(** A step that throws only when the element type allows it to. *)
Lemma wp_tick_unless (c : bool) st Q E :
  (∀ s, Q tt (mkState (heap st) (objs st) s (leaked st))) →
  (c = false → ∀ s, E (mkState (heap st) (objs st) s (leaked st))) →
  wp (if c then mret tt else tick) st Q E.
Proof.
  intros HQ HE. destruct c.
  - apply wp_ret. destruct st; apply (HQ sched0).
  - apply wp_tick; auto.
Qed.

(** ** Blocks *)

Lemma lookup_mid {A} (pre post : list A) (x : A) i :
  i = length pre → (pre ++ x :: post) !! i = Some x.
Proof. intros ->. by apply list_lookup_middle. Qed.

Lemma insert_mid {A} (pre post : list A) (x y : A) i :
  i = length pre → <[i:=y]> (pre ++ x :: post) = pre ++ y :: post.
Proof.
  intros ->. rewrite insert_app_r_alt by lia.
  by replace (length pre - length pre) with 0 by lia.
Qed.

Lemma snoc_app {A} (pre post : list A) (x : A) :
  pre ++ x :: post = (pre ++ [x]) ++ post.
Proof. by rewrite <- app_assoc. Qed.

Lemma shape_insert_live (b : block) i x y :
  b !! i = Some (Live y) → shape (<[i:=Live x]> b) = shape b.
Proof.
  intros Hi. unfold shape. rewrite list_fmap_insert. simpl.
  apply list_insert_id. by rewrite list_lookup_fmap, Hi.
Qed.

Lemma shape_lookup_live (b : block) i :
  shape b !! i = Some true ↔ ∃ x, b !! i = Some (Live x).
Proof.
  unfold shape. rewrite list_lookup_fmap. split.
  - destruct (b !! i) as [[|x]|]; simpl; [done|eauto|done].
  - by intros [x ->].
Qed.

Lemma shape_lookup_raw (b : block) i :
  shape b !! i = Some false ↔ b !! i = Some Raw.
Proof.
  unfold shape. rewrite list_lookup_fmap.
  destruct (b !! i) as [[|x]|]; simpl; naive_solver.
Qed.

Lemma shape_lives_raws (xs : list T) n :
  shape ((Live <$> xs) ++ replicate n Raw) = replicate (length xs) true ++ replicate n false.
Proof.
  unfold shape. rewrite fmap_app, fmap_replicate, <- list_fmap_compose.
  f_equal. induction xs as [|x xs IH]; simpl; [done|by f_equal].
Qed.

Lemma shape_inv (b : block) n m :
  shape b = replicate n true ++ replicate m false →
  ∃ xs, length xs = n ∧ b = (Live <$> xs) ++ replicate m Raw.
Proof.
  revert b. induction n as [|n IH]; intros b; simpl.
  - intros Hb. exists []. split; [done|]. simpl.
    revert b Hb. induction m as [|m IHm]; intros [|s b]; simpl; try done.
    intros [= Hs Hb]. destruct s; [|done]. f_equal. by apply IHm.
  - destruct b as [|s b]; [done|]. simpl. intros [= Hs Hb].
    destruct s as [|x]; [done|].
    destruct (IH _ Hb) as (xs & Hlen & ->).
    exists (x :: xs). split; [simpl; lia|done].
Qed.

(** ** The algorithms *)

Lemma ptr_add_At a i k : At a i +ₚ k = At a (i + k).
Proof. done. Qed.

Lemma wp_destroy_n (xs : list T) : ∀ st a i n pre post Q E,
  heap st !! a = Some (pre ++ (Live <$> xs) ++ post) →
  i = length pre → n = length xs →
  Q tt (mkState (<[a := pre ++ replicate n Raw ++ post]> (heap st))
                (objs st) (sched st) (leaked st)) →
  wp (destroy_n (At a i) n) st Q E.
Proof.
  induction xs as [|x xs IH]; intros [h o s l] a i n pre post Q E; simpl;
    intros Ha -> -> HQ; simpl in *.
  - apply wp_ret. by rewrite insert_id in HQ.
  - apply wp_bind. eapply wp_destroy_at; [exact Ha|by apply lookup_mid|]. simpl.
    rewrite insert_mid by done. rewrite snoc_app.
    eapply IH; simpl.
    + by rewrite lookup_insert_eq.
    + rewrite length_app. simpl. lia.
    + done.
    + rewrite insert_insert_eq, <- snoc_app. exact HQ.
Qed.

Lemma wp_uninitialized_value_construct_n (n : nat) : ∀ st a i pre post Q E,
  heap st !! a = Some (pre ++ replicate n Raw ++ post) →
  i = length pre →
  (∀ s, Q tt (mkState (<[a := pre ++ replicate n (Live value_init) ++ post]> (heap st))
                      (objs st) s (leaked st))) →
  (∀ s, E (mkState (heap st) (objs st) s (leaked st))) →
  wp (uninitialized_value_construct_n (At a i) n) st Q E.
Proof.
  induction n as [|n IH]; intros [h o s l] a i pre post Q E; simpl;
    intros Ha -> HQ HE; simpl in *.
  - apply wp_ret. specialize (HQ s). by rewrite insert_id in HQ.
  - apply wp_bind. unfold T_value_construct. apply wp_bind.
    apply wp_tick; [|exact HE]. intros s1. simpl.
    eapply wp_construct_at; [exact Ha|by apply lookup_mid|]. simpl.
    rewrite insert_mid by done. rewrite snoc_app.
    apply wp_on_throw. eapply IH; simpl.
    + by rewrite lookup_insert_eq.
    + rewrite length_app. simpl. lia.
    + intros s2. rewrite insert_insert_eq, <- snoc_app. apply HQ.
    + intros s2. eapply wp_destroy_at; simpl.
      * by rewrite lookup_insert_eq.
      * rewrite <- snoc_app. by apply lookup_mid.
      * rewrite <- snoc_app, insert_mid by done.
        rewrite insert_insert_eq, insert_id by done. apply HE.
Qed.

Lemma wp_uninitialized_copy_n (xs : list T) : ∀ st a i d j n pre post pre' post' Q E,
  a ≠ d →
  heap st !! a = Some (pre ++ (Live <$> xs) ++ post) →
  heap st !! d = Some (pre' ++ replicate n Raw ++ post') →
  i = length pre → j = length pre' → n = length xs →
  (∀ s, Q tt (mkState (<[d := pre' ++ (Live <$> xs) ++ post']> (heap st))
                      (objs st) s (leaked st))) →
  (∀ s, E (mkState (heap st) (objs st) s (leaked st))) →
  wp (uninitialized_copy_n (At a i) n (At d j)) st Q E.
Proof.
  induction xs as [|x xs IH]; intros [h o s l] a i d j n pre post pre' post' Q E Hne;
    simpl; intros Ha Hd -> -> -> HQ HE; simpl in *.
  - apply wp_ret. specialize (HQ s). by rewrite insert_id in HQ.
  - apply wp_bind. unfold T_copy_construct. apply wp_bind.
    eapply wp_load; [exact Ha|by apply lookup_mid|].
    apply wp_bind. apply wp_tick; [|exact HE]. intros s1. simpl.
    eapply wp_construct_at; [exact Hd|by apply lookup_mid|]. simpl.
    rewrite insert_mid by done. rewrite (snoc_app pre'). rewrite (snoc_app pre) in Ha.
    apply wp_on_throw. eapply IH; simpl.
    + exact Hne.
    + rewrite lookup_insert_ne by done. exact Ha.
    + by rewrite lookup_insert_eq.
    + rewrite length_app. simpl. lia.
    + rewrite length_app. simpl. lia.
    + done.
    + intros s2. rewrite insert_insert_eq, <- snoc_app. apply HQ.
    + intros s2. eapply wp_destroy_at; simpl.
      * by rewrite lookup_insert_eq.
      * rewrite <- snoc_app. by apply lookup_mid.
      * rewrite <- snoc_app, insert_mid by done.
        rewrite insert_insert_eq, insert_id by done. apply HE.
Qed.

Lemma state_heap_ext (P : state T → Prop) (h1 h2 : gmap nat block) o s l :
  P (mkState h2 o s l) → h2 = h1 → P (mkState h1 o s l).
Proof. by intros HP <-. Qed.

Lemma wp_T_move_construct st a i d j b b' b1 x y Q E :
  heap st !! a = Some b → b !! i = Some (Live x) →
  heap st !! d = Some b' → b' !! j = Some Raw →
  <[d := <[j:=Live x]> b']> (heap st) !! a = Some b1 → b1 !! i = Some (Live y) →
  (∀ s, Q tt (mkState (<[a := <[i:=Live (moved_from x)]> b1]>
                         (<[d := <[j:=Live x]> b']> (heap st)))
                      (objs st) s (leaked st))) →
  (is_nothrow_move_constructible = false →
   ∀ s, E (mkState (heap st) (objs st) s (leaked st))) →
  wp (T_move_construct (At d j) (At a i)) st Q E.
Proof.
  destruct st as [h o s l]; simpl. intros Ha Hi Hd Hj Ha1 Hi1 HQ HE.
  unfold T_move_construct. apply wp_bind.
  eapply wp_load; [exact Ha|exact Hi|].
  apply wp_bind. apply wp_tick_unless; [|exact HE]. intros s1. simpl.
  apply wp_bind. eapply wp_construct_at; [exact Hd|exact Hj|]. simpl.
  eapply wp_store; [exact Ha1|exact Hi1|]. simpl. apply HQ.
Qed.

Lemma wp_T_move_assign st a i j b x y Q E :
  heap st !! a = Some b → b !! i = Some (Live x) → b !! j = Some (Live y) →
  (∀ s, Q tt (mkState (<[a := <[i:=Live (moved_from x)]> (<[j:=Live x]> b)]> (heap st))
                      (objs st) s (leaked st))) →
  (is_nothrow_move_assignable = false →
   ∀ s, E (mkState (heap st) (objs st) s (leaked st))) →
  wp (T_move_assign (At a j) (At a i)) st Q E.
Proof.
  destruct st as [h o s l]; simpl. intros Ha Hi Hj HQ HE.
  unfold T_move_assign. apply wp_bind.
  eapply wp_load; [exact Ha|exact Hi|].
  apply wp_bind. apply wp_tick_unless; [|exact HE]. intros s1. simpl.
  apply wp_bind. eapply wp_store; [exact Ha|exact Hj|]. simpl.
  assert (∃ z, (<[j:=Live x]> b) !! i = Some (Live z)) as [z Hz].
  { destruct (decide (i = j)) as [->|Hne].
    - exists x. apply list_lookup_insert_eq. by eapply lookup_lt_Some.
    - exists x. by rewrite list_lookup_insert_ne. }
  eapply wp_store; simpl; [by rewrite lookup_insert_eq|exact Hz|]. simpl.
  rewrite insert_insert_eq. apply HQ.
Qed.

Lemma wp_uninitialized_move_n (xs : list T) : ∀ st a i d j n pre post pre' post' Q E,
  a ≠ d →
  heap st !! a = Some (pre ++ (Live <$> xs) ++ post) →
  heap st !! d = Some (pre' ++ replicate n Raw ++ post') →
  i = length pre → j = length pre' → n = length xs →
  (∀ s, Q tt (mkState (<[d := pre' ++ (Live <$> xs) ++ post']>
                         (<[a := pre ++ (Live <$> (moved_from <$> xs)) ++ post]> (heap st)))
                      (objs st) s (leaked st))) →
  (is_nothrow_move_constructible = false →
   ∀ s xs', length xs' = length xs →
     E (mkState (<[a := pre ++ (Live <$> xs') ++ post]> (heap st))
                (objs st) s (leaked st))) →
  wp (uninitialized_move_n (At a i) n (At d j)) st Q E.
Proof.
  induction xs as [|x xs IH]; intros [h o s l] a i d j n pre post pre' post' Q E Hne;
    simpl; intros Ha Hd -> -> -> HQ HE; simpl in *.
  - apply wp_ret. specialize (HQ s).
    by rewrite (insert_id h a), (insert_id h d) in HQ.
  - apply wp_bind. eapply wp_T_move_construct; simpl.
    + exact Ha.
    + by apply lookup_mid.
    + exact Hd.
    + by apply lookup_mid.
    + rewrite lookup_insert_ne by done. exact Ha.
    + by apply lookup_mid.
    + intros s1. rewrite !insert_mid by done.
      rewrite (snoc_app pre'), (snoc_app pre).
      apply wp_on_throw. eapply IH; simpl.
      * exact Hne.
      * by rewrite lookup_insert_eq.
      * rewrite lookup_insert_ne by done. by rewrite lookup_insert_eq.
      * rewrite length_app. simpl. lia.
      * rewrite length_app. simpl. lia.
      * done.
      * intros s2. eapply state_heap_ext; [apply (HQ s2)|].
        rewrite <- !snoc_app. apply map_eq. intros k.
        repeat (rewrite lookup_insert; case_decide; subst); done.
      * intros Hnt s2 xs' Hlen. eapply wp_destroy_at; simpl.
        -- rewrite lookup_insert_ne by done. rewrite lookup_insert_ne by done.
           by rewrite lookup_insert_eq.
        -- rewrite <- snoc_app. by apply lookup_mid.
        -- rewrite <- snoc_app, insert_mid by done.
           eapply state_heap_ext; [apply (HE Hnt s2 (moved_from x :: xs'))|].
           { simpl. by rewrite Hlen. }
           simpl. rewrite <- !snoc_app. apply map_eq. intros k.
           repeat (rewrite lookup_insert; case_decide; subst); done.
    + intros Hnt s1. eapply state_heap_ext; [apply (HE Hnt s1 (x :: xs)); done|].
      simpl. by rewrite insert_id.
Qed.

Lemma wp_copy_loop (xs : list T) : ∀ st a i d j n ys pre post pre' post' Q E,
  a ≠ d →
  heap st !! a = Some (pre ++ (Live <$> xs) ++ post) →
  heap st !! d = Some (pre' ++ (Live <$> ys) ++ post') →
  i = length pre → j = length pre' → n = length xs → length ys = length xs →
  (∀ s, Q tt (mkState (<[d := pre' ++ (Live <$> xs) ++ post']> (heap st))
                      (objs st) s (leaked st))) →
  (∀ s ys', length ys' = length xs →
     E (mkState (<[d := pre' ++ (Live <$> ys') ++ post']> (heap st))
                (objs st) s (leaked st))) →
  wp (copy_loop (At a i) n (At d j)) st Q E.
Proof.
  induction xs as [|x xs IH];
    intros [h o s l] a i d j n ys pre post pre' post' Q E Hne;
    simpl; intros Ha Hd -> -> -> Hlen HQ HE; simpl in *.
  - apply wp_ret. destruct ys; [|done]. specialize (HQ s).
    by rewrite insert_id in HQ.
  - destruct ys as [|y ys]; [done|]. simpl in *.
    apply wp_bind. unfold T_copy_assign. apply wp_bind.
    eapply wp_load; [exact Ha|by apply lookup_mid|].
    apply wp_bind. apply wp_tick.
    2:{ intros s1. simpl. eapply state_heap_ext; [apply (HE s1 (y :: ys)); done|].
        simpl. by rewrite insert_id. }
    intros s1. simpl.
    eapply wp_store; [exact Hd|by apply lookup_mid|]. simpl.
    rewrite insert_mid by done. rewrite (snoc_app pre'). rewrite (snoc_app pre) in Ha.
    eapply IH; simpl.
    + exact Hne.
    + rewrite lookup_insert_ne by done. exact Ha.
    + by rewrite lookup_insert_eq.
    + rewrite length_app. simpl. lia.
    + rewrite length_app. simpl. lia.
    + done.
    + lia.
    + intros s2. rewrite insert_insert_eq, <- snoc_app. apply HQ.
    + intros s2 ys' Hlen'. rewrite insert_insert_eq, <- snoc_app.
      apply (HE s2 (x :: ys')). simpl. lia.
Qed.

Lemma wp_ptr_dec st a i Q E :
  Q (At a i) st → wp (ptr_dec (At a (S i))) st Q E.
Proof. intros. by apply wp_ret. Qed.

Lemma wp_move_backward_loop (n : nat) : ∀ st a l d b Q E,
  heap st !! a = Some b →
  n ≤ l → n ≤ d →
  (∀ k, l - n ≤ k < l → shape b !! k = Some true) →
  (∀ k, d - n ≤ k < d → shape b !! k = Some true) →
  (∀ s b', shape b' = shape b →
     Q tt (mkState (<[a := b']> (heap st)) (objs st) s (leaked st))) →
  (is_nothrow_move_assignable = false →
   ∀ s b', shape b' = shape b →
     E (mkState (<[a := b']> (heap st)) (objs st) s (leaked st))) →
  wp (move_backward_loop n (At a l) (At a d)) st Q E.
Proof.
  induction n as [|n IH]; intros [h o s l0] a l d b Q E; simpl;
    intros Ha Hl Hd Hsrc Hdst HQ HE.
  - apply wp_ret. eapply state_heap_ext; [apply (HQ s b); done|]. by apply insert_id.
  - destruct l as [|l]; [lia|]. destruct d as [|d]; [lia|].
    apply wp_bind, wp_ptr_dec. apply wp_bind, wp_ptr_dec.
    destruct (proj1 (shape_lookup_live b l)) as [x Hx]; [apply Hsrc; lia|].
    destruct (proj1 (shape_lookup_live b d)) as [y Hy]; [apply Hdst; lia|].
    assert (shape (<[l:=Live (moved_from x)]> (<[d:=Live x]> b)) = shape b) as Hsh.
    { destruct (decide (l = d)) as [->|Hne].
      - rewrite list_insert_insert_eq. by eapply shape_insert_live.
      - rewrite (shape_insert_live _ _ _ x), (shape_insert_live _ _ _ y); [done..|].
        by rewrite list_lookup_insert_ne. }
    apply wp_bind. eapply wp_T_move_assign; [exact Ha|exact Hx|exact Hy| |]; simpl.
    + intros s1. eapply IH; simpl.
      * by rewrite lookup_insert_eq.
      * lia.
      * lia.
      * intros k Hk. rewrite Hsh. apply Hsrc. lia.
      * intros k Hk. rewrite Hsh. apply Hdst. lia.
      * intros s2 b' Hb'. rewrite insert_insert_eq. apply HQ. by rewrite Hb'.
      * intros Hnt s2 b' Hb'. rewrite insert_insert_eq. apply HE; [done|]. by rewrite Hb'.
    + intros Hnt s1. eapply state_heap_ext; [apply (HE Hnt s1 b); done|].
      by apply insert_id.
Qed.

(** The byte-wise move of a range. *)
Lemma wp_load_n (ws : list T) : ∀ st a i b Q E,
  heap st !! a = Some b →
  (∀ k x, ws !! k = Some x → b !! (i + k) = Some (Live x)) →
  Q ws st →
  wp (load_n (At a i) (length ws)) st Q E.
Proof.
  induction ws as [|w ws IH]; intros st a i b Q E Ha Hws HQ; simpl.
  - by apply wp_ret.
  - apply wp_bind. eapply wp_load; [exact Ha| |].
    { specialize (Hws 0 w eq_refl). by rewrite Nat.add_0_r in Hws. }
    apply wp_bind. eapply IH; [exact Ha| |].
    { intros k x Hk. replace (i + 1 + k) with (i + S k) by lia. by apply Hws. }
    by apply wp_ret.
Qed.

Lemma overwrite_cons (b : block) j (w : T) (ws : list T) y :
  b !! j = Some y →
  take (j + 1) (<[j:=Live w]> b) ++ (Live <$> ws) ++ drop (j + 1 + length ws) (<[j:=Live w]> b)
  = take j b ++ (Live <$> w :: ws) ++ drop (j + S (length ws)) b.
Proof.
  intros Hy. pose proof (lookup_lt_Some _ _ _ Hy) as Hlt.
  replace (j + 1) with (S j) by lia.
  rewrite (take_S_r _ _ (Live w)) by (by apply list_lookup_insert_eq).
  rewrite take_insert_ge by lia.
  rewrite drop_insert_lt by lia.
  rewrite <- app_assoc. simpl.
  by replace (j + S (length ws)) with (S (j + length ws)) by lia.
Qed.

Lemma wp_store_n (ws : list T) : ∀ st a j b Q E,
  heap st !! a = Some b →
  (∀ k, j ≤ k < j + length ws → shape b !! k = Some true) →
  Q tt (mkState (<[a := take j b ++ (Live <$> ws) ++ drop (j + length ws) b]> (heap st))
                (objs st) (sched st) (leaked st)) →
  wp (store_n (At a j) ws) st Q E.
Proof.
  induction ws as [|w ws IH]; intros [h o s l] a j b Q E; simpl; intros Ha Hlive HQ.
  - apply wp_ret. rewrite Nat.add_0_r, take_drop in HQ. by rewrite insert_id in HQ.
  - destruct (proj1 (shape_lookup_live b j)) as [y Hy]; [apply Hlive; lia|].
    apply wp_bind. eapply wp_store; [exact Ha|exact Hy|]. simpl.
    eapply IH; simpl.
    + by rewrite lookup_insert_eq.
    + intros k Hk. rewrite (shape_insert_live _ _ _ y) by done. apply Hlive. lia.
    + rewrite insert_insert_eq.
      eapply state_heap_ext; [exact HQ|]. f_equal.
      symmetry. by eapply overwrite_cons.
Qed.

Lemma wp_memmove_objects st a i j (ws : list T) b Q E :
  heap st !! a = Some b →
  (∀ k x, ws !! k = Some x → b !! (i + k) = Some (Live x)) →
  (∀ k, j ≤ k < j + length ws → shape b !! k = Some true) →
  Q tt (mkState (<[a := take j b ++ (Live <$> ws) ++ drop (j + length ws) b]> (heap st))
                (objs st) (sched st) (leaked st)) →
  wp (memmove_objects (At a i) (length ws) (At a j)) st Q E.
Proof.
  intros Ha Hws Hlive HQ. unfold memmove_objects.
  apply wp_bind. eapply wp_load_n; [exact Ha|exact Hws|].
  by eapply wp_store_n.
Qed.

Lemma live_values (b : block) f n :
  (∀ k, f ≤ k < f + n → shape b !! k = Some true) →
  ∃ ws : list T, length ws = n ∧ ∀ k x, ws !! k = Some x → b !! (f + k) = Some (Live x).
Proof.
  revert f. induction n as [|n IH]; intros f Hlive.
  - exists []. split; [done|]. intros k x Hk. done.
  - destruct (proj1 (shape_lookup_live b f)) as [y Hy]; [apply Hlive; lia|].
    destruct (IH (f + 1)) as (ws & Hlen & Hws); [intros k Hk; apply Hlive; lia|].
    exists (y :: ws). split; [simpl; lia|].
    intros [|k] x Hk; simpl in Hk.
    + injection Hk as <-. by rewrite Nat.add_0_r.
    + replace (f + S k) with (f + 1 + k) by lia. by apply Hws.
Qed.

Lemma shape_overwrite (b : block) j (ws : list T) :
  (∀ k, j ≤ k < j + length ws → shape b !! k = Some true) →
  shape (take j b ++ (Live <$> ws) ++ drop (j + length ws) b) = shape b.
Proof.
  revert b j. induction ws as [|w ws IH]; intros b j Hlive.
  - simpl. by rewrite Nat.add_0_r, take_drop.
  - destruct (proj1 (shape_lookup_live b j)) as [y Hy]; [apply Hlive; simpl; lia|].
    simpl length. rewrite <- (overwrite_cons b j w ws (Live y)) by done.
    rewrite IH; [by eapply shape_insert_live|].
    intros k Hk. rewrite (shape_insert_live _ _ _ y) by done. apply Hlive. simpl. lia.
Qed.

(** [std::move_backward] within one block: whichever way the library
    moves, the slots that held objects hold objects. *)
Lemma wp_move_backward st a f l d b Q E :
  heap st !! a = Some b →
  f ≤ l → l - f ≤ d →
  (∀ k, f ≤ k < l → shape b !! k = Some true) →
  (∀ k, d - (l - f) ≤ k < d → shape b !! k = Some true) →
  (∀ s b', shape b' = shape b →
     Q tt (mkState (<[a := b']> (heap st)) (objs st) s (leaked st))) →
  (is_nothrow_move_assignable = false →
   ∀ s b', shape b' = shape b →
     E (mkState (<[a := b']> (heap st)) (objs st) s (leaked st))) →
  wp (move_backward (At a f) (At a l) (At a d)) st Q E.
Proof.
  intros Ha Hfl Hd Hsrc Hdst HQ HE. unfold move_backward. simpl ptr_diff.
  destruct is_trivially_copyable.
  - apply wp_bind. unfold ptr_sub. rewrite bool_decide_eq_true_2 by done.
    apply wp_ret.
    destruct (live_values b f (l - f)) as (ws & Hlen & Hws).
    { intros k Hk. apply Hsrc. lia. }
    rewrite <- Hlen.
    eapply wp_memmove_objects; [exact Ha|exact Hws| |].
    + intros k Hk. apply Hdst. lia.
    + destruct st as [h o s l0]. apply HQ. apply shape_overwrite.
      intros k Hk. apply Hdst. lia.
  - eapply (wp_move_backward_loop _ _ a l d b); try done.
    + lia.
    + intros k Hk. apply Hsrc. lia.
Qed.

(** ** RawMemory *)

Lemma live_in_app a (b1 b2 : block) :
  live_in a (b1 ++ b2) =
  live_in a b1 ++ omap (λ '(i, s), match s with
                                   | Live x => Some (a, i, x)
                                   | Raw => None
                                   end)
                       (imap (λ i s, (length b1 + i, s)) b2).
Proof. unfold live_in. by rewrite imap_app, omap_app. Qed.

Lemma live_in_raw a n : live_in a (replicate n (@Raw T)) = [].
Proof.
  unfold live_in.
  assert (∀ (f : nat → nat),
    omap (λ '(i, s), match s with Live x => Some (a, i, x) | Raw => None end)
         (imap (λ i s, (f i, s)) (replicate n (@Raw T))) = []) as H.
  { induction n as [|n IH]; intros f; simpl; [done|]. apply (IH (f ∘ S)). }
  apply (H id).
Qed.

Lemma wp_Allocate n st Q E :
  n ≠ 0 →
  (∀ s a, heap st !! a = None →
     Q (Some a) (mkState (<[a := replicate n Raw]> (heap st)) (objs st) s (leaked st))) →
  (∀ s, E (mkState (heap st) (objs st) s (leaked st))) →
  wp (Allocate n) st Q E.
Proof.
  destruct st as [h o s l]; simpl. intros Hn HQ HE. unfold Allocate.
  rewrite bool_decide_eq_true_2 by done.
  apply wp_bind, wp_tick; [|exact HE]. intros s1; simpl.
  apply wp_bind, wp_get_heap; simpl. apply wp_bind, wp_put_heap; simpl.
  apply wp_ret. apply HQ. apply not_elem_of_dom, is_fresh.
Qed.

Lemma wp_RawMemory_ctor n st Q E :
  (n = 0 → Q (mkRawMemory None 0) st) →
  (n ≠ 0 → ∀ s a, heap st !! a = None →
     Q (mkRawMemory (Some a) n)
       (mkState (<[a := replicate n Raw]> (heap st)) (objs st) s (leaked st))) →
  (n ≠ 0 → ∀ s, E (mkState (heap st) (objs st) s (leaked st))) →
  wp (RawMemory_ctor n) st Q E.
Proof.
  intros H0 HQ HE. unfold RawMemory_ctor. destruct (decide (n = 0)) as [->|Hn].
  - apply wp_bind. unfold Allocate. rewrite bool_decide_eq_false_2 by naive_solver.
    apply wp_ret, wp_ret. by apply H0.
  - apply wp_bind, wp_Allocate; [done| |by apply HE].
    intros s a Ha. apply wp_ret. by apply HQ.
Qed.

Lemma wp_Deallocate_null st Q E : Q tt st → wp (Deallocate None) st Q E.
Proof. intros. by apply wp_ret. Qed.

Lemma wp_Deallocate st a b Q E :
  heap st !! a = Some b →
  Q tt (mkState (delete a (heap st)) (objs st) (sched st) (leaked st ++ live_in a b)) →
  wp (Deallocate (Some a)) st Q E.
Proof.
  intros Ha HQ. unfold Deallocate. apply wp_bind, wp_get_heap. rewrite Ha.
  apply wp_bind, wp_add_leaked. by apply wp_put_heap.
Qed.

(** ** The object store *)

Lemma wp_get_obj st this v Q E :
  objs st !! this = Some v → Q v st → wp (get_obj this) st Q E.
Proof.
  intros Hv HQ. unfold get_obj. apply wp_bind, wp_get_objs. rewrite Hv.
  by apply wp_ret.
Qed.

Lemma wp_set_data st this v d Q E :
  objs st !! this = Some v →
  Q tt (mkState (heap st) (<[this := mkVector d (size_ v)]> (objs st)) (sched st) (leaked st)) →
  wp (set_data this d) st Q E.
Proof.
  intros Hv HQ. unfold set_data. apply wp_bind. eapply wp_get_obj; [exact Hv|].
  apply wp_bind, wp_get_objs. by apply wp_put_objs.
Qed.

Lemma wp_set_size st this v n Q E :
  objs st !! this = Some v →
  Q tt (mkState (heap st) (<[this := mkVector (data_ v) n]> (objs st)) (sched st) (leaked st)) →
  wp (set_size this n) st Q E.
Proof.
  intros Hv HQ. unfold set_size. apply wp_bind. eapply wp_get_obj; [exact Hv|].
  apply wp_bind, wp_get_objs. by apply wp_put_objs.
Qed.

Lemma wp_new_object st self v Q E :
  objs st !! self = None →
  Q tt (mkState (heap st) (<[self := v]> (objs st)) (sched st) (leaked st)) →
  wp (new_object self v) st Q E.
Proof.
  intros Hv HQ. unfold new_object. apply wp_bind, wp_get_objs. rewrite Hv.
  by apply wp_put_objs.
Qed.

Lemma wp_no_object st self Q E :
  objs st !! self = None → Q tt st → wp (no_object self) st Q E.
Proof.
  intros Hv HQ. unfold no_object. apply wp_bind, wp_get_objs.
  apply wp_assert; [|done]. by apply bool_decide_eq_true_2.
Qed.

Lemma wp_delete_object st self Q E :
  Q tt (mkState (heap st) (delete self (objs st)) (sched st) (leaked st)) →
  wp (delete_object self) st Q E.
Proof.
  intros HQ. unfold delete_object. apply wp_bind, wp_get_objs. by apply wp_put_objs.
Qed.

Lemma wp_Vector_begin st this v Q E :
  objs st !! this = Some v → Q (RawMemory_GetAddress (data_ v)) st →
  wp (Vector_begin this) st Q E.
Proof.
  intros Hv HQ. unfold Vector_begin. apply wp_bind. eapply wp_get_obj; [exact Hv|].
  by apply wp_ret.
Qed.

Lemma wp_Vector_end st this v Q E :
  objs st !! this = Some v → Q (RawMemory_GetAddress (data_ v) +ₚ size_ v) st →
  wp (Vector_end this) st Q E.
Proof.
  intros Hv HQ. unfold Vector_end. apply wp_bind. eapply wp_get_obj; [exact Hv|].
  by apply wp_ret.
Qed.

Lemma wp_RawMemory_plus st r offset Q E :
  offset ≤ capacity_ r → Q (RawMemory_GetAddress r +ₚ offset) st →
  wp (RawMemory_plus r offset) st Q E.
Proof.
  intros Hle HQ. unfold RawMemory_plus. apply wp_bind.
  apply wp_assert; [by apply bool_decide_eq_true_2|]. by apply wp_ret.
Qed.

Lemma wp_RawMemory_index st r index Q E :
  index < capacity_ r → Q (RawMemory_GetAddress r +ₚ index) st →
  wp (RawMemory_index r index) st Q E.
Proof.
  intros Hle HQ. unfold RawMemory_index. apply wp_bind.
  apply wp_assert; [by apply bool_decide_eq_true_2|]. by apply wp_ret.
Qed.

(** ** The representation invariant of a vector *)

Lemma vec_repr_size_le h v xs :
  vec_repr h v xs → size_ v ≤ capacity_ (data_ v).
Proof.
  intros [Hs Hb]. destruct (buffer_ (data_ v)).
  - destruct Hb as (_ & Hle & _). lia.
  - destruct Hb as [_ ->]. simpl in Hs. lia.
Qed.

Lemma vec_repr_inj h v xs ys : vec_repr h v xs → vec_repr h v ys → xs = ys.
Proof.
  intros [Hs Hb] [Hs' Hb']. destruct (buffer_ (data_ v)).
  - destruct Hb as (_ & _ & Hx), Hb' as (_ & _ & Hy).
    rewrite Hx in Hy. injection Hy as Hy. unfold vec_block in Hy.
    apply app_inj_1 in Hy as [Hy _]; [|rewrite !length_fmap; lia].
    assert (Inj (=) (=) (@Live T)) by (by intros ?? [=]).
    by apply (inj (fmap Live)) in Hy.
  - destruct Hb as [_ ->], Hb' as [_ ->]. done.
Qed.

Lemma vec_repr_buffer_in_heap h v xs a :
  vec_repr h v xs → buffer_ (data_ v) = Some a → is_Some (h !! a).
Proof. intros [_ Hb] Ha. rewrite Ha in Hb. destruct Hb as (_ & _ & ->). eauto. Qed.

Lemma vec_repr_frame h h' v xs :
  vec_repr h v xs →
  (∀ a b, buffer_ (data_ v) = Some a → h !! a = Some b → h' !! a = Some b) →
  vec_repr h' v xs.
Proof.
  intros [Hs Hb] Hf. split; [done|]. destruct (buffer_ (data_ v)) as [a|]; [|done].
  destruct Hb as (H1 & H2 & H3). split_and!; [done..|]. by eapply Hf.
Qed.

Lemma state_ok_updates st st' this v v' xs' :
  state_ok st → objs st !! this = Some v → updates this st st' v v' xs' →
  state_ok st'.
Proof.
  intros [Hwf Hdis] Hv (Hobjs & Hrepr & Hframe & Horig & _). split.
  - intros o w. rewrite Hobjs, lookup_insert. case_decide as Ho.
    + intros [= <-]. eauto.
    + intros Hw. destruct (Hwf _ _ Hw) as [ys Hys]. exists ys.
      eapply vec_repr_frame; [exact Hys|]. intros a b Ha Hb.
      apply Hframe; [done|]. intros Hva. by eapply (Hdis this o v w a).
  - assert (∀ o w a, o ≠ this → objs st !! o = Some w →
              buffer_ (data_ v') = Some a → buffer_ (data_ w) ≠ Some a) as Hnew.
    { intros o w a Ho Hw Ha Hwa. unfold buffer_origin in Horig. rewrite Ha in Horig.
      destruct Horig as [Hold|Hfresh].
      - by eapply (Hdis this o v w a).
      - destruct (Hwf _ _ Hw) as [ys Hys].
        destruct (vec_repr_buffer_in_heap _ _ _ _ Hys Hwa) as [b Hb]. congruence. }
    intros o1 o2 v1 v2 a Hne. rewrite Hobjs, !lookup_insert.
    repeat case_decide; subst; try done.
    + intros [= <-] H2 Ha. by eapply Hnew.
    + intros H1 [= <-] Ha Ha'. by eapply (Hnew o1 v1 a).
    + by apply Hdis.
Qed.

Lemma frame_refl h v : frame h h v.
Proof. by intros k b Hk _. Qed.

Lemma accounted_same h v v' :
  buffer_ (data_ v') = buffer_ (data_ v) → accounted h h v v'.
Proof. intros Hb. split; [auto|]. intros a Ha Ha'. congruence. Qed.

Lemma accounted_refl h v : accounted h h v v.
Proof. by apply accounted_same. Qed.

(** The heap changes in the block of the unchanged buffer only. *)
Lemma accounted_insert h a b' v v' :
  buffer_ (data_ v) = Some a → buffer_ (data_ v') = Some a →
  accounted h (<[a := b']> h) v v'.
Proof.
  intros Hv Hv'. split.
  - intros k Hk. destruct (decide (k = a)) as [->|Hne]; [by right|].
    left. by rewrite lookup_insert_ne in Hk.
  - intros a0 H0 H1. congruence.
Qed.

(** The buffer is replaced by a new block and released. *)
Lemma accounted_realloc h a b' v v' :
  h !! a = None → buffer_ (data_ v') = Some a →
  accounted h (<[a := b']> (free_block h (buffer_ (data_ v)))) v v'.
Proof.
  intros Ha Hv'. split.
  - intros k Hk. destruct (decide (k = a)) as [->|Hne]; [by right|].
    left. rewrite lookup_insert_ne in Hk by done.
    destruct (buffer_ (data_ v)) as [a0|]; simpl in Hk; [|done].
    destruct (decide (k = a0)) as [->|Hne0].
    + rewrite lookup_delete_eq in Hk. by destruct Hk.
    + by rewrite lookup_delete_ne in Hk.
  - intros a0 H0 H1. rewrite H0. simpl.
    rewrite lookup_insert_ne by congruence. by rewrite lookup_delete_eq.
Qed.

Lemma accounted_trans h h1 h2 v v1 v2 :
  accounted h h1 v v1 → accounted h1 h2 v1 v2 → accounted h h2 v v2.
Proof.
  intros [H1 H2] [H3 H4]. split.
  - intros k Hk. destruct (H3 k Hk) as [Hk1|Hk2]; [|by right].
    destruct (H1 k Hk1) as [?|Hv1]; [by left|]. right.
    destruct (decide (buffer_ (data_ v2) = Some k)) as [|Hne]; [done|].
    rewrite (H4 k Hv1 Hne) in Hk. by destruct Hk.
  - intros a Ha Ha2.
    destruct (decide (buffer_ (data_ v1) = Some a)) as [Hv1|Hv1]; [by apply H4|].
    pose proof (H2 a Ha Hv1) as Hnone.
    destruct (h2 !! a) as [b|] eqn:Hb; [|done].
    destruct (H3 a) as [Hin|?]; [by rewrite Hb| |done].
    rewrite Hnone in Hin. by destruct Hin.
Qed.

Lemma buffer_origin_data (h : gmap nat block) v v' :
  data_ v' = data_ v → buffer_origin h v v'.
Proof. intros Hd. unfold buffer_origin. rewrite Hd. destruct (buffer_ (data_ v)); auto. Qed.

Lemma replicate_split {A} (x : A) n m : m ≤ n → replicate n x = replicate m x ++ replicate (n - m) x.
Proof. intros. rewrite <- replicate_add. f_equal. lia. Qed.

Lemma cons_replicate_sub {A} (x : A) n m :
  m < n → x :: replicate (n - (m + 1)) x = replicate (n - m) x.
Proof. intros. by replace (n - m) with (S (n - (m + 1))) by lia. Qed.

Lemma wp_ptr_dec' (st : state T) a i (Q : ptr → state T → Prop) E :
  i ≠ 0 → Q (At a (i - 1)) st → wp (ptr_dec (At a i)) st Q E.
Proof. intros Hi HQ. destruct i; [done|]. apply wp_ret. by replace (S i - 1) with i in HQ by lia. Qed.

Lemma wp_Vector_PopBack st this v (xs : list T) :
  objs st !! this = Some v → vec_repr (heap st) v xs →
  wp (Vector_PopBack this) st
     (λ _ st', sched st' = sched st ∧ leaked st' = leaked st ∧
               updates this st st' v (mkVector (data_ v) (size_ v - 1)) (removelast xs))
     (λ _, False).
Proof.
  destruct st as [h o s l]. destruct v as [[buf cap] size]. simpl.
  intros Hv [Hs Hb]. simpl in *. unfold Vector_PopBack.
  apply wp_noexcept, wp_bind. eapply wp_get_obj; [exact Hv|]. norm.
  case_bool_decide as Hpos.
  - destruct buf as [a|]; [|destruct Hb as [_ ->]; simpl in *; lia].
    destruct Hb as (Hcap & Hle & Ha). unfold vec_block in Ha.
    destruct (exists_last (l:=xs)) as (xs0 & x & ->); [by intros ->; simpl in *; lia|].
    rewrite length_app in *. simpl in *.
    apply wp_bind. norm. apply wp_ptr_dec'; [lia|].
    replace (size - 1) with (length xs0) by lia.
    rewrite fmap_app, <- app_assoc in Ha. simpl in Ha.
    apply wp_bind. eapply wp_destroy_at; [exact Ha|by apply lookup_mid; rewrite length_fmap|].
    norm. eapply wp_set_size; [exact Hv|]. norm.
    split_and!; [done..|]. rewrite removelast_last.
    split_and!; simpl.
    + done.
    + split; simpl; [lia|]. split_and!; [lia..|].
      rewrite lookup_insert_eq. f_equal. rewrite insert_mid by (by rewrite length_fmap).
      unfold vec_block. f_equal. apply cons_replicate_sub; lia.
    + intros k b Hk Hne. simpl. rewrite lookup_insert_ne; [done|]. naive_solver.
    + by apply buffer_origin_data.
    + by apply accounted_insert.
  - apply wp_ret. split_and!; [done..|].
    assert (size = 0) as -> by lia. destruct xs; [|done]. simpl.
    split_and!; simpl.
    + by rewrite insert_id.
    + done.
    + apply frame_refl.
    + by apply buffer_origin_data.
    + by apply accounted_same.
Qed.

Lemma wp_destroy_n_vec st buf cap (ys : list T) n Q E :
  match buf with
  | Some b => heap st !! b = Some (vec_block cap ys) ∧ length ys ≤ cap
  | None => ys = []
  end →
  n = length ys →
  Q tt (mkState (set_block (heap st) buf (replicate cap Raw)) (objs st) (sched st) (leaked st)) →
  wp (destroy_n (RawMemory_GetAddress (mkRawMemory buf cap)) n) st Q E.
Proof.
  destruct st as [h o s l]. intros Hb -> HQ. destruct buf as [b|]; norm.
  - destruct Hb as [Hb Hle].
    eapply (wp_destroy_n ys _ _ _ _ []); [exact Hb|done|done|]. norm.
    simpl. rewrite <- replicate_add.
    by replace (length ys + (cap - length ys)) with cap by lia.
  - subst ys. simpl. by apply wp_ret.
Qed.

Lemma wp_RawMemory_dtor_raw st buf cap Q E :
  match buf with
  | Some b => heap st !! b = Some (replicate cap Raw)
  | None => True
  end →
  Q tt (mkState (free_block (heap st) buf) (objs st) (sched st) (leaked st)) →
  wp (RawMemory_dtor (mkRawMemory buf cap)) st Q E.
Proof.
  destruct st as [h o s l]. intros Hb HQ. unfold RawMemory_dtor. destruct buf as [b|]; norm.
  - eapply wp_Deallocate; [exact Hb|]. norm. by rewrite live_in_raw, app_nil_r.
  - by apply wp_ret.
Qed.

Lemma wp_Vector_InitOnConstruct st this buf cap size (xs : list T) a n post' Q E :
  objs st !! this = Some (mkVector (mkRawMemory buf cap) size) →
  vec_repr (heap st) (mkVector (mkRawMemory buf cap) size) xs →
  heap st !! a = Some (replicate (length xs) Raw ++ post') →
  buf ≠ Some a →
  (∀ s ys, length ys = length xs →
     Q tt (mkState (<[a := (Live <$> xs) ++ post']>
                      (set_block (heap st) buf (vec_block cap ys)))
                   (objs st) s (leaked st))) →
  (∀ s ys, length ys = length xs →
     (is_nothrow_move_constructible || is_copy_constructible = true → ys = xs) →
     E (mkState (set_block (heap st) buf (vec_block cap ys)) (objs st) s (leaked st))) →
  wp (Vector_InitOnConstruct this (mkRawMemory (Some a) n)) st Q E.
Proof.
  destruct st as [h o s l]. norm. intros Hv [Hs Hb] Ha Hne HQ HE. norm.
  unfold Vector_InitOnConstruct. apply wp_bind. eapply wp_get_obj; [exact Hv|]. norm.
  destruct buf as [b|]; norm.
  - destruct Hb as (Hcap & Hle & Hb). subst size.
    destruct (is_nothrow_move_constructible || negb is_copy_constructible) eqn:Hmv.
    + eapply (wp_uninitialized_move_n xs _ _ _ _ _ _ [] _ []);
        [naive_solver|exact Hb|exact Ha|done..| |]; norm.
      * intros s1. simpl. eapply state_heap_ext; [apply (HQ s1 (moved_from <$> xs))|].
        -- by rewrite length_fmap.
        -- unfold vec_block. by rewrite length_fmap.
      * intros Hnt s1 xs' Hlen. simpl. eapply state_heap_ext; [apply (HE s1 xs' Hlen)|].
        -- rewrite Hnt in *. simpl in *. intros Hc. rewrite Hc in Hmv. done.
        -- unfold vec_block. by rewrite Hlen.
    + eapply (wp_uninitialized_copy_n xs _ _ _ _ _ _ [] _ []);
        [naive_solver|exact Hb|exact Ha|done..| |]; norm.
      * intros s1. simpl. eapply state_heap_ext; [apply (HQ s1 xs); done|].
        simpl. unfold vec_block. by rewrite (insert_id h b).
      * intros s1. eapply state_heap_ext; [apply (HE s1 xs); done|].
        simpl. by rewrite insert_id.
  - destruct Hb as [-> ->]. subst size. simpl in *.
    assert (wp (mret tt) {| heap := h; objs := o; sched := s; leaked := l |} Q E).
    { apply wp_ret. eapply state_heap_ext; [apply (HQ s []); done|].
      simpl. by rewrite insert_id. }
    destruct (is_nothrow_move_constructible || negb is_copy_constructible); exact H.
Qed.

Lemma vec_repr_fresh h (v : Vector) (xs : list T) a :
  vec_repr h v xs → h !! a = None → buffer_ (data_ v) ≠ Some a.
Proof.
  intros Hr Ha Hb. destruct (vec_repr_buffer_in_heap _ _ _ _ Hr Hb). congruence.
Qed.

Lemma wp_Vector_Reserve st this v (xs : list T) n :
  objs st !! this = Some v → vec_repr (heap st) v xs →
  wp (Vector_Reserve this n) st
     (λ _ st',
        (n ≤ capacity_ (data_ v) ∧ st' = st) ∨
        (capacity_ (data_ v) < n ∧ leaked st' = leaked st ∧
         ∃ a, heap st !! a = None ∧
              updates this st st' v (mkVector (mkRawMemory (Some a) n) (size_ v)) xs))
     (λ st',
        capacity_ (data_ v) < n ∧ leaked st' = leaked st ∧
        ∃ ys, updates this st st' v v ys ∧
              (is_nothrow_move_constructible || is_copy_constructible = true → ys = xs)).
Proof.
  destruct st as [h o s l]. destruct v as [[buf cap] size]. norm.
  intros Hv Hr. pose proof Hr as [Hs Hb]. norm.
  unfold Vector_Reserve. apply wp_bind. eapply wp_get_obj; [exact Hv|]. norm.
  case_bool_decide as Hn; [apply wp_ret; by left|].
  apply wp_bind, wp_RawMemory_ctor; [lia| |].
  2:{ intros _ s1. split_and!; [lia|done|]. exists xs. split; [|done].
      split_and!; norm; [by rewrite insert_id|done|apply frame_refl| |apply accounted_refl].
      by apply buffer_origin_data. }
  intros _ s1 a Ha. norm.
  assert (buf ≠ Some a) as Hne by (by eapply (vec_repr_fresh _ _ _ _ Hr)).
  assert (length xs ≤ cap) as Hle.
  { apply vec_repr_size_le in Hr. norm. lia. }
  assert (∀ ys, length ys = length xs → ∀ h' : gmap nat block,
            match buf with
            | Some b => h' !! b = Some (vec_block cap ys)
            | None => True
            end →
            match buf with
            | Some b => h' !! b = Some (vec_block cap ys) ∧ length ys ≤ cap
            | None => ys = []
            end) as Hbuf.
  { intros ys Hlen h' Hh'. destruct buf; [split; [done|lia]|].
    destruct Hb as [_ ->]. by destruct ys. }
  apply wp_bind, wp_on_throw, wp_bind.
  eapply (wp_Vector_InitOnConstruct _ _ _ _ _ xs a n (replicate (n - length xs) Raw));
    norm; [exact Hv| | |exact Hne| |].
  - eapply vec_repr_frame; [exact Hr|]. norm. intros b bl -> Hbl. by heap_lookup.
  - heap_lookup. f_equal. apply replicate_split. lia.
  - intros s2 ys Hlen.
    eapply (wp_destroy_n_vec _ buf cap ys); norm; [| lia |].
    { apply Hbuf; [done|]. destruct buf; [|done]. by heap_lookup. }
    unfold RawMemory_Swap; norm. apply wp_bind. eapply wp_set_data; [exact Hv|]. norm.
    eapply wp_RawMemory_dtor_raw; norm.
    { destruct buf; [|done]. by heap_lookup. }
    right. split_and!; [lia|done|]. exists a. split; [done|]. split_and!; norm.
    + done.
    + split; norm; [done|]. split_and!; [lia..|].
      subst size. destruct buf; heap_lookup.
    + intros k b Hk Hkb. norm. destruct buf; heap_lookup.
    + unfold buffer_origin. norm. by right.
    + destruct buf; solve_accounted.
  - intros s2 ys Hlen Hys. unfold RawMemory_dtor. norm.
    eapply wp_Deallocate; norm.
    { destruct buf; heap_lookup. }
    rewrite live_in_raw, app_nil_r.
    split_and!; [lia|done|]. exists ys. split; [|done]. split_and!; norm.
    + by rewrite insert_id.
    + split; norm; [lia|]. destruct buf as [b|].
      * destruct Hb as (? & ? & ?). split_and!; [lia..|]. heap_lookup.
      * destruct Hb as [-> ->]. split; [done|]. by destruct ys.
    + intros k b Hk Hkb. norm. destruct buf; heap_lookup.
    + by apply buffer_origin_data.
    + destruct buf as [b|]; [destruct Hb as (_ & _ & Hb)|]; solve_accounted.
Qed.

Lemma updates_trans this st st1 st2 v v1 v2 (xs1 xs2 : list T) :
  updates this st st1 v v1 xs1 → updates this st1 st2 v1 v2 xs2 →
  updates this st st2 v v2 xs2.
Proof.
  intros (Ho1 & Hr1 & Hf1 & Hb1 & Hacc1) (Ho2 & Hr2 & Hf2 & Hb2 & Hacc2). split_and!.
  5:{ by eapply accounted_trans. }
  - by rewrite Ho2, Ho1, insert_insert_eq.
  - done.
  - intros k b Hk Hne. apply Hf2; [by apply Hf1|].
    intros Hk1. unfold buffer_origin in Hb1. rewrite Hk1 in Hb1.
    destruct Hb1; congruence.
  - unfold buffer_origin in *. destruct (buffer_ (data_ v2)) as [a2|]; [|done].
    destruct Hb2 as [Ha2|Ha2].
    + by rewrite Ha2 in Hb1.
    + destruct (heap st !! a2) as [b|] eqn:Hh; [|by right]. left.
      destruct (decide (buffer_ (data_ v) = Some a2)) as [|Hne]; [done|].
      specialize (Hf1 _ _ Hh Hne). congruence.
Qed.

Lemma updates_objs this st st' v v' (xs : list T) :
  updates this st st' v v' xs → objs st' !! this = Some v'.
Proof. intros (-> & _). by rewrite lookup_insert_eq. Qed.

Lemma updates_repr this st st' v v' (xs : list T) :
  updates this st st' v v' xs → vec_repr (heap st') v' xs.
Proof. by intros (_ & ? & _). Qed.

Lemma updates_heap_after this st st' v v' (xs : list T) :
  updates this st st' v v' xs → heap st' = heap_after (heap st) v v' xs.
Proof.
  intros (_ & [_ Hr] & Hf & _ & Hnew & Hold). unfold heap_after.
  apply map_eq. intros k.
  assert (buffer_ (data_ v') ≠ Some k →
          heap st' !! k = free_block (heap st) (buffer_ (data_ v)) !! k) as Hother.
  { intros Hk. destruct (decide (buffer_ (data_ v) = Some k)) as [Hvk|Hvk].
    - rewrite Hvk. simpl. rewrite lookup_delete_eq. by apply Hold.
    - assert (free_block (heap st) (buffer_ (data_ v)) !! k = heap st !! k) as ->.
      { destruct (buffer_ (data_ v)) as [b|]; simpl; [|done].
        rewrite lookup_delete_ne; [done|]. congruence. }
      destruct (heap st !! k) as [bl|] eqn:Hbl; [by apply Hf|].
      destruct (heap st' !! k) as [bl'|] eqn:Hbl'; [|done].
      destruct (Hnew k) as [[? ?]|?]; [by rewrite Hbl'|congruence|done]. }
  destruct (buffer_ (data_ v')) as [a|] eqn:Ha; simpl.
  - destruct (decide (k = a)) as [->|Hne].
    + rewrite lookup_insert_eq. by destruct Hr as (_ & _ & Hr).
    + rewrite lookup_insert_ne by done. apply Hother. congruence.
  - by apply Hother.
Qed.

Lemma updates_refl this st st' v (xs : list T) :
  objs st !! this = Some v → vec_repr (heap st) v xs →
  heap st' = heap st → objs st' = objs st →
  updates this st st' v v xs.
Proof.
  intros Hv Hr Hh Ho. split_and!.
  - by rewrite Ho, insert_id.
  - by rewrite Hh.
  - rewrite Hh. apply frame_refl.
  - by apply buffer_origin_data.
  - rewrite Hh. apply accounted_refl.
Qed.

Lemma updates_sched this h o s s' l st' v v' (xs : list T) :
  updates this (mkState h o s l) st' v v' xs → updates this (mkState h o s' l) st' v v' xs.
Proof. done. Qed.

Lemma vec_block_app cap (xs ys : list T) n :
  length xs + length ys + n = cap →
  vec_block cap (xs ++ ys) = (Live <$> xs) ++ (Live <$> ys) ++ replicate n Raw.
Proof.
  intros <-. unfold vec_block. rewrite fmap_app, <- app_assoc, length_app.
  do 3 f_equal. lia.
Qed.

Lemma fmap_replicate_live n (x : T) :
  Live <$> replicate n x = replicate n (Live x).
Proof. by rewrite fmap_replicate. Qed.

Lemma wp_Vector_Resize st this v (xs : list T) n :
  objs st !! this = Some v → vec_repr (heap st) v xs →
  wp (Vector_Resize this n) st
     (λ _ st', leaked st' = leaked st ∧
        ∃ v', updates this st st' v v'
                (take n xs ++ replicate (n - length xs) value_init) ∧
              size_ v' = n ∧
              (n ≤ capacity_ (data_ v) → data_ v' = data_ v) ∧
              (capacity_ (data_ v) < n → capacity_ (data_ v') = n) ∧
              (n ≤ size_ v → sched st' = sched st))
     (λ st', size_ v < n ∧ leaked st' = leaked st ∧
        ∃ v' ys, updates this st st' v v' ys ∧ size_ v' = size_ v ∧
                 (is_nothrow_move_constructible || is_copy_constructible = true → ys = xs)).
Proof.
  intros Hv Hr. unfold Vector_Resize.
  apply wp_bind. eapply wp_get_obj; [exact Hv|]. apply wp_bind.
  case_bool_decide as Hn.
  - (* growing *)
    eapply wp_seq; [by apply (wp_Vector_Reserve st this v xs n)| |].
    2:{ intros st1 _ (Hc & Hl & ys & Hu & Hys). split_and!; [done..|].
        exists v, ys. done. }
    intros [] st1 _ Hres.
    assert (leaked st1 = leaked st ∧
            ∃ v1, updates this st st1 v v1 xs ∧ size_ v1 = size_ v ∧
                  n ≤ capacity_ (data_ v1) ∧
                  (n ≤ capacity_ (data_ v) → data_ v1 = data_ v) ∧
                  (capacity_ (data_ v) < n → capacity_ (data_ v1) = n))
      as (Hl1 & v1 & Hu1 & Hsz1 & Hcap1 & Hsame & Hnew).
    { destruct Hres as [[Hle ->]|(Hlt & Hl & a & _ & Hu)].
      - split; [done|]. exists v. split_and!; [by apply updates_refl|done..|lia].
      - split; [done|]. exists (mkVector (mkRawMemory (Some a) n) (size_ v)).
        split_and!; norm; [done..|lia|done]. }
    clear Hres. pose proof (updates_objs _ _ _ _ _ _ Hu1) as Hv1.
    pose proof (updates_repr _ _ _ _ _ _ Hu1) as Hr1.
    destruct st1 as [h1 o1 s1 l1]. destruct v1 as [[buf1 cap1] size1]. norm.
    pose proof Hr1 as [Hs1 Hb1]. norm.
    assert (size_ v = length xs) as Hsv by congruence. rewrite Hsv in *.
    clear Hsz1. subst size1.
    apply wp_bind. eapply wp_get_obj; [exact Hv1|]. norm.
    destruct buf1 as [b1|]; [|destruct Hb1; lia].
    destruct Hb1 as (_ & Hle1 & Hb1). norm. unfold vec_block in Hb1.
    rewrite (replicate_split Raw (cap1 - length xs) (n - length xs)) in Hb1 by lia.
    eapply (wp_uninitialized_value_construct_n _ _ _ _ (Live <$> xs)); norm;
      [exact Hb1|by rewrite length_fmap| |].
    + intros s2. eapply wp_set_size; [exact Hv1|]. norm.
      split; [done|].
      exists (mkVector (mkRawMemory (Some b1) cap1) n).
      split_and!; norm; [|done|auto|auto|intros; lia].
      eapply updates_trans; [exact Hu1|]. split_and!; norm.
      * done.
      * split; norm; [rewrite length_app, length_take, length_replicate; lia|].
        rewrite take_ge by lia.
        split_and!; [lia|rewrite length_app, length_replicate; lia|].
        heap_lookup. f_equal.
        rewrite (vec_block_app _ _ _ (cap1 - length xs - (n - length xs)));
          [by rewrite fmap_replicate_live|].
        rewrite length_replicate. lia.
      * intros k b Hk Hkb. norm. heap_lookup.
      * by apply buffer_origin_data.
      * by apply accounted_insert.
    + intros s2. split_and!; [done..|].
      exists (mkVector (mkRawMemory (Some b1) cap1) (length xs)), xs.
      split_and!; [|done..]. eapply updates_trans; [exact Hu1|].
      apply updates_refl; norm; [done| |done..].
      split; norm; [done|]. split_and!; [lia..|].
      rewrite Hb1. f_equal. unfold vec_block. f_equal.
      rewrite <- replicate_add. f_equal. lia.
  - (* shrinking *)
    destruct st as [h o s l]. destruct v as [[buf cap] size]. norm.
    pose proof Hr as [Hs Hb]. norm.
    assert (n ≤ length xs) as Hle by lia.
    assert (length xs ≤ cap) as Hxc.
    { apply vec_repr_size_le in Hr. norm. lia. }
    eapply wp_mono with
      (Q := λ _ st', st' = mkState (set_block h buf (vec_block cap (take n xs))) o s l)
      (E := λ _, False).
    + destruct buf as [b|]; norm.
      * destruct Hb as (Hcap & Hlecap & Hb).
        unfold vec_block in Hb.
        rewrite <- (take_drop n xs), fmap_app, <- app_assoc in Hb.
        eapply (wp_destroy_n (drop n xs)); norm;
          [exact Hb|rewrite length_fmap, length_take; lia|rewrite length_drop; lia|].
        f_equal. unfold vec_block. rewrite take_drop, length_take.
        rewrite <- replicate_add. unfold set_block. do 3 f_equal. lia.
      * destruct Hb as [-> ->]. simpl in *. subst size.
        assert (n = 0) as -> by lia. by apply wp_ret.
    + intros [] st' _ ->. eapply wp_set_size; [exact Hv|]. norm.
      split; [done|]. exists (mkVector (mkRawMemory buf cap) n).
      split_and!; norm; [|done..|lia|done].
      replace (n - length xs) with 0 by lia. simpl. rewrite app_nil_r.
      split_and!; norm.
      * done.
      * split; norm; [rewrite length_take; lia|].
        destruct buf as [b|]; norm.
        -- destruct Hb as (Hcap & Hlecap & Hb). rewrite length_take.
           split_and!; [lia..|]. heap_lookup.
        -- destruct Hb as [-> ->]. by rewrite take_nil.
      * intros k b Hk Hkb. norm. destruct buf; heap_lookup.
      * by apply buffer_origin_data.
      * destruct buf; simpl; [by apply accounted_insert|by apply accounted_same].
    + done.
Qed.

Lemma wp_T_construct st a i (b : block) ar Q E :
  heap st !! a = Some b → b !! i = Some Raw →
  (∀ s, Q tt (mkState (<[a := <[i:=Live (args_value ar)]> b]> (heap st))
                      (objs st) s (leaked st))) →
  (∀ s, E (mkState (heap st) (objs st) s (leaked st))) →
  wp (T_construct (At a i) ar) st Q E.
Proof.
  destruct st as [h o s l]. norm. intros Ha Hi HQ HE.
  destruct ar as [x|x|x]; simpl; apply wp_bind.
  - apply wp_tick; [|exact HE]. intros s1.
    eapply wp_construct_at; [exact Ha|exact Hi|]. apply HQ.
  - apply wp_tick_unless; [|intros _; exact HE]. intros s1.
    eapply wp_construct_at; [exact Ha|exact Hi|]. apply HQ.
  - apply wp_tick; [|exact HE]. intros s1.
    eapply wp_construct_at; [exact Ha|exact Hi|]. apply HQ.
Qed.

Lemma vec_block_lt cap xs :
  length xs < cap →
  vec_block cap xs = (Live <$> xs) ++ Raw :: replicate (cap - length xs - 1) Raw.
Proof.
  intros Hlt. unfold vec_block. f_equal.
  destruct (cap - length xs) as [|k] eqn:Hk; [lia|]. simpl. by rewrite Nat.sub_0_r.
Qed.

Lemma vec_block_snoc cap xs x :
  vec_block cap (xs ++ [x]) = (Live <$> xs) ++ Live x :: replicate (cap - length xs - 1) Raw.
Proof.
  unfold vec_block. rewrite fmap_app, <- app_assoc, length_app. simpl.
  do 3 f_equal. lia.
Qed.

Lemma vec_repr_cases h buf cap size xs :
  vec_repr h (mkVector (mkRawMemory buf cap) size) xs →
  size = length xs ∧ length xs ≤ cap ∧
  match buf with
  | Some b => h !! b = Some (vec_block cap xs) ∧ 0 < cap
  | None => xs = [] ∧ cap = 0
  end.
Proof.
  intros [Hs Hb]. norm. split; [done|]. destruct buf.
  - destruct Hb as (? & ? & ?). done.
  - destruct Hb as [-> ->]. done.
Qed.

Lemma wp_Vector_EmplaceBack st this v xs ar :
  objs st !! this = Some v → vec_repr (heap st) v xs →
  wp (Vector_EmplaceBack this ar) st
     (λ p st', leaked st' = leaked st ∧
        ∃ v', updates this st st' v v' (xs ++ [args_value ar]) ∧
              size_ v' = S (size_ v) ∧
              capacity_ (data_ v') =
                (if bool_decide (size_ v = capacity_ (data_ v))
                 then if bool_decide (size_ v = 0) then 1 else size_ v * 2
                 else capacity_ (data_ v)) ∧
              (size_ v < capacity_ (data_ v) → data_ v' = data_ v) ∧
              p = RawMemory_GetAddress (data_ v') +ₚ size_ v)
     (λ st', ∃ ys, updates this st st' v v ys ∧
        (is_nothrow_move_constructible || is_copy_constructible = true → ys = xs)).
Proof.
  destruct st as [h o s l]. destruct v as [[buf cap] size]. norm.
  intros Hv Hr. pose proof (vec_repr_cases _ _ _ _ _ Hr) as (Hs & Hle & Hb). subst size.
  unfold Vector_EmplaceBack. apply wp_bind. eapply wp_get_obj; [exact Hv|]. norm.
  assert (∀ s', updates this (mkState h o s l) (mkState h o s' l)
            (mkVector (mkRawMemory buf cap) (length xs))
            (mkVector (mkRawMemory buf cap) (length xs)) xs)
    as Hsame.
  { intros s'. by apply updates_refl. }
  apply wp_bind. case_bool_decide as Hfull.
  - (* the arena is full *)
    set (ncap := if bool_decide (length xs = 0) then 1 else length xs * 2).
    assert (length xs < ncap) as Hncap.
    { unfold ncap. case_bool_decide; lia. }
    apply wp_bind, wp_RawMemory_ctor; [lia| |].
    2:{ intros _ s1. exists xs. split; [apply Hsame|done]. }
    intros _ s1 a Ha. norm.
    assert (buf ≠ Some a) as Hne by (by eapply (vec_repr_fresh _ _ _ _ Hr)).
    apply wp_bind, wp_on_throw, wp_bind.
    apply wp_RawMemory_plus; norm; [lia|].
    rewrite (replicate_split Raw ncap (length xs)) by lia.
    destruct (ncap - length xs) as [|rest] eqn:Hrest; [lia|]. simpl replicate.
    apply wp_bind. eapply wp_T_construct; norm.
    { by heap_lookup. }
    { apply lookup_mid. by rewrite length_replicate. }
    2:{ intros s2. unfold RawMemory_dtor. norm.
        eapply wp_Deallocate; norm; [by heap_lookup|].
        exists xs. split; [|done]. eapply updates_trans; [apply (Hsame s)|].
        apply updates_refl; norm; [done|done| |done].
        rewrite delete_insert_eq. by apply delete_id. }
    intros s2. rewrite insert_mid by (by rewrite length_replicate).
    rewrite insert_insert_eq. apply wp_bind.
    eapply (wp_Vector_InitOnConstruct _ _ _ _ _ xs a ncap); norm;
      [exact Hv| |by heap_lookup|exact Hne| |].
    + eapply vec_repr_frame; [exact Hr|]. norm. intros b bl -> Hbl. by heap_lookup.
    + intros s3 ys Hlen. apply wp_bind.
      eapply (wp_destroy_n_vec _ buf cap ys); norm; [|lia|].
      { destruct buf as [b|].
        - split; [by heap_lookup|lia].
        - destruct Hb as [-> _]. by destruct ys. }
      apply wp_ret. unfold RawMemory_Swap; norm. apply wp_bind.
      eapply wp_set_data; [exact Hv|]. norm. apply wp_bind.
      eapply wp_RawMemory_dtor_raw; norm.
      { destruct buf; [|done]. by heap_lookup. }
      apply wp_ret. apply wp_bind. eapply wp_get_obj; norm; [by rewrite lookup_insert_eq|].
      apply wp_bind. eapply wp_set_size; norm; [by rewrite lookup_insert_eq|]. norm.
      apply wp_ret. split; [done|].
      exists (mkVector (mkRawMemory (Some a) ncap) (length xs + 1)).
      split_and!; norm; [|lia|done|lia|done].
      split_and!; norm.
      * by rewrite insert_insert_eq.
      * split; norm; [rewrite length_app; simpl; lia|].
        rewrite length_app. simpl. split_and!; [lia..|].
        rewrite vec_block_snoc. replace (ncap - length xs - 1) with rest by lia. destruct buf; heap_lookup.
      * intros k b Hk Hkb. norm. destruct buf; heap_lookup.
      * unfold buffer_origin. norm. by right.
      * destruct buf; solve_accounted.
    + intros s3 ys Hlen Hys. unfold RawMemory_dtor. norm.
      eapply wp_Deallocate; norm.
      { destruct buf; heap_lookup. }
      exists ys. split; [|done]. split_and!; norm.
      * by rewrite insert_id.
      * split; norm; [lia|]. destruct buf as [b|].
        -- destruct Hb. split_and!; [lia..|]. heap_lookup.
        -- destruct Hb as [-> ->]. split; [done|]. by destruct ys.
      * intros k b Hk Hkb. norm. destruct buf; heap_lookup.
      * by apply buffer_origin_data.
      * destruct buf as [b|]; [destruct Hb as [Hb _]|]; solve_accounted.
  - (* room is left *)
    destruct buf as [b|]; [|destruct Hb as [-> ->]; simpl in *; lia].
    destruct Hb as [Hb Hcap]. assert (length xs < cap) as Hlt by lia.
    apply wp_bind, wp_RawMemory_plus; norm; [lia|].
    rewrite vec_block_lt in Hb by done.
    apply wp_bind. eapply wp_T_construct; norm;
      [exact Hb|apply lookup_mid; by rewrite length_fmap| |].
    2:{ intros s1. exists xs. split; [apply Hsame|done]. }
    intros s1. apply wp_ret. apply wp_bind. eapply wp_get_obj; [exact Hv|]. norm.
    apply wp_bind. eapply wp_set_size; [exact Hv|]. norm. apply wp_ret.
    split; [done|]. exists (mkVector (mkRawMemory (Some b) cap) (length xs + 1)).
    split_and!; norm; [|lia|done|done|done].
    split_and!; norm.
    + done.
    + split; norm; [rewrite length_app; simpl; lia|].
      rewrite length_app. simpl. split_and!; [lia..|].
      heap_lookup. f_equal. rewrite insert_mid by (by rewrite length_fmap).
      by rewrite vec_block_snoc.
    + intros k bl Hk Hkb. norm. heap_lookup.
    + by apply buffer_origin_data.
    + by apply accounted_insert.
Qed.

Lemma elem_of_live_in (a a' i : nat) (x : T) (b : block) :
  (a', i, x) ∈ live_in a b ↔ a' = a ∧ b !! i = Some (Live x).
Proof.
  unfold live_in. rewrite list_elem_of_omap. split.
  - intros ([j s] & Hin & Hs). apply elem_of_lookup_imap in Hin as (k & s' & Heq & Hk).
    injection Heq as -> ->. destruct s' as [|y]; [done|]. by injection Hs as -> -> ->.
  - intros [-> Hi]. exists (i, Live x). split; [|done].
    apply elem_of_lookup_imap. eauto.
Qed.

Lemma vec_block_full cap xs : length xs = cap → vec_block cap xs = Live <$> xs.
Proof.
  intros <-. unfold vec_block. rewrite Nat.sub_diag. simpl. by rewrite app_nil_r.
Qed.

Lemma vec_block_insert_mid ncap xs1 (x : T) xs2 rest :
  rest = ncap - (length xs1 + length xs2) - 1 →
  vec_block ncap (xs1 ++ x :: xs2) =
  ((Live <$> xs1) ++ [Live x]) ++ (Live <$> xs2) ++ replicate rest Raw.
Proof.
  intros ->. unfold vec_block. rewrite fmap_app, length_app. simpl.
  rewrite <- !app_assoc. simpl. do 4 f_equal. lia.
Qed.

Lemma wp_seq_run {A B} (m : M T A) (f : A → M T B) st Q0 E0 Q E :
  wp m st Q0 E0 →
  (∀ a st', m st = (Ok a, st') → Q0 a st' → wp (f a) st' Q E) →
  (∀ st', m st = (Throw, st') → E0 st' → E st') →
  wp (m ≫= f) st Q E.
Proof.
  intros Hm Hf HE. apply wp_bind. unfold wp in *.
  destruct (m st) as [[a| |] st1]; [| |done].
  - destruct Hm as [HQ Hs]. split; [|done]. by apply Hf.
  - destruct Hm as (HE0 & Hs & Hin). split_and!; [by apply HE|done..].
Qed.

Lemma wp_Vector_ReAllocateEmplace st this buf cap xs count ar :
  objs st !! this = Some (mkVector (mkRawMemory buf cap) (length xs)) →
  vec_repr (heap st) (mkVector (mkRawMemory buf cap) (length xs)) xs →
  cap = length xs → count ≤ length xs →
  wp (Vector_ReAllocateEmplace this count ar) st
     (λ p st', ∃ a,
        heap st !! a = None ∧ p = At a count ∧ leaked st' = leaked st ∧
        objs st' =
          <[this := mkVector
                      (mkRawMemory (Some a)
                         (if bool_decide (length xs = 0) then 1 else length xs * 2))
                      (length xs)]> (objs st) ∧
        heap st' =
          <[a := vec_block (if bool_decide (length xs = 0) then 1 else length xs * 2)
                           (take count xs ++ args_value ar :: drop count xs)]>
            (free_block (heap st) buf))
     (λ st', objs st' = objs st ∧
        ∃ ys, length ys = length xs ∧
          heap st' = set_block (heap st) buf (vec_block cap ys) ∧
          (is_nothrow_move_constructible || is_copy_constructible = true → ys = xs) ∧
          (is_nothrow_move_constructible || negb is_copy_constructible = false →
           ∃ ext, leaked st' = leaked st ++ ext ∧
                  ∀ a i x, (a, i, x) ∈ ext →
                    heap st !! a = None ∧ i < count ∧ xs !! i = Some x)).
Proof.
  destruct st as [h o s l]. norm. intros Hv Hr -> Hcount.
  pose proof (vec_repr_cases _ _ _ _ _ Hr) as (_ & _ & Hb).
  set (ncap := if bool_decide (length xs = 0) then 1 else length xs * 2).
  assert (length xs < ncap) as Hncap.
  { unfold ncap. case_bool_decide; lia. }
  assert (set_block h buf (vec_block (length xs) xs) = h) as Hid.
  { destruct buf as [b|]; [|done]. destruct Hb as [Hb _]. by apply insert_id. }
  unfold Vector_ReAllocateEmplace. apply wp_bind. eapply wp_get_obj; [exact Hv|]. norm.
  fold ncap. apply wp_bind, wp_RawMemory_ctor; [lia| |].
  2:{ intros _ s1. split; [done|]. exists xs. split_and!; [done|by rewrite Hid|done|].
      intros _. exists []. split; [by rewrite app_nil_r|]. by intros ??? ?%elem_of_nil. }
  intros _ s1 a Ha. norm.
  assert (buf ≠ Some a) as Hne by (by eapply (vec_repr_fresh _ _ _ _ Hr)).
  (* the new block, cut at the place of the new element *)
  remember (take count xs) as xs1 eqn:Hx1. remember (drop count xs) as xs2 eqn:Hx2.
  assert (length xs1 = count) as Hl1 by (subst xs1; rewrite length_take; lia).
  assert (length xs2 = length xs - count) as Hl2 by (subst xs2; by rewrite length_drop).
  assert (xs = xs1 ++ xs2) as Hxs by (subst xs1 xs2; by rewrite take_drop).
  assert (replicate ncap (@Raw T) =
          replicate count Raw ++ Raw :: replicate (length xs2) Raw ++
          replicate (ncap - length xs - 1) Raw) as Hraw.
  { change (Raw :: ?k) with (replicate 1 (@Raw T) ++ k).
    rewrite <- !replicate_add. f_equal. lia. }
  rewrite Hraw.
  apply wp_bind, wp_on_throw. apply wp_bind, wp_RawMemory_plus; norm; [lia|].
  apply wp_bind. eapply wp_T_construct; norm.
  { by heap_lookup. }
  { apply lookup_mid. by rewrite length_replicate. }
  2:{ intros s2. unfold RawMemory_dtor. norm.
      eapply wp_Deallocate; norm; [by heap_lookup|].
      rewrite <- Hraw, live_in_raw, app_nil_r, delete_insert_eq, delete_id by done.
      split; [done|]. exists xs. split_and!; [done|by rewrite Hid|done|].
      intros _. exists []. split; [by rewrite app_nil_r|]. by intros ??? ?%elem_of_nil. }
  intros s2. rewrite insert_mid by (by rewrite length_replicate).
  rewrite insert_insert_eq.
  (* after the relocation: the new block is complete, the old one holds [ys] *)
  eapply wp_seq with
    (Q0 := λ _ st', ∃ s' ys, length ys = length xs ∧
       st' = mkState (<[a := vec_block ncap (xs1 ++ args_value ar :: xs2)]>
                        (set_block h buf (vec_block (length xs) ys))) o s' l)
    (E0 := λ st', ∃ s' ys blk, length ys = length xs ∧
       (is_nothrow_move_constructible || is_copy_constructible = true → ys = xs) ∧
       (is_nothrow_move_constructible || negb is_copy_constructible = false →
        ∀ i x, blk !! i = Some (Live x) → i < count ∧ xs !! i = Some x) ∧
       st' = mkState (<[a := blk]> (set_block h buf (vec_block (length xs) ys))) o s' l).
  - (* the relocation *)
    destruct buf as [b|]; norm.
    + destruct Hb as [Hb _]. rewrite vec_block_full in Hb by done.
      destruct (is_nothrow_move_constructible || negb is_copy_constructible) eqn:Hmv.
      * apply wp_bind.
        eapply (wp_uninitialized_move_n xs1 _ b 0 a 0 count [] (Live <$> xs2) []);
          norm; [naive_solver| | |done|done|done| |].
        { heap_lookup. rewrite Hb. simpl. by rewrite Hxs at 1; rewrite fmap_app. }
        { by heap_lookup. }
        2:{ intros Hnt s3 ys1 Hys1. exists s3, (ys1 ++ xs2); eexists.
            split_and!; [rewrite length_app; lia| | |].
            - rewrite Hnt in *. simpl in *. intros Hc. by rewrite Hc in Hmv.
            - intros [=].
            - f_equal. rewrite insert_insert_ne by congruence. f_equal.
              rewrite vec_block_full by (rewrite length_app; lia).
              by rewrite fmap_app. }
        intros s3. apply wp_bind. eapply wp_Vector_begin; [exact Hv|]. norm.
        simpl app.
        eapply (wp_uninitialized_move_n xs2 _ b count a (count + 1) _
                  (Live <$> (moved_from <$> xs1)) []
                  ((Live <$> xs1) ++ [Live (args_value ar)]));
          norm; [naive_solver| | | | |lia| |].
        { heap_lookup. by rewrite app_nil_r. }
        { heap_lookup. rewrite <- app_assoc, Hl2. reflexivity. }
        { by rewrite !length_fmap. }
        { rewrite length_app, length_fmap. simpl. lia. }
        -- intros s4. exists s4, ((moved_from <$> xs1) ++ (moved_from <$> xs2)).
           split; [rewrite length_app, !length_fmap; lia|]. f_equal.
           rewrite (vec_block_full (length xs)) by (rewrite length_app, !length_fmap; lia).
           rewrite (vec_block_insert_mid ncap xs1 _ xs2 (ncap - length xs - 1)) by lia.
           unfold set_block. rewrite !fmap_app, !app_nil_r.
           heap_eq.
        -- intros Hnt s4 ys2 Hys2. exists s4, ((moved_from <$> xs1) ++ ys2); eexists.
           split_and!; [rewrite length_app, length_fmap; lia| | |].
           ++ rewrite Hnt in *. simpl in *. intros Hc. by rewrite Hc in Hmv.
           ++ intros [=].
           ++ f_equal.
              rewrite vec_block_full by (rewrite length_app, length_fmap; lia).
              rewrite fmap_app, app_nil_r. heap_eq.
      * apply wp_on_throw. apply wp_bind. eapply wp_Vector_begin; [exact Hv|]. norm.
        apply wp_bind.
        eapply (wp_uninitialized_copy_n xs1 _ b 0 a 0 count [] (Live <$> xs2) []);
          norm; [naive_solver| | |done|done|done| |].
        { heap_lookup. rewrite Hb. simpl. by rewrite Hxs at 1; rewrite fmap_app. }
        { by heap_lookup. }
        2:{ intros s3. simpl destroy_n. apply wp_bind.
            eapply wp_destroy_at; norm; [by heap_lookup| |].
            { apply lookup_mid. by rewrite length_replicate. }
            apply wp_ret. rewrite insert_mid by (by rewrite length_replicate).
            rewrite insert_insert_eq. exists s3, xs, (replicate ncap Raw).
            split_and!; [done|done| |].
            - intros _ i x Hi.
              apply lookup_replicate in Hi as [? _]. done.
            - f_equal. rewrite <- Hraw. rewrite vec_block_full by done. heap_eq. }
        intros s3. apply wp_bind. eapply wp_Vector_begin; [exact Hv|]. norm.
        simpl app. rewrite insert_insert_eq.
        eapply (wp_uninitialized_copy_n xs2 _ b count a (count + 1) _
                  (Live <$> xs1) []
                  ((Live <$> xs1) ++ [Live (args_value ar)]));
          norm; [naive_solver| | | | |lia| |].
        { heap_lookup. rewrite Hb, app_nil_r. by rewrite Hxs at 1; rewrite fmap_app. }
        { heap_lookup. rewrite <- app_assoc, Hl2. reflexivity. }
        { by rewrite length_fmap. }
        { rewrite length_app, length_fmap. simpl. lia. }
        -- intros s4. exists s4, xs. split; [done|]. f_equal.
           rewrite (vec_block_insert_mid ncap xs1 _ xs2 (ncap - length xs - 1)) by lia.
           rewrite vec_block_full by done. heap_eq.
        -- intros s4. simpl destroy_n. apply wp_bind.
           eapply wp_destroy_at; norm; [by heap_lookup| |].
           { apply lookup_mid. by rewrite length_fmap. }
           apply wp_ret. rewrite insert_mid by (by rewrite length_fmap).
           rewrite insert_insert_eq.
           exists s4, xs, ((Live <$> xs1) ++ Raw :: replicate (length xs2) Raw ++
                           replicate (ncap - length xs - 1) Raw).
           split_and!; [done|done| |].
           ++ intros _ i x Hi. destruct (decide (i < count)) as [Hlt|Hge].
              { split; [done|]. rewrite lookup_app_l in Hi by (rewrite length_fmap; lia).
                rewrite list_lookup_fmap in Hi. rewrite Hxs.
                apply lookup_app_l_Some.
                destruct (xs1 !! i) as [y|]; simpl in Hi; [|done]. by injection Hi as ->. }
              rewrite lookup_app_r in Hi by (rewrite length_fmap; lia).
              rewrite length_fmap, Hl1 in Hi.
              destruct (i - count) as [|j]; [done|]. simpl in Hi.
              rewrite <- replicate_add in Hi.
              apply lookup_replicate in Hi as [? _]. done.
           ++ f_equal. rewrite vec_block_full by done. heap_eq.
    + destruct Hb as [Hnil _]. clear Hx1 Hx2. subst xs.
      symmetry in Hxs. apply app_eq_nil in Hxs as [-> ->]. simpl in *. subst count.
      simpl in *.
      assert (∃ (s' : list bool) (ys : list T), length ys = 0 ∧
                mkState (<[a:=[Live (args_value ar)]]> h) o s2 l =
                mkState (<[a:=vec_block ncap [args_value ar]]> h) o s' l) as Hret.
      { exists s2, []. split; [done|]. do 2 f_equal. }
      destruct (is_nothrow_move_constructible || negb is_copy_constructible).
      * apply wp_bind, wp_ret. apply wp_bind. eapply wp_Vector_begin; [exact Hv|]. norm.
        by apply wp_ret.
      * apply wp_on_throw. apply wp_bind. eapply wp_Vector_begin; [exact Hv|]. norm.
        apply wp_bind, wp_ret. apply wp_bind. eapply wp_Vector_begin; [exact Hv|]. norm.
        apply wp_ret. exact Hret.
  - (* the old elements are destroyed and the arenas swapped *)
    intros [] st' _ (s' & ys & Hlen & ->).
    apply wp_bind.
    eapply (wp_destroy_n_vec _ buf (length xs) ys); norm; [|lia|].
    { destruct buf as [b|].
      - split; [by heap_lookup|lia].
      - destruct Hb as [Hnil _]. rewrite Hnil in Hlen. by destruct ys. }
    apply wp_ret. unfold RawMemory_Swap; norm. apply wp_bind.
    eapply wp_set_data; [exact Hv|]. norm. apply wp_bind.
    eapply wp_RawMemory_dtor_raw; norm.
    { destruct buf; [|done]. by heap_lookup. }
    apply wp_ret. exists a. split_and!; [done..|]. norm.
    destruct buf; heap_eq.
  - (* an exception during the relocation: the new arena is released *)
    intros st' _ (s' & ys & blk & Hlen & Hys & Hblk & ->).
    unfold RawMemory_dtor. norm. eapply wp_Deallocate; norm.
    { destruct buf; heap_lookup. }
    split; [done|]. exists ys. split_and!; [done| |done|].
    + destruct buf; heap_eq.
    + intros Hcp. exists (live_in a blk). split; [done|].
      intros a' i x [-> Hi]%elem_of_live_in. split; [done|]. by eapply Hblk.
Qed.

Implicit Types (blk : block).

Lemma shape_length blk : length (shape blk) = length blk.
Proof. unfold shape. by rewrite length_fmap. Qed.

Lemma shape_insert_lookup blk i (s : slot T) j :
  i < length blk →
  shape (<[i:=s]> blk) !! j = if decide (i = j) then Some (is_live s) else shape blk !! j.
Proof.
  intros Hi. unfold shape. rewrite list_fmap_insert, list_lookup_insert.
  rewrite length_fmap. destruct (decide (i = j)) as [->|].
  - by rewrite decide_True.
  - rewrite decide_False; [done|]. by intros [? _].
Qed.

Lemma prefix_lookup k cap i :
  k ≤ cap → i < cap →
  (replicate k true ++ replicate (cap - k) false) !! i = Some (bool_decide (i < k)).
Proof.
  intros Hk Hi. destruct (decide (i < k)).
  - rewrite lookup_app_l by (rewrite length_replicate; lia).
    rewrite bool_decide_eq_true_2 by done. by apply lookup_replicate_2.
  - rewrite lookup_app_r by (rewrite length_replicate; lia).
    rewrite bool_decide_eq_false_2 by done. apply lookup_replicate_2.
    rewrite length_replicate. lia.
Qed.

Lemma shape_prefix_lookup blk k cap i :
  shape blk = replicate k true ++ replicate (cap - k) false → k ≤ cap → i < cap →
  shape blk !! i = Some (bool_decide (i < k)).
Proof. intros -> Hk Hi. by apply prefix_lookup. Qed.

Lemma shape_prefix_intro blk k cap :
  length blk = cap → k ≤ cap →
  (∀ i, i < cap → shape blk !! i = Some (bool_decide (i < k))) →
  shape blk = replicate k true ++ replicate (cap - k) false.
Proof.
  intros Hlen Hk Hi. apply list_eq. intros i.
  destruct (decide (i < cap)) as [Hlt|Hge].
  - rewrite Hi by done. symmetry. by apply prefix_lookup.
  - rewrite !lookup_ge_None_2; [done| |].
    + rewrite length_app, !length_replicate. lia.
    + rewrite shape_length. lia.
Qed.

Lemma vec_block_length cap xs : length xs ≤ cap → length (vec_block cap xs) = cap.
Proof.
  intros. unfold vec_block. rewrite length_app, length_fmap, length_replicate. lia.
Qed.

Lemma vec_block_shape cap xs :
  shape (vec_block cap xs) = replicate (length xs) true ++ replicate (cap - length xs) false.
Proof. apply shape_lives_raws. Qed.

Lemma shape_vec_block blk k cap :
  length blk = cap → k ≤ cap →
  (∀ i, i < cap → shape blk !! i = Some (bool_decide (i < k))) →
  ∃ ys, length ys = k ∧ blk = vec_block cap ys.
Proof.
  intros Hlen Hk Hi.
  destruct (shape_inv blk k (cap - k)) as (ys & Hys & ->); [by apply shape_prefix_intro|].
  exists ys. split; [done|]. unfold vec_block. by rewrite Hys.
Qed.

Lemma wp_Vector_NoAllocateEmplace_shift st this b cap xs count :
  objs st !! this = Some (mkVector (mkRawMemory (Some b) cap) (length xs)) →
  vec_repr (heap st) (mkVector (mkRawMemory (Some b) cap) (length xs)) xs →
  length xs < cap → count ≤ length xs →
  wp (Vector_NoAllocateEmplace_shift this count) st
     (λ _ st', objs st' = objs st ∧ leaked st' = leaked st ∧
        ∃ blk, heap st' = <[b := blk]> (heap st) ∧ length blk = cap ∧
          ∀ i, i < cap →
            shape blk !! i = Some (bool_decide (i < length xs + 1 ∧ i ≠ count)))
     (λ st', objs st' = objs st ∧ leaked st' = leaked st ∧
        ∃ ys, length ys = length xs ∧
          heap st' = <[b := vec_block cap ys]> (heap st)).
Proof.
  destruct st as [h o s l]. norm. intros Hv Hr Hlt Hcount.
  pose proof (vec_repr_cases _ _ _ _ _ Hr) as (_ & _ & Hb & Hcap).
  set (n := length xs) in *.
  pose proof (vec_block_length cap xs ltac:(lia)) as Hlen0.
  pose proof (λ i, shape_prefix_lookup _ _ cap i (vec_block_shape cap xs) ltac:(lia)) as Hsh0.
  fold n in Hsh0.
  unfold Vector_NoAllocateEmplace_shift. apply wp_bind.
  eapply wp_get_obj; [exact Hv|]. norm. fold n.
  case_bool_decide as Hn.
  2:{ apply wp_ret. split_and!; [done..|]. exists (vec_block cap xs).
      split_and!; [by rewrite insert_id|done|]. intros i Hi. rewrite Hsh0 by done.
      f_equal. apply bool_decide_ext. lia. }
  apply wp_bind, wp_RawMemory_plus; norm; [lia|].
  apply wp_bind. eapply wp_Vector_end; [exact Hv|]. norm. fold n.
  apply wp_bind, wp_ptr_dec'; [lia|].
  destruct (proj1 (shape_lookup_live (vec_block cap xs) (n - 1))) as [x Hx].
  { rewrite Hsh0 by lia. f_equal. apply bool_decide_eq_true_2. lia. }
  assert (vec_block cap xs !! n = Some Raw) as Hraw.
  { apply shape_lookup_raw. rewrite Hsh0 by lia. f_equal.
    apply bool_decide_eq_false_2. lia. }
  set (blk1 := <[n - 1:=Live (moved_from x)]> (<[n:=Live x]> (vec_block cap xs))).
  assert (length blk1 = cap) as Hlen1 by (unfold blk1; by rewrite !length_insert).
  assert (∀ i, i < cap → shape blk1 !! i = Some (bool_decide (i < n + 1))) as Hsh1.
  { intros i Hi. unfold blk1.
    rewrite shape_insert_lookup by (rewrite length_insert; lia).
    destruct (decide (n - 1 = i)) as [<-|].
    { simpl. f_equal. symmetry. apply bool_decide_eq_true_2. lia. }
    rewrite shape_insert_lookup by lia.
    destruct (decide (n = i)) as [<-|].
    { simpl. f_equal. symmetry. apply bool_decide_eq_true_2. lia. }
    rewrite Hsh0 by done. f_equal. apply bool_decide_ext. lia. }
  apply wp_bind. eapply wp_T_move_construct; norm.
  { exact Hb. }
  { exact Hx. }
  { exact Hb. }
  { exact Hraw. }
  { by rewrite lookup_insert_eq. }
  { rewrite list_lookup_insert_ne by lia. exact Hx. }
  2:{ intros _ s1. split_and!; [done..|]. exists xs. split; [done|]. by rewrite insert_id. }
  intros s1. rewrite insert_insert_eq. fold blk1.
  apply wp_bind, wp_on_throw. apply wp_bind. eapply wp_Vector_begin; [exact Hv|]. norm.
  apply wp_bind. eapply wp_Vector_end; [exact Hv|]. norm. fold n.
  eapply (wp_move_backward _ b count n (n + 1) blk1); norm.
  { by rewrite lookup_insert_eq. }
  { lia. }
  { lia. }
  { intros k Hk. rewrite Hsh1 by lia. f_equal. apply bool_decide_eq_true_2. lia. }
  { intros k Hk. rewrite Hsh1 by lia. f_equal. apply bool_decide_eq_true_2. lia. }
  - intros s2 blk2 Hsh2. rewrite insert_insert_eq.
    apply wp_bind. eapply wp_Vector_begin; [exact Hv|]. norm.
    assert (length blk2 = cap) as Hlen2.
    { rewrite <- shape_length, Hsh2, shape_length. done. }
    destruct (proj1 (shape_lookup_live blk2 count)) as [y Hy].
    { rewrite Hsh2, Hsh1 by lia. f_equal. apply bool_decide_eq_true_2. lia. }
    eapply wp_destroy_at; norm; [by rewrite lookup_insert_eq|exact Hy|].
    rewrite insert_insert_eq. split_and!; [done..|]. eexists. split_and!; [done| |].
    + by rewrite length_insert.
    + intros i Hi. rewrite shape_insert_lookup by lia.
      destruct (decide (count = i)) as [<-|].
      * simpl. f_equal. symmetry. apply bool_decide_eq_false_2. lia.
      * rewrite Hsh2, Hsh1 by done. f_equal. apply bool_decide_ext. lia.
  - intros Hnt s2 blk2 Hsh2. rewrite insert_insert_eq.
    apply wp_bind. eapply wp_Vector_end; [exact Hv|]. norm. fold n.
    assert (length blk2 = cap) as Hlen2.
    { rewrite <- shape_length, Hsh2, shape_length. done. }
    destruct (proj1 (shape_lookup_live blk2 n)) as [y Hy].
    { rewrite Hsh2, Hsh1 by lia. f_equal. apply bool_decide_eq_true_2. lia. }
    simpl destroy_n. apply wp_bind.
    eapply wp_destroy_at; norm; [by rewrite lookup_insert_eq|exact Hy|].
    apply wp_ret. rewrite insert_insert_eq. split_and!; [done..|].
    destruct (shape_vec_block (<[n:=Raw]> blk2) n cap) as (ys & Hys & Hblk).
    + by rewrite length_insert.
    + lia.
    + intros i Hi. rewrite shape_insert_lookup by lia.
      destruct (decide (n = i)) as [<-|].
      * simpl. f_equal. symmetry. apply bool_decide_eq_false_2. lia.
      * rewrite Hsh2, Hsh1 by done. f_equal. apply bool_decide_ext. lia.
    + exists ys. split; [done|]. by rewrite Hblk.
Qed.



Lemma wp_Vector_NoAllocateEmplace st this b cap xs count ar :
  objs st !! this = Some (mkVector (mkRawMemory (Some b) cap) (length xs)) →
  vec_repr (heap st) (mkVector (mkRawMemory (Some b) cap) (length xs)) xs →
  length xs < cap → count ≤ length xs →
  wp (Vector_NoAllocateEmplace this count ar) st
     (λ p st', p = At b count ∧ objs st' = objs st ∧ leaked st' = leaked st ∧
        ∃ ys, length ys = length xs + 1 ∧
          heap st' = <[b := vec_block cap ys]> (heap st))
     (λ st', objs st' = objs st ∧ leaked st' = leaked st ∧
        ((∃ ys, length ys = length xs ∧
            heap st' = <[b := vec_block cap ys]> (heap st)) ∨
         (length xs ≠ 0 ∧ count < length xs ∧
          ∃ st1, Vector_NoAllocateEmplace_shift this count st = (Ok tt, st1)))).
Proof.
  intros Hv Hr Hlt Hcount. unfold Vector_NoAllocateEmplace.
  eapply wp_seq_run; [by eapply wp_Vector_NoAllocateEmplace_shift| |].
  2:{ intros st' _ (Ho & Hl & ys & Hys & Hh). split_and!; [done..|]. left. by exists ys. }
  intros [] st1 Hrun (Ho & Hl & blk & Hh & Hlen & Hsh).
  destruct st as [h o s l]. destruct st1 as [h1 o1 s1 l1]. norm. subst h1 o1 l1.
  apply wp_bind. eapply wp_get_obj; [exact Hv|]. norm.
  apply wp_bind, wp_RawMemory_plus; norm; [lia|].
  apply wp_bind. eapply wp_T_construct; norm.
  { by rewrite lookup_insert_eq. }
  { apply shape_lookup_raw. rewrite Hsh by lia. f_equal.
    apply bool_decide_eq_false_2. lia. }
  - intros s2. apply wp_ret. rewrite insert_insert_eq. split_and!; [done..|].
    destruct (shape_vec_block (<[count:=Live (args_value ar)]> blk) (length xs + 1) cap)
      as (ys & Hys & Hblk).
    + by rewrite length_insert.
    + lia.
    + intros i Hi. rewrite shape_insert_lookup by lia.
      destruct (decide (count = i)) as [<-|].
      * simpl. f_equal. symmetry. apply bool_decide_eq_true_2. lia.
      * rewrite Hsh by done. f_equal. apply bool_decide_ext. lia.
    + exists ys. split; [done|]. by rewrite Hblk.
  - intros s2. split_and!; [done..|].
    destruct (decide (count < length xs)) as [Hin|Hend].
    + right. split_and!; [lia|done|eauto].
    + left. destruct (shape_vec_block blk (length xs) cap) as (ys & Hys & Hblk); [done|lia| |].
      * intros i Hi. rewrite Hsh by done. f_equal. apply bool_decide_ext. lia.
      * exists ys. split; [lia|]. by rewrite Hblk.
Qed.

(** A position that passes the [assert] of [Emplace]. *)
Lemma valid_pos_inv (buf : option nat) cap size pos :
  ptr_leb (RawMemory_GetAddress (mkRawMemory buf cap)) pos &&
  ptr_leb pos (RawMemory_GetAddress (mkRawMemory buf cap) +ₚ size) = true →
  ptr_diff pos (RawMemory_GetAddress (mkRawMemory buf cap)) ≤ size ∧
  pos = RawMemory_GetAddress (mkRawMemory buf cap) +ₚ
        ptr_diff pos (RawMemory_GetAddress (mkRawMemory buf cap)) ∧
  (buf = None → ptr_diff pos (RawMemory_GetAddress (mkRawMemory buf cap)) = 0).
Proof.
  destruct buf as [b|]; norm; destruct pos as [|a i]; simpl; try done.
  - rewrite !andb_true_iff, !bool_decide_eq_true. intros [[-> _] [_ Hi]].
    split_and!; [lia|f_equal; lia|done].
  - intros _. split_and!; [lia|done|done].
Qed.

Lemma wp_Vector_Emplace st this v xs pos ar :
  objs st !! this = Some v → vec_repr (heap st) v xs →
  ptr_leb (RawMemory_GetAddress (data_ v)) pos &&
  ptr_leb pos (RawMemory_GetAddress (data_ v) +ₚ size_ v) = true →
  let count := ptr_diff pos (RawMemory_GetAddress (data_ v)) in
  wp (Vector_Emplace this pos ar) st
     (λ p st', leaked st' = leaked st ∧
        ∃ v' ys, updates this st st' v v' ys ∧ size_ v' = size_ v + 1 ∧
          p = RawMemory_GetAddress (data_ v') +ₚ count ∧
          (size_ v = capacity_ (data_ v) →
           ys = take count xs ++ args_value ar :: drop count xs ∧
           capacity_ (data_ v') = if bool_decide (size_ v = 0) then 1 else size_ v * 2) ∧
          (size_ v ≠ capacity_ (data_ v) → data_ v' = data_ v))
     (λ st',
        (∃ ys, updates this st st' v v ys ∧
           (size_ v = capacity_ (data_ v) →
            (is_nothrow_move_constructible || is_copy_constructible = true → ys = xs) ∧
            (is_nothrow_move_constructible || negb is_copy_constructible = false →
             ∃ ext, leaked st' = leaked st ++ ext ∧
                    ∀ a i x, (a, i, x) ∈ ext →
                      heap st !! a = None ∧ i < count ∧ xs !! i = Some x))) ∨
        (size_ v ≠ 0 ∧ size_ v ≠ capacity_ (data_ v) ∧ count < size_ v ∧
         ∃ st1, Vector_NoAllocateEmplace_shift this count st = (Ok tt, st1))).
Proof.
  destruct st as [h o s l]. destruct v as [[buf cap] size].
  cbn [heap objs leaked data_ size_ capacity_]. intros Hv Hr Hpos.
  pose proof (vec_repr_cases _ _ _ _ _ Hr) as (Hs & Hle & Hb). subst size.
  destruct (valid_pos_inv _ _ _ _ Hpos) as (Hcount & Hposeq & Hnone).
  set (count := ptr_diff pos (RawMemory_GetAddress (mkRawMemory buf cap))) in *.
  unfold Vector_Emplace. apply wp_bind. eapply wp_Vector_begin; [exact Hv|]. norm.
  apply wp_bind. eapply wp_Vector_end; [exact Hv|]. norm.
  apply wp_bind, wp_assert; [exact Hpos|]. fold count.
  apply wp_bind. eapply wp_get_obj; [exact Hv|]. norm.
  case_bool_decide as Hfull.
  - (* reallocation *)
    subst cap.
    eapply wp_seq;
      [exact (wp_Vector_ReAllocateEmplace (mkState h o s l) this buf _ xs count ar
                Hv Hr eq_refl Hcount)| |].
    + intros p [h1 o1 s1 l1] _ (a & Ha & -> & Hl & Ho & Hh). norm. subst h1 o1 l1.
      apply wp_bind. eapply wp_get_obj; norm; [by rewrite lookup_insert_eq|]. norm.
      apply wp_bind. eapply wp_set_size; norm; [by rewrite lookup_insert_eq|]. norm.
      apply wp_ret. split; [done|].
      set (ncap := if bool_decide (length xs = 0) then 1 else length xs * 2).
      assert (length xs < ncap) as Hncap by (unfold ncap; case_bool_decide; lia).
      exists (mkVector (mkRawMemory (Some a) ncap) (length xs + 1)),
             (take count xs ++ args_value ar :: drop count xs).
      assert (length (take count xs ++ args_value ar :: drop count xs) = length xs + 1) as Hlen.
      { rewrite length_app, length_take. simpl. rewrite length_drop. lia. }
      split_and!; norm; [|done|done|done|done].
      split_and!; norm.
      * by rewrite insert_insert_eq.
      * split; norm; [done|]. rewrite Hlen. split_and!; [lia..|]. by rewrite lookup_insert_eq.
      * intros k bl Hk Hkb. norm. destruct buf; heap_lookup.
      * unfold buffer_origin. norm. by right.
      * by apply (accounted_realloc h a _ (mkVector (mkRawMemory buf (length xs)) (length xs))).
    + intros [h1 o1 s1 l1] _ (Ho & ys & Hys & Hh & Hcopy & Hleak). norm. subst h1 o1.
      left. exists ys. split; [|done]. split_and!; norm.
      * by rewrite insert_id.
      * split; norm; [done|]. destruct buf as [b|].
        -- destruct Hb. split_and!; [lia..|]. heap_lookup.
        -- destruct Hb as [-> _]. split; [done|]. by destruct ys.
      * intros k bl Hk Hkb. norm. destruct buf; heap_lookup.
      * by apply buffer_origin_data.
      * destruct buf; simpl; [by apply accounted_insert|by apply accounted_same].
  - (* in place *)
    destruct buf as [b|]; [|destruct Hb as [-> ->]; done].
    destruct Hb as [Hb Hcap]. assert (length xs < cap) as Hlt by lia.
    eapply wp_seq;
      [exact (wp_Vector_NoAllocateEmplace (mkState h o s l) this b cap xs count ar
                Hv Hr Hlt Hcount)| |].
    + intros p [h1 o1 s1 l1] _ (-> & Ho & Hl & ys & Hys & Hh). norm. subst h1 o1 l1.
      apply wp_bind. eapply wp_get_obj; [exact Hv|]. norm.
      apply wp_bind. eapply wp_set_size; [exact Hv|]. norm.
      apply wp_ret. split; [done|].
      exists (mkVector (mkRawMemory (Some b) cap) (length xs + 1)), ys.
      split_and!; norm; [|done|done|done|done].
      split_and!; norm.
      * done.
      * split; norm; [done|]. split_and!; [lia..|]. by rewrite lookup_insert_eq.
      * intros k bl Hk Hkb. norm. heap_lookup.
      * by apply buffer_origin_data.
      * by apply accounted_insert.
    + intros [h1 o1 s1 l1] _ (Ho & Hl & [(ys & Hys & Hh)|(Hnz & Hin & Hshift)]); norm.
      * subst h1 o1. left. exists ys. split; [|done]. split_and!; norm.
        -- by rewrite insert_id.
        -- split; norm; [done|]. split_and!; [lia..|]. by rewrite lookup_insert_eq.
        -- intros k bl Hk Hkb. norm. heap_lookup.
        -- by apply buffer_origin_data.
        -- by apply accounted_insert.
      * right. done.
Qed.


(** [Emplace] on a full vector, with the blocks of the final state. *)
Lemma wp_Vector_Emplace_full st this buf xs pos ar :
  let v := mkVector (mkRawMemory buf (length xs)) (length xs) in
  objs st !! this = Some v → vec_repr (heap st) v xs →
  ptr_leb (RawMemory_GetAddress (data_ v)) pos &&
  ptr_leb pos (RawMemory_GetAddress (data_ v) +ₚ size_ v) = true →
  let count := ptr_diff pos (RawMemory_GetAddress (data_ v)) in
  let ncap := if bool_decide (length xs = 0) then 1 else length xs * 2 in
  wp (Vector_Emplace this pos ar) st
     (λ p st', ∃ a,
        heap st !! a = None ∧ p = At a count ∧ leaked st' = leaked st ∧
        objs st' =
          <[this := mkVector (mkRawMemory (Some a) ncap) (length xs + 1)]> (objs st) ∧
        heap st' =
          <[a := vec_block ncap (take count xs ++ args_value ar :: drop count xs)]>
            (free_block (heap st) buf))
     (λ st', objs st' = objs st ∧
        ∃ ys, length ys = length xs ∧
          heap st' = set_block (heap st) buf (vec_block (length xs) ys) ∧
          (is_nothrow_move_constructible || is_copy_constructible = true → ys = xs) ∧
          (is_nothrow_move_constructible || negb is_copy_constructible = false →
           ∃ ext, leaked st' = leaked st ++ ext ∧
                  ∀ a i x, (a, i, x) ∈ ext →
                    heap st !! a = None ∧ i < count ∧ xs !! i = Some x)).
Proof.
  intros v. subst v. destruct st as [h o s l].
  cbn [heap objs leaked data_ size_ capacity_]. intros Hv Hr Hpos.
  destruct (valid_pos_inv _ _ _ _ Hpos) as (Hcount & Hposeq & Hnone).
  set (count := ptr_diff pos (RawMemory_GetAddress (mkRawMemory buf (length xs)))) in *.
  unfold Vector_Emplace. apply wp_bind. eapply wp_Vector_begin; [exact Hv|]. norm.
  apply wp_bind. eapply wp_Vector_end; [exact Hv|]. norm.
  apply wp_bind, wp_assert; [exact Hpos|]. fold count.
  apply wp_bind. eapply wp_get_obj; [exact Hv|]. norm.
  rewrite bool_decide_eq_true_2 by done.
  eapply wp_seq;
    [exact (wp_Vector_ReAllocateEmplace (mkState h o s l) this buf _ xs count ar
              Hv Hr eq_refl Hcount)| |].
  - intros p [h1 o1 s1 l1] _ (a & Ha & -> & Hl & Ho & Hh). norm. subst h1 o1 l1.
    apply wp_bind. eapply wp_get_obj; norm; [by rewrite lookup_insert_eq|]. norm.
    apply wp_bind. eapply wp_set_size; norm; [by rewrite lookup_insert_eq|]. norm.
    apply wp_ret. exists a. split_and!; norm; try done.
    by rewrite insert_insert_eq.
  - intros st' _ HE. exact HE.
Qed.

Lemma wp_noexcept_if {A} (m : M T A) st Q E (P : Prop) :
  wp m st Q (λ _, P) → ¬ P → wp (noexcept m) st Q E.
Proof.
  intros Hm HP. apply wp_noexcept. eapply wp_mono; [exact Hm|done|]. by intros.
Qed.

Lemma updates_heap this st st' v ys b cap n :
  objs st !! this = Some v →
  v = mkVector (mkRawMemory (Some b) cap) n →
  heap st' = <[b := vec_block cap ys]> (heap st) → objs st' = objs st →
  length ys = n → 0 < cap → n ≤ cap →
  updates this st st' v v ys.
Proof.
  intros Hv -> Hh Ho Hlen Hcap Hle. split_and!.
  - by rewrite Ho, insert_id.
  - rewrite Hh. split; norm; [done|]. split_and!; [lia..|]. by rewrite lookup_insert_eq.
  - intros k bl Hk Hkb. norm. rewrite Hh. heap_lookup.
  - by apply buffer_origin_data.
  - rewrite Hh. by apply accounted_insert.
Qed.

Lemma Vector_Erase_body st this b cap xs count :
  objs st !! this = Some (mkVector (mkRawMemory (Some b) cap) (length xs)) →
  vec_repr (heap st) (mkVector (mkRawMemory (Some b) cap) (length xs)) xs →
  count < length xs →
  ∃ m, Vector_Erase this (At b count) = noexcept m ∧
    wp m st
      (λ p st', p = At b count ∧ leaked st' = leaked st ∧
         ∃ ys, updates this st st'
                 (mkVector (mkRawMemory (Some b) cap) (length xs))
                 (mkVector (mkRawMemory (Some b) cap) (length xs - 1)) ys)
      (λ _, is_nothrow_move_assignable = false).
Proof.
  destruct st as [h o s l]. norm. intros Hv Hr Hcount.
  pose proof (vec_repr_cases _ _ _ _ _ Hr) as (_ & Hle & Hb & Hcap).
  eexists. split; [reflexivity|]. cbv beta.
  apply wp_bind. eapply wp_Vector_begin; [exact Hv|]. norm.
  apply wp_bind. eapply wp_Vector_end; [exact Hv|]. norm.
  apply wp_bind, wp_assert.
  { simpl. rewrite !bool_decide_eq_true_2 by lia. done. }
  apply wp_bind, wp_ptr_dec'; [lia|].
  apply wp_bind. simpl ptr_add.
  pose proof (vec_block_length cap xs Hle) as Hlen0.
  pose proof (λ i, shape_prefix_lookup _ _ cap i (vec_block_shape cap xs) Hle) as Hsh0.
  eapply (wp_move_backward _ b _ (length xs) (length xs - 1) (vec_block cap xs));
    simpl ptr_diff; norm.
  { exact Hb. }
  { lia. }
  { lia. }
  { intros k Hk. rewrite Hsh0 by lia. f_equal. apply bool_decide_eq_true_2. lia. }
  { intros k Hk. rewrite Hsh0 by lia. f_equal. apply bool_decide_eq_true_2. lia. }
  2:{ done. }
  intros s1 blk1 Hsh1.
  destruct (shape_vec_block blk1 (length xs) cap) as (ys & Hys & ->).
  { rewrite <- shape_length, Hsh1, shape_length. done. }
  { done. }
  { intros i Hi. rewrite Hsh1. by apply Hsh0. }
  assert (updates this (mkState h o s l)
            (mkState (<[b:=vec_block cap ys]> h) o s1 l)
            (mkVector (mkRawMemory (Some b) cap) (length xs))
            (mkVector (mkRawMemory (Some b) cap) (length xs)) ys) as Hu1.
  { eapply updates_heap; norm; [exact Hv|reflexivity|done..]. }
  pose proof (updates_repr _ _ _ _ _ _ Hu1) as Hr1. norm.
  eapply wp_seq; [eapply (wp_Vector_PopBack _ this _ ys); norm; [exact Hv|exact Hr1]| |done].
  intros [] [h2 o2 s2 l2] _ (Hs2 & Hl2 & Hu2). norm. subst s2 l2.
  apply wp_bind. eapply wp_Vector_begin; [by eapply updates_objs|]. norm.
  apply wp_ret. split_and!; [f_equal; lia|done|].
  exists (removelast ys). eapply updates_trans; [exact Hu1|exact Hu2].
Qed.

Lemma vector_eta v : mkVector (data_ v) (size_ v) = v.
Proof. by destruct v. Qed.

Lemma raw_memory_eta (r : RawMemory) : mkRawMemory (buffer_ r) (capacity_ r) = r.
Proof. by destruct r. Qed.

Lemma wp_Vector_Swap st this other t o Q E :
  objs st !! this = Some t → objs st !! other = Some o →
  Q tt (mkState (heap st) (<[other := t]> (<[this := o]> (objs st))) (sched st) (leaked st)) →
  wp (Vector_Swap this other) st Q E.
Proof.
  destruct st as [h ob s l]. norm. intros Ht Ho HQ. unfold Vector_Swap.
  apply wp_bind. eapply wp_get_obj; [exact Ht|].
  apply wp_bind. eapply wp_get_obj; [exact Ho|].
  unfold RawMemory_Swap. rewrite !raw_memory_eta.
  destruct (decide (this = other)) as [<-|Hne].
  - assert (o = t) as -> by congruence.
    apply wp_bind. eapply wp_set_data; [exact Ht|]. norm.
    apply wp_bind. eapply wp_set_data; norm; [by rewrite lookup_insert_eq|]. norm.
    apply wp_bind. eapply wp_set_size; norm; [by rewrite lookup_insert_eq|]. norm.
    eapply wp_set_size; norm; [by rewrite lookup_insert_eq|]. norm.
    rewrite !insert_insert_eq, vector_eta. by rewrite insert_insert_eq in HQ.
  - apply wp_bind. eapply wp_set_data; [exact Ht|]. norm.
    apply wp_bind. eapply wp_set_data; norm; [by rewrite lookup_insert_ne|]. norm.
    apply wp_bind. eapply wp_set_size; norm.
    { rewrite lookup_insert_ne by done. by rewrite lookup_insert_eq. }
    norm. eapply wp_set_size; norm.
    { rewrite lookup_insert_ne by done. by rewrite lookup_insert_eq. }
    norm. rewrite !vector_eta.
    eapply (eq_ind _ (λ ob', Q tt (mkState h ob' s l)) HQ).
    apply map_eq. intros k.
    repeat first
      [ rewrite lookup_insert_eq
      | rewrite lookup_insert_ne by congruence
      | rewrite lookup_insert; destruct (decide _) as [<-|?] ]; done.
Qed.

Lemma wp_Vector_move_assign st this rhs t r Q E :
  objs st !! this = Some t → objs st !! rhs = Some r →
  Q tt (mkState (heap st) (<[rhs := t]> (<[this := r]> (objs st))) (sched st) (leaked st)) →
  wp (Vector_move_assign this rhs) st Q E.
Proof.
  destruct st as [h ob s l]. norm. intros Ht Hr HQ. unfold Vector_move_assign.
  case_bool_decide as Hne.
  - by eapply wp_Vector_Swap.
  - apply wp_ret. assert (this = rhs) as <- by (by destruct (decide (this = rhs))).
    assert (r = t) as -> by congruence.
    by rewrite insert_insert_eq, insert_id in HQ.
Qed.

Lemma wp_Vector_move st self other v Q E :
  objs st !! self = None → objs st !! other = Some v →
  Q tt (mkState (heap st)
          (<[other := mkVector RawMemory_default 0]> (<[self := v]> (objs st)))
          (sched st) (leaked st)) →
  wp (Vector_move self other) st Q E.
Proof.
  destruct st as [h ob s l]. norm. intros Hs Ho HQ. unfold Vector_move.
  apply wp_bind. eapply wp_new_object; [exact Hs|]. norm.
  assert (self ≠ other) as Hne by congruence.
  eapply wp_Vector_Swap; norm.
  - by rewrite lookup_insert_eq.
  - rewrite lookup_insert_ne by done. exact Ho.
  - by rewrite insert_insert_eq.
Qed.

Lemma wp_Vector_default st self Q E :
  objs st !! self = None →
  Q tt (mkState (heap st) (<[self := mkVector RawMemory_default 0]> (objs st))
                (sched st) (leaked st)) →
  wp (Vector_default self) st Q E.
Proof. intros Hs HQ. unfold Vector_default. by eapply wp_new_object. Qed.

Lemma wp_Vector_sized st self n :
  objs st !! self = None →
  wp (Vector_sized self n) st
     (λ _ st', built st st' self (replicate n value_init))
     (λ st', same_store st st').
Proof.
  destruct st as [h o s l]. norm. intros Hs. unfold Vector_sized.
  apply wp_bind. eapply wp_no_object; [exact Hs|].
  apply wp_bind, wp_RawMemory_ctor.
  - intros ->. simpl. apply wp_bind, wp_on_throw, wp_ret.
    eapply wp_new_object; [exact Hs|]. norm.
    split; [done|]. exists (mkRawMemory None 0). simpl. split_and!; try done.
    intros k Hk. by left.
  - intros Hn s1 a Ha. norm. apply wp_bind, wp_on_throw.
    eapply (wp_uninitialized_value_construct_n n _ a 0 [] []); norm.
    + heap_lookup. by rewrite app_nil_r.
    + done.
    + intros s2. rewrite insert_insert_eq. simpl.
      eapply wp_new_object; [exact Hs|]. norm.
      split; [done|]. exists (mkRawMemory (Some a) n).
      rewrite length_replicate. split_and!; norm; try done.
      * split; norm; [by rewrite length_replicate|]. rewrite length_replicate.
        split_and!; [lia..|]. heap_lookup. f_equal. unfold vec_block.
        rewrite length_replicate, Nat.sub_diag, fmap_replicate. done.
      * intros k b Hk. rewrite lookup_insert_ne; [done|]. congruence.
      * intros k Hk. destruct (decide (k = a)) as [->|Hka]; [by right|].
        left. by rewrite lookup_insert_ne in Hk.
    + intros s2. unfold RawMemory_dtor. norm. eapply wp_Deallocate; norm.
      { by heap_lookup. }
      rewrite live_in_raw, app_nil_r, delete_insert_eq, delete_id by done.
      done.
  - intros _ s1. done.
Qed.

Lemma wp_Vector_copy st self other v xs :
  objs st !! self = None → objs st !! other = Some v → vec_repr (heap st) v xs →
  wp (Vector_copy self other) st
     (λ _ st', built st st' self xs)
     (λ st', same_store st st').
Proof.
  destruct st as [h o s l]. destruct v as [[buf cap] size]. norm.
  intros Hs Ho Hr. pose proof (vec_repr_cases _ _ _ _ _ Hr) as (-> & Hle & Hb).
  unfold Vector_copy.
  apply wp_bind. eapply wp_no_object; [exact Hs|].
  apply wp_bind. eapply wp_get_obj; [exact Ho|]. norm.
  apply wp_bind, wp_RawMemory_ctor.
  - intros Hz. destruct xs; [|done]. simpl.
    apply wp_bind, wp_on_throw, wp_ret.
    eapply wp_new_object; [exact Hs|]. norm.
    split; [done|]. exists (mkRawMemory None 0). simpl. split_and!; try done.
    intros k Hk. by left.
  - intros Hn s1 a Ha. norm. apply wp_bind, wp_on_throw.
    destruct buf as [b|]; [|destruct Hb as [-> _]; done].
    destruct Hb as [Hb Hcap]. norm.
    assert (b ≠ a) as Hne by congruence.
    eapply (wp_uninitialized_copy_n xs _ b 0 a 0 _ [] _ [] []); norm;
      [exact Hne| | |done..| |].
    + heap_lookup.
    + heap_lookup. by rewrite app_nil_r.
    + intros s2. rewrite insert_insert_eq. simpl.
      eapply wp_new_object; [exact Hs|]. norm.
      split; [done|]. exists (mkRawMemory (Some a) (length xs)).
      split_and!; norm; try done.
      * split; norm; [done|].
        split_and!; [lia..|]. heap_lookup. f_equal. unfold vec_block.
        by rewrite Nat.sub_diag.
      * intros k bl Hk. rewrite lookup_insert_ne; [done|]. congruence.
      * intros k Hk. destruct (decide (k = a)) as [->|Hka]; [by right|].
        left. by rewrite lookup_insert_ne in Hk.
    + intros s2. unfold RawMemory_dtor. norm. eapply wp_Deallocate; norm.
      { by heap_lookup. }
      rewrite live_in_raw, app_nil_r, delete_insert_eq, delete_id by done.
      done.
  - intros _ s1. done.
Qed.

Lemma wp_Vector_dtor st self v xs Q E :
  objs st !! self = Some v → vec_repr (heap st) v xs →
  Q tt (mkState (free_block (heap st) (buffer_ (data_ v))) (delete self (objs st))
                (sched st) (leaked st)) →
  wp (Vector_dtor self) st Q E.
Proof.
  destruct st as [h o s l]. destruct v as [[buf cap] size]. norm.
  intros Hv Hr HQ. pose proof (vec_repr_cases _ _ _ _ _ Hr) as (-> & Hle & Hb).
  unfold Vector_dtor.
  apply wp_bind. eapply wp_get_obj; [exact Hv|]. norm.
  apply wp_bind. eapply (wp_destroy_n_vec _ buf cap xs); norm; [|done|].
  { destruct buf; [by destruct Hb|by destruct Hb]. }
  apply wp_bind. eapply wp_RawMemory_dtor_raw; norm.
  { destruct buf; [|done]. by heap_lookup. }
  apply wp_delete_object. norm.
  eapply state_heap_ext; [exact HQ|]. destruct buf; heap_eq.
Qed.



Lemma vec_repr_extend h h' v xs :
  vec_repr h v xs → (∀ k b, h !! k = Some b → h' !! k = Some b) → vec_repr h' v xs.
Proof. intros Hr Hext. eapply vec_repr_frame; [exact Hr|]. intros a b _. apply Hext. Qed.

Lemma vec_block_take_drop cap xs n :
  n ≤ length xs → length xs ≤ cap →
  vec_block cap xs =
  (Live <$> take n xs) ++ (Live <$> drop n xs) ++ replicate (cap - length xs) Raw.
Proof.
  intros. unfold vec_block. by rewrite app_assoc, <- fmap_app, take_drop.
Qed.

Lemma wp_Vector_copy_assign st this rhs t r xt xr :
  this ≠ rhs →
  objs st !! this = Some t → objs st !! rhs = Some r →
  vec_repr (heap st) t xt → vec_repr (heap st) r xr →
  (∀ a, buffer_ (data_ t) = Some a → buffer_ (data_ r) ≠ Some a) →
  wp (Vector_copy_assign this rhs) st
     (λ _ st', leaked st' = leaked st ∧
        ∃ v', updates this st st' t v' xr ∧ size_ v' = size_ r ∧
              (size_ r ≤ capacity_ (data_ t) → data_ v' = data_ t))
     (λ st', leaked st' = leaked st ∧
        ∃ ys, updates this st st' t t ys ∧
              (capacity_ (data_ t) < size_ r → ys = xt)).
Proof.
  destruct st as [h o s l]. destruct t as [[bt ct] nt]. destruct r as [[br cr] nr]. norm.
  intros Hne Ht Hr Hrt Hrr Hdis.
  pose proof (vec_repr_cases _ _ _ _ _ Hrt) as (-> & Hlet & Hbt).
  pose proof (vec_repr_cases _ _ _ _ _ Hrr) as (-> & Hler & Hbr).
  unfold Vector_copy_assign. rewrite bool_decide_eq_true_2 by done.
  apply wp_bind. eapply wp_get_obj; [exact Ht|].
  apply wp_bind. eapply wp_get_obj; [exact Hr|]. norm.
  case_bool_decide as Hgrow.
  - (* copy and swap *)
    apply wp_bind, wp_get_objs. norm.
    set (tmp := fresh (dom o)).
    assert (o !! tmp = None) as Htmp by apply not_elem_of_dom, is_fresh.
    assert (tmp ≠ this) as Htt by congruence.
    eapply wp_seq;
      [exact (wp_Vector_copy (mkState h o s l) tmp rhs _ xr Htmp Hr Hrr)| |].
    2:{ intros [h1 o1 s1 l1] _ (Hh & Ho & Hl). norm. subst h1 o1 l1.
        split; [done|]. exists xt. split; [|done]. by apply updates_refl. }
    intros [] [h1 o1 s1 l1] _ (Hl & d & Ho & Hrc & Hcap & Hext & Hfresh & Hdom). norm.
    subst l1 o1. apply wp_bind.
    eapply wp_Vector_Swap; norm.
    { rewrite lookup_insert_ne by done. exact Ht. }
    { by rewrite lookup_insert_eq. }
    eapply (wp_Vector_dtor _ tmp _ xt); norm.
    { by rewrite lookup_insert_eq. }
    { by eapply vec_repr_extend. }
    split; [done|]. exists (mkVector d (length xr)).
    split_and!; norm; [|done|lia].
    assert (∀ a, buffer_ d = Some a → bt ≠ Some a) as Hda.
    { intros a Ha. rewrite Ha in Hfresh. destruct bt as [b|]; [|done].
      destruct Hbt as [Hb _]. congruence. }
    split_and!; norm.
    + apply map_eq. intros k.
      repeat first
        [ rewrite lookup_insert_eq
        | rewrite lookup_delete_eq
        | rewrite lookup_insert_ne by congruence
        | rewrite lookup_delete_ne by congruence
        | rewrite lookup_insert; destruct (decide _) as [<-|?]
        | rewrite lookup_delete; destruct (decide _) as [<-|?] ];
      try done; congruence.
    + eapply vec_repr_frame; [exact Hrc|]. norm. intros a b Ha Hb1.
      specialize (Hda _ Ha). destruct bt; heap_lookup.
    + intros k b Hk Hkb. norm. specialize (Hext _ _ Hk). destruct bt; heap_lookup.
    + unfold buffer_origin. norm. destruct (buffer_ d); [by right|done].
    + split; norm.
      * intros k Hk. apply Hdom. destruct bt as [b|]; simpl in Hk; [|done].
        destruct (decide (k = b)) as [->|Hkb].
        -- rewrite lookup_delete_eq in Hk. by destruct Hk.
        -- by rewrite lookup_delete_ne in Hk.
      * intros a -> _. simpl. by rewrite lookup_delete_eq.
  - (* the slots of this are reused *)
    assert (length xr ≤ ct) as Hfit by lia. clear Hgrow.
    destruct (decide (length xr = 0)) as [Hz|Hnz].
    + (* nothing to copy *)
      destruct xr; [|done]. simpl length. rewrite Nat.min_0_l.
      apply wp_bind. unfold std_copy.
      assert (ptr_diff (RawMemory_GetAddress (mkRawMemory br cr) +ₚ 0)
                       (RawMemory_GetAddress (mkRawMemory br cr)) = 0) as ->.
      { destruct br; simpl; lia. }
      simpl copy_loop. apply wp_ret. apply wp_bind.
      eapply wp_mono with
        (Q := λ _ st', st' = mkState (set_block h bt (replicate ct Raw)) o s l)
        (E := λ _, False).
      * case_bool_decide as Hlt.
        -- rewrite Nat.sub_0_r. destruct bt as [b|]; norm.
           ++ destruct Hbt as [Hb Hc].
              eapply (wp_destroy_n xt _ b _ _ []); norm; [exact Hb|done|done|].
              simpl. rewrite <- replicate_add. do 3 f_equal. lia.
           ++ destruct Hbt as [-> _]. simpl in Hlt. lia.
        -- assert (length xt = 0) as Hxt by lia. rewrite Hxt. simpl.
           apply wp_ret. f_equal. destruct bt as [b|]; [|done]. simpl.
           destruct Hbt as [Hb Hc]. destruct xt; [|done].
           rewrite insert_id; [done|]. rewrite Hb. unfold vec_block. simpl.
           by rewrite Nat.sub_0_r.
      * intros [] st' _ ->. eapply wp_set_size; [exact Ht|]. norm.
        split; [done|]. exists (mkVector (mkRawMemory bt ct) 0).
        split_and!; norm; [|done|done].
        split_and!; norm.
        -- done.
        -- split; norm; [done|]. destruct bt as [b|]; norm.
           ++ destruct Hbt as [Hb Hc]. split_and!; [lia..|]. heap_lookup.
              unfold vec_block. simpl. by rewrite Nat.sub_0_r.
           ++ by destruct Hbt.
        -- intros k b Hk Hkb. norm. destruct bt; heap_lookup.
        -- by apply buffer_origin_data.
        -- destruct bt; simpl; [by apply accounted_insert|by apply accounted_same].
      * done.
    + (* both vectors have a buffer *)
      destruct br as [rb|]; [|destruct Hbr as [-> _]; done].
      destruct bt as [tb|]; [|destruct Hbt as [_ ->]; lia].
      destruct Hbr as [Hrb Hcr]. destruct Hbt as [Htb Hct].
      assert (rb ≠ tb) as Hrt' by (intros ->; by eapply Hdis).
      set (count := length xr `min` length xt).
      apply wp_bind. unfold std_copy. norm.
      assert (ptr_diff (At rb count) (At rb 0) = count) as -> by (simpl; lia).
      rewrite (vec_block_take_drop cr xr count) in Hrb by lia.
      rewrite (vec_block_take_drop ct xt count) in Htb by lia.
      eapply (wp_copy_loop (take count xr) _ rb 0 tb 0 count (take count xt) []
                _ [] _); norm;
        [exact Hrt'|exact Hrb|exact Htb|done|done| | | |].
      { rewrite length_take. lia. }
      { rewrite !length_take. lia. }
      2:{ intros s1 ys' Hys'. split; [done|].
          exists (ys' ++ drop count xt). split; [|lia].
          assert (length (ys' ++ drop count xt) = length xt) as Hlen.
          { rewrite length_app, Hys', length_take, length_drop. lia. }
          eapply updates_heap; norm; [exact Ht|reflexivity| |done|done|lia|lia].
          simpl. f_equal. unfold vec_block. rewrite Hlen, fmap_app, <- app_assoc. done. }
      intros s1. simpl app. apply wp_bind. case_bool_decide as Hlt.
      * (* the excess elements of this are destroyed *)
        assert (count = length xr) as Hc by lia. rewrite Hc in *.
        rewrite take_ge by lia.
        eapply (wp_destroy_n (drop (length xr) xt) _ tb _ _ (Live <$> xr)); norm.
        { by heap_lookup. }
        { by rewrite length_fmap. }
        { rewrite length_drop. lia. }
        rewrite insert_insert_eq.
        eapply wp_set_size; [exact Ht|]. norm. split; [done|].
        exists (mkVector (mkRawMemory (Some tb) ct) (length xr)).
        split_and!; norm; [|done|done].
        split_and!; norm.
        -- done.
        -- split; norm; [done|]. split_and!; [lia..|]. heap_lookup. f_equal.
           unfold vec_block. rewrite <- replicate_add. do 2 f_equal. lia.
        -- intros k b Hk Hkb. norm. heap_lookup.
        -- by apply buffer_origin_data.
        -- by apply accounted_insert.
      * (* the missing elements are copy-constructed *)
        assert (count = length xt) as Hc by lia. rewrite Hc in *.
        rewrite (drop_ge xt) in * by lia. simpl app in *.
        rewrite (replicate_split Raw (ct - length xt) (length xr - length xt)) by lia.
        eapply (wp_uninitialized_copy_n (drop (length xt) xr) _ rb _ tb _ _
                  (Live <$> take (length xt) xr) _
                  (Live <$> take (length xt) xr) _); norm;
          [exact Hrt'| | | | | | |].
        { heap_lookup. }
        { heap_lookup. }
        { rewrite length_fmap, length_take. lia. }
        { rewrite length_fmap, length_take. lia. }
        { rewrite length_drop. lia. }
        -- intros s2. rewrite insert_insert_eq.
           eapply wp_set_size; [exact Ht|]. norm. split; [done|].
           exists (mkVector (mkRawMemory (Some tb) ct) (length xr)).
           split_and!; norm; [|done|done].
           split_and!; norm.
           ++ done.
           ++ split; norm; [done|]. split_and!; [lia..|]. heap_lookup. f_equal.
              rewrite (vec_block_take_drop ct xr (length xt)) by lia.
              do 3 f_equal. lia.
           ++ intros k b Hk Hkb. norm. heap_lookup.
           ++ by apply buffer_origin_data.
           ++ by apply accounted_insert.
        -- intros s2. split; [done|]. exists (take (length xt) xr). split; [|lia].
           assert (length (take (length xt) xr) = length xt) as Hlen.
           { rewrite length_take. lia. }
           eapply updates_heap; norm; [exact Ht|reflexivity| |done|done|lia|lia].
           simpl. f_equal. unfold vec_block. rewrite Hlen, <- replicate_add.
           do 2 f_equal. lia.
Qed.

Lemma bind_fault {A B} (m : M T A) (f : A → M T B) st st' :
  m st = (Fault, st') → (m ≫= f) st = (Fault, st').
Proof. intros Hm. by rewrite bind_run, Hm. Qed.

Lemma noexcept_fault {A} (m : M T A) st st' :
  m st = (Fault, st') → noexcept m st = (Fault, st').
Proof. intros Hm. unfold noexcept. by rewrite Hm. Qed.

Lemma get_obj_fault st this :
  objs st !! this = None → get_obj this st = (Fault, st).
Proof. intros Hn. unfold get_obj. rewrite bind_run. simpl. by rewrite Hn. Qed.

Lemma get_obj_run st this v :
  objs st !! this = Some v → get_obj this st = (Ok v, st).
Proof. intros Hn. unfold get_obj. rewrite bind_run. simpl. by rewrite Hn. Qed.

Lemma no_object_fault st self v :
  objs st !! self = Some v → no_object self st = (Fault, st).
Proof.
  intros Hn. unfold no_object. rewrite bind_run. simpl.
  rewrite bool_decide_eq_false_2; [done|]. by rewrite Hn.
Qed.

Lemma new_object_fault st self v w :
  objs st !! self = Some v → new_object self w st = (Fault, st).
Proof. intros Hn. unfold new_object. rewrite bind_run. simpl. by rewrite Hn. Qed.

Lemma state_ok_ext st st' :
  heap st' = heap st → objs st' = objs st → state_ok st → state_ok st'.
Proof. unfold state_ok. by intros -> ->. Qed.

Lemma state_ok_same_store st st' : same_store st st' → state_ok st → state_ok st'.
Proof. intros (Hh & Ho & _). by apply state_ok_ext. Qed.

Lemma state_ok_init s : state_ok (init_state (T:=T) s).
Proof. split; simpl; intros *; by rewrite ?lookup_empty. Qed.

Lemma state_ok_built st st' self xs :
  objs st !! self = None → built st st' self xs → state_ok st → state_ok st'.
Proof.
  intros Hs (_ & d & Ho & Hr & _ & Hext & Hfresh & _) [Hwf Hdis]. split.
  - intros o w. rewrite Ho, lookup_insert. destruct (decide (self = o)) as [<-|Hne].
    + intros [= <-]. eauto.
    + intros Hw. destruct (Hwf _ _ Hw) as [ys Hys]. exists ys.
      by eapply vec_repr_extend.
  - assert (∀ o w a, objs st !! o = Some w → buffer_ d = Some a →
              buffer_ (data_ w) ≠ Some a) as Hnew.
    { intros o w a Hw Ha Hwa. rewrite Ha in Hfresh.
      destruct (Hwf _ _ Hw) as [ys Hys].
      destruct (vec_repr_buffer_in_heap _ _ _ _ Hys Hwa) as [b Hb]. congruence. }
    intros o1 o2 v1 v2 a Hne. rewrite Ho, !lookup_insert.
    destruct (decide (self = o1)) as [<-|?]; destruct (decide (self = o2)) as [<-|?];
      try done.
    + intros [= <-] H2 Ha. by eapply Hnew.
    + intros H1 [= <-] Ha Ha'. by eapply (Hnew o1 v1 a).
    + by apply Hdis.
Qed.

Lemma state_ok_swap st st' this other t o :
  objs st !! this = Some t → objs st !! other = Some o →
  heap st' = heap st → objs st' = <[other := t]> (<[this := o]> (objs st)) →
  state_ok st → state_ok st'.
Proof.
  intros Ht Ho Hh Hob [Hwf Hdis].
  assert (∀ k w, objs st' !! k = Some w →
            ∃ k', objs st !! k' = Some w ∧
                  ((k' = k ∧ k ≠ this ∧ k ≠ other) ∨
                   (k = other ∧ k' = this) ∨ (k = this ∧ k' = other))) as Hsrc.
  { intros k w. rewrite Hob, !lookup_insert.
    destruct (decide (other = k)) as [Hk|?].
    { subst k. intros [= <-]. exists this. split; [done|]. right. by left. }
    destruct (decide (this = k)) as [Hk|?].
    { subst k. intros [= <-]. exists other. split; [done|]. right. by right. }
    intros Hw. exists k. split; [done|]. left. done. }
  split.
  - intros k w Hw. destruct (Hsrc _ _ Hw) as (k' & Hw' & _). rewrite Hh. eauto.
  - intros o1 o2 v1 v2 a Hne H1 H2.
    destruct (Hsrc _ _ H1) as (k1 & H1' & Hk1). destruct (Hsrc _ _ H2) as (k2 & H2' & Hk2).
    apply (Hdis k1 k2); [|done..].
    intros Heq. destruct Hk1 as [(? & ? & ?)|[[? ?]|[? ?]]],
      Hk2 as [(? & ? & ?)|[[? ?]|[? ?]]]; congruence.
Qed.

Lemma state_ok_move st st' self other v :
  objs st !! self = None → objs st !! other = Some v →
  heap st' = heap st →
  objs st' = <[other := mkVector RawMemory_default 0]> (<[self := v]> (objs st)) →
  state_ok st → state_ok st'.
Proof.
  intros Hs Ho Hh Hob [Hwf Hdis]. assert (self ≠ other) as Hne by congruence. split.
  - intros k w. rewrite Hob, Hh, !lookup_insert.
    destruct (decide (other = k)) as [<-|?].
    { intros [= <-]. exists []. by split. }
    destruct (decide (self = k)) as [<-|?].
    { intros [= <-]. eauto. }
    apply Hwf.
  - intros o1 o2 v1 v2 a Hne'. rewrite Hob, !lookup_insert.
    destruct (decide (other = o1)) as [<-|?].
    { by intros [= <-] _ [=]. }
    destruct (decide (other = o2)) as [<-|?].
    { by intros _ [= <-] _ [=]. }
    destruct (decide (self = o1)) as [<-|?]; destruct (decide (self = o2)) as [<-|?];
      try done.
    + intros [= <-] H2. by apply (Hdis other o2).
    + intros H1 [= <-]. by apply (Hdis o1 other).
    + by apply Hdis.
Qed.

Lemma state_ok_dtor st st' self v :
  objs st !! self = Some v →
  heap st' = free_block (heap st) (buffer_ (data_ v)) →
  objs st' = delete self (objs st) →
  state_ok st → state_ok st'.
Proof.
  intros Hv Hh Hob [Hwf Hdis]. split.
  - intros k w. rewrite Hob, lookup_delete. destruct (decide (self = k)) as [<-|Hne]; [done|].
    intros Hw. destruct (Hwf _ _ Hw) as [ys Hys]. exists ys.
    eapply vec_repr_frame; [exact Hys|]. intros a b Ha Hb. rewrite Hh.
    destruct (buffer_ (data_ v)) as [c|] eqn:Hc; [|done]. simpl.
    rewrite lookup_delete_ne; [done|]. intros <-. by eapply (Hdis self k v w c).
  - intros o1 o2 v1 v2 a Hne. rewrite Hob, !lookup_delete.
    destruct (decide (self = o1)); [done|]. destruct (decide (self = o2)); [done|].
    by apply Hdis.
Qed.

Lemma vec_repr_invariant h v xs : vec_repr h v xs → vector_invariant h v.
Proof.
  destruct v as [[buf cap] size]. intros Hr.
  pose proof (vec_repr_cases _ _ _ _ _ Hr) as (-> & Hle & Hb).
  unfold vector_invariant. norm. split; [done|].
  destruct buf as [b|]; norm.
  - destruct Hb as [Hb Hcap]. simpl. rewrite Hb. simpl.
    pose proof (λ i, shape_prefix_lookup _ _ cap i (vec_block_shape cap xs) Hle) as Hsh.
    split.
    + intros i Hi. apply shape_lookup_live. rewrite Hsh by lia. f_equal.
      apply bool_decide_eq_true_2. lia.
    + intros i Hi. apply shape_lookup_raw. rewrite Hsh by lia. f_equal.
      apply bool_decide_eq_false_2. lia.
  - destruct Hb as [-> ->]. simpl. split; intros; lia.
Qed.

Lemma run_discard {A} (m : M T A) st o st' :
  (m ≫= λ _, mret tt) st = (o, st') →
  ∃ o', m st = (o', st') ∧
        match o' with
        | Ok _ => o = Ok tt
        | Throw => o = Throw
        | Fault => o = Fault
        end.
Proof.
  rewrite bind_run. destruct (m st) as [[a| |] st1]; unfold mret, M_ret, ret;
    intros [= <- <-].
  - by exists (Ok a).
  - by exists Throw.
  - by exists Fault.
Qed.

Lemma noexcept_run {A} (m : M T A) st o st' Q E :
  noexcept m st = (o, st') → wp m st Q E → o ≠ Fault → ∃ a, o = Ok a ∧ Q a st'.
Proof.
  unfold noexcept, wp. destruct (m st) as [[a| |] st1]; intros [= <- <-]; try done.
  intros [HQ _] _. eauto.
Qed.

Lemma Vector_begin_run st this v :
  objs st !! this = Some v →
  Vector_begin this st = (Ok (RawMemory_GetAddress (data_ v)), st).
Proof. intros Hv. unfold Vector_begin. by rewrite bind_run, (get_obj_run _ _ _ Hv). Qed.

Lemma Vector_end_run st this v :
  objs st !! this = Some v →
  Vector_end this st = (Ok (RawMemory_GetAddress (data_ v) +ₚ size_ v), st).
Proof. intros Hv. unfold Vector_end. by rewrite bind_run, (get_obj_run _ _ _ Hv). Qed.

Lemma Vector_Emplace_fault st this v pos ar :
  objs st !! this = Some v →
  ptr_leb (RawMemory_GetAddress (data_ v)) pos &&
  ptr_leb pos (RawMemory_GetAddress (data_ v) +ₚ size_ v) = false →
  Vector_Emplace this pos ar st = (Fault, st).
Proof.
  intros Hv Hc. unfold Vector_Emplace.
  rewrite bind_run, (Vector_begin_run _ _ _ Hv).
  rewrite bind_run, (Vector_end_run _ _ _ Hv).
  rewrite bind_run, Hc. done.
Qed.

Lemma Vector_Erase_fault st this v pos :
  objs st !! this = Some v →
  ptr_leb (RawMemory_GetAddress (data_ v)) pos &&
  ptr_ltb pos (RawMemory_GetAddress (data_ v) +ₚ size_ v) = false →
  Vector_Erase this pos st = (Fault, st).
Proof.
  intros Hv Hc. unfold Vector_Erase. apply noexcept_fault.
  rewrite bind_run, (Vector_begin_run _ _ _ Hv).
  rewrite bind_run, (Vector_end_run _ _ _ Hv).
  rewrite bind_run, Hc. done.
Qed.

Lemma valid_erase_pos_inv (buf : option nat) cap size pos :
  ptr_leb (RawMemory_GetAddress (mkRawMemory buf cap)) pos &&
  ptr_ltb pos (RawMemory_GetAddress (mkRawMemory buf cap) +ₚ size) = true →
  ∃ b count, buf = Some b ∧ pos = At b count ∧ count < size.
Proof.
  destruct buf as [b|]; norm; destruct pos as [|a i]; simpl; try done.
  rewrite !andb_true_iff, !bool_decide_eq_true. intros [[-> _] [_ Hi]].
  exists a, i. split_and!; [done..|lia].
Qed.

Lemma Vector_Index_fault st this v index :
  objs st !! this = Some v → ¬ index < size_ v →
  Vector_read this index st = (Fault, st).
Proof.
  intros Hv Hi. unfold Vector_read, Vector_index.
  apply bind_fault. rewrite bind_run, (get_obj_run _ _ _ Hv).
  rewrite bind_run. by rewrite bool_decide_eq_false_2.
Qed.

Lemma wp_Vector_read st this v xs index :
  objs st !! this = Some v → vec_repr (heap st) v xs → index < size_ v →
  wp (Vector_read this index) st (λ x st', st' = st ∧ xs !! index = Some x) (λ _, False).
Proof.
  destruct v as [[buf cap] size]. intros Hv Hr Hi.
  pose proof (vec_repr_cases _ _ _ _ _ Hr) as (-> & Hle & Hb). norm.
  unfold Vector_read, Vector_index. apply wp_bind, wp_bind.
  eapply wp_get_obj; [exact Hv|]. norm.
  apply wp_bind, wp_assert; [by apply bool_decide_eq_true_2|].
  apply wp_RawMemory_index; norm; [lia|].
  destruct buf as [b|]; [|destruct Hb as [-> _]; simpl in Hi; lia].
  destruct Hb as [Hb _]. norm.
  destruct (lookup_lt_is_Some_2 xs index Hi) as [x Hx].
  eapply wp_load; [exact Hb| |done].
  unfold vec_block. rewrite lookup_app_l by (by rewrite length_fmap).
  by rewrite list_lookup_fmap, Hx.
Qed.



(** The three views of a call of [Emplace]. *)
Lemma Vector_Emplace_state_ok st this pos ar o st' :
  state_ok st → Vector_Emplace this pos ar st = (o, st') → o ≠ Fault →
  (o = Throw →
   ¬ ∃ v st1, objs st !! this = Some v ∧ size_ v ≠ 0 ∧ size_ v ≠ capacity_ (data_ v) ∧
        ptr_diff pos (RawMemory_GetAddress (data_ v)) < size_ v ∧
        Vector_NoAllocateEmplace_shift this
          (ptr_diff pos (RawMemory_GetAddress (data_ v))) st = (Ok tt, st1)) →
  state_ok st'.
Proof.
  intros Hok Hrun Hnf Hsafe. pose proof Hok as [Hwf _].
  destruct (objs st !! this) as [v|] eqn:Hv.
  2:{ unfold Vector_Emplace in Hrun.
      rewrite (bind_fault _ _ st st) in Hrun; [by injection Hrun as <- _|].
      unfold Vector_begin. apply bind_fault. by apply get_obj_fault. }
  destruct (Hwf _ _ Hv) as [xs Hr].
  destruct (ptr_leb (RawMemory_GetAddress (data_ v)) pos &&
            ptr_leb pos (RawMemory_GetAddress (data_ v) +ₚ size_ v)) eqn:Hpos.
  2:{ rewrite (Vector_Emplace_fault _ _ _ _ _ Hv Hpos) in Hrun. by injection Hrun as <- _. }
  pose proof (wp_run _ _ _ _ _ _ (wp_Vector_Emplace st this v xs pos ar Hv Hr Hpos) Hrun) as Hpost.
  destruct o as [p| |]; [| |done].
  - destruct Hpost as (_ & v' & ys & Hu & _). by eapply state_ok_updates.
  - destruct Hpost as [(ys & Hu & _)|(Hnz & Hnf' & Hin & st1 & Hshift)].
    + by eapply state_ok_updates.
    + destruct Hsafe; [done|]. by exists v, st1.
Qed.

Theorem run_op_state_ok c st o st' :
  state_ok st → run_op c st = (o, st') → o ≠ Fault →
  ¬ new_element_threw_in_place c st →
  state_ok st'.
Proof.
  intros Hok Hrun Hnf Hsafe. pose proof Hok as [Hwf Hdis].
  destruct c; simpl in Hrun.
  - (* Vector() *)
    destruct (objs st !! self) as [w|] eqn:Hs.
    { unfold Vector_default in Hrun.
      rewrite (new_object_fault _ _ _ _ Hs) in Hrun. by injection Hrun as <- _. }
    pose proof (wp_run _ _ _ _ _ _
      (wp_Vector_default st self (λ _ st', state_ok st') (λ _, False) Hs
         ltac:(eapply (state_ok_built st _ self []); [exact Hs| |exact Hok];
               split; [done|]; exists RawMemory_default; simpl;
               split_and!; try done; intros ? ?; by left) ) Hrun) as Hpost.
    by destruct o.
  - (* Vector(size) *)
    destruct (objs st !! self) as [w|] eqn:Hs.
    { unfold Vector_sized in Hrun.
      rewrite (bind_fault _ _ st st) in Hrun; [by injection Hrun as <- _|].
      by eapply no_object_fault. }
    pose proof (wp_run _ _ _ _ _ _ (wp_Vector_sized st self size Hs) Hrun) as Hpost.
    destruct o; [|by eapply state_ok_same_store|done].
    by eapply state_ok_built.
  - (* Vector(const Vector&) *)
    destruct (objs st !! self) as [w|] eqn:Hs.
    { unfold Vector_copy in Hrun.
      rewrite (bind_fault _ _ st st) in Hrun; [by injection Hrun as <- _|].
      by eapply no_object_fault. }
    destruct (objs st !! other) as [v|] eqn:Hv.
    2:{ unfold Vector_copy in Hrun. rewrite bind_run in Hrun.
        unfold no_object in Hrun at 1. rewrite bind_run in Hrun. simpl in Hrun.
        rewrite bool_decide_eq_true_2 in Hrun by done. simpl in Hrun.
        rewrite (bind_fault _ _ st st) in Hrun; [by injection Hrun as <- _|].
        by apply get_obj_fault. }
    destruct (Hwf _ _ Hv) as [xs Hr].
    pose proof (wp_run _ _ _ _ _ _ (wp_Vector_copy st self other v xs Hs Hv Hr) Hrun) as Hpost.
    destruct o; [|by eapply state_ok_same_store|done].
    by eapply state_ok_built.
  - (* Vector(Vector&&) *)
    destruct (objs st !! self) as [w|] eqn:Hs.
    { unfold Vector_move in Hrun.
      rewrite (bind_fault _ _ st st) in Hrun; [by injection Hrun as <- _|].
      by eapply new_object_fault. }
    assert (state_ok (mkState (heap st)
              (<[self := mkVector RawMemory_default 0]> (objs st))
              (sched st) (leaked st))) as Hok1.
    { eapply (state_ok_built st _ self []); [exact Hs| |exact Hok].
      split; [done|]. exists RawMemory_default. simpl. split_and!; try done.
      intros ? ?. by left. }
    destruct (decide (self = other)) as [<-|Hne].
    { assert (wp (Vector_move self self) st (λ _ st', state_ok st') (λ _, False)) as Hwp.
      { unfold Vector_move. apply wp_bind. eapply wp_new_object; [exact Hs|].
        eapply wp_Vector_Swap; norm; [by rewrite lookup_insert_eq..|].
        by rewrite !insert_insert_eq. }
      pose proof (wp_run _ _ _ _ _ _ Hwp Hrun) as Hpost. by destruct o. }
    destruct (objs st !! other) as [v|] eqn:Hv.
    2:{ unfold Vector_move in Hrun. rewrite bind_run in Hrun.
        unfold new_object in Hrun at 1. rewrite bind_run in Hrun. simpl in Hrun.
        rewrite Hs in Hrun. simpl in Hrun.
        unfold Vector_Swap in Hrun. rewrite bind_run in Hrun.
        rewrite (get_obj_run _ self (mkVector RawMemory_default 0)) in Hrun
          by (simpl; by rewrite lookup_insert_eq).
        match type of Hrun with
        | (_ ≫= _) ?s1 = _ =>
            assert (get_obj other s1 = (Fault, s1)) as Hf
              by (apply get_obj_fault; simpl; by rewrite lookup_insert_ne)
        end.
        rewrite (bind_fault _ _ _ _ Hf) in Hrun.
        by injection Hrun as <- _. }
    pose proof (wp_run _ _ _ _ _ _
      (wp_Vector_move st self other v (λ _ st', state_ok st') (λ _, False) Hs Hv
         ltac:(by eapply (state_ok_move st _ self other v))) Hrun) as Hpost.
    by destruct o.
  - (* ~Vector() *)
    destruct (objs st !! self) as [v|] eqn:Hv.
    2:{ unfold Vector_dtor in Hrun.
        rewrite (bind_fault _ _ st st (get_obj_fault _ _ Hv)) in Hrun.
        by injection Hrun as <- _. }
    destruct (Hwf _ _ Hv) as [xs Hr].
    pose proof (wp_run _ _ _ _ _ _
      (wp_Vector_dtor st self v xs (λ _ st', state_ok st') (λ _, False) Hv Hr
         ltac:(by eapply (state_ok_dtor st _ self v))) Hrun) as Hpost.
    by destruct o.
  - (* operator=(const Vector&) *)
    destruct (decide (this = rhs)) as [<-|Hne].
    { unfold Vector_copy_assign in Hrun. rewrite bool_decide_eq_false_2 in Hrun by naive_solver.
      by injection Hrun as _ <-. }
    destruct (objs st !! this) as [t|] eqn:Ht.
    2:{ unfold Vector_copy_assign in Hrun. rewrite bool_decide_eq_true_2 in Hrun by done.
        rewrite (bind_fault _ _ st st (get_obj_fault _ _ Ht)) in Hrun.
        by injection Hrun as <- _. }
    destruct (objs st !! rhs) as [r|] eqn:Hr.
    2:{ unfold Vector_copy_assign in Hrun. rewrite bool_decide_eq_true_2 in Hrun by done.
        rewrite bind_run, (get_obj_run _ _ _ Ht) in Hrun.
        rewrite (bind_fault _ _ st st (get_obj_fault _ _ Hr)) in Hrun.
        by injection Hrun as <- _. }
    destruct (Hwf _ _ Ht) as [xt Hrt]. destruct (Hwf _ _ Hr) as [xr Hrr].
    pose proof (wp_run _ _ _ _ _ _
      (wp_Vector_copy_assign st this rhs t r xt xr Hne Ht Hr Hrt Hrr
         (λ a, Hdis this rhs t r a Hne Ht Hr)) Hrun) as Hpost.
    destruct o; [| |done].
    + destruct Hpost as (_ & v' & Hu & _). exact (state_ok_updates _ _ _ _ _ _ Hok Ht Hu).
    + destruct Hpost as (_ & ys & Hu & _). exact (state_ok_updates _ _ _ _ _ _ Hok Ht Hu).
  - (* operator=(Vector&&) *)
    destruct (decide (this = rhs)) as [<-|Hne].
    { unfold Vector_move_assign in Hrun. rewrite bool_decide_eq_false_2 in Hrun by naive_solver.
      by injection Hrun as _ <-. }
    unfold Vector_move_assign in Hrun. rewrite bool_decide_eq_true_2 in Hrun by done.
    destruct (objs st !! this) as [t|] eqn:Ht.
    2:{ unfold Vector_Swap in Hrun.
        rewrite (bind_fault _ _ st st (get_obj_fault _ _ Ht)) in Hrun.
        by injection Hrun as <- _. }
    destruct (objs st !! rhs) as [r|] eqn:Hr.
    2:{ unfold Vector_Swap in Hrun.
        rewrite bind_run, (get_obj_run _ _ _ Ht) in Hrun.
        rewrite (bind_fault _ _ st st (get_obj_fault _ _ Hr)) in Hrun.
        by injection Hrun as <- _. }
    pose proof (wp_run _ _ _ _ _ _
      (wp_Vector_Swap st this rhs t r (λ _ st', state_ok st') (λ _, False) Ht Hr
         ltac:(by eapply (state_ok_swap st _ this rhs t r))) Hrun) as Hpost.
    by destruct o.
  - (* Swap *)
    destruct (objs st !! this) as [t|] eqn:Ht.
    2:{ unfold Vector_Swap in Hrun.
        rewrite (bind_fault _ _ st st (get_obj_fault _ _ Ht)) in Hrun.
        by injection Hrun as <- _. }
    destruct (objs st !! other) as [r|] eqn:Hr.
    2:{ unfold Vector_Swap in Hrun.
        rewrite bind_run, (get_obj_run _ _ _ Ht) in Hrun.
        rewrite (bind_fault _ _ st st (get_obj_fault _ _ Hr)) in Hrun.
        by injection Hrun as <- _. }
    pose proof (wp_run _ _ _ _ _ _
      (wp_Vector_Swap st this other t r (λ _ st', state_ok st') (λ _, False) Ht Hr
         ltac:(by eapply (state_ok_swap st _ this other t r))) Hrun) as Hpost.
    by destruct o.
  - (* begin *)
    apply run_discard in Hrun as (o' & Hm & Ho').
    destruct (objs st !! this) as [v|] eqn:Hv.
    + rewrite (Vector_begin_run _ _ _ Hv) in Hm. by injection Hm as _ <-.
    + unfold Vector_begin in Hm.
      rewrite (bind_fault _ _ st st (get_obj_fault _ _ Hv)) in Hm.
      injection Hm as <- _. done.
  - (* end *)
    apply run_discard in Hrun as (o' & Hm & Ho').
    destruct (objs st !! this) as [v|] eqn:Hv.
    + rewrite (Vector_end_run _ _ _ Hv) in Hm. by injection Hm as _ <-.
    + unfold Vector_end in Hm.
      rewrite (bind_fault _ _ st st (get_obj_fault _ _ Hv)) in Hm.
      injection Hm as <- _. done.
  - (* Emplace *)
    pose proof Hrun as Hrun'.
    apply run_discard in Hrun as (o' & Hm & Ho').
    eapply (Vector_Emplace_state_ok st this pos ar o'); [done|done| |].
    + intros ->. done.
    + intros -> (v & st1 & Hv & Hnz & Hnf' & Hin & Hshift). apply Hsafe.
      exists v, st1. split_and!; [done..|]. simpl. by rewrite Hrun', Ho'.
  - (* Erase *)
    apply run_discard in Hrun as (o' & Hm & Ho').
    assert (o' ≠ Fault) as Hnf' by (by intros ->).
    destruct (objs st !! this) as [v|] eqn:Hv.
    2:{ unfold Vector_Erase in Hm.
        rewrite (noexcept_fault _ st st) in Hm; [by injection Hm as <- _|].
        apply bind_fault. unfold Vector_begin. apply bind_fault. by apply get_obj_fault. }
    destruct (ptr_leb (RawMemory_GetAddress (data_ v)) pos &&
              ptr_ltb pos (RawMemory_GetAddress (data_ v) +ₚ size_ v)) eqn:Hpos.
    2:{ rewrite (Vector_Erase_fault _ _ _ _ Hv Hpos) in Hm. by injection Hm as <- _. }
    destruct (Hwf _ _ Hv) as [xs Hr]. destruct v as [[buf cap] size].
    pose proof (vec_repr_cases _ _ _ _ _ Hr) as (-> & _).
    destruct (valid_erase_pos_inv _ _ _ _ Hpos) as (b & count & -> & -> & Hcount).
    destruct (Vector_Erase_body st this b cap xs count Hv Hr Hcount) as (m & Heq & Hwp).
    rewrite Heq in Hm.
    destruct (noexcept_run _ _ _ _ _ _ Hm Hwp Hnf') as (p & -> & _ & _ & ys & Hu).
    by eapply state_ok_updates.
  - (* Insert(pos, const T&) *)
    pose proof Hrun as Hrun'.
    apply run_discard in Hrun as (o' & Hm & Ho').
    eapply (Vector_Emplace_state_ok st this pos (ByCopy value) o'); [done|done| |].
    + intros ->. done.
    + intros -> (v & st1 & Hv & Hnz & Hnf' & Hin & Hshift). apply Hsafe.
      exists v, st1. split_and!; [done..|]. simpl. by rewrite Hrun', Ho'.
  - (* Insert(pos, T&&) *)
    pose proof Hrun as Hrun'.
    apply run_discard in Hrun as (o' & Hm & Ho').
    eapply (Vector_Emplace_state_ok st this pos (ByMove value) o'); [done|done| |].
    + intros ->. done.
    + intros -> (v & st1 & Hv & Hnz & Hnf' & Hin & Hshift). apply Hsafe.
      exists v, st1. split_and!; [done..|]. simpl. by rewrite Hrun', Ho'.
  - (* Reserve *)
    destruct (objs st !! this) as [v|] eqn:Hv.
    2:{ unfold Vector_Reserve in Hrun.
        rewrite (bind_fault _ _ st st (get_obj_fault _ _ Hv)) in Hrun.
        by injection Hrun as <- _. }
    destruct (Hwf _ _ Hv) as [xs Hr].
    pose proof (wp_run _ _ _ _ _ _ (wp_Vector_Reserve st this v xs new_capacity Hv Hr) Hrun)
      as Hpost.
    destruct o; [| |done].
    + destruct Hpost as [[_ ->]|(_ & _ & a' & _ & Hu)]; [done|]. by eapply state_ok_updates.
    + destruct Hpost as (_ & _ & ys & Hu & _). by eapply state_ok_updates.
  - (* Resize *)
    destruct (objs st !! this) as [v|] eqn:Hv.
    2:{ unfold Vector_Resize in Hrun.
        rewrite (bind_fault _ _ st st (get_obj_fault _ _ Hv)) in Hrun.
        by injection Hrun as <- _. }
    destruct (Hwf _ _ Hv) as [xs Hr].
    pose proof (wp_run _ _ _ _ _ _ (wp_Vector_Resize st this v xs new_size Hv Hr) Hrun)
      as Hpost.
    destruct o; [| |done].
    + destruct Hpost as (_ & v' & Hu & _). by eapply state_ok_updates.
    + destruct Hpost as (_ & _ & v' & ys & Hu & _). by eapply state_ok_updates.
  - (* PushBack *)
    unfold Vector_PushBack in Hrun.
    apply run_discard in Hrun as (o' & Hm & Ho').
    destruct (objs st !! this) as [v|] eqn:Hv.
    2:{ unfold Vector_EmplaceBack in Hm.
        rewrite (bind_fault _ _ st st (get_obj_fault _ _ Hv)) in Hm.
        injection Hm as <- _. done. }
    destruct (Hwf _ _ Hv) as [xs Hr].
    pose proof (wp_run _ _ _ _ _ _ (wp_Vector_EmplaceBack st this v xs ar Hv Hr) Hm)
      as Hpost.
    destruct o'; [| |done].
    + destruct Hpost as (_ & v' & Hu & _). by eapply state_ok_updates.
    + destruct Hpost as (ys & Hu & _). by eapply state_ok_updates.
  - (* EmplaceBack *)
    apply run_discard in Hrun as (o' & Hm & Ho').
    destruct (objs st !! this) as [v|] eqn:Hv.
    2:{ unfold Vector_EmplaceBack in Hm.
        rewrite (bind_fault _ _ st st (get_obj_fault _ _ Hv)) in Hm.
        injection Hm as <- _. done. }
    destruct (Hwf _ _ Hv) as [xs Hr].
    pose proof (wp_run _ _ _ _ _ _ (wp_Vector_EmplaceBack st this v xs ar Hv Hr) Hm)
      as Hpost.
    destruct o'; [| |done].
    + destruct Hpost as (_ & v' & Hu & _). by eapply state_ok_updates.
    + destruct Hpost as (ys & Hu & _). by eapply state_ok_updates.
  - (* PopBack *)
    destruct (objs st !! this) as [v|] eqn:Hv.
    2:{ unfold Vector_PopBack in Hrun.
        rewrite (noexcept_fault _ st st) in Hrun; [by injection Hrun as <- _|].
        apply bind_fault. by apply get_obj_fault. }
    destruct (Hwf _ _ Hv) as [xs Hr].
    pose proof (wp_run _ _ _ _ _ _ (wp_Vector_PopBack st this v xs Hv Hr) Hrun) as Hpost.
    destruct o; [|done|done].
    destruct Hpost as (_ & _ & Hu). by eapply state_ok_updates.
  - (* Size *)
    apply run_discard in Hrun as (o' & Hm & Ho').
    destruct (objs st !! this) as [v|] eqn:Hv.
    + unfold Vector_Size in Hm. rewrite bind_run, (get_obj_run _ _ _ Hv) in Hm.
      by injection Hm as _ <-.
    + unfold Vector_Size in Hm.
      rewrite (bind_fault _ _ st st (get_obj_fault _ _ Hv)) in Hm.
      injection Hm as <- _. done.
  - (* Capacity *)
    apply run_discard in Hrun as (o' & Hm & Ho').
    destruct (objs st !! this) as [v|] eqn:Hv.
    + unfold Vector_Capacity in Hm. rewrite bind_run, (get_obj_run _ _ _ Hv) in Hm.
      by injection Hm as _ <-.
    + unfold Vector_Capacity in Hm.
      rewrite (bind_fault _ _ st st (get_obj_fault _ _ Hv)) in Hm.
      injection Hm as <- _. done.
  - (* operator[] *)
    apply run_discard in Hrun as (o' & Hm & Ho').
    destruct (objs st !! this) as [v|] eqn:Hv.
    2:{ unfold Vector_read, Vector_index in Hm.
        rewrite (bind_fault _ _ st st) in Hm; [injection Hm as <- _; done|].
        apply bind_fault. by apply get_obj_fault. }
    destruct (decide (index < size_ v)) as [Hi|Hi].
    2:{ rewrite (Vector_Index_fault _ _ _ _ Hv Hi) in Hm. injection Hm as <- _. done. }
    destruct (Hwf _ _ Hv) as [xs Hr].
    pose proof (wp_run _ _ _ _ _ _ (wp_Vector_read st this v xs index Hv Hr Hi) Hm) as Hpost.
    destruct o'; [|done|done]. by destruct Hpost as [-> _].
Qed.

Theorem reachable_safe_state_ok st : reachable_safe st → state_ok st.
Proof.
  induction 1 as [s|st c o st' _ IH Hrun Hnf Hsafe].
  - apply state_ok_init.
  - by eapply run_op_state_ok.
Qed.

(** ** Every block has an owner *)

Lemma blocks_owned_init s : blocks_owned (init_state (T:=T) s).
Proof. intros a b. simpl. by rewrite lookup_empty. Qed.

Lemma blocks_owned_ext st st' :
  heap st' = heap st → objs st' = objs st → blocks_owned st → blocks_owned st'.
Proof. unfold blocks_owned. by intros -> ->. Qed.

Lemma blocks_owned_same_store st st' :
  same_store st st' → blocks_owned st → blocks_owned st'.
Proof. intros (Hh & Ho & _). by apply blocks_owned_ext. Qed.

Lemma blocks_owned_updates st st' this v v' xs' :
  blocks_owned st → objs st !! this = Some v → updates this st st' v v' xs' →
  blocks_owned st'.
Proof.
  intros Hown Hv (Hobjs & _ & _ & _ & Hnew & Hold) a b Hab.
  assert (objs st' !! this = Some v') as Hv' by (by rewrite Hobjs, lookup_insert_eq).
  destruct (Hnew a) as [[b0 Hb0]|Ha]; [by rewrite Hab| |by exists this, v'].
  destruct (Hown _ _ Hb0) as (o & w & Hw & Hwa).
  destruct (decide (o = this)) as [->|Hne].
  - assert (w = v) as -> by congruence.
    destruct (decide (buffer_ (data_ v') = Some a)) as [Ha|Ha]; [by exists this, v'|].
    rewrite (Hold a Hwa Ha) in Hab. done.
  - exists o, w. split; [|done]. by rewrite Hobjs, lookup_insert_ne.
Qed.

Lemma blocks_owned_built st st' self xs :
  objs st !! self = None → built st st' self xs → blocks_owned st → blocks_owned st'.
Proof.
  intros Hs (_ & d & Ho & _ & _ & _ & _ & Hnew) Hown a b Hab.
  destruct (Hnew a) as [[b0 Hb0]|Ha]; [by rewrite Hab| |].
  - destruct (Hown _ _ Hb0) as (o & w & Hw & Hwa). exists o, w. split; [|done].
    rewrite Ho, lookup_insert_ne; [done|]. congruence.
  - exists self, (mkVector d (length xs)). split; [|done]. by rewrite Ho, lookup_insert_eq.
Qed.

Lemma blocks_owned_swap st st' this other t o :
  objs st !! this = Some t → objs st !! other = Some o →
  heap st' = heap st → objs st' = <[other := t]> (<[this := o]> (objs st)) →
  blocks_owned st → blocks_owned st'.
Proof.
  intros Ht Ho Hh Hob Hown a b. rewrite Hh. intros Hab.
  destruct (Hown _ _ Hab) as (k & w & Hw & Hwa).
  destruct (decide (k = this)) as [->|Hk1].
  { assert (w = t) as -> by congruence. exists other, t.
    split; [|done]. by rewrite Hob, lookup_insert_eq. }
  destruct (decide (k = other)) as [->|Hk2].
  { assert (w = o) as -> by congruence. exists this, o. split; [|done].
    rewrite Hob. destruct (decide (other = this)) as [->|Hne].
    - rewrite lookup_insert_eq. congruence.
    - by rewrite lookup_insert_ne, lookup_insert_eq. }
  exists k, w. split; [|done]. by rewrite Hob, !lookup_insert_ne.
Qed.

Lemma blocks_owned_move st st' self other v :
  objs st !! self = None → objs st !! other = Some v →
  heap st' = heap st →
  objs st' = <[other := mkVector RawMemory_default 0]> (<[self := v]> (objs st)) →
  blocks_owned st → blocks_owned st'.
Proof.
  intros Hs Ho Hh Hob Hown a b. rewrite Hh. intros Hab.
  assert (self ≠ other) as Hne by congruence.
  destruct (Hown _ _ Hab) as (k & w & Hw & Hwa).
  destruct (decide (k = other)) as [->|Hk].
  - assert (w = v) as -> by congruence. exists self, v. split; [|done].
    by rewrite Hob, lookup_insert_ne, lookup_insert_eq.
  - exists k, w. split; [|done].
    rewrite Hob, !lookup_insert_ne; [done|congruence|done].
Qed.

Lemma blocks_owned_dtor st st' self v :
  objs st !! self = Some v →
  heap st' = free_block (heap st) (buffer_ (data_ v)) →
  objs st' = delete self (objs st) →
  blocks_owned st → blocks_owned st'.
Proof.
  intros Hv Hh Hob Hown a b. rewrite Hh. intros Hab.
  assert (heap st !! a = Some b ∧ buffer_ (data_ v) ≠ Some a) as [Hab' Hne].
  { destruct (buffer_ (data_ v)) as [c|]; simpl in Hab; [|done].
    destruct (decide (a = c)) as [->|Hac]; [by rewrite lookup_delete_eq in Hab|].
    rewrite lookup_delete_ne in Hab by done. split; [done|congruence]. }
  destruct (Hown _ _ Hab') as (k & w & Hw & Hwa).
  exists k, w. split; [|done]. rewrite Hob, lookup_delete_ne; [done|].
  intros <-. congruence.
Qed.

Lemma Vector_Emplace_blocks_owned st this pos ar o st' :
  state_ok st → blocks_owned st → Vector_Emplace this pos ar st = (o, st') → o ≠ Fault →
  (o = Throw →
   ¬ ∃ v st1, objs st !! this = Some v ∧ size_ v ≠ 0 ∧ size_ v ≠ capacity_ (data_ v) ∧
        ptr_diff pos (RawMemory_GetAddress (data_ v)) < size_ v ∧
        Vector_NoAllocateEmplace_shift this
          (ptr_diff pos (RawMemory_GetAddress (data_ v))) st = (Ok tt, st1)) →
  blocks_owned st'.
Proof.
  intros Hok Hown Hrun Hnf Hsafe. pose proof Hok as [Hwf _].
  destruct (objs st !! this) as [v|] eqn:Hv.
  2:{ unfold Vector_Emplace in Hrun.
      rewrite (bind_fault _ _ st st) in Hrun; [by injection Hrun as <- _|].
      unfold Vector_begin. apply bind_fault. by apply get_obj_fault. }
  destruct (Hwf _ _ Hv) as [xs Hr].
  destruct (ptr_leb (RawMemory_GetAddress (data_ v)) pos &&
            ptr_leb pos (RawMemory_GetAddress (data_ v) +ₚ size_ v)) eqn:Hpos.
  2:{ rewrite (Vector_Emplace_fault _ _ _ _ _ Hv Hpos) in Hrun. by injection Hrun as <- _. }
  pose proof (wp_run _ _ _ _ _ _ (wp_Vector_Emplace st this v xs pos ar Hv Hr Hpos) Hrun) as Hpost.
  destruct o as [p| |]; [| |done].
  - destruct Hpost as (_ & v' & ys & Hu & _). by eapply blocks_owned_updates.
  - destruct Hpost as [(ys & Hu & _)|(Hnz & Hnf' & Hin & st1 & Hshift)].
    + by eapply blocks_owned_updates.
    + destruct Hsafe; [done|]. by exists v, st1.
Qed.


Lemma run_op_blocks_owned c st o st' :
  state_ok st → blocks_owned st → run_op c st = (o, st') → o ≠ Fault →
  ¬ new_element_threw_in_place c st →
  blocks_owned st'.
Proof.
  intros Hok Hown Hrun Hnf Hsafe. pose proof Hok as [Hwf Hdis].
  destruct c; simpl in Hrun.
  - (* Vector() *)
    destruct (objs st !! self) as [w|] eqn:Hs.
    { unfold Vector_default in Hrun.
      rewrite (new_object_fault _ _ _ _ Hs) in Hrun. by injection Hrun as <- _. }
    pose proof (wp_run _ _ _ _ _ _
      (wp_Vector_default st self (λ _ st', blocks_owned st') (λ _, False) Hs
         ltac:(eapply (blocks_owned_built st _ self []); [exact Hs| |exact Hown];
               split; [done|]; exists RawMemory_default; simpl;
               split_and!; try done; intros ? ?; by left) ) Hrun) as Hpost.
    by destruct o.
  - (* Vector(size) *)
    destruct (objs st !! self) as [w|] eqn:Hs.
    { unfold Vector_sized in Hrun.
      rewrite (bind_fault _ _ st st) in Hrun; [by injection Hrun as <- _|].
      by eapply no_object_fault. }
    pose proof (wp_run _ _ _ _ _ _ (wp_Vector_sized st self size Hs) Hrun) as Hpost.
    destruct o; [|by eapply blocks_owned_same_store|done].
    by eapply blocks_owned_built.
  - (* Vector(const Vector&) *)
    destruct (objs st !! self) as [w|] eqn:Hs.
    { unfold Vector_copy in Hrun.
      rewrite (bind_fault _ _ st st) in Hrun; [by injection Hrun as <- _|].
      by eapply no_object_fault. }
    destruct (objs st !! other) as [v|] eqn:Hv.
    2:{ unfold Vector_copy in Hrun. rewrite bind_run in Hrun.
        unfold no_object in Hrun at 1. rewrite bind_run in Hrun. simpl in Hrun.
        rewrite bool_decide_eq_true_2 in Hrun by done. simpl in Hrun.
        rewrite (bind_fault _ _ st st) in Hrun; [by injection Hrun as <- _|].
        by apply get_obj_fault. }
    destruct (Hwf _ _ Hv) as [xs Hr].
    pose proof (wp_run _ _ _ _ _ _ (wp_Vector_copy st self other v xs Hs Hv Hr) Hrun) as Hpost.
    destruct o; [|by eapply blocks_owned_same_store|done].
    by eapply blocks_owned_built.
  - (* Vector(Vector&&) *)
    destruct (objs st !! self) as [w|] eqn:Hs.
    { unfold Vector_move in Hrun.
      rewrite (bind_fault _ _ st st) in Hrun; [by injection Hrun as <- _|].
      by eapply new_object_fault. }
    assert (blocks_owned (mkState (heap st)
              (<[self := mkVector RawMemory_default 0]> (objs st))
              (sched st) (leaked st))) as Hok1.
    { eapply (blocks_owned_built st _ self []); [exact Hs| |exact Hown].
      split; [done|]. exists RawMemory_default. simpl. split_and!; try done.
      intros ? ?. by left. }
    destruct (decide (self = other)) as [<-|Hne].
    { assert (wp (Vector_move self self) st (λ _ st', blocks_owned st') (λ _, False)) as Hwp.
      { unfold Vector_move. apply wp_bind. eapply wp_new_object; [exact Hs|].
        eapply wp_Vector_Swap; norm; [by rewrite lookup_insert_eq..|].
        by rewrite !insert_insert_eq. }
      pose proof (wp_run _ _ _ _ _ _ Hwp Hrun) as Hpost. by destruct o. }
    destruct (objs st !! other) as [v|] eqn:Hv.
    2:{ unfold Vector_move in Hrun. rewrite bind_run in Hrun.
        unfold new_object in Hrun at 1. rewrite bind_run in Hrun. simpl in Hrun.
        rewrite Hs in Hrun. simpl in Hrun.
        unfold Vector_Swap in Hrun. rewrite bind_run in Hrun.
        rewrite (get_obj_run _ self (mkVector RawMemory_default 0)) in Hrun
          by (simpl; by rewrite lookup_insert_eq).
        match type of Hrun with
        | (_ ≫= _) ?s1 = _ =>
            assert (get_obj other s1 = (Fault, s1)) as Hf
              by (apply get_obj_fault; simpl; by rewrite lookup_insert_ne)
        end.
        rewrite (bind_fault _ _ _ _ Hf) in Hrun.
        by injection Hrun as <- _. }
    pose proof (wp_run _ _ _ _ _ _
      (wp_Vector_move st self other v (λ _ st', blocks_owned st') (λ _, False) Hs Hv
         ltac:(by eapply (blocks_owned_move st _ self other v))) Hrun) as Hpost.
    by destruct o.
  - (* ~Vector() *)
    destruct (objs st !! self) as [v|] eqn:Hv.
    2:{ unfold Vector_dtor in Hrun.
        rewrite (bind_fault _ _ st st (get_obj_fault _ _ Hv)) in Hrun.
        by injection Hrun as <- _. }
    destruct (Hwf _ _ Hv) as [xs Hr].
    pose proof (wp_run _ _ _ _ _ _
      (wp_Vector_dtor st self v xs (λ _ st', blocks_owned st') (λ _, False) Hv Hr
         ltac:(by eapply (blocks_owned_dtor st _ self v))) Hrun) as Hpost.
    by destruct o.
  - (* operator=(const Vector&) *)
    destruct (decide (this = rhs)) as [<-|Hne].
    { unfold Vector_copy_assign in Hrun. rewrite bool_decide_eq_false_2 in Hrun by naive_solver.
      by injection Hrun as _ <-. }
    destruct (objs st !! this) as [t|] eqn:Ht.
    2:{ unfold Vector_copy_assign in Hrun. rewrite bool_decide_eq_true_2 in Hrun by done.
        rewrite (bind_fault _ _ st st (get_obj_fault _ _ Ht)) in Hrun.
        by injection Hrun as <- _. }
    destruct (objs st !! rhs) as [r|] eqn:Hr.
    2:{ unfold Vector_copy_assign in Hrun. rewrite bool_decide_eq_true_2 in Hrun by done.
        rewrite bind_run, (get_obj_run _ _ _ Ht) in Hrun.
        rewrite (bind_fault _ _ st st (get_obj_fault _ _ Hr)) in Hrun.
        by injection Hrun as <- _. }
    destruct (Hwf _ _ Ht) as [xt Hrt]. destruct (Hwf _ _ Hr) as [xr Hrr].
    pose proof (wp_run _ _ _ _ _ _
      (wp_Vector_copy_assign st this rhs t r xt xr Hne Ht Hr Hrt Hrr
         (λ a, Hdis this rhs t r a Hne Ht Hr)) Hrun) as Hpost.
    destruct o; [| |done].
    + destruct Hpost as (_ & v' & Hu & _). exact (blocks_owned_updates _ _ _ _ _ _ Hown Ht Hu).
    + destruct Hpost as (_ & ys & Hu & _). exact (blocks_owned_updates _ _ _ _ _ _ Hown Ht Hu).
  - (* operator=(Vector&&) *)
    destruct (decide (this = rhs)) as [<-|Hne].
    { unfold Vector_move_assign in Hrun. rewrite bool_decide_eq_false_2 in Hrun by naive_solver.
      by injection Hrun as _ <-. }
    unfold Vector_move_assign in Hrun. rewrite bool_decide_eq_true_2 in Hrun by done.
    destruct (objs st !! this) as [t|] eqn:Ht.
    2:{ unfold Vector_Swap in Hrun.
        rewrite (bind_fault _ _ st st (get_obj_fault _ _ Ht)) in Hrun.
        by injection Hrun as <- _. }
    destruct (objs st !! rhs) as [r|] eqn:Hr.
    2:{ unfold Vector_Swap in Hrun.
        rewrite bind_run, (get_obj_run _ _ _ Ht) in Hrun.
        rewrite (bind_fault _ _ st st (get_obj_fault _ _ Hr)) in Hrun.
        by injection Hrun as <- _. }
    pose proof (wp_run _ _ _ _ _ _
      (wp_Vector_Swap st this rhs t r (λ _ st', blocks_owned st') (λ _, False) Ht Hr
         ltac:(by eapply (blocks_owned_swap st _ this rhs t r))) Hrun) as Hpost.
    by destruct o.
  - (* Swap *)
    destruct (objs st !! this) as [t|] eqn:Ht.
    2:{ unfold Vector_Swap in Hrun.
        rewrite (bind_fault _ _ st st (get_obj_fault _ _ Ht)) in Hrun.
        by injection Hrun as <- _. }
    destruct (objs st !! other) as [r|] eqn:Hr.
    2:{ unfold Vector_Swap in Hrun.
        rewrite bind_run, (get_obj_run _ _ _ Ht) in Hrun.
        rewrite (bind_fault _ _ st st (get_obj_fault _ _ Hr)) in Hrun.
        by injection Hrun as <- _. }
    pose proof (wp_run _ _ _ _ _ _
      (wp_Vector_Swap st this other t r (λ _ st', blocks_owned st') (λ _, False) Ht Hr
         ltac:(by eapply (blocks_owned_swap st _ this other t r))) Hrun) as Hpost.
    by destruct o.
  - (* begin *)
    apply run_discard in Hrun as (o' & Hm & Ho').
    destruct (objs st !! this) as [v|] eqn:Hv.
    + rewrite (Vector_begin_run _ _ _ Hv) in Hm. by injection Hm as _ <-.
    + unfold Vector_begin in Hm.
      rewrite (bind_fault _ _ st st (get_obj_fault _ _ Hv)) in Hm.
      injection Hm as <- _. done.
  - (* end *)
    apply run_discard in Hrun as (o' & Hm & Ho').
    destruct (objs st !! this) as [v|] eqn:Hv.
    + rewrite (Vector_end_run _ _ _ Hv) in Hm. by injection Hm as _ <-.
    + unfold Vector_end in Hm.
      rewrite (bind_fault _ _ st st (get_obj_fault _ _ Hv)) in Hm.
      injection Hm as <- _. done.
  - (* Emplace *)
    pose proof Hrun as Hrun'.
    apply run_discard in Hrun as (o' & Hm & Ho').
    eapply (Vector_Emplace_blocks_owned st this pos ar o'); [done|done|done| |].
    + intros ->. done.
    + intros -> (v & st1 & Hv & Hnz & Hnf' & Hin & Hshift). apply Hsafe.
      exists v, st1. split_and!; [done..|]. simpl. by rewrite Hrun', Ho'.
  - (* Erase *)
    apply run_discard in Hrun as (o' & Hm & Ho').
    assert (o' ≠ Fault) as Hnf' by (by intros ->).
    destruct (objs st !! this) as [v|] eqn:Hv.
    2:{ unfold Vector_Erase in Hm.
        rewrite (noexcept_fault _ st st) in Hm; [by injection Hm as <- _|].
        apply bind_fault. unfold Vector_begin. apply bind_fault. by apply get_obj_fault. }
    destruct (ptr_leb (RawMemory_GetAddress (data_ v)) pos &&
              ptr_ltb pos (RawMemory_GetAddress (data_ v) +ₚ size_ v)) eqn:Hpos.
    2:{ rewrite (Vector_Erase_fault _ _ _ _ Hv Hpos) in Hm. by injection Hm as <- _. }
    destruct (Hwf _ _ Hv) as [xs Hr]. destruct v as [[buf cap] size].
    pose proof (vec_repr_cases _ _ _ _ _ Hr) as (-> & _).
    destruct (valid_erase_pos_inv _ _ _ _ Hpos) as (b & count & -> & -> & Hcount).
    destruct (Vector_Erase_body st this b cap xs count Hv Hr Hcount) as (m & Heq & Hwp).
    rewrite Heq in Hm.
    destruct (noexcept_run _ _ _ _ _ _ Hm Hwp Hnf') as (p & -> & _ & _ & ys & Hu).
    by eapply blocks_owned_updates.
  - (* Insert(pos, const T&) *)
    pose proof Hrun as Hrun'.
    apply run_discard in Hrun as (o' & Hm & Ho').
    eapply (Vector_Emplace_blocks_owned st this pos (ByCopy value) o'); [done|done|done| |].
    + intros ->. done.
    + intros -> (v & st1 & Hv & Hnz & Hnf' & Hin & Hshift). apply Hsafe.
      exists v, st1. split_and!; [done..|]. simpl. by rewrite Hrun', Ho'.
  - (* Insert(pos, T&&) *)
    pose proof Hrun as Hrun'.
    apply run_discard in Hrun as (o' & Hm & Ho').
    eapply (Vector_Emplace_blocks_owned st this pos (ByMove value) o'); [done|done|done| |].
    + intros ->. done.
    + intros -> (v & st1 & Hv & Hnz & Hnf' & Hin & Hshift). apply Hsafe.
      exists v, st1. split_and!; [done..|]. simpl. by rewrite Hrun', Ho'.
  - (* Reserve *)
    destruct (objs st !! this) as [v|] eqn:Hv.
    2:{ unfold Vector_Reserve in Hrun.
        rewrite (bind_fault _ _ st st (get_obj_fault _ _ Hv)) in Hrun.
        by injection Hrun as <- _. }
    destruct (Hwf _ _ Hv) as [xs Hr].
    pose proof (wp_run _ _ _ _ _ _ (wp_Vector_Reserve st this v xs new_capacity Hv Hr) Hrun)
      as Hpost.
    destruct o; [| |done].
    + destruct Hpost as [[_ ->]|(_ & _ & a' & _ & Hu)]; [done|]. by eapply blocks_owned_updates.
    + destruct Hpost as (_ & _ & ys & Hu & _). by eapply blocks_owned_updates.
  - (* Resize *)
    destruct (objs st !! this) as [v|] eqn:Hv.
    2:{ unfold Vector_Resize in Hrun.
        rewrite (bind_fault _ _ st st (get_obj_fault _ _ Hv)) in Hrun.
        by injection Hrun as <- _. }
    destruct (Hwf _ _ Hv) as [xs Hr].
    pose proof (wp_run _ _ _ _ _ _ (wp_Vector_Resize st this v xs new_size Hv Hr) Hrun)
      as Hpost.
    destruct o; [| |done].
    + destruct Hpost as (_ & v' & Hu & _). by eapply blocks_owned_updates.
    + destruct Hpost as (_ & _ & v' & ys & Hu & _). by eapply blocks_owned_updates.
  - (* PushBack *)
    unfold Vector_PushBack in Hrun.
    apply run_discard in Hrun as (o' & Hm & Ho').
    destruct (objs st !! this) as [v|] eqn:Hv.
    2:{ unfold Vector_EmplaceBack in Hm.
        rewrite (bind_fault _ _ st st (get_obj_fault _ _ Hv)) in Hm.
        injection Hm as <- _. done. }
    destruct (Hwf _ _ Hv) as [xs Hr].
    pose proof (wp_run _ _ _ _ _ _ (wp_Vector_EmplaceBack st this v xs ar Hv Hr) Hm)
      as Hpost.
    destruct o'; [| |done].
    + destruct Hpost as (_ & v' & Hu & _). by eapply blocks_owned_updates.
    + destruct Hpost as (ys & Hu & _). by eapply blocks_owned_updates.
  - (* EmplaceBack *)
    apply run_discard in Hrun as (o' & Hm & Ho').
    destruct (objs st !! this) as [v|] eqn:Hv.
    2:{ unfold Vector_EmplaceBack in Hm.
        rewrite (bind_fault _ _ st st (get_obj_fault _ _ Hv)) in Hm.
        injection Hm as <- _. done. }
    destruct (Hwf _ _ Hv) as [xs Hr].
    pose proof (wp_run _ _ _ _ _ _ (wp_Vector_EmplaceBack st this v xs ar Hv Hr) Hm)
      as Hpost.
    destruct o'; [| |done].
    + destruct Hpost as (_ & v' & Hu & _). by eapply blocks_owned_updates.
    + destruct Hpost as (ys & Hu & _). by eapply blocks_owned_updates.
  - (* PopBack *)
    destruct (objs st !! this) as [v|] eqn:Hv.
    2:{ unfold Vector_PopBack in Hrun.
        rewrite (noexcept_fault _ st st) in Hrun; [by injection Hrun as <- _|].
        apply bind_fault. by apply get_obj_fault. }
    destruct (Hwf _ _ Hv) as [xs Hr].
    pose proof (wp_run _ _ _ _ _ _ (wp_Vector_PopBack st this v xs Hv Hr) Hrun) as Hpost.
    destruct o; [|done|done].
    destruct Hpost as (_ & _ & Hu). by eapply blocks_owned_updates.
  - (* Size *)
    apply run_discard in Hrun as (o' & Hm & Ho').
    destruct (objs st !! this) as [v|] eqn:Hv.
    + unfold Vector_Size in Hm. rewrite bind_run, (get_obj_run _ _ _ Hv) in Hm.
      by injection Hm as _ <-.
    + unfold Vector_Size in Hm.
      rewrite (bind_fault _ _ st st (get_obj_fault _ _ Hv)) in Hm.
      injection Hm as <- _. done.
  - (* Capacity *)
    apply run_discard in Hrun as (o' & Hm & Ho').
    destruct (objs st !! this) as [v|] eqn:Hv.
    + unfold Vector_Capacity in Hm. rewrite bind_run, (get_obj_run _ _ _ Hv) in Hm.
      by injection Hm as _ <-.
    + unfold Vector_Capacity in Hm.
      rewrite (bind_fault _ _ st st (get_obj_fault _ _ Hv)) in Hm.
      injection Hm as <- _. done.
  - (* operator[] *)
    apply run_discard in Hrun as (o' & Hm & Ho').
    destruct (objs st !! this) as [v|] eqn:Hv.
    2:{ unfold Vector_read, Vector_index in Hm.
        rewrite (bind_fault _ _ st st) in Hm; [injection Hm as <- _; done|].
        apply bind_fault. by apply get_obj_fault. }
    destruct (decide (index < size_ v)) as [Hi|Hi].
    2:{ rewrite (Vector_Index_fault _ _ _ _ Hv Hi) in Hm. injection Hm as <- _. done. }
    destruct (Hwf _ _ Hv) as [xs Hr].
    pose proof (wp_run _ _ _ _ _ _ (wp_Vector_read st this v xs index Hv Hr Hi) Hm) as Hpost.
    destruct o'; [|done|done]. by destruct Hpost as [-> _].
Qed.

Lemma reachable_safe_blocks_owned st : reachable_safe st → blocks_owned st.
Proof.
  induction 1 as [s|st c o st' Hst IH Hrun Hnf Hsafe].
  - apply blocks_owned_init.
  - eapply run_op_blocks_owned; [|exact IH|exact Hrun|exact Hnf|exact Hsafe].
    by apply reachable_safe_state_ok.
Qed.

End Logic.

(** * The properties of the specification *)

Section Claims.
Context {T : Type} `{ET : Elem T}.
Implicit Types (st : state T) (h : gmap nat (list (slot T))) (xs ys : list T) (v : Vector).

Lemma elements_repr h v xs : vec_repr h v xs → elements h v = Some xs.
Proof.
  intros [Hsz Hr]. unfold elements. apply mapM_Some.
  apply Forall2_same_length_lookup_2.
  - by rewrite length_seq.
  - intros i j x Hj Hx. apply lookup_seq in Hj as [-> Hi]. simpl in *.
    unfold element_at. destruct v as [[[b|] cap] sz]; norm.
    + destruct Hr as (_ & _ & Hb). unfold slot_at. rewrite Hb. simpl. unfold vec_block.
      rewrite lookup_app_l by (rewrite length_fmap; by eapply lookup_lt_Some).
      by rewrite list_lookup_fmap, Hx.
    + destruct Hr as [_ ->]. done.
Qed.

Lemma contents_repr st this v xs :
  objs st !! this = Some v → vec_repr (heap st) v xs → contents st this = Some xs.
Proof. intros Hv Hr. unfold contents. rewrite Hv. simpl. by apply elements_repr. Qed.

Lemma wp_returns {A} (m : M T A) st Q E :
  wp m st Q E → (∀ st', ¬ E st') → ∃ a st', m st = (Ok a, st') ∧ Q a st'.
Proof.
  unfold wp. destruct (m st) as [[a| |] st']; [|intros [HE _] HnE; by destruct (HnE st')|tauto].
  intros [HQ _]. eauto.
Qed.

Lemma run_ops_reachable cs : ∀ st st',
  reachable st → run_ops cs st = Some st' → reachable st'.
Proof.
  induction cs as [|c cs IH]; intros st st' Hst Hrun; simpl in Hrun.
  - by injection Hrun as <-.
  - destruct (run_op c st) as [o st1] eqn:Hc.
    destruct o; try done; apply (IH st1 st'); try done;
      by eapply reachable_step.
Qed.

Lemma Vector_Swap_run st this other t o :
  objs st !! this = Some t → objs st !! other = Some o →
  Vector_Swap this other st =
    (Ok tt, mkState (heap st) (<[other := t]> (<[this := o]> (objs st))) (sched st) (leaked st)).
Proof.
  intros Ht Ho.
  destruct (wp_returns (Vector_Swap this other) st (λ r st', st' = mkState (heap st) (<[other := t]> (<[this := o]> (objs st))) (sched st) (leaked st)) (λ _, False))
    as ([] & st' & Hrun & ->); [|by intros ? []|done].
  exact (wp_Vector_Swap st this other t o _ _ Ht Ho eq_refl).
Qed.

(** Claim C6.  [Reserve(n)] with [n] at most the capacity returns at once
    and leaves the whole state as it was: no block is allocated or
    released, and the capacity, the size and the elements are those of
    before the call. *)
Theorem C6_Reserve_within_capacity st this v n :
  objs st !! this = Some v → n ≤ capacity_ (data_ v) →
  Vector_Reserve this n st = (Ok tt, st).
Proof.
  intros Hv Hn. unfold Vector_Reserve.
  rewrite bind_run, (get_obj_run _ _ _ Hv).
  unfold RawMemory_Capacity. by rewrite bool_decide_eq_true_2.
Qed.

(** Claim C8.  Assigning a vector to itself, by copy or by move, returns
    with the state unchanged: the size, the capacity and the elements are
    those of before the assignment. *)
Theorem C8_self_assignment st this :
  Vector_copy_assign this this st = (Ok tt, st) ∧
  Vector_move_assign this this st = (Ok tt, st).
Proof.
  unfold Vector_copy_assign, Vector_move_assign.
  rewrite bool_decide_eq_false_2 by (intros H; by apply H). done.
Qed.

(** Claim C10.  [a.Swap(b)] on two vector objects always returns; after it
    [a] has the fields (buffer, capacity and size) that [b] had and [b] has
    those that [a] had, no block of the heap is touched, and so each vector
    holds the element sequence the other one held.  No other object
    changes. *)
Theorem C10_Swap_exchanges st a b va vb :
  objs st !! a = Some va → objs st !! b = Some vb →
  ∃ st', Vector_Swap a b st = (Ok tt, st') ∧
    objs st' !! a = Some vb ∧ objs st' !! b = Some va ∧
    (∀ k, k ≠ a → k ≠ b → objs st' !! k = objs st !! k) ∧
    heap st' = heap st ∧ sched st' = sched st ∧ leaked st' = leaked st ∧
    contents st' a = contents st b ∧ contents st' b = contents st a.
Proof.
  intros Ha Hb. eexists. split; [by apply Vector_Swap_run|]. simpl.
  assert (<[b:=va]> (<[a:=vb]> (objs st)) !! a = Some vb) as Ha'.
  { destruct (decide (a = b)) as [->|Hne].
    - rewrite lookup_insert_eq. congruence.
    - by rewrite lookup_insert_ne, lookup_insert_eq by done. }
  assert (<[b:=va]> (<[a:=vb]> (objs st)) !! b = Some va) as Hb'
    by by rewrite lookup_insert_eq.
  split_and!; try done.
  - intros k Hka Hkb. by rewrite !lookup_insert_ne by done.
  - unfold contents. simpl. by rewrite Ha', Hb.
  - unfold contents. simpl. by rewrite Hb', Ha.
Qed.

Lemma Vector_EmplaceBack_returns st this v xs ar :
  objs st !! this = Some v → vec_repr (heap st) v xs → true ∉ sched st →
  ∃ p st' v',
    Vector_EmplaceBack this ar st = (Ok p, st') ∧
    Vector_PushBack this ar st = (Ok tt, st') ∧
    objs st' !! this = Some v' ∧
    vec_repr (heap st') v' (xs ++ [args_value ar]) ∧
    size_ v' = size_ v + 1 ∧
    capacity_ (data_ v') =
      (if bool_decide (size_ v = capacity_ (data_ v))
       then if bool_decide (capacity_ (data_ v) = 0) then 1 else capacity_ (data_ v) * 2
       else capacity_ (data_ v)) ∧
    p = RawMemory_GetAddress (data_ v') +ₚ size_ v ∧
    true ∉ sched st'.
Proof.
  intros Hv Hr Hq.
  destruct (wp_quiet _ _ _ _ (wp_Vector_EmplaceBack st this v xs ar Hv Hr) Hq)
    as (p & st' & Hrun & (_ & v' & Hu & Hsz & Hcap & _ & Hp) & Hq').
  exists p, st', v'. split_and!; try done.
  - unfold Vector_PushBack. by rewrite bind_run, Hrun.
  - destruct Hu as (-> & _). by rewrite lookup_insert_eq.
  - by destruct Hu as (_ & ? & _).
  - lia.
  - rewrite Hcap. case_bool_decide as Hfull; [|done]. by rewrite Hfull.
Qed.

Lemma Vector_Capacity_run st this v :
  objs st !! this = Some v →
  Vector_Capacity this st = (Ok (capacity_ (data_ v)), st).
Proof. intros Hv. unfold Vector_Capacity. by rewrite bind_run, (get_obj_run _ _ _ Hv). Qed.

Lemma Vector_Size_run st this v :
  objs st !! this = Some v → Vector_Size this st = (Ok (size_ v), st).
Proof. intros Hv. unfold Vector_Size. by rewrite bind_run, (get_obj_run _ _ _ Hv). Qed.

(** Claim C5.  When nothing throws, [EmplaceBack] (and [PushBack], which
    calls it) returns; the vector then holds the old elements followed by
    the new one, the size is one more, and the capacity is the old one when
    the vector was not full, twice the old one when it was full, and 1 when
    it was full with capacity 0.  Starting from an empty vector, three
    calls give the capacities 1, 2 and 4. *)
Theorem C5_EmplaceBack_growth :
  (∀ st this v xs ar,
     objs st !! this = Some v → vec_repr (heap st) v xs → true ∉ sched st →
     ∃ p st' v',
       Vector_EmplaceBack this ar st = (Ok p, st') ∧
       Vector_PushBack this ar st = (Ok tt, st') ∧
       objs st' !! this = Some v' ∧
       contents st' this = Some (xs ++ [args_value ar]) ∧
       size_ v' = size_ v + 1 ∧
       capacity_ (data_ v') =
         (if bool_decide (size_ v = capacity_ (data_ v))
          then if bool_decide (capacity_ (data_ v) = 0) then 1
               else capacity_ (data_ v) * 2
          else capacity_ (data_ v)) ∧
       p = RawMemory_GetAddress (data_ v') +ₚ size_ v) ∧
  (∀ st this a1 a2 a3,
     objs st !! this = Some (mkVector RawMemory_default 0) → true ∉ sched st →
     ∃ p1 st1 p2 st2 p3 st3,
       Vector_EmplaceBack this a1 st = (Ok p1, st1) ∧
       Vector_Capacity this st1 = (Ok 1, st1) ∧
       Vector_EmplaceBack this a2 st1 = (Ok p2, st2) ∧
       Vector_Capacity this st2 = (Ok 2, st2) ∧
       Vector_EmplaceBack this a3 st2 = (Ok p3, st3) ∧
       Vector_Capacity this st3 = (Ok 4, st3) ∧
       Vector_Size this st3 = (Ok 3, st3) ∧
       contents st3 this = Some [args_value a1; args_value a2; args_value a3]).
Proof.
  split.
  - intros st this v xs ar Hv Hr Hq.
    destruct (Vector_EmplaceBack_returns st this v xs ar Hv Hr Hq)
      as (p & st' & v' & Hrun & Hpb & Hv' & Hr' & Hsz & Hcap & Hp & _).
    exists p, st', v'. split_and!; try done. by eapply contents_repr.
  - intros st this a1 a2 a3 Hv Hq.
    assert (vec_repr (heap st) (mkVector RawMemory_default 0) []) as Hr by done.
    destruct (Vector_EmplaceBack_returns st this _ [] a1 Hv Hr Hq)
      as (p1 & st1 & v1 & Hrun1 & _ & Hv1 & Hr1 & Hsz1 & Hcap1 & _ & Hq1).
    simpl in Hsz1, Hcap1.
    destruct (Vector_EmplaceBack_returns st1 this v1 _ a2 Hv1 Hr1 Hq1)
      as (p2 & st2 & v2 & Hrun2 & _ & Hv2 & Hr2 & Hsz2 & Hcap2 & _ & Hq2).
    rewrite Hsz1 in Hsz2. rewrite Hsz1, Hcap1 in Hcap2. simpl in Hsz2, Hcap2.
    destruct (Vector_EmplaceBack_returns st2 this v2 _ a3 Hv2 Hr2 Hq2)
      as (p3 & st3 & v3 & Hrun3 & _ & Hv3 & Hr3 & Hsz3 & Hcap3 & _ & Hq3).
    rewrite Hsz2 in Hsz3. rewrite Hsz2, Hcap2 in Hcap3. simpl in Hsz3, Hcap3.
    exists p1, st1, p2, st2, p3, st3. split_and!; try done.
    + by rewrite (Vector_Capacity_run _ _ _ Hv1), Hcap1.
    + by rewrite (Vector_Capacity_run _ _ _ Hv2), Hcap2.
    + by rewrite (Vector_Capacity_run _ _ _ Hv3), Hcap3.
    + by rewrite (Vector_Size_run _ _ _ Hv3), Hsz3.
    + by eapply contents_repr.
Qed.

(** Claim C3, as the code has it.  The move constructor gives the new
    object the fields of the source and leaves the source with no buffer,
    capacity 0 and size 0.  The move assignment between two distinct
    objects exchanges their fields: the destination gets the buffer, the
    capacity and the size of the source, and the source gets those the
    destination had, so it holds the elements the destination held.
    Neither touches a block of the heap. *)
Theorem C3_move_exchanges st :
  (∀ self other v,
     objs st !! self = None → objs st !! other = Some v →
     ∃ st', Vector_move self other st = (Ok tt, st') ∧
       objs st' !! self = Some v ∧
       objs st' !! other = Some (mkVector RawMemory_default 0) ∧
       heap st' = heap st ∧
       contents st' self = contents st other ∧
       contents st' other = Some []) ∧
  (∀ this rhs t r,
     this ≠ rhs → objs st !! this = Some t → objs st !! rhs = Some r →
     ∃ st', Vector_move_assign this rhs st = (Ok tt, st') ∧
       objs st' !! this = Some r ∧
       objs st' !! rhs = Some t ∧
       heap st' = heap st ∧
       contents st' this = contents st rhs ∧
       contents st' rhs = contents st this).
Proof.
  split.
  - intros self other v Hs Ho.
    assert (self ≠ other) as Hne by congruence.
    destruct (wp_returns (Vector_move self other) st
                (λ _ st', st' = mkState (heap st)
                   (<[other := mkVector RawMemory_default 0]> (<[self := v]> (objs st)))
                   (sched st) (leaked st)) (λ _, False))
      as ([] & st' & Hrun & ->); [|by intros ? []|].
    { exact (wp_Vector_move st self other v _ _ Hs Ho eq_refl). }
    eexists. split; [done|]. simpl.
    assert (<[other:=mkVector RawMemory_default 0]> (<[self:=v]> (objs st)) !! self = Some v)
      as Hs' by by rewrite lookup_insert_ne, lookup_insert_eq by done.
    split_and!; try done.
    + by rewrite lookup_insert_eq.
    + unfold contents. simpl. by rewrite Hs', Ho.
    + unfold contents. simpl. by rewrite lookup_insert_eq.
  - intros this rhs t r Hne Ht Hr.
    unfold Vector_move_assign. rewrite bool_decide_eq_true_2 by done.
    eexists. split; [by apply Vector_Swap_run|]. simpl.
    assert (<[rhs:=t]> (<[this:=r]> (objs st)) !! this = Some r) as Ht'
      by by rewrite lookup_insert_ne, lookup_insert_eq by done.
    assert (<[rhs:=t]> (<[this:=r]> (objs st)) !! rhs = Some t) as Hr'
      by by rewrite lookup_insert_eq.
    split_and!; try done.
    + unfold contents. simpl. by rewrite Ht', Hr.
    + unfold contents. simpl. by rewrite Hr', Ht.
Qed.

(** Claim C9.  [PopBack] and [Resize(n)] with [n] at most the size return
    and leave the arena of the vector (buffer and capacity) as it was; so
    does every call of [Erase] that has a defined result, and [Erase] at a
    valid position has one when the move assignment of the element type
    does not throw.  Only the size changes in the vector object. *)
Theorem C9_shrinking_keeps_capacity st this v xs :
  objs st !! this = Some v → vec_repr (heap st) v xs →
  (∃ st', Vector_PopBack this st = (Ok tt, st') ∧
          objs st' !! this = Some (mkVector (data_ v) (size_ v - 1))) ∧
  (∀ n, n ≤ size_ v →
     ∃ st', Vector_Resize this n st = (Ok tt, st') ∧
            objs st' !! this = Some (mkVector (data_ v) n)) ∧
  (∀ pos o st',
     Vector_Erase this pos st = (o, st') → o ≠ Fault →
     objs st' !! this = Some (mkVector (data_ v) (size_ v - 1))) ∧
  (∀ pos,
     ptr_leb (RawMemory_GetAddress (data_ v)) pos &&
     ptr_ltb pos (RawMemory_GetAddress (data_ v) +ₚ size_ v) = true →
     is_nothrow_move_assignable = true →
     ∃ p st', Vector_Erase this pos st = (Ok p, st')).
Proof.
  intros Hv Hr. split_and!.
  - destruct (wp_returns _ _ _ _ (wp_Vector_PopBack st this v xs Hv Hr))
      as ([] & st' & Hrun & _ & _ & Hu); [by intros ? []|].
    exists st'. split; [done|]. by eapply updates_objs.
  - intros n Hn.
    destruct (wp_returns _ _ _ _ (wp_Vector_Resize st this v xs n Hv Hr))
      as ([] & st' & Hrun & _ & v' & Hu & Hsz & Hdata & _).
    { intros st' [Hlt _]. lia. }
    exists st'. split; [done|].
    rewrite (updates_objs _ _ _ _ _ _ Hu). f_equal.
    rewrite <- Hsz, <- Hdata, vector_eta; [done|].
    pose proof (vec_repr_size_le _ _ _ Hr). lia.
  - intros pos o st' Hrun Hnf.
    destruct (ptr_leb (RawMemory_GetAddress (data_ v)) pos &&
              ptr_ltb pos (RawMemory_GetAddress (data_ v) +ₚ size_ v)) eqn:Hpos.
    2:{ rewrite (Vector_Erase_fault _ _ _ _ Hv Hpos) in Hrun. by injection Hrun as <- _. }
    destruct v as [[buf cap] size].
    pose proof (vec_repr_cases _ _ _ _ _ Hr) as (-> & _).
    destruct (valid_erase_pos_inv _ _ _ _ Hpos) as (b & count & -> & -> & Hcount).
    destruct (Vector_Erase_body st this b cap xs count Hv Hr Hcount) as (m & Heq & Hwp).
    rewrite Heq in Hrun.
    destruct (noexcept_run _ _ _ _ _ _ Hrun Hwp Hnf) as (p & -> & _ & _ & ys & Hu).
    by rewrite (updates_objs _ _ _ _ _ _ Hu).
  - intros pos Hpos Hma.
    destruct v as [[buf cap] size].
    pose proof (vec_repr_cases _ _ _ _ _ Hr) as (-> & _).
    destruct (valid_erase_pos_inv _ _ _ _ Hpos) as (b & count & -> & -> & Hcount).
    destruct (Vector_Erase_body st this b cap xs count Hv Hr Hcount) as (m & Heq & Hwp).
    rewrite Heq.
    destruct (wp_returns _ _ _ (λ _, False)
                (wp_noexcept_if _ _ _ (λ _, False) _ Hwp ltac:(congruence)))
      as (p & st' & Hrun & _); [by intros ? []|].
    by exists p, st'.
Qed.

(** Claim C2.  For a full vector, a valid position and an element type
    that is copyable and whose move constructor is not [noexcept]: when
    [Emplace] (hence [Insert]) leaves by an exception, the vector object is
    unchanged and the allocated blocks and everything they hold are those
    of before the call, so the block allocated for the relocation has been
    released and the buffer still holds the elements of before the call.
    The objects that were alive in the released block, lost without being
    destroyed, are copies of old elements, each at the index of its
    original, before the insertion point: the new element, constructed at
    the insertion point of that block, was destroyed before the block was
    released. *)
Theorem C2_relocating_Emplace_strong_guarantee st this v xs pos ar st' :
  objs st !! this = Some v →
  vec_repr (heap st) v xs →
  size_ v = capacity_ (data_ v) →
  ptr_leb (RawMemory_GetAddress (data_ v)) pos &&
  ptr_leb pos (RawMemory_GetAddress (data_ v) +ₚ size_ v) = true →
  is_nothrow_move_constructible = false →
  is_copy_constructible = true →
  Vector_Emplace this pos ar st = (Throw, st') →
  objs st' = objs st ∧
  heap st' = heap st ∧
  vec_repr (heap st') v xs ∧
  contents st this = Some xs ∧
  contents st' this = Some xs ∧
  ∃ ext, leaked st' = leaked st ++ ext ∧
         ∀ a i x, (a, i, x) ∈ ext →
                  heap st !! a = None ∧
                  i < ptr_diff pos (RawMemory_GetAddress (data_ v)) ∧
                  xs !! i = Some x.
Proof.
  intros Hv Hr Hfull Hpos Hmc Hcc Hrun.
  destruct v as [[buf cap] size].
  pose proof (vec_repr_cases _ _ _ _ _ Hr) as (Hs & _ & Hb).
  simpl in Hfull. subst size cap.
  pose proof (wp_run _ _ _ _ _ _ (wp_Vector_Emplace_full st this buf xs pos ar Hv Hr Hpos) Hrun)
    as (Ho & ys & _ & Hh & Hxs & Hext).
  rewrite Hmc, Hcc in Hxs, Hext. simpl in Hxs, Hext.
  rewrite (Hxs eq_refl) in Hh.
  assert (heap st' = heap st) as Hh'.
  { rewrite Hh. destruct buf as [b|]; [|done]. destruct Hb as [Hb _]. by apply insert_id. }
  split_and!; try done.
  - by rewrite Hh'.
  - by eapply contents_repr.
  - eapply contents_repr; [by rewrite Ho|by rewrite Hh'].
  - by apply Hext.
Qed.

Lemma reachable_in_range_safe st : reachable_in_range st → reachable_safe st.
Proof.
  induction 1 as [s|st c o st' _ IH Hrun Hnf _ Hsafe].
  - apply reachable_safe_init.
  - by eapply reachable_safe_step.
Qed.

(** Claim C7, as the code has it.  In every state reached by a sequence of
    calls of the public member functions in which every size passed to
    [Vector(size)], [Reserve] and [Resize] has a byte count below 2^64,
    and no constructor of a new element throws in the in-place branch of
    [Emplace] at a position before the end, every vector has its size at
    most its capacity, objects in the slots below the size and raw memory
    in the slots from the size to the capacity.  The restriction on the
    sizes is where [Allocate] of the model, which takes the byte count
    without wrap-around, is [Allocate] of the code. *)
Theorem C7_invariant_of_safe_runs st this v :
  reachable_in_range st → objs st !! this = Some v →
  vector_invariant (heap st) v.
Proof.
  intros Hst Hv.
  destruct (reachable_safe_state_ok _ (reachable_in_range_safe _ Hst)) as [Hwf _].
  destruct (Hwf _ _ Hv) as [xs Hr]. by eapply vec_repr_invariant.
Qed.

Lemma run_ops_reachable_in_range cs :
  Forall (λ c, emplace_call c = None ∧ in_range c) cs →
  ∀ st st', reachable_in_range st → run_ops cs st = Some st' → reachable_in_range st'.
Proof.
  induction 1 as [|c cs [Hc Hin] _ IH]; intros st st' Hst Hrun; simpl in Hrun.
  - by injection Hrun as <-.
  - destruct (run_op c st) as [o st1] eqn:Hop.
    assert (¬ new_element_threw_in_place c st) as Hsafe.
    { unfold new_element_threw_in_place. rewrite Hc. tauto. }
    destruct o; try done; apply (IH st1 st'); try done;
      by eapply reachable_in_range_step.
Qed.

Lemma run_ops_reachable_safe cs :
  Forall (λ c, emplace_call c = None) cs →
  ∀ st st', reachable_safe st → run_ops cs st = Some st' → reachable_safe st'.
Proof.
  induction 1 as [|c cs Hc _ IH]; intros st st' Hst Hrun; simpl in Hrun.
  - by injection Hrun as <-.
  - destruct (run_op c st) as [o st1] eqn:Hop.
    assert (¬ new_element_threw_in_place c st) as Hsafe.
    { unfold new_element_threw_in_place. rewrite Hc. tauto. }
    destruct o; try done; apply (IH st1 st'); try done;
      by eapply reachable_safe_step.
Qed.

Lemma RawMemory_move_run (σ : gmap nat RawMemory) self other r :
  σ !! self = None → σ !! other = Some r →
  RawMemory_move self other σ =
    Some (<[other := mkRawMemory None 0]> (<[self := r]> σ)).
Proof.
  intros Hs Ho. assert (self ≠ other) as Hne by congruence.
  unfold RawMemory_move. rewrite bool_decide_eq_true_2 by done.
  repeat (rewrite ?lookup_insert_eq, ?lookup_insert_ne, ?Ho by done; simpl).
  destruct r as [b c]. simpl. f_equal. apply map_eq. intros k.
  destruct (decide (k = other)) as [Hk|Hk]; [subst k; by rewrite !lookup_insert_eq|].
  rewrite !(lookup_insert_ne _ other k) by congruence.
  destruct (decide (k = self)) as [Hk'|Hk']; [subst k; by rewrite !lookup_insert_eq|].
  by rewrite !lookup_insert_ne by congruence.
Qed.

End Claims.

(** * The claims on the examples *)

Lemma abc_state_run :
  run_ops (ET:=string_elem) abc_program (init_state []) = Some abc_state.
Proof. by vm_compute. Qed.

(** Claim C1, on the vector of strings a, b, c.  [Erase(begin())] returns
    [begin()] and leaves two elements, but they are the last element c
    followed by an empty string, not b followed by c: each element after
    the position is overwritten before it is read. *)
Theorem C1_Erase_overwrites_with_last_element :
  objs abc_state !! 0 = Some (mkVector (mkRawMemory (Some 2) 4) 3) ∧
  contents abc_state 0 = Some ["a"; "b"; "c"] ∧
  Vector_begin 0 abc_state = (Ok (At 2 0), abc_state) ∧
  ∃ st', Vector_Erase (ET:=string_elem) 0 (At 2 0) abc_state = (Ok (At 2 0), st') ∧
         Vector_Size 0 st' = (Ok 2, st') ∧
         contents st' 0 = Some ["c"; EmptyString] ∧
         contents st' 0 ≠ Some ["b"; "c"].
Proof.
  split_and!; [by vm_compute..|].
  eexists. split; [by vm_compute|]. split_and!; by vm_compute.
Qed.

(** Claim C3, as stated, fails.  After [a = std::move(b)] with [a] holding
    one string and [b] holding two, the source [b] has size 1 and holds
    the string [a] held. *)
Lemma C3_move_assign_source_not_empty :
  contents two_vectors 0 = Some ["a"] ∧
  contents two_vectors 1 = Some ["b"; "c"] ∧
  ∃ st', Vector_move_assign 0 1 two_vectors = (Ok tt, st') ∧
         Vector_Size 1 st' = (Ok 1, st') ∧
         contents st' 1 = Some ["a"] ∧
         contents st' 0 = Some ["b"; "c"].
Proof.
  split_and!; [by vm_compute..|].
  eexists. split; [by vm_compute|]. split_and!; by vm_compute.
Qed.

(** Claim C7, as stated, fails.  After [Insert] at the front of a vector
    of two strings with spare capacity, when the copy constructor of the
    new element throws, the size is 2 and the first slot is raw memory. *)
Lemma C7_torn_state_breaks_invariant :
  reachable (ET:=string_elem) torn_state ∧
  objs torn_state !! 0 = Some (mkVector (mkRawMemory (Some 0) 4) 2) ∧
  heap torn_state !! 0 = Some [Raw; Live "a"; Live EmptyString; Raw] ∧
  ¬ vector_invariant (heap torn_state) (mkVector (mkRawMemory (Some 0) 4) 2).
Proof.
  split_and!.
  - apply (run_ops_reachable torn_program (init_state [false; false; false; true])).
    + apply reachable_init.
    + by vm_compute.
  - by vm_compute.
  - by vm_compute.
  - intros (_ & Hlive & _). destruct (Hlive 0) as [x Hx]; [simpl; lia|].
    vm_compute in Hx. discriminate.
Qed.

(** * The general statements at the examples *)

Lemma abc_state_repr :
  vec_repr (heap abc_state) (mkVector (mkRawMemory (Some 2) 4) 3) ["a"; "b"; "c"].
Proof. unfold vec_repr. simpl. split_and!; [done|lia|lia|by vm_compute]. Qed.

Lemma C2_relocating_Emplace_strong_guarantee_witness :
  let st' := mkState (heap full_state) (objs full_state) [] [(2, 0, 1)] in
  Vector_Emplace (ET:=legacy_elem) 0 (At 1 1) (ByCopy 9) full_state = (Throw, st') ∧
  objs st' = objs full_state ∧
  heap st' = heap full_state ∧
  contents full_state 0 = Some [1; 2] ∧
  contents st' 0 = Some [1; 2] ∧
  ∃ ext, leaked st' = leaked full_state ++ ext ∧
         ∀ a i x, (a, i, x) ∈ ext →
                  heap full_state !! a = None ∧ i < 1 ∧ [1; 2] !! i = Some x.
Proof.
  intros st'.
  assert (Vector_Emplace (ET:=legacy_elem) 0 (At 1 1) (ByCopy 9) full_state = (Throw, st'))
    as Hrun by (by vm_compute).
  assert (vec_repr (heap full_state) (mkVector (mkRawMemory (Some 1) 2) 2) [1; 2]) as Hr.
  { unfold vec_repr. simpl. split_and!; [done|lia|lia|by vm_compute]. }
  assert (objs full_state !! 0 = Some (mkVector (mkRawMemory (Some 1) 2) 2)) as Hv
    by (by vm_compute).
  split; [exact Hrun|].
  destruct (C2_relocating_Emplace_strong_guarantee (ET:=legacy_elem)
              full_state 0 _ [1; 2] (At 1 1) (ByCopy 9) st'
              Hv Hr eq_refl eq_refl eq_refl eq_refl Hrun)
    as (Ho & Hh & _ & Hc & Hc' & Hext).
  exact (conj Ho (conj Hh (conj Hc (conj Hc' Hext)))).
Defined.

Lemma C3_move_exchanges_witness :
  (∃ st', Vector_move 2 1 two_vectors = (Ok tt, st') ∧
          contents st' 2 = Some ["b"; "c"] ∧ contents st' 1 = Some []) ∧
  (∃ st', Vector_move_assign 0 1 two_vectors = (Ok tt, st') ∧
          contents st' 0 = Some ["b"; "c"] ∧ contents st' 1 = Some ["a"]).
Proof.
  pose proof (C3_move_exchanges two_vectors) as [Hctor Hassign].
  split.
  - destruct (Hctor 2 1 (mkVector (mkRawMemory (Some 2) 2) 2))
      as (st' & Hrun & _ & _ & _ & Hself & Hother); [by vm_compute..|].
    exists st'. split_and!; [done| |done]. rewrite Hself. by vm_compute.
  - destruct (Hassign 0 1 (mkVector (mkRawMemory (Some 0) 1) 1)
                          (mkVector (mkRawMemory (Some 2) 2) 2))
      as (st' & Hrun & _ & _ & _ & Hthis & Hrhs); [done|by vm_compute..|].
    exists st'. split_and!; [done|rewrite Hthis|rewrite Hrhs]; by vm_compute.
Defined.

Lemma C5_EmplaceBack_growth_witness :
  let st := mkState ∅ {[ 0 := mkVector RawMemory_default 0 ]} [] [] in
  ∃ p1 st1 p2 st2 p3 st3,
    Vector_EmplaceBack (ET:=string_elem) 0 (ByArgs "a") st = (Ok p1, st1) ∧
    Vector_Capacity 0 st1 = (Ok 1, st1) ∧
    Vector_EmplaceBack (ET:=string_elem) 0 (ByArgs "b") st1 = (Ok p2, st2) ∧
    Vector_Capacity 0 st2 = (Ok 2, st2) ∧
    Vector_EmplaceBack (ET:=string_elem) 0 (ByArgs "c") st2 = (Ok p3, st3) ∧
    Vector_Capacity 0 st3 = (Ok 4, st3) ∧
    Vector_Size 0 st3 = (Ok 3, st3) ∧
    contents st3 0 = Some ["a"; "b"; "c"].
Proof.
  intros st.
  apply (proj2 (C5_EmplaceBack_growth (ET:=string_elem)) st 0
               (ByArgs "a") (ByArgs "b") (ByArgs "c")).
  - by vm_compute.
  - simpl. apply not_elem_of_nil.
Defined.

Lemma C6_Reserve_within_capacity_witness :
  Vector_Reserve (ET:=string_elem) 0 3 abc_state = (Ok tt, abc_state).
Proof.
  apply (C6_Reserve_within_capacity (ET:=string_elem) abc_state 0
           (mkVector (mkRawMemory (Some 2) 4) 3) 3).
  - by vm_compute.
  - simpl. lia.
Defined.

Lemma sized_state_in_range : reachable_in_range (ET:=string_elem) sized_state.
Proof.
  apply (run_ops_reachable_in_range (ET:=string_elem) sized_program
           ltac:(repeat constructor; vm_compute; reflexivity) (init_state []) sized_state).
  - apply reachable_in_range_init.
  - by vm_compute.
Qed.

Lemma C7_invariant_of_safe_runs_witness :
  objs sized_state !! 0 = Some (mkVector (mkRawMemory (Some 1) 5) 3) ∧
  vector_invariant (heap sized_state) (mkVector (mkRawMemory (Some 1) 5) 3).
Proof.
  assert (objs sized_state !! 0 = Some (mkVector (mkRawMemory (Some 1) 5) 3)) as Hv
    by (by vm_compute).
  split; [exact Hv|].
  exact (C7_invariant_of_safe_runs (ET:=string_elem) sized_state 0 _
           sized_state_in_range Hv).
Defined.

Lemma C9_shrinking_keeps_capacity_witness :
  (∃ st', Vector_PopBack 0 abc_state = (Ok tt, st') ∧
          objs st' !! 0 = Some (mkVector (mkRawMemory (Some 2) 4) 2)) ∧
  (∃ st', Vector_Resize (ET:=string_elem) 0 1 abc_state = (Ok tt, st') ∧
          objs st' !! 0 = Some (mkVector (mkRawMemory (Some 2) 4) 1)) ∧
  (∃ p st', Vector_Erase (ET:=string_elem) 0 (At 2 1) abc_state = (Ok p, st') ∧
            objs st' !! 0 = Some (mkVector (mkRawMemory (Some 2) 4) 2)).
Proof.
  destruct (C9_shrinking_keeps_capacity (ET:=string_elem) abc_state 0
              (mkVector (mkRawMemory (Some 2) 4) 3) ["a"; "b"; "c"])
    as (Hpop & Hresize & Herase & Hvalid); [by vm_compute|exact abc_state_repr|].
  split_and!.
  - exact Hpop.
  - apply (Hresize 1). simpl. lia.
  - destruct (Hvalid (At 2 1)) as (p & st' & Hrun); [by vm_compute|done|].
    exists p, st'. split; [done|]. by apply (Herase (At 2 1) (Ok p) st').
Defined.

Lemma C10_Swap_exchanges_witness :
  ∃ st', Vector_Swap 0 1 two_vectors = (Ok tt, st') ∧
         contents st' 0 = Some ["b"; "c"] ∧ contents st' 1 = Some ["a"].
Proof.
  destruct (C10_Swap_exchanges two_vectors 0 1
              (mkVector (mkRawMemory (Some 0) 1) 1)
              (mkVector (mkRawMemory (Some 2) 2) 2))
    as (st' & Hrun & _ & _ & _ & _ & _ & _ & Ha & Hb); [by vm_compute..|].
  exists st'. split_and!; [done|rewrite Ha|rewrite Hb]; by vm_compute.
Defined.

(** * Further properties of the operations *)

Section Extras.
Context {T : Type} `{ET : Elem T}.
Implicit Types (st : state T) (h : gmap nat (list (slot T))) (xs ys : list T) (v : Vector).

Lemma vec_repr_mono h h' v xs :
  vec_repr h v xs → (∀ k b, h !! k = Some b → h' !! k = Some b) → vec_repr h' v xs.
Proof. intros Hr Hsub. eapply vec_repr_frame; [done|]. intros a b _. apply Hsub. Qed.

Lemma built_contents st st' self xs :
  built st st' self xs →
  contents st' self = Some xs ∧
  (∃ d, objs st' = <[self := mkVector d (length xs)]> (objs st) ∧
        capacity_ d = length xs ∧
        (∀ a, buffer_ d = Some a → heap st !! a = None)) ∧
  leaked st' = leaked st ∧
  (∀ k b, heap st !! k = Some b → heap st' !! k = Some b).
Proof.
  intros (Hl & d & Ho & Hr & Hcap & Hsub & Hfresh & _). split_and!; try done.
  - eapply contents_repr; [|done]. by rewrite Ho, lookup_insert_eq.
  - exists d. split_and!; try done. intros a Ha. by rewrite Ha in Hfresh.
Qed.

(** Property X1.  [Vector(size)] with a size whose byte count is below
    2^64, called where no object lives, never has an undefined result.
    When it returns, the new vector holds [size] value-initialised elements
    in a block of exactly [size] slots that was free before the call,
    every block that existed is kept and no other block is new.  When it
    throws, the heap, the objects and the objects released alive are those
    of before the call. *)
Theorem Vector_sized_outcome st self n o st' :
  fits n →
  objs st !! self = None → Vector_sized self n st = (o, st') →
  match o with
  | Ok _ =>
      contents st' self = Some (replicate n value_init) ∧
      (∃ d, objs st' = <[self := mkVector d n]> (objs st) ∧ capacity_ d = n ∧
            (∀ a, buffer_ d = Some a → heap st !! a = None) ∧
            (∀ k, is_Some (heap st' !! k) → is_Some (heap st !! k) ∨ buffer_ d = Some k)) ∧
      leaked st' = leaked st ∧
      (∀ k b, heap st !! k = Some b → heap st' !! k = Some b)
  | Throw => heap st' = heap st ∧ objs st' = objs st ∧ leaked st' = leaked st
  | Fault => False
  end.
Proof.
  intros _ Hs Hrun.
  pose proof (wp_run _ _ _ _ _ _ (wp_Vector_sized st self n Hs) Hrun) as H.
  destruct o; [|done..].
  pose proof H as (_ & d' & Ho' & _ & _ & _ & _ & Hdom).
  apply built_contents in H as (Hc & (d & Ho & Hcap & Hfresh) & Hl & Hsub).
  rewrite length_replicate in *.
  assert (d' = d) as ->.
  { assert (objs st' !! self = Some (mkVector d' n)) as H1
      by (by rewrite Ho', lookup_insert_eq).
    rewrite Ho, lookup_insert_eq in H1. by injection H1 as ->. }
  split_and!; try done. by exists d.
Qed.

(** Property X2.  The copy constructor, called where no object lives on a
    well-formed source, never has an undefined result.  When it returns,
    the new vector and the source both hold the elements of the source,
    the capacity of the new vector is the size of the source, and its
    buffer is a new block, distinct from the buffer of the source.  When it
    throws, the heap, the objects and the lost elements are those of before
    the call. *)
Theorem Vector_copy_outcome st self other v xs o st' :
  objs st !! self = None → objs st !! other = Some v → vec_repr (heap st) v xs →
  Vector_copy self other st = (o, st') →
  match o with
  | Ok _ =>
      contents st' self = Some xs ∧
      contents st' other = Some xs ∧
      (∃ d, objs st' = <[self := mkVector d (size_ v)]> (objs st) ∧
            capacity_ d = size_ v ∧
            (∀ a, buffer_ d = Some a → heap st !! a = None ∧ buffer_ (data_ v) ≠ Some a)) ∧
      leaked st' = leaked st ∧
      (∀ k b, heap st !! k = Some b → heap st' !! k = Some b)
  | Throw => heap st' = heap st ∧ objs st' = objs st ∧ leaked st' = leaked st
  | Fault => False
  end.
Proof.
  intros Hs Ho Hr Hrun.
  pose proof (wp_run _ _ _ _ _ _ (wp_Vector_copy st self other v xs Hs Ho Hr) Hrun) as H.
  destruct o; [|done..].
  apply built_contents in H as (Hc & (d & Hobjs & Hcap & Hfresh) & Hl & Hsub).
  assert (size_ v = length xs) as Hsz by by destruct Hr.
  split_and!; try done.
  - eapply contents_repr; [|by eapply vec_repr_mono].
    rewrite Hobjs, lookup_insert_ne; [done|congruence].
  - exists d. rewrite Hsz. split_and!; try done.
    intros k Hk. split; [by apply Hfresh|]. intros Hb.
    destruct (vec_repr_buffer_in_heap _ _ _ _ Hr Hb) as [b Hab].
    rewrite (Hfresh k Hk) in Hab. done.
Qed.

(** Property X3.  The destructor of a well-formed vector always returns:
    the object is gone, exactly its block is released, no element is lost
    without being destroyed, and nothing that may throw is run. *)
Theorem Vector_dtor_releases st self v xs :
  objs st !! self = Some v → vec_repr (heap st) v xs →
  Vector_dtor self st =
    (Ok tt, mkState (free_block (heap st) (buffer_ (data_ v))) (delete self (objs st))
                    (sched st) (leaked st)).
Proof.
  intros Hv Hr.
  destruct (wp_returns (Vector_dtor self) st
              (λ _ st', st' = mkState (free_block (heap st) (buffer_ (data_ v)))
                                (delete self (objs st)) (sched st) (leaked st))
              (λ _, False))
    as ([] & st' & Hrun & ->); [|by intros ? []|done].
  exact (wp_Vector_dtor st self v xs _ _ Hv Hr eq_refl).
Qed.

(** Property X4.  Copy assignment between two distinct vectors never has
    an undefined result.  When it returns, the destination holds the
    elements of the source, the source is unchanged, and the arena of the
    destination is kept when the size of the source fits its capacity.
    When it throws, the vector objects and the elements of the source are
    unchanged; in the reallocating case (size of the source above the
    capacity) the elements of the destination are unchanged too.  Either
    way no block is released with an object alive in it, and the heap is
    the heap of before the call with the old buffer of the destination
    released and the block of its buffer after the call holding its
    elements after the call: no other block is new, released or changed. *)
Theorem Vector_copy_assign_outcome st this rhs t r o st' :
  state_ok st → this ≠ rhs →
  objs st !! this = Some t → objs st !! rhs = Some r →
  Vector_copy_assign this rhs st = (o, st') →
  match o with
  | Ok _ =>
      contents st' this = contents st rhs ∧
      contents st' rhs = contents st rhs ∧
      leaked st' = leaked st ∧
      ∃ v' xr, objs st' = <[this := v']> (objs st) ∧ size_ v' = size_ r ∧
               (size_ r ≤ capacity_ (data_ t) → data_ v' = data_ t) ∧
               contents st' this = Some xr ∧
               heap st' = heap_after (heap st) t v' xr
  | Throw =>
      objs st' = objs st ∧
      contents st' rhs = contents st rhs ∧
      leaked st' = leaked st ∧
      (capacity_ (data_ t) < size_ r → contents st' this = contents st this) ∧
      ∃ ys, contents st' this = Some ys ∧
            heap st' = heap_after (heap st) t t ys
  | Fault => False
  end.
Proof.
  intros [Hwf Hdisj] Hne Ht Hr Hrun.
  destruct (Hwf _ _ Ht) as [xt Hxt]. destruct (Hwf _ _ Hr) as [xr Hxr].
  assert (∀ a, buffer_ (data_ t) = Some a → buffer_ (data_ r) ≠ Some a) as Hd
    by (intros a; by eapply Hdisj).
  pose proof (wp_run _ _ _ _ _ _
                (wp_Vector_copy_assign st this rhs t r xt xr Hne Ht Hr Hxt Hxr Hd) Hrun) as H.
  rewrite (contents_repr st rhs r xr Hr Hxr), (contents_repr st this t xt Ht Hxt).
  assert (∀ v' ys, updates this st st' t v' ys → contents st' rhs = Some xr) as Hrhs.
  { intros v' ys (Ho & _ & Hfr & _). eapply contents_repr.
    - by rewrite Ho, lookup_insert_ne.
    - eapply vec_repr_frame; [done|]. intros a b Ha Hb. apply (Hfr a b Hb).
      intros Ha'. by eapply Hd. }
  assert (∀ v' ys, updates this st st' t v' ys → contents st' this = Some ys) as Hthis.
  { intros v' ys Hu.
    eapply contents_repr; [by eapply updates_objs|by eapply updates_repr]. }
  destruct o; [| |done].
  - destruct H as (Hl & v' & Hu & Hsz & Hdata). split_and!; try done.
    + by eapply Hthis.
    + by eapply Hrhs.
    + exists v', xr. split_and!; try done; [by destruct Hu|by eapply Hthis|].
      by eapply updates_heap_after.
  - destruct H as (Hl & ys & Hu & Hys). split_and!; try done.
    + destruct Hu as (-> & _). by apply insert_id.
    + by eapply Hrhs.
    + intros Hlt. rewrite <- (Hys Hlt). by eapply Hthis.
    + exists ys. split; [by eapply Hthis|by eapply updates_heap_after].
Qed.

(** Property X5.  [Reserve(n)] with [n] above the capacity and a byte
    count of [n] below 2^64 never has an undefined result.  When it
    returns, the capacity is exactly [n], in a buffer that was free before
    the call, and the size and the elements are unchanged.  When it throws,
    the vector object is unchanged and, for an element type that is
    copyable or has a [noexcept] move constructor, the elements are
    unchanged.  Either way no block is released with an object alive in
    it, and the heap is the heap of before the call with the old buffer
    released and the block of the buffer after the call holding the
    elements after the call: no other block is new, released or changed. *)
Theorem Vector_Reserve_grows st this v xs n o st' :
  fits n →
  objs st !! this = Some v → vec_repr (heap st) v xs →
  capacity_ (data_ v) < n →
  Vector_Reserve this n st = (o, st') →
  match o with
  | Ok _ =>
      (∃ a, heap st !! a = None ∧
            objs st' = <[this := mkVector (mkRawMemory (Some a) n) (size_ v)]> (objs st) ∧
            heap st' =
              heap_after (heap st) v (mkVector (mkRawMemory (Some a) n) (size_ v)) xs) ∧
      contents st' this = Some xs ∧
      leaked st' = leaked st
  | Throw =>
      objs st' = objs st ∧ leaked st' = leaked st ∧
      (is_nothrow_move_constructible || is_copy_constructible = true →
       contents st' this = Some xs) ∧
      ∃ ys, contents st' this = Some ys ∧ heap st' = heap_after (heap st) v v ys
  | Fault => False
  end.
Proof.
  intros _ Hv Hr Hn Hrun.
  pose proof (wp_run _ _ _ _ _ _ (wp_Vector_Reserve st this v xs n Hv Hr) Hrun) as H.
  destruct o; [| |done].
  - destruct H as [[Hle _]|(_ & Hl & b & Hb & Hu)]; [lia|]. split_and!; try done.
    + exists b. split_and!; [done|by destruct Hu|by eapply updates_heap_after].
    + eapply contents_repr; [by eapply updates_objs|by eapply updates_repr].
  - destruct H as (_ & Hl & ys & Hu & Hys).
    assert (contents st' this = Some ys) as Hc.
    { eapply contents_repr; [by eapply updates_objs|by eapply updates_repr]. }
    split_and!; try done.
    + destruct Hu as (-> & _). by apply insert_id.
    + intros Hcp. by rewrite <- (Hys Hcp).
    + exists ys. split; [done|by eapply updates_heap_after].
Qed.

(** Property X6.  [Resize(n)] with a byte count of [n] below 2^64 never has
    an undefined result.  When it returns, the vector holds the first [n]
    of the old elements followed by value-initialised elements up to the
    size [n], and the capacity is the larger of the old capacity and [n].
    It only throws when it grows; the size is then unchanged and, for an
    element type that is copyable or has a [noexcept] move constructor,
    the elements are unchanged.  Either way no block is released with an
    object alive in it, and the heap is the heap of before the call with
    the old buffer released and the block of the buffer after the call
    holding the elements after the call: no other block is new, released
    or changed. *)
Theorem Vector_Resize_outcome st this v xs n o st' :
  fits n →
  objs st !! this = Some v → vec_repr (heap st) v xs →
  Vector_Resize this n st = (o, st') →
  match o with
  | Ok _ =>
      contents st' this = Some (take n xs ++ replicate (n - length xs) value_init) ∧
      (∃ v', objs st' = <[this := v']> (objs st) ∧ size_ v' = n ∧
             capacity_ (data_ v') = capacity_ (data_ v) `max` n ∧
             heap st' =
               heap_after (heap st) v v'
                 (take n xs ++ replicate (n - length xs) value_init)) ∧
      leaked st' = leaked st
  | Throw =>
      size_ v < n ∧ leaked st' = leaked st ∧
      (∃ v' ys, objs st' = <[this := v']> (objs st) ∧ size_ v' = size_ v ∧
                contents st' this = Some ys ∧
                heap st' = heap_after (heap st) v v' ys) ∧
      (is_nothrow_move_constructible || is_copy_constructible = true →
       contents st' this = Some xs)
  | Fault => False
  end.
Proof.
  intros _ Hv Hr Hrun.
  pose proof (wp_run _ _ _ _ _ _ (wp_Vector_Resize st this v xs n Hv Hr) Hrun) as H.
  destruct o; [| |done].
  - destruct H as (Hl & v' & Hu & Hsz & Hsame & Hgrow & _). split_and!; try done.
    + eapply contents_repr; [by eapply updates_objs|by eapply updates_repr].
    + exists v'. split_and!; try done; [by destruct Hu| |by eapply updates_heap_after].
      destruct (decide (n ≤ capacity_ (data_ v))) as [Hle|Hgt].
      * rewrite (Hsame Hle). lia.
      * rewrite Hgrow by lia. lia.
  - destruct H as (Hlt & Hl & v' & ys & Hu & Hsz & Hys).
    assert (contents st' this = Some ys) as Hc.
    { eapply contents_repr; [by eapply updates_objs|by eapply updates_repr]. }
    split_and!; try done.
    + exists v', ys. split_and!; [by destruct Hu|done|done|by eapply updates_heap_after].
    + intros Hcp. by rewrite <- (Hys Hcp).
Qed.

(** Property X7.  [PopBack] always returns, without running anything that
    may throw: the vector holds the old elements without the last one, and
    on an empty vector the state is unchanged. *)
Theorem Vector_PopBack_removes_last st this v xs :
  objs st !! this = Some v → vec_repr (heap st) v xs →
  ∃ st', Vector_PopBack this st = (Ok tt, st') ∧
         contents st' this = Some (removelast xs) ∧
         sched st' = sched st ∧ leaked st' = leaked st ∧
         (xs = [] → st' = st).
Proof.
  intros Hv Hr.
  destruct (wp_returns _ _ _ _ (wp_Vector_PopBack st this v xs Hv Hr))
    as ([] & st' & Hrun & Hs & Hl & Hu); [by intros ? []|].
  exists st'. split_and!; try done.
  - eapply contents_repr; [by eapply updates_objs|by eapply updates_repr].
  - intros ->. destruct Hr as [Hsz _]. simpl in Hsz.
    unfold Vector_PopBack, noexcept in Hrun.
    rewrite bind_run, (get_obj_run _ _ _ Hv) in Hrun.
    rewrite bool_decide_eq_false_2 in Hrun by lia.
    by injection Hrun as <-.
Qed.

(** Property X8.  When nothing throws, [PushBack] followed by [PopBack]
    gives back the element sequence of before the two calls. *)
Theorem Vector_PushBack_PopBack_round_trip st this v xs ar :
  objs st !! this = Some v → vec_repr (heap st) v xs → true ∉ sched st →
  ∃ st1 st2,
    Vector_PushBack this ar st = (Ok tt, st1) ∧
    contents st1 this = Some (xs ++ [args_value ar]) ∧
    Vector_PopBack this st1 = (Ok tt, st2) ∧
    contents st2 this = Some xs.
Proof.
  intros Hv Hr Hq.
  destruct (Vector_EmplaceBack_returns st this v xs ar Hv Hr Hq)
    as (p & st1 & v1 & _ & Hpb & Hv1 & Hr1 & _).
  destruct (wp_returns _ _ _ _ (wp_Vector_PopBack st1 this v1 _ Hv1 Hr1))
    as ([] & st2 & Hpop & _ & _ & Hu); [by intros ? []|].
  rewrite removelast_last in Hu.
  exists st1, st2. split_and!; try done.
  - by eapply contents_repr.
  - eapply contents_repr; [by eapply updates_objs|by eapply updates_repr].
Qed.

(** Property X9.  For an element type that is copyable or has a
    [noexcept] move constructor, [EmplaceBack] that throws leaves the
    vector object and its elements unchanged. *)
Theorem Vector_EmplaceBack_strong_guarantee st this v xs ar st' :
  objs st !! this = Some v → vec_repr (heap st) v xs →
  is_nothrow_move_constructible || is_copy_constructible = true →
  Vector_EmplaceBack this ar st = (Throw, st') →
  objs st' = objs st ∧ contents st' this = Some xs.
Proof.
  intros Hv Hr Hc Hrun.
  pose proof (wp_run _ _ _ _ _ _ (wp_Vector_EmplaceBack st this v xs ar Hv Hr) Hrun)
    as (ys & Hu & Hys).
  rewrite (Hys Hc) in Hu. split.
  - destruct Hu as (-> & _). by apply insert_id.
  - eapply contents_repr; [by eapply updates_objs|by eapply updates_repr].
Qed.

(** Property X10.  [Emplace] that returns on a full vector, at a valid
    position: the vector has a new block, free before the call, of
    capacity twice the old size (1 for an empty vector), which holds the
    old elements with the new one inserted at the position, followed by
    raw slots; the size is one more and the iterator returned is the
    position of the new element in the new block.  The old block is
    released and every other block is as before; no object was alive in
    the released block: each old element was destroyed before. *)
Theorem Vector_Emplace_reallocating st this v xs pos ar p st' :
  objs st !! this = Some v → vec_repr (heap st) v xs →
  size_ v = capacity_ (data_ v) →
  ptr_leb (RawMemory_GetAddress (data_ v)) pos &&
  ptr_leb pos (RawMemory_GetAddress (data_ v) +ₚ size_ v) = true →
  Vector_Emplace this pos ar st = (Ok p, st') →
  let count := ptr_diff pos (RawMemory_GetAddress (data_ v)) in
  let ys := take count xs ++ args_value ar :: drop count xs in
  contents st' this = Some ys ∧
  leaked st' = leaked st ∧
  ∃ v', objs st' = <[this := v']> (objs st) ∧
        size_ v' = size_ v + 1 ∧
        capacity_ (data_ v') = (if bool_decide (size_ v = 0) then 1 else size_ v * 2) ∧
        p = RawMemory_GetAddress (data_ v') +ₚ count ∧
        element_at (heap st') v' count = Some (args_value ar) ∧
        ∃ a, buffer_ (data_ v') = Some a ∧ heap st !! a = None ∧
             heap st' = <[a := vec_block (capacity_ (data_ v')) ys]>
                          (free_block (heap st) (buffer_ (data_ v))).
Proof.
  intros Hv Hr Hfull Hpos Hrun count ys.
  destruct v as [[buf cap] size].
  pose proof (vec_repr_cases _ _ _ _ _ Hr) as (Hs & _ & Hb).
  simpl in Hfull. subst size cap.
  destruct (valid_pos_inv _ _ _ _ Hpos) as (Hcount & _ & _). fold count in Hcount.
  pose proof (wp_run _ _ _ _ _ _ (wp_Vector_Emplace_full st this buf xs pos ar Hv Hr Hpos) Hrun)
    as (a & Ha & Hp & Hl & Ho & Hh).
  cbn [data_ size_ capacity_ buffer_] in *. fold count ys in Hh, Hp.
  set (ncap := if bool_decide (length xs = 0) then 1 else length xs * 2) in *.
  assert (length xs < ncap) as Hncap by (unfold ncap; case_bool_decide; lia).
  assert (length ys = length xs + 1) as Hlen.
  { unfold ys. rewrite length_app, length_take. simpl. rewrite length_drop. lia. }
  set (v' := mkVector (mkRawMemory (Some a) ncap) (length xs + 1)).
  assert (vec_repr (heap st') v' ys) as Hr'.
  { unfold v'. split; cbn [data_ size_ capacity_ buffer_]; [done|]. rewrite Hlen.
    split_and!; [lia..|]. by rewrite Hh, lookup_insert_eq. }
  split_and!; try done.
  - eapply contents_repr; [by rewrite Ho, lookup_insert_eq|done].
  - exists v'. split_and!; try done.
    + pose proof (elements_repr _ _ _ Hr') as Hel. unfold elements in Hel.
      apply mapM_Some in Hel.
      eapply (Forall2_lookup_lr _ _ _ count count) in Hel; [done| |].
      * apply lookup_seq. split; [done|]. simpl. lia.
      * unfold ys. rewrite lookup_app_r by (rewrite length_take; lia).
        rewrite length_take, Nat.min_l by lia. by rewrite Nat.sub_diag.
    + by exists a.
Qed.

(** Property X11.  [operator[]] at an index below the size returns the
    element of that index and leaves the state unchanged; at an index from
    the size on it has no defined result (the assertion fails). *)
Theorem Vector_read_bounds st this v xs :
  objs st !! this = Some v → vec_repr (heap st) v xs →
  (∀ i x, xs !! i = Some x → Vector_read this i st = (Ok x, st)) ∧
  (∀ i, length xs ≤ i → Vector_read this i st = (Fault, st)).
Proof.
  intros Hv Hr. pose proof Hr as [Hsz _]. split.
  - intros i x Hx.
    assert (i < size_ v) as Hi by (rewrite Hsz; by eapply lookup_lt_Some).
    destruct (wp_returns _ _ _ _ (wp_Vector_read st this v xs i Hv Hr Hi))
      as (y & st' & Hrun & -> & Hy); [by intros ? []|].
    rewrite Hrun. congruence.
  - intros i Hi. apply (Vector_Index_fault _ _ _ _ Hv). lia.
Qed.

(** Property X12.  [Emplace] at a position outside [begin(), end()] and
    [Erase] at a position outside [begin(), end()) have no defined result
    (the assertion fails); so [Erase(end())] and every [Erase] on an empty
    vector have none. *)
Theorem Vector_position_asserts st this v :
  objs st !! this = Some v →
  (∀ pos ar,
     ptr_leb (RawMemory_GetAddress (data_ v)) pos &&
     ptr_leb pos (RawMemory_GetAddress (data_ v) +ₚ size_ v) = false →
     Vector_Emplace this pos ar st = (Fault, st)) ∧
  (∀ pos,
     ptr_leb (RawMemory_GetAddress (data_ v)) pos &&
     ptr_ltb pos (RawMemory_GetAddress (data_ v) +ₚ size_ v) = false →
     Vector_Erase this pos st = (Fault, st)) ∧
  Vector_Erase this (RawMemory_GetAddress (data_ v) +ₚ size_ v) st = (Fault, st) ∧
  (size_ v = 0 → ∀ pos, Vector_Erase this pos st = (Fault, st)).
Proof.
  intros Hv. split_and!.
  - intros pos ar Hpos. by eapply Vector_Emplace_fault.
  - intros pos Hpos. by eapply Vector_Erase_fault.
  - eapply Vector_Erase_fault; [done|].
    destruct v as [[[a|] cap] sz]; simpl; [|done].
    rewrite andb_false_iff. right. rewrite andb_false_iff. right.
    apply bool_decide_eq_false_2. lia.
  - intros Hz pos. eapply Vector_Erase_fault; [done|]. rewrite Hz.
    destruct v as [[[a|] cap] sz], pos as [|a' i]; simpl; try done.
    by rewrite !andb_false_r.
Qed.

(** Property X13.  In every state reached without a constructor of a new
    element throwing in the in-place branch of [Emplace], two distinct
    vector objects never have the same buffer, and the buffer of a vector
    is an allocated block. *)
Theorem reachable_safe_no_shared_buffer st o1 o2 v1 v2 a :
  reachable_safe st → o1 ≠ o2 →
  objs st !! o1 = Some v1 → objs st !! o2 = Some v2 →
  buffer_ (data_ v1) = Some a →
  buffer_ (data_ v2) ≠ Some a ∧ is_Some (heap st !! a).
Proof.
  intros Hst Hne H1 H2 Ha.
  destruct (reachable_safe_state_ok _ Hst) as [Hwf Hdisj]. split.
  - by eapply Hdisj.
  - destruct (Hwf _ _ H1) as [xs Hr]. by eapply vec_repr_buffer_in_heap.
Qed.

(** Property X14.  [Swap] twice with the same vector gives back the state
    of before, and [a.Swap(b)] has the effect of [b.Swap(a)]. *)
Theorem Vector_Swap_involutive st a b va vb :
  objs st !! a = Some va → objs st !! b = Some vb →
  (Vector_Swap a b;; Vector_Swap a b) st = (Ok tt, st) ∧
  Vector_Swap a b st = Vector_Swap b a st.
Proof.
  intros Ha Hb.
  assert (<[b:=va]> (<[a:=vb]> (objs st)) !! a = Some vb) as Ha'.
  { destruct (decide (a = b)) as [Heq|Hne].
    - subst b. rewrite lookup_insert_eq. congruence.
    - by rewrite lookup_insert_ne, lookup_insert_eq by done. }
  assert (<[b:=va]> (<[a:=vb]> (objs st)) !! b = Some va) as Hb'
    by by rewrite lookup_insert_eq.
  split.
  - rewrite bind_run, (Vector_Swap_run _ _ _ _ _ Ha Hb).
    rewrite (Vector_Swap_run (mkState (heap st) (<[b:=va]> (<[a:=vb]> (objs st)))
                                      (sched st) (leaked st)) a b vb va Ha' Hb'). simpl.
    destruct st as [h o s l]. simpl in *. do 2 f_equal.
    apply map_eq. intros k.
    destruct (decide (k = b)) as [->|Hkb]; [by rewrite lookup_insert_eq|].
    rewrite lookup_insert_ne by done.
    destruct (decide (k = a)) as [->|Hka]; [by rewrite lookup_insert_eq|].
    by rewrite !lookup_insert_ne by done.
  - rewrite (Vector_Swap_run _ _ _ _ _ Ha Hb), (Vector_Swap_run _ _ _ _ _ Hb Ha).
    do 2 f_equal.
    destruct (decide (a = b)) as [Heq|Hne].
    + subst b. congruence.
    + by apply insert_insert_ne.
Qed.

(** Property X15.  In every state reached without a constructor of a new
    element throwing in the in-place branch of [Emplace], the arena of
    every vector has a null buffer exactly when its capacity is zero,
    [begin()] and [end()] return the buffer and the buffer plus the size,
    and they are equal exactly when the vector is empty. *)
Theorem reachable_safe_arena_invariant st this v :
  reachable_safe st → objs st !! this = Some v →
  RawMemory_invariant (data_ v) ∧
  Vector_begin this st = (Ok (RawMemory_GetAddress (data_ v)), st) ∧
  Vector_end this st = (Ok (RawMemory_GetAddress (data_ v) +ₚ size_ v), st) ∧
  (size_ v = 0 ↔ RawMemory_GetAddress (data_ v) +ₚ size_ v = RawMemory_GetAddress (data_ v)).
Proof.
  intros Hst Hv.
  destruct (reachable_safe_state_ok _ Hst) as [Hwf _].
  destruct (Hwf _ _ Hv) as [xs Hr].
  split_and!.
  - destruct v as [[buf cap] sz].
    pose proof (vec_repr_cases _ _ _ _ _ Hr) as (_ & _ & Hb).
    unfold RawMemory_invariant. simpl.
    destruct buf as [b|]; [destruct Hb as [_ Hcap]; split; [done|lia]|].
    by destruct Hb as [_ ->].
  - by apply Vector_begin_run.
  - by apply Vector_end_run.
  - destruct v as [[[b|] cap] sz]; simpl.
    + split; [intros ->; f_equal; lia|]. intros [= Heq]. lia.
    + destruct Hr as [Hsz [_ ->]]. simpl in *. done.
Qed.

(** Property X16.  [EmplaceBack] on a vector with spare capacity never has
    an undefined result.  When it returns, it has not reallocated: the
    arena is the old one, the old elements are where they were, the new
    element is in the slot after them and its address is returned.  When
    it throws, the vector object is unchanged. *)
Theorem Vector_EmplaceBack_with_spare_capacity st this v xs ar o st' :
  objs st !! this = Some v → vec_repr (heap st) v xs →
  size_ v < capacity_ (data_ v) →
  Vector_EmplaceBack this ar st = (o, st') →
  match o with
  | Ok p =>
      objs st' = <[this := mkVector (data_ v) (size_ v + 1)]> (objs st) ∧
      p = RawMemory_GetAddress (data_ v) +ₚ size_ v ∧
      contents st' this = Some (xs ++ [args_value ar]) ∧
      (∀ i x, xs !! i = Some x → element_at (heap st') v i = Some x)
  | Throw => objs st' = objs st
  | Fault => False
  end.
Proof.
  intros Hv Hr Hlt Hrun.
  pose proof (wp_run _ _ _ _ _ _ (wp_Vector_EmplaceBack st this v xs ar Hv Hr) Hrun) as H.
  destruct o as [p| |]; [| |done].
  - destruct H as (_ & v' & Hu & Hsz & _ & Hdata & Hp).
    specialize (Hdata Hlt).
    assert (v' = mkVector (data_ v) (size_ v + 1)) as ->.
    { destruct v'. simpl in *. subst. f_equal. lia. }
    pose proof (updates_repr _ _ _ _ _ _ Hu) as Hr'.
    split_and!; try done.
    + by destruct Hu.
    + eapply contents_repr; [by eapply updates_objs|done].
    + intros i x Hx.
      pose proof (elements_repr _ _ _ Hr') as Hel. unfold elements in Hel.
      apply mapM_Some in Hel. simpl in Hel.
      assert (i < length xs) as Hi by by eapply lookup_lt_Some.
      destruct Hr as [Hsz' _].
      eapply (Forall2_lookup_lr _ _ _ i i x) in Hel.
      * exact Hel.
      * apply lookup_seq. split; [done|]. lia.
      * by rewrite lookup_app_l.
  - destruct H as (ys & (Ho & _) & _). rewrite Ho. by apply insert_id.
Qed.

End Extras.

Section Exact.
Context {T : Type} `{ET : Elem T}.
Implicit Types (st : state T) (h : gmap nat (list (slot T))) (xs ys ws : list T) (v : Vector).

Lemma lookup_mid2 {A} (pre post : list A) (x y : A) i :
  i = length pre + 1 → (pre ++ x :: y :: post) !! i = Some y.
Proof.
  intros ->. replace (pre ++ x :: y :: post) with ((pre ++ [x]) ++ y :: post)
    by (by rewrite <- app_assoc).
  apply lookup_mid. rewrite length_app. simpl. lia.
Qed.

Lemma insert_mid2 {A} (pre post : list A) (x y z : A) i :
  i = length pre + 1 → <[i:=z]> (pre ++ x :: y :: post) = pre ++ x :: z :: post.
Proof.
  intros ->. replace (pre ++ x :: y :: post) with ((pre ++ [x]) ++ y :: post)
    by (by rewrite <- app_assoc).
  rewrite insert_mid by (rewrite length_app; simpl; lia). by rewrite <- app_assoc.
Qed.

Lemma wp_move_backward_loop_left ws : ∀ st a l (pre suf : list (slot T)) y Q E,
  heap st !! a = Some (pre ++ (Live <$> ws) ++ Live y :: suf) →
  l = length pre + length ws + 1 →
  (∀ s, Q tt (mkState
     (<[a := pre ++ Live y :: replicate (length ws) (Live (moved_from y)) ++ suf]> (heap st))
     (objs st) s (leaked st))) →
  (∀ st', E st') →
  wp (move_backward_loop (length ws) (At a l) (At a (l - 1))) st Q E.
Proof.
  induction ws as [|w ws IH] using rev_ind; intros [h o s l0] a l pre suf y Q E; simpl;
    intros Ha Hl HQ HE.
  - apply wp_ret. eapply state_heap_ext; [apply (HQ s)|]. by apply insert_id.
  - rewrite length_app in *. simpl in *.
    replace (length ws + 1) with (S (length ws)) by lia. simpl.
    apply wp_bind, wp_ptr_dec'; [lia|]. apply wp_bind, wp_ptr_dec'; [lia|].
    rewrite fmap_app in Ha. simpl in Ha. rewrite <- !app_assoc in Ha. simpl in Ha.
    apply wp_bind.
    eapply (wp_T_move_assign _ a (l - 1) (l - 1 - 1) _ y w); simpl.
    { exact Ha. }
    { replace (pre ++ (Live <$> ws) ++ Live w :: Live y :: suf)
        with ((pre ++ (Live <$> ws) ++ [Live w]) ++ Live y :: suf)
        by (by rewrite <- !app_assoc).
      apply lookup_mid. rewrite !length_app, length_fmap. simpl. lia. }
    { rewrite app_assoc. apply lookup_mid. rewrite !length_app, length_fmap. lia. }
    2:{ intros _ s1. apply HE. }
    intros s1.
    assert (<[l - 1:=Live (moved_from y)]>
              (<[l - 1 - 1:=Live y]> (pre ++ (Live <$> ws) ++ Live w :: Live y :: suf)) =
            pre ++ (Live <$> ws) ++ Live y :: Live (moved_from y) :: suf) as ->.
    { rewrite (app_assoc pre).
      rewrite (insert_mid (pre ++ (Live <$> ws))) by (rewrite !length_app, length_fmap; lia).
      rewrite <- app_assoc.
      replace (pre ++ (Live <$> ws) ++ Live y :: Live y :: suf)
        with ((pre ++ (Live <$> ws) ++ [Live y]) ++ Live y :: suf)
        by (by rewrite <- !app_assoc).
      rewrite insert_mid by (rewrite !length_app, length_fmap; simpl; lia).
      by rewrite <- !app_assoc. }
    replace (l - 1 - 1) with ((l - 1) - 1) by lia.
    eapply (IH _ a (l - 1) pre (Live (moved_from y) :: suf) y); simpl.
    + by rewrite lookup_insert_eq.
    + lia.
    + intros s2. rewrite insert_insert_eq.
      eapply state_heap_ext; [apply (HQ s2)|]. f_equal. f_equal. f_equal.
      replace (S (length ws)) with (length ws + 1) by lia.
      rewrite replicate_add, <- app_assoc. done.
    + exact HE.
Qed.

Lemma wp_move_backward_loop_right ws : ∀ st a l (pre suf : list (slot T)) z Q E,
  heap st !! a = Some (pre ++ (Live <$> ws) ++ Live z :: suf) →
  l = length pre + length ws →
  (∀ s, Q tt (mkState
     (<[a := pre ++ match ws with
                    | [] => Live z :: suf
                    | w :: _ => Live (moved_from w) :: (Live <$> ws) ++ suf
                    end]> (heap st))
     (objs st) s (leaked st))) →
  (∀ st', E st') →
  wp (move_backward_loop (length ws) (At a l) (At a (l + 1))) st Q E.
Proof.
  induction ws as [|w ws IH] using rev_ind; intros [h o s l0] a l pre suf z Q E; simpl;
    intros Ha Hl HQ HE.
  - apply wp_ret. eapply state_heap_ext; [apply (HQ s)|]. by apply insert_id.
  - rewrite length_app in *. simpl in *.
    replace (length ws + 1) with (S (length ws)) by lia. simpl.
    apply wp_bind, wp_ptr_dec'; [lia|]. apply wp_bind, wp_ptr_dec'; [lia|].
    rewrite fmap_app in Ha. simpl in Ha. rewrite <- !app_assoc in Ha. simpl in Ha.
    apply wp_bind.
    eapply (wp_T_move_assign _ a (l - 1) (l + 1 - 1) _ w z); simpl.
    { exact Ha. }
    { rewrite app_assoc. apply lookup_mid. rewrite !length_app, length_fmap. lia. }
    { replace (pre ++ (Live <$> ws) ++ Live w :: Live z :: suf)
        with ((pre ++ (Live <$> ws) ++ [Live w]) ++ Live z :: suf)
        by (by rewrite <- !app_assoc).
      apply lookup_mid. rewrite !length_app, length_fmap. simpl. lia. }
    2:{ intros _ s1. apply HE. }
    intros s1.
    assert (<[l - 1:=Live (moved_from w)]>
              (<[l + 1 - 1:=Live w]> (pre ++ (Live <$> ws) ++ Live w :: Live z :: suf)) =
            pre ++ (Live <$> ws) ++ Live (moved_from w) :: Live w :: suf) as ->.
    { replace (pre ++ (Live <$> ws) ++ Live w :: Live z :: suf)
        with ((pre ++ (Live <$> ws) ++ [Live w]) ++ Live z :: suf)
        by (by rewrite <- !app_assoc).
      rewrite insert_mid by (rewrite !length_app, length_fmap; simpl; lia).
      rewrite <- !app_assoc. simpl. rewrite (app_assoc pre).
      rewrite (insert_mid (pre ++ (Live <$> ws))) by (rewrite !length_app, length_fmap; lia).
      by rewrite <- app_assoc. }
    replace (l + 1 - 1) with ((l - 1) + 1) by lia.
    eapply (IH _ a (l - 1) pre (Live w :: suf) (moved_from w)); simpl.
    + by rewrite lookup_insert_eq.
    + lia.
    + intros s2. rewrite insert_insert_eq.
      eapply state_heap_ext; [apply (HQ s2)|]. f_equal. f_equal.
      destruct ws as [|w0 ws]; simpl; [done|].
      rewrite fmap_app. simpl. by rewrite <- !app_assoc.
    + exact HE.
Qed.

Lemma lookup_live_mid (pre : list (slot T)) (vs : list T) suf k x :
  vs !! k = Some x → (pre ++ (Live <$> vs) ++ suf) !! (length pre + k) = Some (Live x).
Proof.
  intros Hk. pose proof (lookup_lt_Some _ _ _ Hk) as Hlt.
  rewrite lookup_app_r by lia.
  replace (length pre + k - length pre) with k by lia.
  rewrite lookup_app_l by (by rewrite length_fmap).
  by rewrite list_lookup_fmap, Hk.
Qed.

Lemma shape_live_mid (pre : list (slot T)) (vs : list T) suf k :
  length pre ≤ k < length pre + length vs →
  shape (pre ++ (Live <$> vs) ++ suf) !! k = Some true.
Proof.
  intros Hk. apply shape_lookup_live.
  destruct (lookup_lt_is_Some_2 vs (k - length pre)) as [x Hx]; [lia|].
  exists x. replace k with (length pre + (k - length pre)) by lia.
  by apply lookup_live_mid.
Qed.

(** [std::move_backward] of a range to the slots one before it, as
    [Erase] calls it: the byte-wise move shifts the range, the
    element-wise loop reads every source after it was overwritten. *)
Lemma wp_move_backward_left ws : ∀ st a f l (pre suf : list (slot T)) y Q E,
  heap st !! a = Some (pre ++ (Live <$> ws) ++ Live y :: suf) →
  f = length pre + 1 → l = length pre + length ws + 1 →
  (∀ s, Q tt (mkState
     (<[a := pre ++ (Live <$> (if is_trivially_copyable
                               then drop 1 (ws ++ [y]) ++ [y]
                               else y :: replicate (length ws) (moved_from y))) ++ suf]>
        (heap st))
     (objs st) s (leaked st))) →
  (∀ st', E st') →
  wp (move_backward (At a f) (At a l) (At a (l - 1))) st Q E.
Proof.
  intros st a f l pre suf y Q E Ha -> -> HQ HE.
  unfold move_backward. simpl ptr_diff.
  replace (length pre + length ws + 1 - (length pre + 1)) with (length ws) by lia.
  destruct is_trivially_copyable.
  - apply wp_bind. unfold ptr_sub. rewrite bool_decide_eq_true_2 by lia. apply wp_ret.
    set (vs := drop 1 (ws ++ [y])).
    assert (length vs = length ws) as Hvs.
    { unfold vs. rewrite length_drop, length_app. simpl. lia. }
    assert (pre ++ (Live <$> ws) ++ Live y :: suf = pre ++ (Live <$> ws ++ [y]) ++ suf) as Hb.
    { by rewrite fmap_app, <- app_assoc. }
    rewrite <- Hvs.
    replace (length pre + length vs + 1 - 1 - length vs) with (length pre) by lia.
    eapply wp_memmove_objects; [exact Ha| | |].
    + intros k x Hk. unfold vs in Hk. rewrite lookup_drop in Hk.
      rewrite Hb. replace (length pre + 1 + k) with (length pre + (1 + k)) by lia.
      by apply lookup_live_mid.
    + intros k Hk. rewrite Hb. apply shape_live_mid. rewrite length_app. simpl. lia.
    + destruct st as [h o s l0]. eapply state_heap_ext; [apply (HQ s)|]. simpl. f_equal.
      rewrite take_app_length, Hvs.
      assert (drop (length pre + length ws) (pre ++ (Live <$> ws) ++ Live y :: suf)
              = Live y :: suf) as ->.
      { rewrite (app_assoc pre). apply drop_app_length'.
        by rewrite length_app, length_fmap. }
      fold vs. by rewrite fmap_app, <- app_assoc.
  - replace (length pre + length ws + 1) with (length pre + length ws + 1) by done.
    eapply (wp_move_backward_loop_left ws _ a _ pre suf y); [exact Ha|done| |exact HE].
    intros s. eapply state_heap_ext; [apply (HQ s)|]. f_equal.
    simpl. by rewrite fmap_replicate.
Qed.

(** [std::move_backward] of a range to the slots one after it, as the
    insertion in place calls it: either way the range is shifted, and the
    slot it started at holds some object. *)
Lemma wp_move_backward_right ws : ∀ st a f l (pre suf : list (slot T)) z Q E,
  heap st !! a = Some (pre ++ (Live <$> ws) ++ Live z :: suf) →
  f = length pre → l = length pre + length ws →
  (∀ s z', Q tt (mkState
     (<[a := pre ++ Live z' :: (Live <$> ws) ++ suf]> (heap st))
     (objs st) s (leaked st))) →
  (∀ st', E st') →
  wp (move_backward (At a f) (At a l) (At a (l + 1))) st Q E.
Proof.
  intros st a f l pre suf z Q E Ha -> -> HQ HE.
  unfold move_backward. simpl ptr_diff.
  replace (length pre + length ws - length pre) with (length ws) by lia.
  destruct is_trivially_copyable.
  - apply wp_bind. unfold ptr_sub. rewrite bool_decide_eq_true_2 by lia. apply wp_ret.
    replace (length pre + length ws + 1 - length ws) with (length pre + 1) by lia.
    assert (∃ z0 vs0, ws ++ [z] = z0 :: vs0 ∧ length vs0 = length ws) as (z0 & vs0 & Hvs & Hlen).
    { destruct ws as [|w ws']; simpl; [by exists z, []|].
      exists w, (ws' ++ [z]). split; [done|]. rewrite length_app. simpl. lia. }
    assert (pre ++ (Live <$> ws) ++ Live z :: suf =
            (pre ++ [Live z0]) ++ (Live <$> vs0) ++ suf) as Hb.
    { replace ((Live <$> ws) ++ Live z :: suf) with ((Live <$> ws ++ [z]) ++ suf)
        by (by rewrite fmap_app, <- app_assoc).
      rewrite Hvs. simpl. by rewrite <- app_assoc. }
    eapply wp_memmove_objects; [exact Ha| | |].
    + intros k x Hk. by apply lookup_live_mid.
    + intros k Hk.
      replace (pre ++ (Live <$> ws) ++ Live z :: suf)
        with (pre ++ (Live <$> ws ++ [z]) ++ suf) by (by rewrite fmap_app, <- app_assoc).
      apply shape_live_mid. rewrite length_app. simpl. lia.
    + destruct st as [h o s l0]. eapply state_heap_ext; [apply (HQ s z0)|]. simpl. f_equal.
      assert (take (length pre + 1) (pre ++ (Live <$> ws) ++ Live z :: suf)
              = pre ++ [Live z0]) as ->.
      { rewrite Hb. apply take_app_length'. rewrite length_app. simpl. lia. }
      assert (drop (length pre + 1 + length ws) (pre ++ (Live <$> ws) ++ Live z :: suf)
              = suf) as ->.
      { rewrite Hb, (app_assoc (pre ++ [Live z0])). apply drop_app_length'.
        rewrite !length_app, length_fmap. simpl. lia. }
      by rewrite <- !app_assoc.
  - eapply (wp_move_backward_loop_right ws _ a _ pre suf z); [exact Ha|done| |exact HE].
    intros s. destruct ws as [|w ws']; apply HQ.
Qed.

Lemma Vector_Erase_exact st this b cap (p1 ws : list T) y :
  let xs := p1 ++ ws ++ [y] in
  let v := mkVector (mkRawMemory (Some b) cap) (length xs) in
  objs st !! this = Some v →
  vec_repr (heap st) v xs →
  ∃ m, Vector_Erase this (At b (length p1)) = noexcept m ∧
    wp m st
      (λ p st', p = At b (length p1) ∧
         updates this st st' v (mkVector (mkRawMemory (Some b) cap) (length xs - 1))
           (removelast (p1 ++ (if is_trivially_copyable
                               then drop 1 (ws ++ [y]) ++ [y]
                               else y :: replicate (length ws) (moved_from y)))))
      (λ _, True).
Proof.
  intros xs v. subst v. destruct st as [h o s l]. norm. intros Hv Hr.
  pose proof (vec_repr_cases _ _ _ _ _ Hr) as (_ & Hle & Hb & Hcap).
  assert (length xs = length p1 + length ws + 1) as Hn.
  { unfold xs. rewrite !length_app. simpl. lia. }
  eexists. split; [reflexivity|]. cbv beta.
  apply wp_bind. eapply wp_Vector_begin; [exact Hv|]. norm.
  apply wp_bind. eapply wp_Vector_end; [exact Hv|]. norm.
  apply wp_bind, wp_assert.
  { simpl. rewrite !bool_decide_eq_true_2 by lia. done. }
  apply wp_bind, wp_ptr_dec'; [lia|].
  apply wp_bind. simpl ptr_add. simpl ptr_diff.
  set (sh := if is_trivially_copyable then drop 1 (ws ++ [y]) ++ [y]
             else y :: replicate (length ws) (moved_from y)).
  set (ys := p1 ++ sh).
  assert (length sh = length ws + 1) as Hsh.
  { unfold sh. destruct is_trivially_copyable.
    - rewrite length_app, length_drop, length_app. simpl. lia.
    - simpl. rewrite length_replicate. lia. }
  assert (length ys = length xs) as Hlen.
  { unfold ys. rewrite length_app. lia. }
  eapply (wp_move_backward_left ws _ b _ (length xs) (Live <$> p1)
            (replicate (cap - length xs) Raw) y); norm.
  { rewrite Hb. unfold vec_block, xs. by rewrite !fmap_app, <- !app_assoc. }
  { rewrite length_fmap. lia. }
  { rewrite length_fmap. lia. }
  2:{ done. }
  intros s1. fold sh.
  assert (((Live <$> p1) ++ (Live <$> sh) ++ replicate (cap - length xs) Raw)
          = vec_block cap ys) as ->.
  { unfold vec_block. rewrite Hlen. unfold ys. by rewrite fmap_app, <- !app_assoc. }
  assert (updates this (mkState h o s l)
            (mkState (<[b:=vec_block cap ys]> h) o s1 l)
            (mkVector (mkRawMemory (Some b) cap) (length xs))
            (mkVector (mkRawMemory (Some b) cap) (length xs)) ys) as Hu1.
  { eapply updates_heap; norm; [exact Hv|reflexivity|done..]. }
  pose proof (updates_repr _ _ _ _ _ _ Hu1) as Hr1. norm.
  eapply wp_seq; [eapply (wp_Vector_PopBack _ this _ ys); norm; [exact Hv|exact Hr1]| |done].
  intros [] [h2 o2 s2 l2] _ (Hs2 & Hl2 & Hu2). norm. subst s2 l2.
  apply wp_bind. eapply wp_Vector_begin; [by eapply updates_objs|]. norm.
  apply wp_ret. split; [f_equal; lia|].
  eapply updates_trans; [exact Hu1|exact Hu2].
Qed.

(** Rules for [wlp] with no condition on the exceptional exit. *)
Lemma wp_wlp {A} (m : M T A) st Q E : wp m st Q E → wlp m st Q E.
Proof. unfold wp, wlp. destruct (m st) as [[a| |] st']; tauto. Qed.

Lemma wlp_bind {A B} (m : M T A) (f : A → M T B) st Q :
  wlp m st (λ a st', wlp (f a) st' Q (λ _, True)) (λ _, True) →
  wlp (m ≫= f) st Q (λ _, True).
Proof.
  unfold wlp, mbind, M_bind, bind. destruct (m st) as [[a| |] st']; done.
Qed.

Lemma wlp_on_throw {A} (m : M T A) (h : M T unit) st Q :
  wlp m st Q (λ _, True) → wlp (on_throw m h) st Q (λ _, True).
Proof.
  unfold wlp, on_throw. destruct (m st) as [[a| |] st']; [done| |done].
  intros _. unfold mbind, M_bind, bind. by destruct (h st') as [[[]| |] st''].
Qed.

Lemma wlp_run {A} (m : M T A) st Q E a st' :
  wlp m st Q E → m st = (Ok a, st') → Q a st'.
Proof. unfold wlp. intros H Hr. by rewrite Hr in H. Qed.

Lemma last_moved_snoc xs y : last_moved (xs ++ [y]) = xs ++ [moved_from y].
Proof. unfold last_moved. by rewrite last_snoc, removelast_last. Qed.

Lemma wlp_seq {A B} (m : M T A) (f : A → M T B) st Q0 Q :
  wlp m st Q0 (λ _, True) →
  (∀ a st', Q0 a st' → wlp (f a) st' Q (λ _, True)) →
  wlp (m ≫= f) st Q (λ _, True).
Proof.
  intros Hm Hf. apply wlp_bind. unfold wlp in *.
  destruct (m st) as [[a| |] st1]; [|done..]. by apply Hf.
Qed.

Lemma length_last_moved xs : length (last_moved xs) = length xs.
Proof.
  destruct xs as [|y xs0 _] using rev_ind; [done|].
  by rewrite last_moved_snoc, !length_app.
Qed.

Lemma Vector_NoAllocateEmplace_shift_exact st this b cap xs count :
  objs st !! this = Some (mkVector (mkRawMemory (Some b) cap) (length xs)) →
  vec_repr (heap st) (mkVector (mkRawMemory (Some b) cap) (length xs)) xs →
  length xs < cap → count ≤ length xs →
  wlp (Vector_NoAllocateEmplace_shift this count) st
     (λ _ st', objs st' = objs st ∧
        heap st' =
          <[b := (Live <$> take count (last_moved xs)) ++ Raw ::
                 (Live <$> drop count (last_moved xs)) ++
                 replicate (cap - length xs - 1) Raw]> (heap st))
     (λ _, True).
Proof.
  destruct st as [h o s l]. norm. intros Hv Hr Hlt Hcount.
  pose proof (vec_repr_cases _ _ _ _ _ Hr) as (_ & _ & Hb & Hcap).
  unfold Vector_NoAllocateEmplace_shift.
  apply wlp_bind, wp_wlp. eapply wp_get_obj; [exact Hv|]. norm.
  destruct xs as [|y xs0 _] using rev_ind.
  - (* empty *)
    simpl. assert (count = 0) as -> by (simpl in *; lia).
    apply wp_wlp, wp_ret. split; [done|]. norm.
    symmetry. apply insert_id. rewrite Hb. f_equal.
    unfold vec_block. simpl. destruct cap; [lia|]. simpl. do 2 f_equal. lia.
  - (* not empty *)
    rewrite last_moved_snoc. rewrite length_app in *. simpl length in *.
    set (n := length xs0 + 1) in *.
    rewrite bool_decide_eq_true_2 by lia.
    rewrite vec_block_snoc in Hb.
    assert (cap - length xs0 - 1 = S (cap - n - 1)) as Hrest by lia.
    rewrite Hrest in Hb. simpl replicate in Hb.
    set (raws := replicate (cap - n - 1) Raw) in *.
    apply wlp_bind, wp_wlp, wp_RawMemory_plus; norm; [lia|].
    apply wlp_bind, wp_wlp. eapply wp_Vector_end; [exact Hv|]. norm.
    apply wlp_bind, wp_wlp, wp_ptr_dec'; [lia|].
    apply wlp_bind, wp_wlp.
    eapply (wp_T_move_construct _ b (n - 1) b n _ _ _ y y); norm.
    { exact Hb. }
    { apply lookup_mid. rewrite length_fmap. lia. }
    { exact Hb. }
    { apply lookup_mid2. rewrite length_fmap. lia. }
    { by rewrite lookup_insert_eq. }
    { rewrite list_lookup_insert_ne by lia. apply lookup_mid. rewrite length_fmap. lia. }
    2:{ done. }
    intros s1. rewrite insert_insert_eq.
    set (xs' := xs0 ++ [moved_from y]).
    assert (length xs' = n) as Hlen' by (unfold xs'; rewrite length_app; simpl; lia).
    assert (<[n - 1:=Live (moved_from y)]>
              (<[n:=Live y]> ((Live <$> xs0) ++ Live y :: Raw :: raws)) =
            (Live <$> take count xs') ++ (Live <$> drop count xs') ++ Live y :: raws) as ->.
    { rewrite app_assoc, <- fmap_app, take_drop. unfold xs'.
      rewrite fmap_app. simpl. rewrite <- app_assoc. simpl.
      rewrite insert_mid2 by (rewrite length_fmap; lia).
      by rewrite insert_mid by (rewrite length_fmap; lia). }
    apply wlp_bind, wlp_on_throw.
    apply wlp_bind, wp_wlp. eapply wp_Vector_begin; [exact Hv|]. norm.
    apply wlp_bind, wp_wlp. eapply wp_Vector_end; [exact Hv|]. norm. fold n.
    apply wp_wlp.
    eapply (wp_move_backward_right (drop count xs') _ b count n
              (Live <$> take count xs') raws y); norm.
    { by rewrite lookup_insert_eq. }
    { rewrite length_fmap, length_take. lia. }
    { rewrite length_fmap, length_take, length_drop. lia. }
    2:{ done. }
    intros s2 z. rewrite insert_insert_eq.
    apply wlp_bind, wp_wlp. eapply wp_Vector_begin; [exact Hv|]. norm.
    apply wp_wlp.
    eapply wp_destroy_at; norm.
    { by rewrite lookup_insert_eq. }
    { apply lookup_mid. rewrite length_fmap, length_take. lia. }
    rewrite insert_insert_eq.
    rewrite insert_mid by (rewrite length_fmap, length_take; lia).
    split; [done|]. norm. done.
Qed.

Lemma Vector_NoAllocateEmplace_exact st this b cap xs count ar :
  objs st !! this = Some (mkVector (mkRawMemory (Some b) cap) (length xs)) →
  vec_repr (heap st) (mkVector (mkRawMemory (Some b) cap) (length xs)) xs →
  length xs < cap → count ≤ length xs →
  wlp (Vector_NoAllocateEmplace this count ar) st
     (λ p st', p = At b count ∧ objs st' = objs st ∧
        heap st' =
          <[b := vec_block cap (take count (last_moved xs) ++
                                args_value ar :: drop count (last_moved xs))]> (heap st))
     (λ _, True).
Proof.
  intros Hv Hr Hlt Hcount.
  pose proof (length_last_moved xs) as Hlm.
  unfold Vector_NoAllocateEmplace.
  eapply wlp_seq; [exact (Vector_NoAllocateEmplace_shift_exact _ _ _ _ _ _ Hv Hr Hlt Hcount)|].
  intros [] [h1 o1 s1 l1] (Ho1 & Hh1). destruct st as [h o s l]. norm. subst h1 o1.
  apply wlp_bind, wp_wlp. eapply wp_get_obj; [exact Hv|]. norm.
  apply wlp_bind, wp_wlp, wp_RawMemory_plus; norm; [lia|].
  apply wlp_bind, wp_wlp. eapply wp_T_construct; norm.
  { by rewrite lookup_insert_eq. }
  { apply lookup_mid. rewrite length_fmap, length_take. lia. }
  2:{ done. }
  intros s3. apply wp_wlp, wp_ret. split_and!; [done..|]. norm.
  rewrite insert_insert_eq. f_equal.
  rewrite insert_mid by (rewrite length_fmap, length_take; lia).
  rewrite (vec_block_insert_mid cap _ _ _ (cap - length xs - 1)).
  + by rewrite <- app_assoc.
  + rewrite length_take, length_drop. lia.
Qed.

Lemma noexcept_ok {A} (m : M T A) st a st' :
  noexcept m st = (Ok a, st') → m st = (Ok a, st').
Proof. unfold noexcept. by destruct (m st) as [[?| |] ?]. Qed.

Lemma last_moved_id xs :
  (∀ y, last xs = Some y → moved_from y = y) → last_moved xs = xs.
Proof.
  intros Hid. destruct xs as [|y xs0 _] using rev_ind; [done|].
  rewrite last_moved_snoc, Hid; [done|]. by rewrite last_snoc.
Qed.

(** Property X17.  [Emplace] that returns on a vector with spare
    capacity, at a valid position, with an argument that is not an element
    of the vector: the arena is kept, the size is one more and the position
    is returned.  The vector holds the new element inserted at the position
    into the old elements with the last of them in its moved-from state:
    the last element is move-constructed into the slot after the end and
    then overwritten by the move assignment from its own moved-from
    source.  For an element type whose moves leave the source unchanged
    the result is the old elements with the new one inserted.  The
    argument is passed by value in the model and by reference in the code,
    which reads it after the elements were shifted; the two agree when the
    argument is not an element of the vector, and the statement is about
    arguments whose value is not even among the elements. *)
Theorem Vector_Emplace_in_place st this v xs pos ar p st' :
  objs st !! this = Some v → vec_repr (heap st) v xs →
  size_ v ≠ capacity_ (data_ v) →
  ptr_leb (RawMemory_GetAddress (data_ v)) pos &&
  ptr_leb pos (RawMemory_GetAddress (data_ v) +ₚ size_ v) = true →
  args_value ar ∉ xs →
  Vector_Emplace this pos ar st = (Ok p, st') →
  let count := ptr_diff pos (RawMemory_GetAddress (data_ v)) in
  p = pos ∧
  objs st' = <[this := mkVector (data_ v) (size_ v + 1)]> (objs st) ∧
  contents st' this =
    Some (take count (last_moved xs) ++ args_value ar :: drop count (last_moved xs)) ∧
  ((∀ y, last xs = Some y → moved_from y = y) →
   contents st' this = Some (take count xs ++ args_value ar :: drop count xs)).
Proof.
  destruct st as [h o s l]. destruct v as [[buf cap] size].
  cbn [heap objs leaked data_ size_ capacity_]. intros Hv Hr Hnf Hpos _ Hrun.
  pose proof (vec_repr_cases _ _ _ _ _ Hr) as (Hs & Hle & Hb). subst size.
  destruct (valid_pos_inv _ _ _ _ Hpos) as (Hcount & Hposeq & Hnone).
  set (count := ptr_diff pos (RawMemory_GetAddress (mkRawMemory buf cap))) in *.
  destruct buf as [b|]; [|destruct Hb as [-> ->]; done].
  destruct Hb as [Hb Hcap]. assert (length xs < cap) as Hlt by lia.
  set (ys := take count (last_moved xs) ++ args_value ar :: drop count (last_moved xs)).
  assert (length (last_moved xs) = length xs) as Hlm.
  { destruct xs as [|y xs0 _] using rev_ind; [done|].
    rewrite last_moved_snoc, !length_app. done. }
  assert (length ys = length xs + 1) as Hlen.
  { unfold ys. rewrite length_app, length_take. simpl. rewrite length_drop. lia. }
  assert (wlp (Vector_Emplace this pos ar) (mkState h o s l)
            (λ p st', p = pos ∧
               objs st' = <[this := mkVector (mkRawMemory (Some b) cap) (length xs + 1)]> o ∧
               heap st' = <[b := vec_block cap ys]> h)
            (λ _, True)) as Hwlp.
  { unfold Vector_Emplace.
    apply wlp_bind, wp_wlp. eapply wp_Vector_begin; [exact Hv|]. norm.
    apply wlp_bind, wp_wlp. eapply wp_Vector_end; [exact Hv|]. norm.
    apply wlp_bind, wp_wlp, wp_assert; [exact Hpos|]. fold count.
    apply wlp_bind, wp_wlp. eapply wp_get_obj; [exact Hv|]. norm.
    rewrite bool_decide_eq_false_2 by done.
    eapply wlp_seq;
      [exact (Vector_NoAllocateEmplace_exact (mkState h o s l) this b cap xs count ar
                Hv Hr Hlt Hcount)|].
    intros q [h1 o1 s1 l1] (-> & Ho1 & Hh1). norm. subst h1 o1.
    apply wlp_bind, wp_wlp. eapply wp_get_obj; [exact Hv|]. norm.
    apply wlp_bind, wp_wlp. eapply wp_set_size; [exact Hv|]. norm.
    apply wp_wlp, wp_ret. split_and!; norm; try done. }
  pose proof (wlp_run _ _ _ _ _ _ Hwlp Hrun) as (Hp & Ho' & Hh'). simpl in Ho', Hh'.
  assert (contents st' this = Some ys) as Hc.
  { eapply contents_repr; [by rewrite Ho', lookup_insert_eq|].
    split; norm; [done|]. rewrite Hlen. split_and!; [lia..|].
    by rewrite Hh', lookup_insert_eq. }
  split_and!; try done.
  intros Hid. rewrite Hc. unfold ys. by rewrite (last_moved_id _ Hid).
Qed.

Lemma Vector_Emplace_with_value this pos ar :
  Vector_Emplace_with (λ p, T_construct p ar) this pos = Vector_Emplace this pos ar.
Proof. reflexivity. Qed.

Lemma lookup_gap (xs : list T) count j raws :
  count ≤ length xs → j < length xs → j ≠ count →
  ∃ y, xs !! (if bool_decide (j < count) then j else j - 1) = Some y ∧
       ((Live <$> take count xs) ++ Raw :: (Live <$> drop count xs) ++ raws) !! j
       = Some (Live y).
Proof.
  intros Hc Hj Hne. case_bool_decide as Hlt.
  - destruct (lookup_lt_is_Some_2 xs j) as [y Hy]; [lia|]. exists y. split; [done|].
    rewrite lookup_app_l by (rewrite length_fmap, length_take; lia).
    by rewrite list_lookup_fmap, lookup_take_lt, Hy by lia.
  - destruct (lookup_lt_is_Some_2 xs (j - 1)) as [y Hy]; [lia|]. exists y. split; [done|].
    rewrite lookup_app_r by (rewrite length_fmap, length_take; lia).
    rewrite length_fmap, length_take.
    replace (j - count `min` length xs) with (S (j - count - 1)) by lia. simpl.
    rewrite lookup_app_l by (rewrite length_fmap, length_drop; lia).
    rewrite list_lookup_fmap, lookup_drop.
    replace (count + (j - count - 1)) with (j - 1) by lia. by rewrite Hy.
Qed.

Lemma wlp_load_raw {B} st a i b (f : T → M T B) Q E :
  heap st !! a = Some b → b !! i = Some Raw → wlp (load (At a i) ≫= f) st Q E.
Proof.
  intros Ha Hi. destruct st as [h o s l]. simpl in Ha.
  unfold wlp, load, mbind, M_bind, bind, get_heap. simpl. by rewrite Ha; simpl; rewrite Hi.
Qed.

Lemma last_moved_lookup_lt xs i :
  i + 1 < length xs → last_moved xs !! i = xs !! i.
Proof.
  destruct xs as [|y xs0 _] using rev_ind; [done|].
  rewrite last_moved_snoc, length_app. simpl. intros Hi.
  by rewrite !lookup_app_l by lia.
Qed.

(** Property X27.  [Insert(pos, value)] where [value] refers to the
    element of index [j] of the vector itself, on a vector with spare
    capacity and at a valid position of index [count], when the call
    returns: the position is returned and the size is one more, but the
    element inserted is the object that is at index [j] after the elements
    from [count] on were shifted one slot to the right, not the element
    the caller named.  The index [j] is not [count]: the object there is
    destroyed before the argument is read, and a run that reads it does
    not return.  For [count < j] the element inserted is the old element
    of index [j - 1]; for [j < count] it is the element of index [j] of
    the old sequence with its last element in its moved-from state. *)
Theorem Vector_Insert_ref_in_place st this v xs pos j p st' :
  objs st !! this = Some v → vec_repr (heap st) v xs →
  size_ v ≠ capacity_ (data_ v) →
  ptr_leb (RawMemory_GetAddress (data_ v)) pos &&
  ptr_leb pos (RawMemory_GetAddress (data_ v) +ₚ size_ v) = true →
  j < size_ v →
  Vector_Insert_ref this pos (RawMemory_GetAddress (data_ v) +ₚ j) st = (Ok p, st') →
  let count := ptr_diff pos (RawMemory_GetAddress (data_ v)) in
  p = pos ∧ j ≠ count ∧
  objs st' = <[this := mkVector (data_ v) (size_ v + 1)]> (objs st) ∧
  ∃ y, last_moved xs !! (if bool_decide (j < count) then j else j - 1) = Some y ∧
       (count < j → xs !! (j - 1) = Some y) ∧
       contents st' this =
         Some (take count (last_moved xs) ++ y :: drop count (last_moved xs)).
Proof.
  destruct st as [h o s l]. destruct v as [[buf cap] size].
  cbn [heap objs leaked data_ size_ capacity_]. intros Hv Hr Hnf Hpos Hj Hrun.
  pose proof (vec_repr_cases _ _ _ _ _ Hr) as (Hs & Hle & Hb). subst size.
  destruct (valid_pos_inv _ _ _ _ Hpos) as (Hcount & Hposeq & Hnone).
  set (count := ptr_diff pos (RawMemory_GetAddress (mkRawMemory buf cap))) in *.
  destruct buf as [b|]; [|destruct Hb as [-> ->]; done].
  destruct Hb as [Hb Hcap]. assert (length xs < cap) as Hlt by lia.
  pose proof (length_last_moved xs) as Hlm.
  set (xs' := last_moved xs) in *.
  set (blk := (Live <$> take count xs') ++ Raw :: (Live <$> drop count xs') ++
              replicate (cap - length xs - 1) Raw).
  assert (wlp (Vector_Insert_ref this pos
                 (RawMemory_GetAddress (mkRawMemory (Some b) cap) +ₚ j)) (mkState h o s l)
            (λ p st', p = pos ∧ j ≠ count ∧
               objs st' = <[this := mkVector (mkRawMemory (Some b) cap) (length xs + 1)]> o ∧
               ∃ y, blk !! j = Some (Live y) ∧
                 heap st' = <[b := vec_block cap (take count xs' ++ y :: drop count xs')]> h)
            (λ _, True)) as Hwlp.
  { unfold Vector_Insert_ref, Vector_Emplace_with.
    apply wlp_bind, wp_wlp. eapply wp_Vector_begin; [exact Hv|]. norm.
    apply wlp_bind, wp_wlp. eapply wp_Vector_end; [exact Hv|]. norm.
    apply wlp_bind, wp_wlp, wp_assert; [exact Hpos|]. fold count.
    apply wlp_bind, wp_wlp. eapply wp_get_obj; [exact Hv|]. norm.
    rewrite bool_decide_eq_false_2 by done.
    unfold Vector_NoAllocateEmplace_with.
    apply wlp_bind.
    eapply wlp_seq;
      [exact (Vector_NoAllocateEmplace_shift_exact (mkState h o s l) this b cap xs count
                Hv Hr Hlt Hcount)|].
    intros [] [h1 o1 s1 l1] (Ho1 & Hh1). norm. subst h1 o1. fold xs' blk.
    apply wlp_bind, wp_wlp. eapply wp_get_obj; [exact Hv|]. norm.
    apply wlp_bind, wp_wlp, wp_RawMemory_plus; norm; [lia|].
    apply wlp_bind. unfold T_copy_construct.
    destruct (decide (j = count)) as [->|Hne].
    { apply (wlp_load_raw _ b count blk); norm; [by rewrite lookup_insert_eq|].
      apply lookup_mid. rewrite length_fmap, length_take. lia. }
    destruct (lookup_gap xs' count j (replicate (cap - length xs - 1) Raw))
      as (y & Hy & Hblk); [lia..|done|]. fold blk in Hblk.
    apply wlp_bind, wp_wlp. eapply wp_load; norm.
    { by rewrite lookup_insert_eq. }
    { exact Hblk. }
    apply wlp_bind, wp_wlp, wp_tick; norm; [|done].
    intros s2. apply wp_wlp. eapply wp_construct_at; norm.
    { by rewrite lookup_insert_eq. }
    { apply lookup_mid. rewrite length_fmap, length_take. lia. }
    apply wp_wlp, wp_ret.
    apply wlp_bind, wp_wlp. eapply wp_get_obj; [exact Hv|]. norm.
    apply wlp_bind, wp_wlp. eapply wp_set_size; [exact Hv|]. norm.
    apply wp_wlp, wp_ret. split_and!; norm; try done.
    exists y. split; [done|]. rewrite insert_insert_eq. f_equal. unfold blk.
    rewrite insert_mid by (rewrite length_fmap, length_take; lia).
    rewrite (vec_block_insert_mid cap _ _ _ (cap - length xs - 1)).
    + by rewrite <- app_assoc.
    + rewrite length_take, length_drop. lia. }
  pose proof (wlp_run _ _ _ _ _ _ Hwlp Hrun) as (Hp & Hne & Ho' & y & Hblk & Hh').
  simpl in Ho', Hh'.
  destruct (lookup_gap xs' count j (replicate (cap - length xs - 1) Raw))
    as (y' & Hy & Hblk'); [lia..|done|]. fold blk in Hblk'.
  assert (y' = y) as -> by congruence.
  set (ys := take count xs' ++ y :: drop count xs') in *.
  assert (length ys = length xs + 1) as Hlen.
  { unfold ys. rewrite length_app, length_take. simpl. rewrite length_drop. lia. }
  split_and!; try done. exists y. split_and!; [done| |].
  - intros Hgt. rewrite bool_decide_eq_false_2 in Hy by lia.
    unfold xs' in Hy. by rewrite last_moved_lookup_lt in Hy by lia.
  - eapply contents_repr; [by rewrite Ho', lookup_insert_eq|].
    split; norm; [done|]. fold ys. rewrite Hlen. split_and!; [lia..|].
    by rewrite Hh', lookup_insert_eq.
Qed.

(** Property X18.  [Erase] that returns was called at a valid position and
    returns that position; the arena is kept and the size is one less.
    What the vector then holds depends on how [std::move_backward] moves
    the overlapping range.  For a trivially copyable element type, moved
    byte-wise, it is the old sequence without the element at the position.
    For any other element type, moved element by element from the back, it
    is, without its last slot, the sequence made of the elements before
    the position, then the last element, then as many moved-from copies of
    it as elements followed the position.  When at most one element
    follows the position, both are the old sequence without the element at
    the position. *)
Theorem Vector_Erase_result st this v xs pos p st' :
  objs st !! this = Some v → vec_repr (heap st) v xs →
  Vector_Erase this pos st = (Ok p, st') →
  let count := ptr_diff pos (RawMemory_GetAddress (data_ v)) in
  p = pos ∧ count < length xs ∧
  objs st' = <[this := mkVector (data_ v) (size_ v - 1)]> (objs st) ∧
  ∃ y, last xs = Some y ∧
    contents st' this =
      Some (if is_trivially_copyable
            then take count xs ++ drop (S count) xs
            else removelast (take count xs ++
                             y :: replicate (length xs - count - 1) (moved_from y))) ∧
    (length xs ≤ count + 2 →
     contents st' this = Some (take count xs ++ drop (S count) xs)).
Proof.
  intros Hv Hr Hrun count.
  destruct (ptr_leb (RawMemory_GetAddress (data_ v)) pos &&
            ptr_ltb pos (RawMemory_GetAddress (data_ v) +ₚ size_ v)) eqn:Hpos.
  2:{ rewrite (Vector_Erase_fault _ _ _ _ Hv Hpos) in Hrun. done. }
  destruct v as [[buf cap] size].
  pose proof (vec_repr_cases _ _ _ _ _ Hr) as (-> & _).
  destruct (valid_erase_pos_inv _ _ _ _ Hpos) as (b & k & -> & -> & Hk).
  subst count. simpl ptr_diff. rewrite Nat.sub_0_r.
  destruct xs as [|y xs0 _] using rev_ind; [simpl in Hk; lia|].
  rewrite length_app in Hk. simpl in Hk.
  assert (xs0 ++ [y] = take k xs0 ++ drop k xs0 ++ [y]) as Hxs
    by (by rewrite app_assoc, take_drop).
  assert (length (take k xs0) = k) as Hp1 by (rewrite length_take; lia).
  assert (length (drop k xs0) = length xs0 - k) as Hws by (by rewrite length_drop).
  pose proof (Vector_Erase_exact st this b cap (take k xs0) (drop k xs0) y) as Hex.
  cbv zeta in Hex. rewrite <- Hxs, Hp1 in Hex.
  destruct (Hex Hv Hr) as (m & Heq & Hwp).
  rewrite Heq in Hrun. apply noexcept_ok in Hrun.
  pose proof (wp_run _ _ _ _ _ _ Hwp Hrun) as [-> Hu]. simpl in Hu.
  assert (take k (xs0 ++ [y]) = take k xs0) as Htake by (apply take_app_le; lia).
  split_and!; [done|rewrite length_app; simpl; lia|by destruct Hu|].
  exists y. rewrite last_snoc, Htake, length_app. simpl.
  replace (length xs0 + 1 - k - 1) with (length xs0 - k) by lia.
  rewrite Hws in Hu.
  set (left := take k xs0 ++ drop (S k) (xs0 ++ [y])).
  set (smear := removelast (take k xs0 ++ y :: replicate (length xs0 - k) (moved_from y))).
  assert (contents st' this = Some (if is_trivially_copyable then left else smear)) as Hc.
  { erewrite contents_repr; [|by eapply updates_objs|by eapply updates_repr].
    f_equal. destruct is_trivially_copyable; [|done]. unfold left.
    rewrite app_assoc, removelast_last. f_equal.
    replace (S k) with (k + 1) by lia.
    rewrite <- (drop_drop (xs0 ++ [y]) 1 k). by rewrite (drop_app_le xs0 [y] k) by lia. }
  split_and!; [done|done|].
  intros Hshort. rewrite Hc. f_equal. destruct is_trivially_copyable; [done|].
  unfold smear, left.
  destruct (decide (k = length xs0)) as [->|Hne].
  - rewrite Nat.sub_diag. simpl. rewrite removelast_last.
    rewrite drop_ge by (rewrite length_app; simpl; lia). by rewrite app_nil_r.
  - assert (length xs0 = k + 1) as Hl0 by lia.
    replace (length xs0 - k) with 1 by lia. simpl.
    replace (take k xs0 ++ [y; moved_from y]) with ((take k xs0 ++ [y]) ++ [moved_from y])
      by (by rewrite <- app_assoc).
    rewrite removelast_last. f_equal.
    rewrite drop_app_ge by lia. rewrite Hl0. by replace (S k - (k + 1)) with 0 by lia.
Qed.

End Exact.

Section Leaks.
Context {T : Type} `{ET : Elem T}.
Implicit Types (st : state T) (h : gmap nat (list (slot T))) (xs ys ws : list T) (v : Vector).

Lemma effects_of_wp {A} (m : M T A) st Q E o st' (b : bool) :
  wp m st Q E → m st = (o, st') →
  (∀ a, Q a st' → leaked st' = leaked st) →
  (E st' → b = false → leaked st' = leaked st) →
  sched st' `suffix_of` sched st ∧ (o = Throw → true ∈ sched st) ∧
  ((o = Throw → b = false) → leaked st' = leaked st).
Proof.
  unfold wp. intros Hwp Hrun HQ HE. rewrite Hrun in Hwp.
  destruct o as [a| |]; [| |done].
  - destruct Hwp as [Hq Hs]. split_and!; try done. intros _. by eapply HQ.
  - destruct Hwp as (He & Hs & Hin). split_and!; try done. intros Hb. by apply HE, Hb.
Qed.

Lemma effects_same {A} st (o : outcome A) (b : bool) :
  o ≠ Throw →
  sched st `suffix_of` sched st ∧ (o = Throw → true ∈ sched st) ∧
  ((o = Throw → b = false) → leaked st = leaked st).
Proof. intros Ho. split_and!; done. Qed.

Lemma effects_discard {A} (o' : outcome A) (o : outcome unit) st st' (b : bool) :
  match o' with
  | Ok _ => o = Ok tt
  | Throw => o = Throw
  | Fault => o = Fault
  end →
  sched st' `suffix_of` sched st ∧ (o' = Throw → true ∈ sched st) ∧
  ((o' = Throw → b = false) → leaked st' = leaked st) →
  sched st' `suffix_of` sched st ∧ (o = Throw → true ∈ sched st) ∧
  ((o = Throw → b = false) → leaked st' = leaked st).
Proof.
  intros Ho (Hs & Ht & Hl). split_and!; [done|..].
  - intros ->. apply Ht. by destruct o'.
  - intros Hb. apply Hl. intros ->. by apply Hb.
Qed.

Lemma Vector_Emplace_effects st this pos ar o st' :
  state_ok st → Vector_Emplace this pos ar st = (o, st') → o ≠ Fault →
  sched st' `suffix_of` sched st ∧ (o = Throw → true ∈ sched st) ∧
  ((o = Throw → true = false) → leaked st' = leaked st).
Proof.
  intros [Hwf _] Hrun Hnf.
  destruct (objs st !! this) as [v|] eqn:Hv.
  2:{ unfold Vector_Emplace in Hrun.
      rewrite (bind_fault _ _ st st) in Hrun; [by injection Hrun as <- _|].
      unfold Vector_begin. apply bind_fault. by apply get_obj_fault. }
  destruct (Hwf _ _ Hv) as [xs Hr].
  destruct (ptr_leb (RawMemory_GetAddress (data_ v)) pos &&
            ptr_leb pos (RawMemory_GetAddress (data_ v) +ₚ size_ v)) eqn:Hpos.
  2:{ rewrite (Vector_Emplace_fault _ _ _ _ _ Hv Hpos) in Hrun. by injection Hrun as <- _. }
  eapply (effects_of_wp _ _ _ _ _ _ true
            (wp_Vector_Emplace st this v xs pos ar Hv Hr Hpos) Hrun).
  - by intros p (Hl & _).
  - done.
Qed.

Lemma Vector_EmplaceBack_effects st this ar o st' :
  state_ok st → Vector_EmplaceBack this ar st = (o, st') → o ≠ Fault →
  sched st' `suffix_of` sched st ∧ (o = Throw → true ∈ sched st) ∧
  ((o = Throw → true = false) → leaked st' = leaked st).
Proof.
  intros [Hwf _] Hrun Hnf.
  destruct (objs st !! this) as [v|] eqn:Hv.
  2:{ unfold Vector_EmplaceBack in Hrun.
      rewrite (bind_fault _ _ st st (get_obj_fault _ _ Hv)) in Hrun.
      by injection Hrun as <- _. }
  destruct (Hwf _ _ Hv) as [xs Hr].
  eapply (effects_of_wp _ _ _ _ _ _ true
            (wp_Vector_EmplaceBack st this v xs ar Hv Hr) Hrun).
  - by intros p (Hl & _).
  - done.
Qed.

Lemma run_op_effects c st o st' :
  state_ok st → run_op c st = (o, st') → o ≠ Fault →
  sched st' `suffix_of` sched st ∧ (o = Throw → true ∈ sched st) ∧
  ((o = Throw → adds_element c = false) → leaked st' = leaked st).
Proof.
  intros Hok Hrun Hnf. pose proof Hok as [Hwf Hdis].
  destruct c; simpl in Hrun; simpl adds_element.
  - (* Vector() *)
    destruct (objs st !! self) as [w|] eqn:Hs.
    { unfold Vector_default in Hrun.
      rewrite (new_object_fault _ _ _ _ Hs) in Hrun. by injection Hrun as <- _. }
    eapply (effects_of_wp _ _ _ _ _ _ false
              (wp_Vector_default st self (λ _ st', leaked st' = leaked st) (λ _, False)
                 Hs eq_refl) Hrun); done.
  - (* Vector(size) *)
    destruct (objs st !! self) as [w|] eqn:Hs.
    { unfold Vector_sized in Hrun.
      rewrite (bind_fault _ _ st st) in Hrun; [by injection Hrun as <- _|].
      by eapply no_object_fault. }
    eapply (effects_of_wp _ _ _ _ _ _ false (wp_Vector_sized st self size Hs) Hrun).
    + by intros _ (Hl & _).
    + by intros (_ & _ & Hl) _.
  - (* Vector(const Vector&) *)
    destruct (objs st !! self) as [w|] eqn:Hs.
    { unfold Vector_copy in Hrun.
      rewrite (bind_fault _ _ st st) in Hrun; [by injection Hrun as <- _|].
      by eapply no_object_fault. }
    destruct (objs st !! other) as [v|] eqn:Hv.
    2:{ unfold Vector_copy in Hrun. rewrite bind_run in Hrun.
        unfold no_object in Hrun at 1. rewrite bind_run in Hrun. simpl in Hrun.
        rewrite bool_decide_eq_true_2 in Hrun by done. simpl in Hrun.
        rewrite (bind_fault _ _ st st) in Hrun; [by injection Hrun as <- _|].
        by apply get_obj_fault. }
    destruct (Hwf _ _ Hv) as [xs Hr].
    eapply (effects_of_wp _ _ _ _ _ _ false
              (wp_Vector_copy st self other v xs Hs Hv Hr) Hrun).
    + by intros _ (Hl & _).
    + by intros (_ & _ & Hl) _.
  - (* Vector(Vector&&) *)
    destruct (objs st !! self) as [w|] eqn:Hs.
    { unfold Vector_move in Hrun.
      rewrite (bind_fault _ _ st st) in Hrun; [by injection Hrun as <- _|].
      by eapply new_object_fault. }
    destruct (decide (self = other)) as [<-|Hne].
    { assert (wp (Vector_move self self) st (λ _ st', leaked st' = leaked st) (λ _, False))
        as Hwp.
      { unfold Vector_move. apply wp_bind. eapply wp_new_object; [exact Hs|].
        eapply wp_Vector_Swap; norm; [by rewrite lookup_insert_eq..|]. done. }
      eapply (effects_of_wp _ _ _ _ _ _ false Hwp Hrun); done. }
    destruct (objs st !! other) as [v|] eqn:Hv.
    2:{ unfold Vector_move in Hrun. rewrite bind_run in Hrun.
        unfold new_object in Hrun at 1. rewrite bind_run in Hrun. simpl in Hrun.
        rewrite Hs in Hrun. simpl in Hrun.
        unfold Vector_Swap in Hrun. rewrite bind_run in Hrun.
        rewrite (get_obj_run _ self (mkVector RawMemory_default 0)) in Hrun
          by (simpl; by rewrite lookup_insert_eq).
        match type of Hrun with
        | (_ ≫= _) ?s1 = _ =>
            assert (get_obj other s1 = (Fault, s1)) as Hf
              by (apply get_obj_fault; simpl; by rewrite lookup_insert_ne)
        end.
        rewrite (bind_fault _ _ _ _ Hf) in Hrun.
        by injection Hrun as <- _. }
    eapply (effects_of_wp _ _ _ _ _ _ false
              (wp_Vector_move st self other v (λ _ st', leaked st' = leaked st) (λ _, False)
                 Hs Hv eq_refl) Hrun); done.
  - (* ~Vector() *)
    destruct (objs st !! self) as [v|] eqn:Hv.
    2:{ unfold Vector_dtor in Hrun.
        rewrite (bind_fault _ _ st st (get_obj_fault _ _ Hv)) in Hrun.
        by injection Hrun as <- _. }
    destruct (Hwf _ _ Hv) as [xs Hr].
    eapply (effects_of_wp _ _ _ _ _ _ false
              (wp_Vector_dtor st self v xs (λ _ st', leaked st' = leaked st) (λ _, False)
                 Hv Hr eq_refl) Hrun); done.
  - (* operator=(const Vector&) *)
    destruct (decide (this = rhs)) as [<-|Hne].
    { unfold Vector_copy_assign in Hrun. rewrite bool_decide_eq_false_2 in Hrun by naive_solver.
      injection Hrun as <- <-. by apply effects_same. }
    destruct (objs st !! this) as [t|] eqn:Ht.
    2:{ unfold Vector_copy_assign in Hrun. rewrite bool_decide_eq_true_2 in Hrun by done.
        rewrite (bind_fault _ _ st st (get_obj_fault _ _ Ht)) in Hrun.
        by injection Hrun as <- _. }
    destruct (objs st !! rhs) as [r|] eqn:Hr.
    2:{ unfold Vector_copy_assign in Hrun. rewrite bool_decide_eq_true_2 in Hrun by done.
        rewrite bind_run, (get_obj_run _ _ _ Ht) in Hrun.
        rewrite (bind_fault _ _ st st (get_obj_fault _ _ Hr)) in Hrun.
        by injection Hrun as <- _. }
    destruct (Hwf _ _ Ht) as [xt Hrt]. destruct (Hwf _ _ Hr) as [xr Hrr].
    eapply (effects_of_wp _ _ _ _ _ _ false
              (wp_Vector_copy_assign st this rhs t r xt xr Hne Ht Hr Hrt Hrr
                 (λ a, Hdis this rhs t r a Hne Ht Hr)) Hrun).
    + by intros _ (Hl & _).
    + by intros (Hl & _) _.
  - (* operator=(Vector&&) *)
    destruct (decide (this = rhs)) as [<-|Hne].
    { unfold Vector_move_assign in Hrun. rewrite bool_decide_eq_false_2 in Hrun by naive_solver.
      injection Hrun as <- <-. by apply effects_same. }
    unfold Vector_move_assign in Hrun. rewrite bool_decide_eq_true_2 in Hrun by done.
    destruct (objs st !! this) as [t|] eqn:Ht.
    2:{ unfold Vector_Swap in Hrun.
        rewrite (bind_fault _ _ st st (get_obj_fault _ _ Ht)) in Hrun.
        by injection Hrun as <- _. }
    destruct (objs st !! rhs) as [r|] eqn:Hr.
    2:{ unfold Vector_Swap in Hrun.
        rewrite bind_run, (get_obj_run _ _ _ Ht) in Hrun.
        rewrite (bind_fault _ _ st st (get_obj_fault _ _ Hr)) in Hrun.
        by injection Hrun as <- _. }
    eapply (effects_of_wp _ _ _ _ _ _ false
              (wp_Vector_Swap st this rhs t r (λ _ st', leaked st' = leaked st) (λ _, False)
                 Ht Hr eq_refl) Hrun); done.
  - (* Swap *)
    destruct (objs st !! this) as [t|] eqn:Ht.
    2:{ unfold Vector_Swap in Hrun.
        rewrite (bind_fault _ _ st st (get_obj_fault _ _ Ht)) in Hrun.
        by injection Hrun as <- _. }
    destruct (objs st !! other) as [r|] eqn:Hr.
    2:{ unfold Vector_Swap in Hrun.
        rewrite bind_run, (get_obj_run _ _ _ Ht) in Hrun.
        rewrite (bind_fault _ _ st st (get_obj_fault _ _ Hr)) in Hrun.
        by injection Hrun as <- _. }
    eapply (effects_of_wp _ _ _ _ _ _ false
              (wp_Vector_Swap st this other t r (λ _ st', leaked st' = leaked st) (λ _, False)
                 Ht Hr eq_refl) Hrun); done.
  - (* begin *)
    apply run_discard in Hrun as (o' & Hm & Ho').
    destruct (objs st !! this) as [v|] eqn:Hv.
    + rewrite (Vector_begin_run _ _ _ Hv) in Hm. injection Hm as <- <-.
      subst o. by apply effects_same.
    + unfold Vector_begin in Hm.
      rewrite (bind_fault _ _ st st (get_obj_fault _ _ Hv)) in Hm.
      injection Hm as <- _. done.
  - (* end *)
    apply run_discard in Hrun as (o' & Hm & Ho').
    destruct (objs st !! this) as [v|] eqn:Hv.
    + rewrite (Vector_end_run _ _ _ Hv) in Hm. injection Hm as <- <-.
      subst o. by apply effects_same.
    + unfold Vector_end in Hm.
      rewrite (bind_fault _ _ st st (get_obj_fault _ _ Hv)) in Hm.
      injection Hm as <- _. done.
  - (* Emplace *)
    apply run_discard in Hrun as (o' & Hm & Ho').
    eapply effects_discard; [exact Ho'|].
    eapply Vector_Emplace_effects; [done..|]. by intros ->.
  - (* Erase *)
    apply run_discard in Hrun as (o' & Hm & Ho').
    assert (o' ≠ Fault) as Hnf' by (by intros ->).
    destruct (objs st !! this) as [v|] eqn:Hv.
    2:{ unfold Vector_Erase in Hm.
        rewrite (noexcept_fault _ st st) in Hm; [by injection Hm as <- _|].
        apply bind_fault. unfold Vector_begin. apply bind_fault. by apply get_obj_fault. }
    destruct (ptr_leb (RawMemory_GetAddress (data_ v)) pos &&
              ptr_ltb pos (RawMemory_GetAddress (data_ v) +ₚ size_ v)) eqn:Hpos.
    2:{ rewrite (Vector_Erase_fault _ _ _ _ Hv Hpos) in Hm. by injection Hm as <- _. }
    destruct (Hwf _ _ Hv) as [xs Hr]. destruct v as [[buf cap] size].
    pose proof (vec_repr_cases _ _ _ _ _ Hr) as (-> & _).
    destruct (valid_erase_pos_inv _ _ _ _ Hpos) as (b & count & -> & -> & Hcount).
    destruct (Vector_Erase_body st this b cap xs count Hv Hr Hcount) as (m & Heq & Hwp).
    rewrite Heq in Hm.
    destruct (noexcept_run _ _ _ _ _ _ Hm Hwp Hnf') as (p & -> & _ & Hl & _).
    subst o.
    assert (sched st' `suffix_of` sched st) as Hs.
    { unfold noexcept in Hm. unfold wp in Hwp.
      destruct (m st) as [[q| |] st1]; [|done..].
      injection Hm as _ <-. by destruct Hwp. }
    split_and!; done.
  - (* Insert(pos, const T&) *)
    apply run_discard in Hrun as (o' & Hm & Ho').
    eapply effects_discard; [exact Ho'|].
    eapply Vector_Emplace_effects; [done..|]. by intros ->.
  - (* Insert(pos, T&&) *)
    apply run_discard in Hrun as (o' & Hm & Ho').
    eapply effects_discard; [exact Ho'|].
    eapply Vector_Emplace_effects; [done..|]. by intros ->.
  - (* Reserve *)
    destruct (objs st !! this) as [v|] eqn:Hv.
    2:{ unfold Vector_Reserve in Hrun.
        rewrite (bind_fault _ _ st st (get_obj_fault _ _ Hv)) in Hrun.
        by injection Hrun as <- _. }
    destruct (Hwf _ _ Hv) as [xs Hr].
    eapply (effects_of_wp _ _ _ _ _ _ false
              (wp_Vector_Reserve st this v xs new_capacity Hv Hr) Hrun).
    + intros _ [[_ ->]|(_ & Hl & _)]; done.
    + by intros (_ & Hl & _) _.
  - (* Resize *)
    destruct (objs st !! this) as [v|] eqn:Hv.
    2:{ unfold Vector_Resize in Hrun.
        rewrite (bind_fault _ _ st st (get_obj_fault _ _ Hv)) in Hrun.
        by injection Hrun as <- _. }
    destruct (Hwf _ _ Hv) as [xs Hr].
    eapply (effects_of_wp _ _ _ _ _ _ false
              (wp_Vector_Resize st this v xs new_size Hv Hr) Hrun).
    + by intros _ (Hl & _).
    + by intros (_ & Hl & _) _.
  - (* PushBack *)
    unfold Vector_PushBack in Hrun.
    apply run_discard in Hrun as (o' & Hm & Ho').
    eapply effects_discard; [exact Ho'|].
    eapply Vector_EmplaceBack_effects; [done..|]. by intros ->.
  - (* EmplaceBack *)
    apply run_discard in Hrun as (o' & Hm & Ho').
    eapply effects_discard; [exact Ho'|].
    eapply Vector_EmplaceBack_effects; [done..|]. by intros ->.
  - (* PopBack *)
    destruct (objs st !! this) as [v|] eqn:Hv.
    2:{ unfold Vector_PopBack in Hrun.
        rewrite (noexcept_fault _ st st) in Hrun; [by injection Hrun as <- _|].
        apply bind_fault. by apply get_obj_fault. }
    destruct (Hwf _ _ Hv) as [xs Hr].
    eapply (effects_of_wp _ _ _ _ _ _ false (wp_Vector_PopBack st this v xs Hv Hr) Hrun).
    + by intros _ (_ & Hl & _).
    + done.
  - (* Size *)
    apply run_discard in Hrun as (o' & Hm & Ho').
    destruct (objs st !! this) as [v|] eqn:Hv.
    + unfold Vector_Size in Hm. rewrite bind_run, (get_obj_run _ _ _ Hv) in Hm.
      injection Hm as <- <-. subst o. by apply effects_same.
    + unfold Vector_Size in Hm.
      rewrite (bind_fault _ _ st st (get_obj_fault _ _ Hv)) in Hm.
      injection Hm as <- _. done.
  - (* Capacity *)
    apply run_discard in Hrun as (o' & Hm & Ho').
    destruct (objs st !! this) as [v|] eqn:Hv.
    + unfold Vector_Capacity in Hm. rewrite bind_run, (get_obj_run _ _ _ Hv) in Hm.
      injection Hm as <- <-. subst o. by apply effects_same.
    + unfold Vector_Capacity in Hm.
      rewrite (bind_fault _ _ st st (get_obj_fault _ _ Hv)) in Hm.
      injection Hm as <- _. done.
  - (* operator[] *)
    apply run_discard in Hrun as (o' & Hm & Ho').
    destruct (objs st !! this) as [v|] eqn:Hv.
    2:{ unfold Vector_read, Vector_index in Hm.
        rewrite (bind_fault _ _ st st) in Hm; [injection Hm as <- _; done|].
        apply bind_fault. by apply get_obj_fault. }
    destruct (decide (index < size_ v)) as [Hi|Hi].
    2:{ rewrite (Vector_Index_fault _ _ _ _ Hv Hi) in Hm. injection Hm as <- _. done. }
    destruct (Hwf _ _ Hv) as [xs Hr].
    pose proof (wp_run _ _ _ _ _ _ (wp_Vector_read st this v xs index Hv Hr Hi) Hm) as Hpost.
    destruct o'; [|done|done]. destruct Hpost as [-> _]. subst o. by apply effects_same.
Qed.

(** Property X19.  In a state reached with every size argument in range
    and without a constructor of a new element throwing in the in-place
    branch of [Emplace] before the end, a call with a defined result and a
    size argument in range releases no block with an object alive in it,
    unless the call is one of [Emplace], [Insert], [PushBack] and
    [EmplaceBack] and it throws; and after the call every allocated block
    is the buffer of a vector object. *)
Theorem run_op_leaks_only_when_insertion_throws c st o st' :
  reachable_in_range st → in_range c → run_op c st = (o, st') → o ≠ Fault →
  (o = Throw → adds_element c = false) →
  leaked st' = leaked st ∧ blocks_owned st'.
Proof.
  intros Hst _ Hrun Hnf Hc.
  pose proof (reachable_in_range_safe _ Hst) as Hsafe.
  split.
  - destruct (run_op_effects c st o st' (reachable_safe_state_ok _ Hsafe) Hrun Hnf)
      as (_ & _ & Hl).
    by apply Hl.
  - eapply run_op_blocks_owned;
      [by apply reachable_safe_state_ok|by apply reachable_safe_blocks_owned
      |exact Hrun|exact Hnf|].
    unfold new_element_threw_in_place.
    destruct (emplace_call c) as [[[this pos] ar]|] eqn:He; [|tauto].
    intros (v & st1 & _ & _ & _ & _ & _ & Hthrow).
    rewrite Hrun in Hthrow. simpl in Hthrow. specialize (Hc Hthrow).
    by destruct c.
Qed.

Lemma run_ops_quiet cs : ∀ st st',
  reachable_in_range st → true ∉ sched st → Forall in_range cs →
  run_ops cs st = Some st' →
  leaked st' = leaked st ∧ (true ∉ sched st') ∧ reachable_in_range st'.
Proof.
  induction cs as [|c cs IH]; intros st st' Hst Hq Hin Hrun; simpl in Hrun.
  - by injection Hrun as <-.
  - apply Forall_cons in Hin as [Hc Hcs].
    destruct (run_op c st) as [o st1] eqn:Hop.
    assert (o ≠ Fault) as Hnf.
    { intros ->. done. }
    pose proof (reachable_safe_state_ok _ (reachable_in_range_safe _ Hst)) as Hok.
    destruct (run_op_effects c st o st1 Hok Hop Hnf) as (Hs & Ht & Hl).
    assert (o ≠ Throw) as Hnt.
    { intros ->. by apply Hq, Ht. }
    assert (run_ops cs st1 = Some st') as Hrun' by (by destruct o).
    assert (true ∉ sched st1) as Hq1.
    { intros Hin. apply Hq. destruct Hs as [pre ->]. apply elem_of_app. by right. }
    assert (reachable_in_range st1) as Hst1.
    { eapply reachable_in_range_step; [exact Hst|exact Hop|exact Hnf|exact Hc|].
      unfold new_element_threw_in_place. destruct (emplace_call c) as [[[? ?] ?]|]; [|tauto].
      intros (v & st2 & _ & _ & _ & _ & _ & Hthrow). rewrite Hop in Hthrow. done. }
    destruct (IH st1 st' Hst1 Hq1 Hcs Hrun') as (Hl' & Hq' & Hst').
    split_and!; [|done..]. rewrite Hl'. apply Hl. by intros ->.
Qed.

(** Property X20.  A program in which nothing throws and every size
    argument is in range never leaks: after any sequence of calls with
    defined results, no block has been released with an object alive in
    it, every allocated block is the buffer of a vector object, and every
    vector object is well formed, with a buffer that no other vector
    has. *)
Theorem quiet_program_never_leaks cs s st' :
  true ∉ s → Forall in_range cs → run_ops cs (init_state s) = Some st' →
  leaked st' = [] ∧ blocks_owned st' ∧ state_ok st' ∧ (true ∉ sched st').
Proof.
  intros Hq Hin Hrun.
  destruct (run_ops_quiet cs (init_state s) st' (reachable_in_range_init s) Hq Hin Hrun)
    as (Hl & Hq' & Hst).
  pose proof (reachable_in_range_safe _ Hst) as Hsafe.
  split_and!; [done| | |done].
  - by apply reachable_safe_blocks_owned.
  - by apply reachable_safe_state_ok.
Qed.

(** Property X26.  In a state reached with every size argument in range
    and without a constructor of a new element throwing in the in-place
    branch of [Emplace] before the end, every allocated block is the buffer
    of exactly one vector object, and it holds the elements of that vector
    followed by raw slots up to its capacity: no block is without an
    owner. *)
Theorem reachable_block_has_one_owner st a b :
  reachable_in_range st → heap st !! a = Some b →
  ∃ this v xs,
    objs st !! this = Some v ∧ buffer_ (data_ v) = Some a ∧
    contents st this = Some xs ∧ b = vec_block (capacity_ (data_ v)) xs ∧
    ∀ other w, objs st !! other = Some w → buffer_ (data_ w) = Some a → other = this.
Proof.
  intros Hst Hab. pose proof (reachable_in_range_safe _ Hst) as Hsafe.
  destruct (reachable_safe_state_ok _ Hsafe) as [Hwf Hdis].
  destruct (reachable_safe_blocks_owned _ Hsafe _ _ Hab) as (this & v & Hv & Hva).
  destruct (Hwf _ _ Hv) as [xs Hr].
  exists this, v, xs. split_and!; try done.
  - by eapply contents_repr.
  - destruct Hr as [_ Hr]. rewrite Hva in Hr. destruct Hr as (_ & _ & Hb). congruence.
  - intros other w Hw Hwa. destruct (decide (other = this)) as [|Hne]; [done|].
    by destruct (Hdis this other v w a ltac:(congruence) Hv Hw Hva).
Qed.

(** Property X21.  Constructing an arena of [n] slots and destroying it
    never has an undefined result and leaves the heap as it was, whether
    the allocation succeeds or throws. *)
Theorem RawMemory_ctor_dtor_round_trip st n o st' :
  (r ← RawMemory_ctor n; RawMemory_dtor r) st = (o, st') →
  match o with
  | Ok _ | Throw => heap st' = heap st ∧ objs st' = objs st ∧ leaked st' = leaked st
  | Fault => False
  end.
Proof.
  intros Hrun.
  assert (wp (r ← RawMemory_ctor n; RawMemory_dtor r) st
            (λ _ st', heap st' = heap st ∧ objs st' = objs st ∧ leaked st' = leaked st)
            (λ st', heap st' = heap st ∧ objs st' = objs st ∧ leaked st' = leaked st))
    as Hwp.
  { apply wp_bind. apply wp_RawMemory_ctor.
    - intros _. apply (wp_RawMemory_dtor_raw _ None 0); [done|]. done.
    - intros Hn s a Ha.
      apply (wp_RawMemory_dtor_raw _ (Some a) n); simpl.
      + by rewrite lookup_insert_eq.
      + split_and!; [|done..]. rewrite delete_insert_eq. by apply delete_id.
    - intros Hn s. done. }
  pose proof (wp_run _ _ _ _ _ _ Hwp Hrun) as H. by destruct o.
Qed.

(** Property X22.  [RawMemory(n)] with a byte count of [n] below 2^64 never
    has an undefined result.  When it returns, the capacity is [n] and the
    buffer is null exactly when [n] is zero; for [n] above zero the buffer
    is a new block of [n] uninitialised slots.  It only throws for [n]
    above zero, and then the heap is unchanged. *)
Theorem RawMemory_ctor_outcome st n o st' :
  fits n →
  RawMemory_ctor n st = (o, st') →
  match o with
  | Ok r =>
      capacity_ r = n ∧ RawMemory_invariant r ∧
      objs st' = objs st ∧ leaked st' = leaked st ∧
      match buffer_ r with
      | None => heap st' = heap st
      | Some a => heap st !! a = None ∧ heap st' = <[a := replicate n Raw]> (heap st)
      end
  | Throw => n ≠ 0 ∧ heap st' = heap st ∧ objs st' = objs st ∧ leaked st' = leaked st
  | Fault => False
  end.
Proof.
  intros _ Hrun.
  assert (wp (RawMemory_ctor n) st
            (λ r st', capacity_ r = n ∧ RawMemory_invariant r ∧
               objs st' = objs st ∧ leaked st' = leaked st ∧
               match buffer_ r with
               | None => heap st' = heap st
               | Some a => heap st !! a = None ∧ heap st' = <[a := replicate n Raw]> (heap st)
               end)
            (λ st', n ≠ 0 ∧ heap st' = heap st ∧ objs st' = objs st ∧ leaked st' = leaked st))
    as Hwp.
  { apply wp_RawMemory_ctor.
    - intros ->. split_and!; try done.
    - intros Hn s a Ha. split_and!; try done.
    - intros Hn s. done. }
  pose proof (wp_run _ _ _ _ _ _ Hwp Hrun) as H. by destruct o.
Qed.

End Leaks.

(** Property X23.  The move constructor of [RawMemory] gives the new arena
    the buffer and the capacity of the source, leaves the source with a
    null buffer and capacity zero, and changes no other arena. *)
Theorem RawMemory_move_transfers (σ : gmap nat RawMemory) self other r :
  σ !! self = None → σ !! other = Some r → RawMemory_invariant r →
  ∃ σ', RawMemory_move self other σ = Some σ' ∧
        σ' !! self = Some r ∧
        σ' !! other = Some RawMemory_default ∧
        (∀ k, k ≠ self → k ≠ other → σ' !! k = σ !! k) ∧
        RawMemory_invariant RawMemory_default.
Proof.
  intros Hs Ho Hr. assert (self ≠ other) as Hne by congruence.
  eexists. split; [by apply RawMemory_move_run|]. split_and!.
  - by rewrite lookup_insert_ne, lookup_insert_eq by done.
  - by rewrite lookup_insert_eq.
  - intros k Hk1 Hk2. by rewrite !lookup_insert_ne by done.
  - done.
Qed.

Section Frame.
Context {T : Type} `{ET : Elem T}.
Implicit Types (st : state T) (h : gmap nat (list (slot T))) (xs ys ws : list T) (v : Vector).









End Frame.

(** * The further properties at the examples *)

Lemma abc_state_safe : reachable_safe (ET:=string_elem) abc_state.
Proof.
  apply (run_ops_reachable_safe (ET:=string_elem) abc_program
           ltac:(repeat constructor) (init_state []) abc_state).
  - apply reachable_safe_init.
  - exact abc_state_run.
Qed.

Lemma two_vectors_safe : reachable_safe (ET:=string_elem) two_vectors.
Proof.
  apply (run_ops_reachable_safe (ET:=string_elem) two_vectors_program
           ltac:(repeat constructor) (init_state []) two_vectors).
  - apply reachable_safe_init.
  - by vm_compute.
Qed.

Lemma abc_state_in_range : reachable_in_range (ET:=string_elem) abc_state.
Proof.
  apply (run_ops_reachable_in_range (ET:=string_elem) abc_program
           ltac:(repeat constructor) (init_state []) abc_state).
  - apply reachable_in_range_init.
  - exact abc_state_run.
Qed.

Lemma two_vectors_in_range : reachable_in_range (ET:=string_elem) two_vectors.
Proof.
  apply (run_ops_reachable_in_range (ET:=string_elem) two_vectors_program
           ltac:(repeat constructor) (init_state []) two_vectors).
  - apply reachable_in_range_init.
  - by vm_compute.
Qed.

Lemma abc_state_object :
  objs abc_state !! 0 = Some (mkVector (mkRawMemory (Some 2) 4) 3).
Proof. by vm_compute. Qed.

Lemma int_state_object :
  objs int_state !! 0 = Some (mkVector (mkRawMemory (Some 2) 4) 3).
Proof. by vm_compute. Qed.

Lemma int_state_repr :
  vec_repr (heap int_state) (mkVector (mkRawMemory (Some 2) 4) 3) [1; 2; 3].
Proof. unfold vec_repr. simpl. split_and!; [done|lia|lia|by vm_compute]. Qed.

Lemma two_vectors_repr :
  vec_repr (heap two_vectors) (mkVector (mkRawMemory (Some 2) 2) 2) ["b"; "c"].
Proof. unfold vec_repr. simpl. split_and!; [done|lia|lia|by vm_compute]. Qed.

Lemma full_state_repr :
  vec_repr (heap full_state) (mkVector (mkRawMemory (Some 1) 2) 2) [1; 2].
Proof. unfold vec_repr. simpl. split_and!; [done|lia|lia|by vm_compute]. Qed.

Lemma Vector_sized_outcome_witness :
  fits (ET:=string_elem) 2 ∧
  ∃ st', Vector_sized (ET:=string_elem) 1 2 abc_state = (Ok tt, st') ∧
         contents st' 1 = Some [EmptyString; EmptyString] ∧
         leaked st' = leaked abc_state.
Proof.
  assert (fits (ET:=string_elem) 2) as Hfits by (vm_compute; reflexivity).
  split; [exact Hfits|].
  assert (∃ st', Vector_sized (ET:=string_elem) 1 2 abc_state = (Ok tt, st'))
    as [st' Hrun] by (eexists; by vm_compute).
  exists st'. split; [exact Hrun|].
  pose proof (Vector_sized_outcome (ET:=string_elem) abc_state 1 2 (Ok tt) st'
                Hfits ltac:(by vm_compute) Hrun) as (Hc & _ & Hl & _).
  exact (conj Hc Hl).
Defined.

Lemma Vector_copy_outcome_witness :
  ∃ st', Vector_copy 1 0 abc_state = (Ok tt, st') ∧
         contents st' 1 = Some ["a"; "b"; "c"] ∧
         contents st' 0 = Some ["a"; "b"; "c"].
Proof.
  assert (∃ st', Vector_copy 1 0 abc_state = (Ok tt, st'))
    as [st' Hrun] by (eexists; by vm_compute).
  exists st'. split; [exact Hrun|].
  pose proof (Vector_copy_outcome abc_state 1 0 _ _ (Ok tt) st'
                ltac:(by vm_compute) abc_state_object abc_state_repr Hrun)
    as (Hc & Hc' & _).
  exact (conj Hc Hc').
Defined.

Lemma Vector_dtor_releases_witness :
  Vector_dtor 0 abc_state =
    (Ok tt, mkState (delete 2 (heap abc_state)) (delete 0 (objs abc_state))
                    (sched abc_state) (leaked abc_state)).
Proof.
  exact (Vector_dtor_releases abc_state 0 _ _ abc_state_object abc_state_repr).
Defined.

Lemma Vector_copy_assign_outcome_witness :
  ∃ st', Vector_copy_assign 0 1 two_vectors = (Ok tt, st') ∧
         contents st' 0 = contents two_vectors 1 ∧
         contents st' 1 = contents two_vectors 1 ∧
         leaked st' = leaked two_vectors ∧
         ∃ v' xr, heap st' =
                    heap_after (heap two_vectors) (mkVector (mkRawMemory (Some 0) 1) 1) v' xr.
Proof.
  assert (∃ st', Vector_copy_assign 0 1 two_vectors = (Ok tt, st'))
    as [st' Hrun] by (eexists; by vm_compute).
  exists st'. split; [exact Hrun|].
  pose proof (Vector_copy_assign_outcome two_vectors 0 1
                (mkVector (mkRawMemory (Some 0) 1) 1)
                (mkVector (mkRawMemory (Some 2) 2) 2) (Ok tt) st'
                (reachable_safe_state_ok _ two_vectors_safe)
                ltac:(lia) ltac:(by vm_compute) ltac:(by vm_compute) Hrun)
    as (Hc & Hc' & Hl & v' & xr & _ & _ & _ & _ & Hh).
  refine (conj Hc (conj Hc' (conj Hl _))). exists v', xr. exact Hh.
Defined.

Lemma Vector_Reserve_grows_witness :
  fits (ET:=string_elem) 10 ∧
  ∃ st' a, Vector_Reserve (ET:=string_elem) 0 10 abc_state = (Ok tt, st') ∧
           contents st' 0 = Some ["a"; "b"; "c"] ∧
           Vector_Capacity 0 st' = (Ok 10, st') ∧
           leaked st' = leaked abc_state ∧
           heap abc_state !! a = None ∧
           heap st' =
             heap_after (heap abc_state) (mkVector (mkRawMemory (Some 2) 4) 3)
               (mkVector (mkRawMemory (Some a) 10) 3) ["a"; "b"; "c"].
Proof.
  assert (fits (ET:=string_elem) 10) as Hfits by (vm_compute; reflexivity).
  split; [exact Hfits|].
  assert (∃ st', Vector_Reserve (ET:=string_elem) 0 10 abc_state = (Ok tt, st'))
    as [st' Hrun] by (eexists; by vm_compute).
  pose proof (Vector_Reserve_grows (ET:=string_elem) abc_state 0 _ _ 10 (Ok tt) st'
                Hfits abc_state_object abc_state_repr ltac:(simpl; lia) Hrun)
    as ((a & Ha & Ho & Hh) & Hc & Hl).
  exists st', a. split; [exact Hrun|]. split; [exact Hc|]. split.
  - apply (Vector_Capacity_run st' 0 (mkVector (mkRawMemory (Some a) 10) 3)).
    rewrite Ho. apply lookup_insert_eq.
  - exact (conj Hl (conj Ha Hh)).
Defined.

Lemma Vector_Resize_outcome_witness :
  fits (ET:=string_elem) 5 ∧
  ∃ st', Vector_Resize (ET:=string_elem) 0 5 abc_state = (Ok tt, st') ∧
         contents st' 0 = Some ["a"; "b"; "c"; EmptyString; EmptyString] ∧
         leaked st' = leaked abc_state.
Proof.
  assert (fits (ET:=string_elem) 5) as Hfits by (vm_compute; reflexivity).
  split; [exact Hfits|].
  assert (∃ st', Vector_Resize (ET:=string_elem) 0 5 abc_state = (Ok tt, st'))
    as [st' Hrun] by (eexists; by vm_compute).
  exists st'. split; [exact Hrun|].
  pose proof (Vector_Resize_outcome (ET:=string_elem) abc_state 0 _ _ 5 (Ok tt) st'
                Hfits abc_state_object abc_state_repr Hrun) as (Hc & _ & Hl).
  exact (conj Hc Hl).
Defined.

Lemma Vector_PopBack_removes_last_witness :
  ∃ st', Vector_PopBack 0 abc_state = (Ok tt, st') ∧
         contents st' 0 = Some ["a"; "b"].
Proof.
  destruct (Vector_PopBack_removes_last abc_state 0 _ _ abc_state_object abc_state_repr)
    as (st' & Hrun & Hc & _).
  exists st'. exact (conj Hrun Hc).
Defined.

Lemma Vector_PushBack_PopBack_round_trip_witness :
  ∃ st1 st2,
    Vector_PushBack (ET:=string_elem) 0 (ByArgs "d") abc_state = (Ok tt, st1) ∧
    contents st1 0 = Some ["a"; "b"; "c"; "d"] ∧
    Vector_PopBack 0 st1 = (Ok tt, st2) ∧
    contents st2 0 = Some ["a"; "b"; "c"].
Proof.
  destruct (Vector_PushBack_PopBack_round_trip (ET:=string_elem) abc_state 0 _
              ["a"; "b"; "c"] (ByArgs "d") abc_state_object abc_state_repr
              (not_elem_of_nil true))
    as (st1 & st2 & H1 & H2 & H3 & H4).
  exists st1, st2. exact (conj H1 (conj H2 (conj H3 H4))).
Defined.

Lemma Vector_EmplaceBack_strong_guarantee_witness :
  ∃ st', Vector_EmplaceBack (ET:=legacy_elem) 0 (ByCopy 9) full_state = (Throw, st') ∧
         objs st' = objs full_state ∧ contents st' 0 = Some [1; 2].
Proof.
  assert (∃ st', Vector_EmplaceBack (ET:=legacy_elem) 0 (ByCopy 9) full_state = (Throw, st'))
    as [st' Hrun] by (eexists; by vm_compute).
  exists st'. split; [exact Hrun|].
  exact (Vector_EmplaceBack_strong_guarantee (ET:=legacy_elem) full_state 0 _ [1; 2]
           (ByCopy 9) st' ltac:(by vm_compute) full_state_repr eq_refl Hrun).
Defined.

Lemma Vector_Emplace_reallocating_witness :
  ∃ p st' a,
    Vector_Emplace (ET:=string_elem) 1 (At 2 1) (ByArgs "x") two_vectors = (Ok p, st') ∧
    contents st' 1 = Some ["b"; "x"; "c"] ∧
    leaked st' = leaked two_vectors ∧
    heap two_vectors !! a = None ∧
    heap st' = <[a := vec_block 4 ["b"; "x"; "c"]]> (delete 2 (heap two_vectors)).
Proof.
  assert (∃ p st', Vector_Emplace (ET:=string_elem) 1 (At 2 1) (ByArgs "x") two_vectors
                   = (Ok p, st'))
    as (p & st' & Hrun) by (do 2 eexists; by vm_compute).
  pose proof (Vector_Emplace_reallocating (ET:=string_elem) two_vectors 1 _ _ (At 2 1)
                (ByArgs "x") p st' ltac:(by vm_compute) two_vectors_repr eq_refl eq_refl Hrun)
    as (Hc & Hl & v' & _ & _ & Hcap & _ & _ & a & _ & Ha & Hh).
  exists p, st', a. split; [exact Hrun|]. split; [exact Hc|]. split; [exact Hl|].
  split; [exact Ha|]. rewrite Hcap in Hh. exact Hh.
Defined.

Lemma Vector_Emplace_in_place_witness :
  ("x" ∉ ["a"; "b"; "c"]) ∧
  ∃ p st', Vector_Emplace (ET:=string_elem) 0 (At 2 1) (ByArgs "x") abc_state = (Ok p, st') ∧
           p = At 2 1 ∧
           contents st' 0 = Some ["a"; "x"; "b"; EmptyString].
Proof.
  assert ("x" ∉ ["a"; "b"; "c"]) as Hx.
  { intros Hin. repeat (apply elem_of_cons in Hin as [Hin|Hin]; [discriminate|]).
    by apply elem_of_nil in Hin. }
  split; [exact Hx|].
  assert (∃ p st', Vector_Emplace (ET:=string_elem) 0 (At 2 1) (ByArgs "x") abc_state
                   = (Ok p, st'))
    as (p & st' & Hrun) by (do 2 eexists; by vm_compute).
  exists p, st'. split; [exact Hrun|].
  pose proof (Vector_Emplace_in_place (ET:=string_elem) abc_state 0 _ _ (At 2 1)
                (ByArgs "x") p st' abc_state_object abc_state_repr
                ltac:(simpl; lia) eq_refl Hx Hrun)
    as (Hp & _ & Hc & _).
  exact (conj Hp Hc).
Defined.

Lemma Vector_Insert_ref_in_place_witness :
  ∃ p st', Vector_Insert_ref (ET:=string_elem) 0 (At 2 0) (At 2 2) abc_state = (Ok p, st') ∧
           p = At 2 0 ∧
           contents st' 0 = Some ["b"; "a"; "b"; EmptyString].
Proof.
  assert (∃ p st', Vector_Insert_ref (ET:=string_elem) 0 (At 2 0) (At 2 2) abc_state
                   = (Ok p, st'))
    as (p & st' & Hrun) by (do 2 eexists; by vm_compute).
  exists p, st'. split; [exact Hrun|].
  pose proof (Vector_Insert_ref_in_place (ET:=string_elem) abc_state 0 _ _ (At 2 0) 2 p st'
                abc_state_object abc_state_repr
                ltac:(simpl; lia) eq_refl ltac:(simpl; lia) Hrun)
    as (Hp & _ & _ & y & Hy & _ & Hc).
  simpl in Hy. injection Hy as <-. exact (conj Hp Hc).
Defined.

Lemma Vector_Erase_result_witness :
  (∃ p st', Vector_Erase (ET:=string_elem) 0 (At 2 0) abc_state = (Ok p, st') ∧
            p = At 2 0 ∧
            contents st' 0 = Some ["c"; EmptyString]) ∧
  (∃ p st', Vector_Erase (ET:=int_elem) 0 (At 2 0) int_state = (Ok p, st') ∧
            p = At 2 0 ∧
            contents st' 0 = Some [2; 3]).
Proof.
  split.
  - assert (∃ p st', Vector_Erase (ET:=string_elem) 0 (At 2 0) abc_state = (Ok p, st'))
      as (p & st' & Hrun) by (do 2 eexists; by vm_compute).
    exists p, st'. split; [exact Hrun|].
    pose proof (Vector_Erase_result (ET:=string_elem) abc_state 0 _ _ (At 2 0) p st'
                  abc_state_object abc_state_repr Hrun)
      as (Hp & _ & _ & y & Hy & Hc & _).
    simpl in Hy. injection Hy as <-. exact (conj Hp Hc).
  - assert (∃ p st', Vector_Erase (ET:=int_elem) 0 (At 2 0) int_state = (Ok p, st'))
      as (p & st' & Hrun) by (do 2 eexists; by vm_compute).
    exists p, st'. split; [exact Hrun|].
    pose proof (Vector_Erase_result (ET:=int_elem) int_state 0 _ _ (At 2 0) p st'
                  int_state_object int_state_repr Hrun)
      as (Hp & _ & _ & y & _ & Hc & _).
    exact (conj Hp Hc).
Defined.

Lemma Vector_read_bounds_witness :
  Vector_read 0 1 abc_state = (Ok "b", abc_state) ∧
  Vector_read 0 3 abc_state = (Fault, abc_state).
Proof.
  destruct (Vector_read_bounds abc_state 0 _ _ abc_state_object abc_state_repr)
    as [Hin Hout].
  split.
  - apply Hin. reflexivity.
  - apply Hout. simpl. lia.
Defined.

Lemma Vector_position_asserts_witness :
  Vector_Erase (ET:=string_elem) 0 (At 2 3) abc_state = (Fault, abc_state) ∧
  Vector_Emplace (ET:=string_elem) 0 (At 2 4) (ByArgs "x") abc_state = (Fault, abc_state).
Proof.
  destruct (Vector_position_asserts (ET:=string_elem) abc_state 0 _ abc_state_object)
    as (Hemplace & _ & Hend & _).
  split.
  - exact Hend.
  - apply Hemplace. reflexivity.
Defined.

Lemma reachable_safe_no_shared_buffer_witness :
  Some 2 ≠ Some 0 ∧ is_Some (heap two_vectors !! 0).
Proof.
  apply (reachable_safe_no_shared_buffer (ET:=string_elem) two_vectors 0 1
           (mkVector (mkRawMemory (Some 0) 1) 1)
           (mkVector (mkRawMemory (Some 2) 2) 2) 0 two_vectors_safe).
  - lia.
  - by vm_compute.
  - by vm_compute.
  - reflexivity.
Defined.

Lemma Vector_Swap_involutive_witness :
  (Vector_Swap 0 1;; Vector_Swap 0 1) two_vectors = (Ok tt, two_vectors) ∧
  Vector_Swap 0 1 two_vectors = Vector_Swap 1 0 two_vectors.
Proof.
  apply (Vector_Swap_involutive two_vectors 0 1
           (mkVector (mkRawMemory (Some 0) 1) 1)
           (mkVector (mkRawMemory (Some 2) 2) 2)); by vm_compute.
Defined.

Lemma reachable_safe_arena_invariant_witness :
  RawMemory_invariant (mkRawMemory (Some 2) 4) ∧
  Vector_begin 0 abc_state = (Ok (At 2 0), abc_state) ∧
  Vector_end 0 abc_state = (Ok (At 2 3), abc_state).
Proof.
  destruct (reachable_safe_arena_invariant (ET:=string_elem) abc_state 0 _
              abc_state_safe abc_state_object) as (Hinv & Hb & He & _).
  exact (conj Hinv (conj Hb He)).
Defined.

Lemma Vector_EmplaceBack_with_spare_capacity_witness :
  ∃ st', Vector_EmplaceBack (ET:=string_elem) 0 (ByArgs "d") abc_state = (Ok (At 2 3), st') ∧
         contents st' 0 = Some ["a"; "b"; "c"; "d"].
Proof.
  assert (∃ st', Vector_EmplaceBack (ET:=string_elem) 0 (ByArgs "d") abc_state
                 = (Ok (At 2 3), st'))
    as [st' Hrun] by (eexists; by vm_compute).
  exists st'. split; [exact Hrun|].
  pose proof (Vector_EmplaceBack_with_spare_capacity (ET:=string_elem) abc_state 0 _ _
                (ByArgs "d") _ st' abc_state_object abc_state_repr ltac:(simpl; lia) Hrun)
    as (_ & _ & Hc & _).
  exact Hc.
Defined.

Lemma run_op_leaks_only_when_insertion_throws_witness :
  in_range (ET:=string_elem) (OpReserve 0 10) ∧
  ∃ st', run_op (ET:=string_elem) (OpReserve 0 10) abc_state = (Ok tt, st') ∧
         Vector_Capacity 0 st' = (Ok 10, st') ∧
         leaked st' = leaked abc_state ∧ blocks_owned st'.
Proof.
  assert (in_range (ET:=string_elem) (OpReserve 0 10)) as Hin by (vm_compute; reflexivity).
  split; [exact Hin|].
  assert (∃ st', run_op (ET:=string_elem) (OpReserve 0 10) abc_state = (Ok tt, st') ∧
                 Vector_Capacity 0 st' = (Ok 10, st'))
    as (st' & Hrun & Hcap) by (eexists; by vm_compute).
  exists st'. split; [exact Hrun|]. split; [exact Hcap|].
  exact (run_op_leaks_only_when_insertion_throws (ET:=string_elem) (OpReserve 0 10)
           abc_state (Ok tt) st' abc_state_in_range Hin Hrun
           ltac:(discriminate) ltac:(discriminate)).
Defined.

Lemma quiet_program_never_leaks_witness :
  Forall (in_range (ET:=string_elem)) sized_program ∧
  leaked sized_state = [] ∧ blocks_owned sized_state ∧
  state_ok sized_state ∧ (true ∉ sched sized_state).
Proof.
  assert (Forall (in_range (ET:=string_elem)) sized_program) as Hin
    by (repeat constructor; vm_compute; reflexivity).
  split; [exact Hin|].
  apply (quiet_program_never_leaks (ET:=string_elem) sized_program [] sized_state).
  - apply not_elem_of_nil.
  - exact Hin.
  - by vm_compute.
Defined.

Lemma reachable_block_has_one_owner_witness :
  ∃ this v xs,
    objs two_vectors !! this = Some v ∧ buffer_ (data_ v) = Some 2 ∧
    contents two_vectors this = Some xs ∧
    [Live "b"; Live "c"] = vec_block (capacity_ (data_ v)) xs.
Proof.
  destruct (reachable_block_has_one_owner (ET:=string_elem) two_vectors 2
              [Live "b"; Live "c"] two_vectors_in_range ltac:(by vm_compute))
    as (this & v & xs & Hv & Hva & Hc & Hb & _).
  exists this, v, xs. exact (conj Hv (conj Hva (conj Hc Hb))).
Defined.

Lemma RawMemory_ctor_dtor_round_trip_witness :
  ∃ st', (r ← RawMemory_ctor 3; RawMemory_dtor r) (init_state (T:=string) []) = (Ok tt, st') ∧
         heap st' = ∅.
Proof.
  assert (∃ st', (r ← RawMemory_ctor 3; RawMemory_dtor r) (init_state (T:=string) [])
                 = (Ok tt, st'))
    as [st' Hrun] by (eexists; by vm_compute).
  exists st'. split; [exact Hrun|].
  pose proof (RawMemory_ctor_dtor_round_trip (init_state (T:=string) []) 3 (Ok tt) st' Hrun)
    as (Hh & _).
  exact Hh.
Defined.

Lemma RawMemory_ctor_outcome_witness :
  fits (ET:=string_elem) 3 ∧
  ∃ r st', RawMemory_ctor 3 (init_state (T:=string) []) = (Ok r, st') ∧
           capacity_ r = 3 ∧ RawMemory_invariant r.
Proof.
  assert (fits (ET:=string_elem) 3) as Hfits by (vm_compute; reflexivity).
  split; [exact Hfits|].
  assert (∃ r st', RawMemory_ctor 3 (init_state (T:=string) []) = (Ok r, st'))
    as (r & st' & Hrun) by (do 2 eexists; by vm_compute).
  exists r, st'. split; [exact Hrun|].
  pose proof (RawMemory_ctor_outcome (ET:=string_elem) (init_state (T:=string) []) 3
                (Ok r) st' Hfits Hrun)
    as (Hcap & Hinv & _).
  exact (conj Hcap Hinv).
Defined.

Lemma RawMemory_move_transfers_witness :
  ∃ σ', RawMemory_move 2 1 arena_store = Some σ' ∧
        σ' !! 2 = Some (mkRawMemory (Some 11) 3) ∧
        σ' !! 1 = Some RawMemory_default.
Proof.
  destruct (RawMemory_move_transfers arena_store 2 1 (mkRawMemory (Some 11) 3))
    as (σ' & Hrun & Hs & Ho & _).
  - by vm_compute.
  - by vm_compute.
  - by split.
  - exists σ'. exact (conj Hrun (conj Hs Ho)).
Defined.

